(** * FML: distributed in-place mesh, halo exchange, particle/grid transfer

    A shallow embedding of
      - FFTWGrid/FFTWGrid.h                      (namespace FML::GRID)
      - Interpolation/ParticleGridInterpolation.h (namespace FML::INTERPOLATION)
      - FML/FriendsOfFriends/FoFBinning.h        (namespace FML::FOF)

    Conventions of the embedding.
      - [int], [ptrdiff_t], [size_t], [IndexIntType] are integers of [Z]
        (counters that only count are [nat]).  Signed overflow is undefined
        behaviour in C++, the embedding is the behaviour inside the range.
        For the 64-bit types the range is taken for granted.  For [int] it
        is not: where the source evaluates an expression in [int], or stores
        a wider value in an [int], a predicate [..._in_int] beside the
        function lists these values, the theorems on the function assume a
        bound on the size of the grid and prove the predicate from it, and
        [wrap_int] gives the value a 32-bit machine keeps otherwise.
        C++ [/] and [%] truncate toward zero: [Z.quot] and [Z.rem].
      - [double] / [FloatType] is the exact rational field [Q]; the results
        below are statements of exact arithmetic, equality of values is [==].
        A test on a value that the code has rounded can fall on the other
        side in the code; the theorems that turn on such a test are stated
        for the inputs on which the arithmetic of the code is exact.
        [(int) x] truncates toward zero.  Division by zero, which yields an
        infinity or a NaN in IEEE arithmetic, is [0] in [Q].
      - The backing store [fourier_grid_raw] is seen through its real view
        (the [reinterpret_cast<FloatType*>] of the code): a memory indexed by
        the offset, in reals, from [fourier_grid_raw.data()].  Complex cell
        [k] is the pair of reals [2k], [2k+1].  Pointers into the store are
        offsets.  The allocation is the offsets [0 .. NmeshTotRealAlloc-1];
        the code never checks an offset against it unless
        BOUNDSCHECK_FFTWGRID is set.  A load or a store at another offset is
        out of bounds, undefined behaviour in C++; the memory of the
        embedding is total, so that a theorem can say at which offsets the
        code loads and stores, inside the allocation or outside.
      - [assert_mpi] and [assert] abort: a computation returns a [result]. *)

From Stdlib Require Import ZArith QArith Qabs Qround List Bool String Lia Lqa.
Import ListNotations.

Local Open Scope Z_scope.

(** ** Aborting computations *)

Inductive result (A : Type) : Type :=
| Ok (a : A)
| AssertionFailed (msg : string).

Arguments Ok {A} a.
Arguments AssertionFailed {A} msg.

Definition bind {A B : Type} (m : result A) (f : A -> result B) : result B :=
  match m with
  | Ok a => f a
  | AssertionFailed msg => AssertionFailed msg
  end.

Notation "x <- m ;; k" := (bind m (fun x => k))
  (at level 61, m at next level, right associativity).
Notation "m ;;; k" := (bind m (fun _ => k))
  (at level 61, right associativity).

(** [assert_mpi(Expr, Msg)] of FML/Global/Global.h. *)
Definition assert_mpi (expr : bool) (msg : string) : result unit :=
  if expr then Ok tt else AssertionFailed msg.

(** A [for] loop whose body may abort. *)
Fixpoint for_each {A S : Type} (body : S -> A -> result S) (l : list A) (s : S)
  : result S :=
  match l with
  | [] => Ok s
  | a :: l' => s' <- body s a ;; for_each body l' s'
  end.

(** ** Compile-time defines *)

Record BuildFlags : Type := mkBuildFlags {
  USE_FFTW : bool;
  BOUNDSCHECK_FFTWGRID : bool;
  DEBUG_INTERPOL : bool;
  CELLCENTERSHIFTED : bool
}.

(** The configuration with every define off except the FFT engine. *)
Definition default_flags : BuildFlags :=
  {| USE_FFTW := true; BOUNDSCHECK_FFTWGRID := false;
     DEBUG_INTERPOL := false; CELLCENTERSHIFTED := false |}.

(** ** Numbers *)

Definition Qltb (x y : Q) : bool := negb (Qle_bool y x).

(** [(int) x] for a double [x]. *)
Definition to_int (x : Q) : Z := Qnum x ÷ Zpos (Qden x).

(** Modelled from the spec: [power] of FML/Global/Global.h is not among the
    sources; FFTWGrid.h declares it as
    [inline long long int power(int base, int exponent)], the integer power. *)
Definition power (base exponent : Z) : Z := base ^ exponent.

(** The range of [int], of 32 bits. *)
Definition INT_MAX : Z := 2147483647.
Definition INT_MIN : Z := - 2147483648.

(** The value [x] is representable in [int]: an [int] expression of this
    value does not overflow, and the conversion of [x] to [int] is [x]. *)
Definition in_int (x : Z) : Prop := INT_MIN <= x <= INT_MAX.

(** The [int] that a two's complement machine keeps of the value [x]. *)
Definition wrap_int (x : Z) : Z := (x - INT_MIN) mod 4294967296 + INT_MIN.

(** Memory of reals, by offset from [fourier_grid_raw.data()]. *)
Definition memory : Type := Z -> Q.

Definition store (m : memory) (a : Z) (v : Q) : memory :=
  fun b => if b =? a then v else m b.

(** [std::fill(begin, begin + n, val)]. *)
Definition fill (m : memory) (begin n : Z) (val : Q) : memory :=
  fun b => if (begin <=? b) && (b <? begin + n) then val else m b.


(** The integers [from, from+1, ..., from+len-1]. *)
Definition zseq (from : Z) (len : nat) : list Z :=
  map (fun k => from + Z.of_nat k) (seq 0 len).

(** The content of [n] cells from offset [a]. *)
Definition dump (m : memory) (a : Z) (n : nat) : list Q := map m (zseq a n).

Module GRID.

(** *** class FFTWGrid<N> *)

Record FFTWGrid : Type := mkFFTWGrid {
  fourier_grid_raw : memory;
  Nmesh : Z;
  Local_nx : Z;
  Local_x_start : Z;
  NmeshTotComplexAlloc : Z;
  NmeshTotRealAlloc : Z;
  NmeshTotComplex : Z;
  NmeshTotReal : Z;
  NmeshTotComplexSlice : Z;
  NmeshTotRealSlice : Z;
  n_extra_x_slices_left : Z;
  n_extra_x_slices_right : Z;
  grid_is_in_real_space : bool
}.

Definition with_memory (g : FFTWGrid) (m : memory) : FFTWGrid :=
  {| fourier_grid_raw := m;
     Nmesh := Nmesh g; Local_nx := Local_nx g; Local_x_start := Local_x_start g;
     NmeshTotComplexAlloc := NmeshTotComplexAlloc g;
     NmeshTotRealAlloc := NmeshTotRealAlloc g;
     NmeshTotComplex := NmeshTotComplex g;
     NmeshTotReal := NmeshTotReal g;
     NmeshTotComplexSlice := NmeshTotComplexSlice g;
     NmeshTotRealSlice := NmeshTotRealSlice g;
     n_extra_x_slices_left := n_extra_x_slices_left g;
     n_extra_x_slices_right := n_extra_x_slices_right g;
     grid_is_in_real_space := grid_is_in_real_space g |}.

Definition set_grid_status_real (g : FFTWGrid) (b : bool) : FFTWGrid :=
  {| fourier_grid_raw := fourier_grid_raw g;
     Nmesh := Nmesh g; Local_nx := Local_nx g; Local_x_start := Local_x_start g;
     NmeshTotComplexAlloc := NmeshTotComplexAlloc g;
     NmeshTotRealAlloc := NmeshTotRealAlloc g;
     NmeshTotComplex := NmeshTotComplex g;
     NmeshTotReal := NmeshTotReal g;
     NmeshTotComplexSlice := NmeshTotComplexSlice g;
     NmeshTotRealSlice := NmeshTotRealSlice g;
     n_extra_x_slices_left := n_extra_x_slices_left g;
     n_extra_x_slices_right := n_extra_x_slices_right g;
     grid_is_in_real_space := b |}.

Definition get_grid_status_real (g : FFTWGrid) : bool := grid_is_in_real_space g.

(** [FFTWGrid(Nmesh, n_extra_x_slices_left, n_extra_x_slices_right)] built
    without USE_MPI: one task owns the [Nmesh] slices.  [NmeshTotComplex] is
    the product of [NmeshPerDimFourier], which is [Nmesh] on every axis but
    the last, where it is [Nmesh/2+1].  The storage is filled with 0. *)
Definition FFTWGrid_new (N : nat) (_Nmesh nleft nright : Z) : FFTWGrid :=
  let tot_complex :=
    fold_left (fun acc i => acc * (if (i =? N - 1)%nat then _Nmesh ÷ 2 + 1 else _Nmesh))
              (seq 0 N) 1 in
  let local_nx := _Nmesh in
  let complex_slice := (_Nmesh ÷ 2 + 1) * power _Nmesh (Z.of_nat N - 2) in
  let complex_alloc := tot_complex + complex_slice * (nleft + nright) in
  {| fourier_grid_raw := fun _ => 0%Q;
     Nmesh := _Nmesh;
     Local_nx := local_nx;
     Local_x_start := 0;
     NmeshTotComplexAlloc := complex_alloc;
     NmeshTotRealAlloc := 2 * complex_alloc;
     NmeshTotComplex := tot_complex;
     NmeshTotReal := local_nx * power _Nmesh (Z.of_nat N - 1);
     NmeshTotComplexSlice := complex_slice;
     NmeshTotRealSlice := 2 * complex_slice;
     n_extra_x_slices_left := nleft;
     n_extra_x_slices_right := nright;
     grid_is_in_real_space := true |}.

(** The same constructor built with USE_MPI and without the FFTW library, on
    task [ThisTask] of [NTasks]. *)
Definition FFTWGrid_new_mpi (N : nat) (ThisTask NTasks : Z) (_Nmesh nleft nright : Z)
  : result FFTWGrid :=
  assert_mpi (1 <? Z.of_nat N)
    "[FFTWGrid] FFTW r2c and c2r with MPI currently not supported for 1D" ;;;
  assert_mpi (Z.rem _Nmesh NTasks =? 0)
    "[FFTWGrid] The number of CPUs should divide the gridsize" ;;;
  let local_nx := _Nmesh ÷ NTasks in
  let tot_complex := (_Nmesh ÷ 2 + 1) * power _Nmesh (Z.of_nat N - 1) ÷ NTasks in
  let complex_slice := (_Nmesh ÷ 2 + 1) * power _Nmesh (Z.of_nat N - 2) in
  let complex_alloc := tot_complex + complex_slice * (nleft + nright) in
  Ok {| fourier_grid_raw := fun _ => 0%Q;
        Nmesh := _Nmesh;
        Local_nx := local_nx;
        Local_x_start := ThisTask * local_nx;
        NmeshTotComplexAlloc := complex_alloc;
        NmeshTotRealAlloc := 2 * complex_alloc;
        NmeshTotComplex := tot_complex;
        NmeshTotReal := local_nx * power _Nmesh (Z.of_nat N - 1);
        NmeshTotComplexSlice := complex_slice;
        NmeshTotRealSlice := 2 * complex_slice;
        n_extra_x_slices_left := nleft;
        n_extra_x_slices_right := nright;
        grid_is_in_real_space := true |}.

(** Pointers to the parts of the grid, as offsets in the real view. *)
Definition get_real_grid_left (g : FFTWGrid) : Z := 0.

Definition get_real_grid (g : FFTWGrid) : Z :=
  get_real_grid_left g + NmeshTotRealSlice g * n_extra_x_slices_left g.

Definition get_real_grid_right (g : FFTWGrid) : Z :=
  get_real_grid_left g + NmeshTotRealSlice g * (n_extra_x_slices_left g + Local_nx g).

Definition get_real_grid_by_slice (flags : BuildFlags) (g : FFTWGrid) (slice : Z)
  : result Z :=
  (if BOUNDSCHECK_FFTWGRID flags then
     assert_mpi ((- n_extra_x_slices_left g <=? slice)
                 && (slice <? Local_nx g + n_extra_x_slices_right g))
       "[FFTWGrid::get_real_grid] Bounds check failed"
   else Ok tt) ;;;
  Ok (get_real_grid_left g + NmeshTotRealSlice g * (n_extra_x_slices_left g + slice)).

(** [get_fourier_grid()], in complex cells from [fourier_grid_raw.data()]. *)
Definition get_fourier_grid (g : FFTWGrid) : Z :=
  NmeshTotComplexSlice g * n_extra_x_slices_left g.

Definition get_n_extra_slices_left (g : FFTWGrid) : Z := n_extra_x_slices_left g.
Definition get_n_extra_slices_right (g : FFTWGrid) : Z := n_extra_x_slices_right g.
Definition get_nmesh (g : FFTWGrid) : Z := Nmesh g.
Definition get_local_nx (g : FFTWGrid) : Z := Local_nx g.
Definition get_local_x_start (g : FFTWGrid) : Z := Local_x_start g.
Definition get_ntot_real_slice_alloc (g : FFTWGrid) : Z := NmeshTotRealSlice g.

(** *** The range over the active real cells *)

(** [LoopIteratorReal]: the four fields are [int] in the source and
    integers here.  [it_in_int] says that the fields of an iterator are
    representable, [LoopIteratorReal_new_in_int] and [it_incr_in_int] that
    the constructor and [operator++] do not overflow. *)
Record LoopIteratorReal : Type := mkLoopIteratorReal {
  it_index : Z;
  it_real_index : Z;
  it_Nmesh : Z;
  it_odd : Z
}.

Definition LoopIteratorReal_new (_index _Nmesh : Z) : LoopIteratorReal :=
  {| it_real_index := _index + 2 * (_index ÷ _Nmesh);
     it_index := _index;
     it_Nmesh := _Nmesh;
     it_odd := Z.rem _Nmesh 2 |}.

(** [operator!=] *)
Definition it_neq (a other : LoopIteratorReal) : bool :=
  negb (it_index a =? it_index other).

(** [operator*] *)
Definition it_deref (a : LoopIteratorReal) : Z := it_real_index a.

(** [operator++] *)
Definition it_incr (a : LoopIteratorReal) : LoopIteratorReal :=
  let index := it_index a + 1 in
  let real_index :=
    if Z.rem index (it_Nmesh a) =? 0
    then it_real_index a + (if it_odd a =? 0 then 2 else 1)
    else it_real_index a in
  {| it_index := index;
     it_real_index := real_index + 1;
     it_Nmesh := it_Nmesh a;
     it_odd := it_odd a |}.

(** [RealRange(int _from, int _to, int _Nmesh)]: three [int] fields.
    [get_real_range] hands it [NmeshTotReal], a [ptrdiff_t]:
    [get_real_range_in_int] says that the value is not narrowed, and
    [range_for_in_int] that nothing overflows in a loop over the range. *)
Record RealRange : Type := mkRealRange {
  rr_from : Z;
  rr_to : Z;
  rr_Nmesh : Z
}.

Definition RealRange_begin (r : RealRange) : LoopIteratorReal :=
  LoopIteratorReal_new (rr_from r) (rr_Nmesh r).

Definition RealRange_end (r : RealRange) : LoopIteratorReal :=
  LoopIteratorReal_new (rr_to r) (rr_Nmesh r).

Definition get_real_range (g : FFTWGrid) : RealRange :=
  {| rr_from := 0; rr_to := NmeshTotReal g; rr_Nmesh := Nmesh g |}.

(** The values a range-based [for] visits: from [it], dereference and
    increment until [it != end_] fails; [None] when [fuel] steps do not reach
    [end_]. *)
Fixpoint range_for (fuel : nat) (it end_ : LoopIteratorReal) : option (list Z) :=
  if it_neq it end_ then
    match fuel with
    | O => None
    | S fuel' =>
        match range_for fuel' (it_incr it) end_ with
        | Some l => Some (it_deref it :: l)
        | None => None
        end
    end
  else Some [].

(** The value of the iterator after [n] increments. *)
Fixpoint it_advance (n : nat) (it : LoopIteratorReal) : LoopIteratorReal :=
  match n with
  | O => it
  | S n' => it_advance n' (it_incr it)
  end.

(** The range of the Fourier cells is the contiguous [from .. to-1]. *)
Definition get_fourier_range (N : nat) (g : FFTWGrid) : list Z :=
  zseq 0 (Z.to_nat (power (Nmesh g) (Z.of_nat N - 2) * (Nmesh g ÷ 2 + 1) * Local_nx g)).

(** *** Index algebra *)

(** [get_index_real_2d(i, j)] and [get_index_real_3d(i, j, k)].  The source
    evaluates the index in [int] and widens the value to [IndexIntType] on
    return; here it is the integer, and [get_index_real_2d_in_int] and
    [get_index_real_3d_in_int] say that no step of the evaluation leaves the
    range of [int]. *)
Definition get_index_real_2d (flags : BuildFlags) (N : nat) (g : FFTWGrid) (i j : Z)
  : result Z :=
  (if BOUNDSCHECK_FFTWGRID flags then
     assert_mpi ((- n_extra_x_slices_left g <=? i)
                 && (i <? Local_nx g + n_extra_x_slices_right g)
                 && (0 <=? j) && (j <? Nmesh g) && (N =? 2)%nat)
       "[FFTWGrid::get_index_real_2d] Bounds check failed"
   else Ok tt) ;;;
  Ok (i * 2 * (Nmesh g ÷ 2 + 1) + j).

Definition get_index_real_3d (flags : BuildFlags) (N : nat) (g : FFTWGrid) (i j k : Z)
  : result Z :=
  (if BOUNDSCHECK_FFTWGRID flags then
     assert_mpi ((- n_extra_x_slices_left g <=? i)
                 && (i <? Local_nx g + n_extra_x_slices_right g)
                 && (0 <=? j) && (j <? Nmesh g)
                 && (0 <=? k) && (k <? Nmesh g) && (N =? 3)%nat)
       "[FFTWGrid::get_index_real_3d] Bounds check failed"
   else Ok tt) ;;;
  Ok ((Nmesh g * i + j) * 2 * (Nmesh g ÷ 2 + 1) + k).

(** [coord[idim]] *)
Definition at_ (coord : list Z) (idim : nat) : Z := nth idim coord 0.

Definition get_index_real (flags : BuildFlags) (N : nat) (g : FFTWGrid) (coord : list Z)
  : result Z :=
  (if BOUNDSCHECK_FFTWGRID flags then
     assert_mpi (List.length coord =? N)%nat "[FFTWGrid::get_index_real] Coord has wrong size"
   else Ok tt) ;;;
  if (N =? 2)%nat then get_index_real_2d flags N g (at_ coord 0) (at_ coord 1)
  else if (N =? 3)%nat then
    get_index_real_3d flags N g (at_ coord 0) (at_ coord 1) (at_ coord 2)
  else
    (if BOUNDSCHECK_FFTWGRID flags then
       assert_mpi ((- n_extra_x_slices_left g <=? at_ coord 0)
                   && (at_ coord 0 <? Local_nx g + n_extra_x_slices_right g))
         "[FFTWGrid::get_index_real] Bounds check failed (first coordinate)" ;;;
       for_each (fun _ idim =>
                   assert_mpi ((0 <=? at_ coord idim) && (at_ coord idim <? Nmesh g))
                     "[FFTWGrid::get_index_real] Bounds check failed")
                (seq 1 (N - 1)) tt
     else Ok tt) ;;;
    let index := at_ coord 0 in
    let index :=
      fold_left (fun index idim => index * Nmesh g + at_ coord idim) (seq 1 (N - 2)) index in
    Ok (index * (2 * (Nmesh g ÷ 2 + 1)) + at_ coord (N - 1)).

(** [get_real], [set_real], [add_real]: the pointer [grid] of the code is
    [fourier_grid_raw.data()] moved by [NmeshTotRealSlice * n_extra_x_slices_left]
    reals, and the cell is [grid[index]].  The source makes no test of the
    address against the allocation: a load or a store outside
    [0 .. NmeshTotRealAlloc-1] is out of bounds there, and shows here as a
    load or a store of the memory of the embedding at that offset. *)
Definition real_cell_address (g : FFTWGrid) (index : Z) : Z :=
  NmeshTotRealSlice g * n_extra_x_slices_left g + index.

Definition get_real (flags : BuildFlags) (N : nat) (g : FFTWGrid) (coord : list Z)
  : result Q :=
  index <- get_index_real flags N g coord ;;
  Ok (fourier_grid_raw g (real_cell_address g index)).

Definition get_real_from_index (g : FFTWGrid) (index : Z) : Q :=
  fourier_grid_raw g (real_cell_address g index).


Definition set_real (flags : BuildFlags) (N : nat) (g : FFTWGrid) (coord : list Z)
  (value : Q) : result FFTWGrid :=
  index <- get_index_real flags N g coord ;;
  Ok (with_memory g (store (fourier_grid_raw g) (get_real_grid g + index) value)).

Definition add_real (flags : BuildFlags) (N : nat) (g : FFTWGrid) (coord : list Z)
  (value : Q) : result FFTWGrid :=
  index <- get_index_real flags N g coord ;;
  Ok (with_memory g
        (store (fourier_grid_raw g) (get_real_grid g + index)
               (Qplus (fourier_grid_raw g (get_real_grid g + index)) value))).

(** [fill_real_grid(val)]: the whole allocation, ghosts and padding too. *)
Definition fill_real_grid (g : FFTWGrid) (val : Q) : FFTWGrid :=
  with_memory g (fill (fourier_grid_raw g) 0 (NmeshTotRealAlloc g) val).

(** *** Halo exchange *)


(** The tasks of MPI_COMM_WORLD: the grid of task [r] is the [r]-th of the
    list, [NTasks] is its length. *)
Definition world : Type := list FFTWGrid.




(** *** FFT driver *)

(** The external engine: what [EXECUTE_FFT(plan)] does to the storage, for a
    plan made from the dimension, the mesh size and the place of the main
    grid.  Nothing is assumed of it. *)
Record FFTEngine : Type := mkFFTEngine {
  EXECUTE_r2c : nat -> Z -> Z -> memory -> memory;
  EXECUTE_c2r : nat -> Z -> Z -> memory -> memory
}.

(** [right_copy[i] = real_grid_right[i]] for [i < Nmesh/2+1]. *)
Definition save_right (g : FFTWGrid) : list Q :=
  if n_extra_x_slices_right g >? 0 then
    map (fun i => fourier_grid_raw g (get_real_grid_right g + i))
        (zseq 0 (Z.to_nat (Nmesh g ÷ 2 + 1)))
  else [].

(** [real_grid_right[i] = right_copy[i]] for [i < Nmesh/2+1]. *)
Definition restore_right (g : FFTWGrid) (right_copy : list Q) : FFTWGrid :=
  if n_extra_x_slices_right g >? 0 then
    fold_left
      (fun g i =>
         with_memory g
           (store (fourier_grid_raw g) (get_real_grid_right g + i)
                  (nth (Z.to_nat i) right_copy 0%Q)))
      (zseq 0 (Z.to_nat (Nmesh g ÷ 2 + 1))) g
  else g.

(** [fourier_grid[index] *= norm] for a real [norm]: both parts are scaled. *)
Definition scale_fourier_cell (g : FFTWGrid) (index : Z) (norm : Q) : FFTWGrid :=
  let re := 2 * (get_fourier_grid g + index) in
  let im := re + 1 in
  let m := fourier_grid_raw g in
  with_memory g (store (store m re (m re * norm)%Q) im (m im * norm)%Q).

Definition fftw_r2c (flags : BuildFlags) (engine : FFTEngine) (N : nat) (g : FFTWGrid)
  : result FFTWGrid :=
  if USE_FFTW flags then
    let right_copy := save_right g in
    let g := with_memory g
               (EXECUTE_r2c engine N (Nmesh g) (get_real_grid g) (fourier_grid_raw g)) in
    let g := set_grid_status_real g false in
    let norm := (1 / inject_Z (Nmesh g ^ Z.of_nat N))%Q in
    let g := fold_left (fun g index => scale_fourier_cell g index norm)
                       (get_fourier_range N g) g in
    Ok (restore_right g right_copy)
  else
    AssertionFailed
      "[FFTWGrid::fftw_r2c] Compiled without FFTW support so cannot take Fourier transforms".

Definition fftw_c2r (flags : BuildFlags) (engine : FFTEngine) (N : nat) (g : FFTWGrid)
  : result FFTWGrid :=
  if USE_FFTW flags then
    let right_copy := save_right g in
    let g := with_memory g
               (EXECUTE_c2r engine N (Nmesh g) (get_real_grid g) (fourier_grid_raw g)) in
    let g := set_grid_status_real g true in
    Ok (restore_right g right_copy)
  else
    AssertionFailed
      "[FFTWGrid::fftw_c2r] Compiled without FFTW support so cannot take Fourier transforms".

(** *** Coordinates from an index *)

(** [v[i] = a] on a [std::vector]; the code never writes outside the vector
    on the paths modelled, and the list is left as it is there. *)
Fixpoint vector_set {A : Type} (v : list A) (i : nat) (a : A) : list A :=
  match v, i with
  | [], _ => []
  | _ :: v', O => a :: v'
  | b :: v', S i' => b :: vector_set v' i' a
  end.

(** [get_coord_from_index(index_real)]: the coordinates of a cell from its
    index in the real view of the main grid.  [%] and [/] truncate.  The
    source returns a [std::vector<int>]: [get_coord_from_index_in_int] says
    that the coordinates are representable, so that storing them does not
    narrow them. *)
Definition get_coord_from_index (flags : BuildFlags) (N : nat) (g : FFTWGrid)
  (index_real : Z) : result (list Z) :=
  (if BOUNDSCHECK_FFTWGRID flags then
     assert_mpi ((index_real >=? - NmeshTotRealSlice g * n_extra_x_slices_left g)
                 && (index_real <? NmeshTotRealSlice g * (Local_nx g + n_extra_x_slices_right g)))
       "[FFTWGrid::get_coord_from_index] Bounds check failed"
   else Ok tt) ;;;
  let coord := repeat 0 N in
  let nmesh_plus_padding := 2 * (Nmesh g ÷ 2 + 1) in
  let index := index_real in
  let coord := vector_set coord (N - 1) (Z.rem index nmesh_plus_padding) in
  let index := index ÷ nmesh_plus_padding in
  if (N =? 2)%nat then Ok (vector_set coord 0 index)
  else if (N =? 3)%nat then
    let coord := vector_set coord 1 (Z.rem index (Nmesh g)) in
    Ok (vector_set coord 0 (index ÷ Nmesh g))
  else
    let '(coord, index) :=
      fold_left (fun '(coord, index) idim =>
                   (vector_set coord idim (Z.rem index (Nmesh g)), index ÷ Nmesh g))
                (rev (seq 1 (N - 2))) (coord, index) in
    Ok (vector_set coord 0 index).

(** *** The Fourier grid *)

(** [get_index_fourier_2d(i, j)] and [get_index_fourier_3d(i, j, k)]: as on
    the real grid the source evaluates the index in [int];
    [get_index_fourier_2d_in_int] and [get_index_fourier_3d_in_int] say that
    no step of the evaluation leaves the range of [int]. *)
Definition get_index_fourier_2d (flags : BuildFlags) (N : nat) (g : FFTWGrid) (i j : Z)
  : result Z :=
  (if BOUNDSCHECK_FFTWGRID flags then
     assert_mpi ((0 <=? i) && (i <? Local_nx g)
                 && (0 <=? j) && (j <? Nmesh g ÷ 2 + 1) && (N =? 2)%nat)
       "[FFTWGrid::get_index_fourier_2d] Bounds check failed"
   else Ok tt) ;;;
  Ok (i * (Nmesh g ÷ 2 + 1) + j).

Definition get_index_fourier_3d (flags : BuildFlags) (N : nat) (g : FFTWGrid) (i j k : Z)
  : result Z :=
  (if BOUNDSCHECK_FFTWGRID flags then
     assert_mpi ((0 <=? i) && (i <? Local_nx g)
                 && (0 <=? j) && (j <? Nmesh g)
                 && (0 <=? k) && (k <? Nmesh g ÷ 2 + 1) && (N =? 3)%nat)
       "[FFTWGrid::get_index_fourier_3d] Bounds check failed"
   else Ok tt) ;;;
  Ok ((Nmesh g * i + j) * (Nmesh g ÷ 2 + 1) + k).

(** [get_index_fourier(coord)].  The general branch checks every coordinate
    after the first against [Nmesh], the last one too. *)
Definition get_index_fourier (flags : BuildFlags) (N : nat) (g : FFTWGrid) (coord : list Z)
  : result Z :=
  if (N =? 2)%nat then get_index_fourier_2d flags N g (at_ coord 0) (at_ coord 1)
  else if (N =? 3)%nat then
    get_index_fourier_3d flags N g (at_ coord 0) (at_ coord 1) (at_ coord 2)
  else
    (if BOUNDSCHECK_FFTWGRID flags then
       assert_mpi ((0 <=? at_ coord 0) && (at_ coord 0 <? Local_nx g))
         "[FFTWGrid::get_index_fourier] Bounds check failed" ;;;
       for_each (fun _ idim =>
                   assert_mpi ((0 <=? at_ coord idim) && (at_ coord idim <? Nmesh g))
                     "[FFTWGrid::get_index_fourier] Bounds check failed")
                (seq 1 (N - 1)) tt
     else Ok tt) ;;;
    let index := at_ coord 0 in
    let index :=
      fold_left (fun index idim => index * Nmesh g + at_ coord idim) (seq 1 (N - 2)) index in
    Ok (index * (Nmesh g ÷ 2 + 1) + at_ coord (N - 1)).

(** [get_fourier_coord_from_index(index)]: the loop runs [idim] from [N-2]
    down to 0 with [n] multiplied by [Nmesh] at every turn. *)
Definition get_fourier_coord_from_index (N : nat) (g : FFTWGrid) (index : Z) : list Z :=
  let nover2plus1 := Nmesh g ÷ 2 + 1 in
  let coord := repeat 0 N in
  let coord := vector_set coord (N - 1) (Z.rem index nover2plus1) in
  fst (fold_left (fun '(coord, n) idim =>
                    (vector_set coord idim (Z.rem (index ÷ n) (Nmesh g)), n * Nmesh g))
                 (rev (seq 0 (N - 1))) (coord, nover2plus1)).

(** A [ComplexType] is its real and its imaginary part, stored one after the
    other: the complex cell [k] of [fourier_grid_raw] is the reals [2k] and
    [2k+1] of the real view. *)
Definition ComplexType : Type := (Q * Q)%type.

Definition load_complex (m : memory) (k : Z) : ComplexType := (m (2 * k), m (2 * k + 1)).

Definition store_complex (m : memory) (k : Z) (value : ComplexType) : memory :=
  store (store m (2 * k) (fst value)) (2 * k + 1) (snd value).

Definition get_fourier_from_index (g : FFTWGrid) (index : Z) : ComplexType :=
  load_complex (fourier_grid_raw g) (NmeshTotComplexSlice g * n_extra_x_slices_left g + index).

Definition set_fourier_from_index (g : FFTWGrid) (index : Z) (value : ComplexType) : FFTWGrid :=
  with_memory g (store_complex (fourier_grid_raw g) (get_fourier_grid g + index) value).

Definition get_fourier (flags : BuildFlags) (N : nat) (g : FFTWGrid) (coord : list Z)
  : result ComplexType :=
  index <- get_index_fourier flags N g coord ;;
  Ok (load_complex (fourier_grid_raw g)
        (NmeshTotComplexSlice g * n_extra_x_slices_left g + index)).

Definition set_fourier (flags : BuildFlags) (N : nat) (g : FFTWGrid) (coord : list Z)
  (value : ComplexType) : result FFTWGrid :=
  index <- get_index_fourier flags N g coord ;;
  Ok (with_memory g (store_complex (fourier_grid_raw g) (get_fourier_grid g + index) value)).

(** *** Positions of the cells *)

(** [get_real_position(coord)]: the position in the box of the cell, its
    corner or, with CELLCENTERSHIFTED, its centre. *)
Definition get_real_position (flags : BuildFlags) (N : nat) (g : FFTWGrid) (coord : list Z)
  : list Q :=
  let xcoord := repeat 0%Q N in
  let shift := if CELLCENTERSHIFTED flags then (1#2)%Q else 0%Q in
  let xcoord :=
    vector_set xcoord 0
      ((inject_Z (Local_x_start g + at_ coord 0) + shift) / inject_Z (Nmesh g))%Q in
  fold_left (fun xcoord idim =>
               vector_set xcoord idim
                 ((inject_Z (at_ coord idim) + shift) / inject_Z (Nmesh g))%Q)
            (seq 1 (N - 1)) xcoord.

(** [get_real_position_2d(i, j)] and [get_real_position_3d(i, j, k)] have no
    shift in any build. *)
Definition get_real_position_2d (g : FFTWGrid) (i j : Z) : list Q :=
  let xcoord := repeat 0%Q 2 in
  let xcoord := vector_set xcoord 0 (inject_Z (Local_x_start g + i) / inject_Z (Nmesh g))%Q in
  vector_set xcoord 1 (inject_Z j / inject_Z (Nmesh g))%Q.

Definition get_real_position_3d (g : FFTWGrid) (i j k : Z) : list Q :=
  let xcoord := repeat 0%Q 3 in
  let xcoord := vector_set xcoord 0 (inject_Z (Local_x_start g + i) / inject_Z (Nmesh g))%Q in
  let xcoord := vector_set xcoord 1 (inject_Z j / inject_Z (Nmesh g))%Q in
  vector_set xcoord 2 (inject_Z k / inject_Z (Nmesh g))%Q.


(** *** Wave vectors *)

(** [get_fourier_wavevector(coord)].  [M_PI] is the constant of the C
    library; a coordinate above [Nmesh/2] stands for a negative frequency. *)
Definition get_fourier_wavevector (M_PI : Q) (N : nat) (g : FFTWGrid) (coord : list Z)
  : list Q :=
  let twopi := (2 * M_PI)%Q in
  let fcoord := repeat 0%Q N in
  let fcoord :=
    vector_set fcoord 0
      (twopi * inject_Z (if Local_x_start g + at_ coord 0 <=? Nmesh g ÷ 2
                         then Local_x_start g + at_ coord 0
                         else Local_x_start g + at_ coord 0 - Nmesh g))%Q in
  fold_left (fun fcoord idim =>
               vector_set fcoord idim
                 (twopi * inject_Z (if at_ coord idim <=? Nmesh g ÷ 2
                                    then at_ coord idim
                                    else at_ coord idim - Nmesh g))%Q)
            (seq 1 (N - 1)) fcoord.

Definition get_fourier_wavevector_2d (M_PI : Q) (g : FFTWGrid) (i j : Z) : list Q :=
  let twopi := (2 * M_PI)%Q in
  let fcoord := repeat 0%Q 2 in
  let fcoord :=
    vector_set fcoord 0
      (twopi * inject_Z (if Local_x_start g + i <=? Nmesh g ÷ 2
                         then Local_x_start g + i
                         else Local_x_start g + i - Nmesh g))%Q in
  vector_set fcoord 1
    (twopi * inject_Z (if j <=? Nmesh g ÷ 2 then j else j - Nmesh g))%Q.

Definition get_fourier_wavevector_3d (M_PI : Q) (g : FFTWGrid) (i j k : Z) : list Q :=
  let twopi := (2 * M_PI)%Q in
  let fcoord := repeat 0%Q 3 in
  let fcoord :=
    vector_set fcoord 0
      (twopi * inject_Z (if Local_x_start g + i <=? Nmesh g ÷ 2
                         then Local_x_start g + i
                         else Local_x_start g + i - Nmesh g))%Q in
  let fcoord :=
    vector_set fcoord 1
      (twopi * inject_Z (if j <=? Nmesh g ÷ 2 then j else j - Nmesh g))%Q in
  vector_set fcoord 2
    (twopi * inject_Z (if k <=? Nmesh g ÷ 2 then k else k - Nmesh g))%Q.

(** [get_fourier_wavevector_from_index(index)].  In the general branch the
    coordinates are first stored in the vector of doubles [fcoord] and the
    comparisons are made on these doubles. *)
Definition get_fourier_wavevector_from_index (M_PI : Q) (N : nat) (g : FFTWGrid)
  (index : Z) : list Q :=
  let twopi := (2 * M_PI)%Q in
  let nover2plus1 := Nmesh g ÷ 2 + 1 in
  let nover2 := Nmesh g ÷ 2 in
  let fcoord := repeat 0%Q N in
  if (N =? 3)%nat then
    let iz := Z.rem index nover2plus1 in
    let iy := index ÷ nover2plus1 in
    let ix := iy ÷ Nmesh g in
    let iy := Z.rem iy (Nmesh g) in
    let fcoord :=
      vector_set fcoord 0
        (twopi * inject_Z (if Local_x_start g + ix <=? nover2
                           then Local_x_start g + ix
                           else Local_x_start g + ix - Nmesh g))%Q in
    let fcoord :=
      vector_set fcoord 1
        (twopi * inject_Z (if iy <=? nover2 then iy else iy - Nmesh g))%Q in
    vector_set fcoord 2
      (twopi * inject_Z (if iz <=? nover2 then iz else iz - Nmesh g))%Q
  else if (N =? 2)%nat then
    let iy := Z.rem index nover2plus1 in
    let ix := index ÷ nover2plus1 in
    let fcoord :=
      vector_set fcoord 0
        (twopi * inject_Z (if Local_x_start g + ix <=? nover2
                           then Local_x_start g + ix
                           else Local_x_start g + ix - Nmesh g))%Q in
    vector_set fcoord 1
      (twopi * inject_Z (if iy <=? nover2 then iy else iy - Nmesh g))%Q
  else if (N =? 1)%nat then
    let ix := Z.rem index nover2plus1 in
    vector_set fcoord 0
      (twopi * inject_Z (if Local_x_start g + ix <=? nover2
                         then Local_x_start g + ix
                         else Local_x_start g + ix - Nmesh g))%Q
  else
    let fcoord := vector_set fcoord (N - 1) (inject_Z (Z.rem index nover2plus1)) in
    let fcoord :=
      fst (fold_left (fun '(fcoord, n) idim =>
                        (vector_set fcoord idim (inject_Z (Z.rem (index ÷ n) (Nmesh g))),
                         n * Nmesh g))
                     (rev (seq 0 (N - 1))) (fcoord, nover2plus1)) in
    let fcoord :=
      vector_set fcoord 0
        (twopi * (if Qle_bool (inject_Z (Local_x_start g) + nth 0 fcoord 0) (inject_Z nover2)
                  then inject_Z (Local_x_start g) + nth 0 fcoord 0
                  else inject_Z (Local_x_start g) + nth 0 fcoord 0 - inject_Z (Nmesh g)))%Q in
    fold_left (fun fcoord idim =>
                 vector_set fcoord idim
                   (twopi * (if Qle_bool (nth idim fcoord 0) (inject_Z nover2)
                             then nth idim fcoord 0
                             else nth idim fcoord 0 - inject_Z (Nmesh g)))%Q)
              (seq 1 (N - 1)) fcoord.

(** [get_fourier_wavevector_and_norm2_by_index(index, kvec, kmag2)]: the
    vector [kvec] of the caller is overwritten; the result is the pair of
    [kvec] and [kmag2]. *)
Definition get_fourier_wavevector_and_norm2_by_index (flags : BuildFlags) (M_PI : Q)
  (N : nat) (g : FFTWGrid) (index : Z) (kvec : list Q) : result (list Q * Q) :=
  let twopi := (2 * M_PI)%Q in
  let nover2plus1 := Nmesh g ÷ 2 + 1 in
  let nover2 := Nmesh g ÷ 2 in
  (if BOUNDSCHECK_FFTWGRID flags then
     assert_mpi (List.length kvec =? N)%nat
       "[FFTWGrid::get_fourier_wavevector_and_norm2_by_index] kvec has the wrong size"
   else Ok tt) ;;;
  if (N =? 3)%nat then
    let iz := Z.rem index nover2plus1 in
    let iy := index ÷ nover2plus1 in
    let ix := iy ÷ Nmesh g in
    let iy := Z.rem iy (Nmesh g) in
    let kvec :=
      vector_set kvec 0
        (twopi * inject_Z (if Local_x_start g + ix <=? nover2
                           then Local_x_start g + ix
                           else Local_x_start g + ix - Nmesh g))%Q in
    let kvec :=
      vector_set kvec 1
        (twopi * inject_Z (if iy <=? nover2 then iy else iy - Nmesh g))%Q in
    let kvec :=
      vector_set kvec 2
        (twopi * inject_Z (if iz <=? nover2 then iz else iz - Nmesh g))%Q in
    Ok (kvec, (nth 0 kvec 0 * nth 0 kvec 0 + nth 1 kvec 0 * nth 1 kvec 0
               + nth 2 kvec 0 * nth 2 kvec 0)%Q)
  else if (N =? 2)%nat then
    let iy := Z.rem index nover2plus1 in
    let ix := index ÷ nover2plus1 in
    let kvec :=
      vector_set kvec 0
        (twopi * inject_Z (if Local_x_start g + ix <=? nover2
                           then Local_x_start g + ix
                           else Local_x_start g + ix - Nmesh g))%Q in
    let kvec :=
      vector_set kvec 1
        (twopi * inject_Z (if iy <=? nover2 then iy else iy - Nmesh g))%Q in
    Ok (kvec, (nth 0 kvec 0 * nth 0 kvec 0 + nth 1 kvec 0 * nth 1 kvec 0)%Q)
  else if (N =? 1)%nat then
    let ix := index in
    let kvec :=
      vector_set kvec 0
        (twopi * inject_Z (if Local_x_start g + ix <=? nover2
                           then Local_x_start g + ix
                           else Local_x_start g + ix - Nmesh g))%Q in
    Ok (kvec, (nth 0 kvec 0 * nth 0 kvec 0)%Q)
  else
    let coord := repeat 0 N in
    let coord := vector_set coord (N - 1) (Z.rem index nover2plus1) in
    let coord :=
      fst (fold_left (fun '(coord, n) idim =>
                        (vector_set coord idim (Z.rem (index ÷ n) (Nmesh g)), n * Nmesh g))
                     (rev (seq 0 (N - 1))) (coord, nover2plus1)) in
    let kvec :=
      vector_set kvec 0
        (twopi * inject_Z (if Local_x_start g + at_ coord 0 <=? nover2
                           then Local_x_start g + at_ coord 0
                           else Local_x_start g + at_ coord 0 - Nmesh g))%Q in
    let kmag2 := (nth 0 kvec 0 * nth 0 kvec 0)%Q in
    Ok (fold_left (fun '(kvec, kmag2) idim =>
                     let kvec :=
                       vector_set kvec idim
                         (twopi * inject_Z (if at_ coord idim <=? nover2
                                            then at_ coord idim
                                            else at_ coord idim - Nmesh g))%Q in
                     (kvec, (kmag2 + nth idim kvec 0 * nth idim kvec 0)%Q))
                  (seq 1 (N - 1)) (kvec, kmag2)).

(** *** Filling the Fourier grid *)

(** [std::fill] of [n] complex cells from the complex cell [begin]. *)
Definition fill_complex (m : memory) (begin n : Z) (val : ComplexType) : memory :=
  fun b => if (2 * begin <=? b) && (b <? 2 * (begin + n))
           then (if Z.even b then fst val else snd val)
           else m b.

(** [fill_fourier_grid(val)]: the whole vector [fourier_grid_raw], of
    [NmeshTotComplexAlloc] cells. *)
Definition fill_fourier_grid (g : FFTWGrid) (val : ComplexType) : FFTWGrid :=
  with_memory g (fill_complex (fourier_grid_raw g) 0 (NmeshTotComplexAlloc g) val).

(** [fill_fourier_grid(func)]: every cell of the main Fourier grid receives
    the value of [func] at its wave vector. *)
Definition fill_fourier_grid_func (M_PI : Q) (N : nat) (g : FFTWGrid)
  (func : list Q -> ComplexType) : FFTWGrid :=
  fold_left (fun g index =>
               let kvec := get_fourier_wavevector_from_index M_PI N g index in
               let value := func kvec in
               set_fourier_from_index g index value)
            (get_fourier_range N g) g.

(** *** The [int] expressions

    For each function below, the values that the source computes in [int]
    or converts to [int]. *)

(** The fields [index], [real_index], [Nmesh] of a [LoopIteratorReal]. *)
Definition it_in_int (a : LoopIteratorReal) : Prop :=
  in_int (it_index a) /\ in_int (it_real_index a) /\ in_int (it_Nmesh a).

(** [LoopIteratorReal(_index, _Nmesh)]: the arguments and
    [_index + 2*(_index/_Nmesh)]. *)
Definition LoopIteratorReal_new_in_int (_index _Nmesh : Z) : Prop :=
  in_int _index /\ in_int _Nmesh /\ in_int (2 * (_index ÷ _Nmesh))
  /\ in_int (_index + 2 * (_index ÷ _Nmesh)).

(** [operator++]: the fields before, and after [++index],
    [real_index += odd ? 1 : 2] and [++real_index], which only add. *)
Definition it_incr_in_int (a : LoopIteratorReal) : Prop :=
  it_in_int a /\ it_in_int (it_incr a).

(** [RealRange(0, NmeshTotReal, Nmesh)] takes three [int]: the [ptrdiff_t]
    [NmeshTotReal] is converted. *)
Definition get_real_range_in_int (g : FFTWGrid) : Prop :=
  in_int (NmeshTotReal g) /\ in_int (Nmesh g).

(** A loop [for(auto && index : range)]: [begin()], [end()] and the
    increments from [begin()] up to [end()]. *)
Definition range_for_in_int (r : RealRange) : Prop :=
  LoopIteratorReal_new_in_int (rr_from r) (rr_Nmesh r)
  /\ LoopIteratorReal_new_in_int (rr_to r) (rr_Nmesh r)
  /\ forall n : nat, rr_from r + Z.of_nat n < rr_to r ->
       it_incr_in_int (it_advance n (RealRange_begin r)).

(** [i * 2 * (Nmesh/2+1) + j], evaluated from the left. *)
Definition get_index_real_2d_in_int (g : FFTWGrid) (i j : Z) : Prop :=
  in_int (i * 2) /\ in_int (Nmesh g ÷ 2 + 1) /\ in_int (i * 2 * (Nmesh g ÷ 2 + 1))
  /\ in_int (i * 2 * (Nmesh g ÷ 2 + 1) + j).

(** [(Nmesh * i + j)*2*(Nmesh/2+1) + k]. *)
Definition get_index_real_3d_in_int (g : FFTWGrid) (i j k : Z) : Prop :=
  in_int (Nmesh g * i) /\ in_int (Nmesh g * i + j) /\ in_int ((Nmesh g * i + j) * 2)
  /\ in_int (Nmesh g ÷ 2 + 1) /\ in_int ((Nmesh g * i + j) * 2 * (Nmesh g ÷ 2 + 1))
  /\ in_int ((Nmesh g * i + j) * 2 * (Nmesh g ÷ 2 + 1) + k).

(** [get_index_real(coord)]: the coordinates and [Nmesh] are [int]; in two
    and three dimensions the index is computed in [int] and widened
    afterwards; the general branch computes in [IndexIntType], but for
    [2 * (Nmesh / 2 + 1)]. *)
Definition get_index_real_in_int (N : nat) (g : FFTWGrid) (coord : list Z) : Prop :=
  in_int (Nmesh g) /\ Forall in_int coord /\
  if (N =? 2)%nat then get_index_real_2d_in_int g (at_ coord 0) (at_ coord 1)
  else if (N =? 3)%nat then
    get_index_real_3d_in_int g (at_ coord 0) (at_ coord 1) (at_ coord 2)
  else in_int (Nmesh g ÷ 2 + 1) /\ in_int (2 * (Nmesh g ÷ 2 + 1)).

(** [get_coord_from_index(index_real)]: [int nmesh_plus_padding] and the
    quotients and remainders of the [IndexIntType] index that are stored in
    the [std::vector<int>]. *)
Definition get_coord_from_index_in_int (N : nat) (g : FFTWGrid) (index_real : Z) : Prop :=
  in_int (Nmesh g) /\ in_int (Nmesh g ÷ 2 + 1) /\ in_int (2 * (Nmesh g ÷ 2 + 1)) /\
  match get_coord_from_index default_flags N g index_real with
  | Ok coord => Forall in_int coord
  | AssertionFailed _ => True
  end.

(** [i*(Nmesh/2+1) + j]. *)
Definition get_index_fourier_2d_in_int (g : FFTWGrid) (i j : Z) : Prop :=
  in_int (Nmesh g ÷ 2 + 1) /\ in_int (i * (Nmesh g ÷ 2 + 1))
  /\ in_int (i * (Nmesh g ÷ 2 + 1) + j).

(** [(Nmesh * i + j)*(Nmesh/2+1) + k]. *)
Definition get_index_fourier_3d_in_int (g : FFTWGrid) (i j k : Z) : Prop :=
  in_int (Nmesh g * i) /\ in_int (Nmesh g * i + j) /\ in_int (Nmesh g ÷ 2 + 1)
  /\ in_int ((Nmesh g * i + j) * (Nmesh g ÷ 2 + 1))
  /\ in_int ((Nmesh g * i + j) * (Nmesh g ÷ 2 + 1) + k).

Definition get_index_fourier_in_int (N : nat) (g : FFTWGrid) (coord : list Z) : Prop :=
  in_int (Nmesh g) /\ Forall in_int coord /\
  if (N =? 2)%nat then get_index_fourier_2d_in_int g (at_ coord 0) (at_ coord 1)
  else if (N =? 3)%nat then
    get_index_fourier_3d_in_int g (at_ coord 0) (at_ coord 1) (at_ coord 2)
  else in_int (Nmesh g ÷ 2 + 1).

(** [get_fourier_coord_from_index(index)]: [const int nover2plus1], the
    [int n] of the loop, which is multiplied by [Nmesh] once per turn, after
    the last one too, and the values stored in the [std::vector<int>]. *)
Definition get_fourier_coord_from_index_in_int (N : nat) (g : FFTWGrid) (index : Z) : Prop :=
  in_int (Nmesh g) /\ in_int (Nmesh g ÷ 2 + 1)
  /\ (forall k : nat, (k <= N - 1)%nat -> in_int ((Nmesh g ÷ 2 + 1) * Nmesh g ^ Z.of_nat k))
  /\ Forall in_int (get_fourier_coord_from_index N g index).

(** [get_fourier_wavevector_from_index(index)] and
    [get_fourier_wavevector_and_norm2_by_index(index, kvec, kmag2)]:
    [const int nover2plus1], [nover2], the [int]s [ix], [iy], [iz] to which
    the quotients and remainders of the index are narrowed, and the
    differences [iy - Nmesh]; in the general branch the [int n] of the
    loop and the [int coord[N]]. *)
Definition get_fourier_wavevector_from_index_in_int (N : nat) (g : FFTWGrid) (index : Z)
  : Prop :=
  let nover2plus1 := Nmesh g ÷ 2 + 1 in
  in_int nover2plus1 /\ in_int (Nmesh g ÷ 2) /\
  if (N =? 3)%nat then
    let iz := Z.rem index nover2plus1 in
    let iy := index ÷ nover2plus1 in
    let ix := iy ÷ Nmesh g in
    let iy' := Z.rem iy (Nmesh g) in
    in_int iz /\ in_int iy /\ in_int ix /\ in_int iy'
    /\ in_int (iy' - Nmesh g) /\ in_int (iz - Nmesh g)
  else if (N =? 2)%nat then
    let iy := Z.rem index nover2plus1 in
    let ix := index ÷ nover2plus1 in
    in_int iy /\ in_int ix /\ in_int (iy - Nmesh g)
  else if (N =? 1)%nat then
    in_int (Z.rem index nover2plus1) /\ in_int index
  else
    (forall k : nat, (k <= N - 1)%nat -> in_int (nover2plus1 * Nmesh g ^ Z.of_nat k))
    /\ Forall (fun c => in_int c /\ in_int (c - Nmesh g)) (get_fourier_coord_from_index N g index).

End GRID.

Module INTERPOLATION.
Import GRID.

(** A particle of the particle container: [get_pos()]. *)
Record Particle : Type := mkParticle { get_pos : list Q }.

(** [v[idim]] for vectors of doubles. *)
Definition qat (v : list Q) (idim : nat) : Q := nth idim v 0%Q.

Definition get_extra_slices_needed_for_density_assignment
  (flags : BuildFlags) (density_assignment_method : string) : result (Z * Z) :=
  let p := 0 in
  let p := if String.eqb density_assignment_method "NGP" then 1 else p in
  let p := if String.eqb density_assignment_method "CIC" then 2 else p in
  let p := if String.eqb density_assignment_method "TSC" then 3 else p in
  let p := if String.eqb density_assignment_method "PCS" then 4 else p in
  let p := if String.eqb density_assignment_method "PQS" then 5 else p in
  assert_mpi (p >? 0)
    "[extra_slices_needed_density_assignment] Unknown density assignment method" ;;;
  if p =? 1 then Ok (0, 0)
  else if CELLCENTERSHIFTED flags then
    if Z.rem p 2 =? 1 then Ok (p ÷ 2, p ÷ 2)
    else Ok (p ÷ 2, p ÷ 2)
  else
    if Z.rem p 2 =? 1 then Ok (p ÷ 2, p ÷ 2 + 1)
    else Ok (p ÷ 2 - 1, p ÷ 2).

(** [get_extra_slices_needed_by_order<ORDER>()].  The two tests on
    [ORDER % 2] of the code cover every [ORDER >= 0]; the code returns
    nothing otherwise and the embedding gives [(0, 0)] there. *)
Definition get_extra_slices_needed_by_order (flags : BuildFlags) (ORDER : Z) : Z * Z :=
  if ORDER =? 1 then (0, 0)
  else if CELLCENTERSHIFTED flags then
    if Z.rem ORDER 2 =? 1 then (ORDER ÷ 2, ORDER ÷ 2)
    else if Z.rem ORDER 2 =? 0 then (ORDER ÷ 2, ORDER ÷ 2)
    else (0, 0)
  else
    if Z.rem ORDER 2 =? 1 then (ORDER ÷ 2, ORDER ÷ 2 + 1)
    else if Z.rem ORDER 2 =? 0 then (ORDER ÷ 2 - 1, ORDER ÷ 2)
    else (0, 0).

(** [kernel<ORDER>(x)], the B spline H^(ORDER).  The primary template has a
    [static_assert(ORDER > 0 and ORDER <= 5)]: an instance outside 1..5 does
    not compile, and the embedding gives 0 there. *)
Definition kernel (ORDER : Z) (x : Q) : Q :=
  match ORDER with
  | 1 => (if Qle_bool x (1#2) then 1 else 0)%Q
  | 2 => (if Qltb x 1 then 1 - x else 0)%Q
  | 3 => (if Qltb x (1#2) then (3#4) - x * x
          else if Qltb x (3#2) then (1#2) * ((3#2) - x) * ((3#2) - x) else 0)%Q
  | 4 => (if Qltb x 1 then (2#3) + x * x * (- (1) + (1#2) * x)
          else if Qltb x 2 then (2 - x) * (2 - x) * (2 - x) / 6 else 0)%Q
  | 5 => (if Qltb x (1#2) then (115#192) + (1#4) * x * x * (x * x - (5#2))
          else if Qltb x (3#2) then
            (55 + 4 * x * (5 - 2 * x * (15 + 2 * (- (5) + x) * x))) / 96
          else if Qltb x (5#2) then
            (5 - 2 * x) * (5 - 2 * x) * (5 - 2 * x) * (5 - 2 * x) / 384
          else 0)%Q
  | _ => 0%Q
  end.

(** The vector [xstart] of one particle, from the distances [x] to the cell.
    The code declares it once, as [N] times [-ORDER/2], and overwrites it for
    each particle, but for an odd order in the CELLCENTERSHIFTED build, which
    never writes to it. *)
Definition stencil_start (flags : BuildFlags) (N : nat) (ORDER : Z) (x : list Q) : list Z :=
  map (fun idim =>
         if Z.rem ORDER 2 =? 0 then
           if CELLCENTERSHIFTED flags then
             if Qltb (1#2) (qat x idim) then (- ORDER) ÷ 2 + 1 else (- ORDER) ÷ 2
           else (- ORDER) ÷ 2 + 1
         else
           if CELLCENTERSHIFTED flags then (- ORDER) ÷ 2
           else if Qltb (1#2) (qat x idim) then (- ORDER) ÷ 2 + 1 else (- ORDER) ÷ 2)
      (seq 0 N).

(** One turn of the inner loop over [idim] for the neighbour cell [i]: the
    weight [w], the power [n] of [ORDER] and the vector [ix_nbor]. *)
Definition stencil_axis (flags : BuildFlags) (ORDER : Z)
  (ix : list Z) (x : list Q) (xstart : list Z) (i : Z)
  (state : Q * Z * list Z) (idim : nat) : Q * Z * list Z :=
  let '(w, n, ix_nbor) := state in
  let go_left_right_or_stay :=
    if ORDER =? 1 then 0 else at_ xstart idim + Z.rem (i ÷ n) ORDER in
  let dx :=
    if CELLCENTERSHIFTED flags
    then Qabs (- qat x idim + inject_Z go_left_right_or_stay + (1#2))
    else Qabs (- qat x idim + inject_Z go_left_right_or_stay) in
  ((w * kernel ORDER dx)%Q, n * ORDER,
   ix_nbor ++ [at_ ix idim + go_left_right_or_stay]).

(** The inner loop over [idim] for the neighbour cell [i]: the weight [w] and
    the vector [ix_nbor]. *)
Definition stencil_cell (flags : BuildFlags) (N : nat) (ORDER : Z)
  (ix : list Z) (x : list Q) (xstart : list Z) (i : Z) : Q * list Z :=
  let '(w, _, ix_nbor) :=
    fold_left (stencil_axis flags ORDER ix x xstart i) (seq 0 N) (1%Q, 1, []) in
  (w, ix_nbor).

(** Periodic BC on every axis but the first. *)
Definition periodic_coord (N : nat) (Nmesh : Z) (ix_nbor : list Z) : list Z :=
  map (fun idim =>
         if (idim =? 0)%nat then at_ ix_nbor 0
         else
           let c := at_ ix_nbor idim in
           let c := if c >=? Nmesh then c - Nmesh else c in
           if c <? 0 then c + Nmesh else c)
      (seq 0 N).

(** The sum of the weights of one particle, as [sumweights] accumulates it. *)
Definition sum_of_weights (flags : BuildFlags) (N : nat) (ORDER : Z)
  (ix : list Z) (x : list Q) (xstart : list Z) : Q :=
  fold_left (fun sumweights i => (sumweights + fst (stencil_cell flags N ORDER ix x xstart i))%Q)
            (zseq 0 (Z.to_nat (power ORDER (Z.of_nat N)))) 0%Q.

(** The cell [ix] that holds a particle and the distance [x] to it, in
    [particles_to_grid].  The product [pos[idim] * Nmesh] is a rounded
    double in the source and exact here: the two agree on the cell where
    the product is exact, as on a mesh whose size is a power of two. *)
Definition locate_particle (N : nat) (g : FFTWGrid) (pos : list Q) : list Z * list Q :=
  let scaled := map (fun idim => (qat pos idim * inject_Z (get_nmesh g))%Q) (seq 0 N) in
  let ix := map to_int scaled in
  let x := map (fun idim => (qat scaled idim - inject_Z (at_ ix idim))%Q) (seq 0 N) in
  let ix :=
    map (fun idim =>
           if (idim =? 0)%nat then at_ ix 0 - get_local_x_start g
           else if at_ ix idim =? get_nmesh g then 0 else at_ ix idim)
        (seq 0 N) in
  (ix, x).

(** The body of the loop over the neighbour cells: the cell [i] of the
    stencil receives its share of the particle. *)
Definition deposit_in_cell (flags : BuildFlags) (N : nat) (ORDER : Z) (norm_fac mass : Q)
  (ix : list Z) (x : list Q) (xstart : list Z)
  (state : FFTWGrid * Q) (i : Z) : result (FFTWGrid * Q) :=
  let '(density, sumweights) := state in
  let '(w, ix_nbor) := stencil_cell flags N ORDER ix x xstart i in
  let icoord := periodic_coord N (get_nmesh density) ix_nbor in
  density <- add_real flags N density icoord (w * norm_fac * mass)%Q ;;
  Ok (density, (sumweights + w)%Q).

(** The body of the loop over the particles of [particles_to_grid]. *)
Definition deposit_particle (flags : BuildFlags) (N : nat) (ORDER : Z) (norm_fac : Q)
  (density : FFTWGrid) (p : Particle) : result FFTWGrid :=
  let mass := 1%Q in
  let '(ix, x) := locate_particle N density (get_pos p) in
  let xstart := stencil_start flags N ORDER x in
  let widthtondim := power ORDER (Z.of_nat N) in
  r <- for_each (deposit_in_cell flags N ORDER norm_fac mass ix x xstart)
                (zseq 0 (Z.to_nat widthtondim)) (density, 0%Q) ;;
  let '(density, sumweights) := r in
  (if DEBUG_INTERPOL flags then
     assert_mpi (Qltb (Qabs (sumweights - 1)) (1#1000))
       "[particles_to_grid] Possible problem with particles to grid: weights does not sum to unity!"
   else Ok tt) ;;;
  Ok density.

(** [add_contribution_from_extra_slices], built without USE_MPI: [temp] is the
    extra slice itself. *)
Definition add_slice (g : FFTWGrid) (slice temp : Z) : FFTWGrid :=
  fold_left
    (fun g j =>
       let m := fourier_grid_raw g in
       with_memory g (store m (slice + j) (Qplus (m (slice + j)) (Qplus (m (temp + j)) 1))))
    (zseq 0 (Z.to_nat (get_ntot_real_slice_alloc g))) g.

Definition add_contribution_from_extra_slices (density : FFTWGrid) : FFTWGrid :=
  let num_cells_slice := get_ntot_real_slice_alloc density in
  let n_extra_left := get_n_extra_slices_left density in
  let n_extra_right := get_n_extra_slices_right density in
  let density :=
    fold_left
      (fun density i =>
         let extra_slice_right := get_real_grid_right density + num_cells_slice * i in
         let slice_left := get_real_grid density + num_cells_slice * i in
         add_slice density slice_left extra_slice_right)
      (zseq 0 (Z.to_nat n_extra_right)) density in
  fold_left
    (fun density i =>
       let extra_slice_left := get_real_grid density - i * num_cells_slice in
       let slice_right := get_real_grid density + num_cells_slice * (get_local_nx density - i) in
       add_slice density slice_right extra_slice_left)
    (zseq 1 (Z.to_nat n_extra_left)) density.

(** [particles_to_grid<N,ORDER,T>(part, NumPart, NumPartTot, density)]. *)
Definition particles_to_grid (flags : BuildFlags) (N : nat) (ORDER : Z)
  (part : list Particle) (NumPart : nat) (NumPartTot : Z) (density : FFTWGrid)
  : result FFTWGrid :=
  let nextra := get_extra_slices_needed_by_order flags ORDER in
  assert_mpi ((get_n_extra_slices_left density >=? fst nextra)
              && (get_n_extra_slices_right density >=? snd nextra))
    "[particles_to_grid] Too few extra slices" ;;;
  let density := fill_real_grid density (- (1))%Q in
  let norm_fac := (inject_Z (get_nmesh density ^ Z.of_nat N) / inject_Z NumPartTot)%Q in
  density <- for_each (deposit_particle flags N ORDER norm_fac)
                      (firstn NumPart part) density ;;
  Ok (add_contribution_from_extra_slices density).

(** The sum of the grid over the active cells of the main grid. *)
Definition sum_active_cells (g : FFTWGrid) : option Q :=
  match range_for (Z.to_nat (NmeshTotReal g))
                  (RealRange_begin (get_real_range g)) (RealRange_end (get_real_range g)) with
  | Some l => Some (fold_left (fun s index => (s + get_real_from_index g index)%Q) l 0%Q)
  | None => None
  end.

(** The string overload of [particles_to_grid]: five tests in sequence on the
    one [density]. *)
Definition particles_to_grid_by_name (flags : BuildFlags) (N : nat)
  (part : list Particle) (NumPart : nat) (NumPartTot : Z) (density : FFTWGrid)
  (density_assignment_method : string) : result FFTWGrid :=
  density <- (if String.eqb density_assignment_method "NGP"
              then particles_to_grid flags N 1 part NumPart NumPartTot density
              else Ok density) ;;
  density <- (if String.eqb density_assignment_method "CIC"
              then particles_to_grid flags N 2 part NumPart NumPartTot density
              else Ok density) ;;
  density <- (if String.eqb density_assignment_method "TSC"
              then particles_to_grid flags N 3 part NumPart NumPartTot density
              else Ok density) ;;
  density <- (if String.eqb density_assignment_method "PCS"
              then particles_to_grid flags N 4 part NumPart NumPartTot density
              else Ok density) ;;
  if String.eqb density_assignment_method "PQS"
  then particles_to_grid flags N 5 part NumPart NumPartTot density
  else Ok density.

(** The cell and the distance to it in [interpolate_grid_to_particle_positions]. *)
Definition locate_particle_for_interpolation (N : nat) (g : FFTWGrid) (pos : list Q)
  : list Z * list Q :=
  let Local_nx := get_local_nx g in
  let Local_x_start := get_local_x_start g in
  let Nmesh := get_nmesh g in
  let x := map (fun idim => (qat pos idim * inject_Z Nmesh)%Q) (seq 0 N) in
  let ix :=
    map (fun idim =>
           let i := to_int (qat x idim) in
           if (idim =? 0)%nat then
             let i := if i =? Local_x_start + Local_nx then Local_x_start + Local_nx - 1 else i in
             if i <? Local_x_start then Local_x_start else i
           else
             if i =? Nmesh then Nmesh - 1 else i)
        (seq 0 N) in
  let x := map (fun idim => (qat x idim - inject_Z (at_ ix idim))%Q) (seq 0 N) in
  let ix :=
    map (fun idim => if (idim =? 0)%nat then at_ ix 0 - Local_x_start else at_ ix idim)
        (seq 0 N) in
  (ix, x).

(** [v.resize(n)] and [v[ind] = value] on a [std::vector<FloatType>]. *)
Definition resize (v : list Q) (n : nat) : list Q :=
  firstn n v ++ repeat 0%Q (n - List.length v).

Fixpoint assign (v : list Q) (ind : nat) (value : Q) : list Q :=
  match v, ind with
  | [], _ => []
  | _ :: v', O => value :: v'
  | a :: v', S ind' => a :: assign v' ind' value
  end.

(** The body of the loop over the particles of
    [interpolate_grid_to_particle_positions]. *)
Definition interpolate_particle (flags : BuildFlags) (N : nat) (ORDER : Z)
  (grid : FFTWGrid) (p : Particle) : result Q :=
  let '(ix, x) := locate_particle_for_interpolation N grid (get_pos p) in
  let xstart := stencil_start flags N ORDER x in
  let widthtondim := power ORDER (Z.of_nat N) in
  r <- for_each
         (fun '(value, sumweight) i =>
            let '(w, ix_nbor) := stencil_cell flags N ORDER ix x xstart i in
            let icoord := periodic_coord N (get_nmesh grid) ix_nbor in
            v <- get_real flags N grid icoord ;;
            Ok ((value + v * w)%Q, (sumweight + w)%Q))
         (zseq 0 (Z.to_nat widthtondim)) (0%Q, 0%Q) ;;
  let '(value, sumweight) := r in
  (if DEBUG_INTERPOL flags then
     assert_mpi (Qltb (Qabs (sumweight - 1)) (1#1000))
       "[interpolate_grid_to_particle_positions] Possible problem with interpolation: weights does not sum to unity!"
   else Ok tt) ;;;
  Ok value.

(** [interpolate_grid_to_particle_positions<N,ORDER,T>(grid, part, NumPart,
    interpolated_values)]; the result is the vector [interpolated_values]. *)
Definition interpolate_grid_to_particle_positions (flags : BuildFlags) (N : nat) (ORDER : Z)
  (grid : FFTWGrid) (part : list Particle) (NumPart : nat) (interpolated_values : list Q)
  : result (list Q) :=
  let nextra := get_extra_slices_needed_by_order flags ORDER in
  assert_mpi (get_nmesh grid >? 0)
    "[interpolate_grid_to_particle_positions] Grid has to be already allocated!" ;;;
  assert_mpi ((get_n_extra_slices_left grid >=? fst nextra)
              && (get_n_extra_slices_right grid >=? snd nextra))
    "[interpolate_grid_to_particle_positions] Too few extra slices" ;;;
  let interpolated_values := resize interpolated_values NumPart in
  r <- for_each
         (fun '(interpolated_values, ind) p =>
            value <- interpolate_particle flags N ORDER grid p ;;
            Ok (assign interpolated_values ind value, S ind))
         (firstn NumPart part) (interpolated_values, O) ;;
  Ok (fst r).

Definition interpolate_grid_to_particle_positions_by_name (flags : BuildFlags) (N : nat)
  (grid : FFTWGrid) (part : list Particle) (NumPart : nat) (interpolated_values : list Q)
  (interpolation_method : string) : result (list Q) :=
  interpolated_values <-
    (if String.eqb interpolation_method "NGP"
     then interpolate_grid_to_particle_positions flags N 1 grid part NumPart interpolated_values
     else Ok interpolated_values) ;;
  interpolated_values <-
    (if String.eqb interpolation_method "CIC"
     then interpolate_grid_to_particle_positions flags N 2 grid part NumPart interpolated_values
     else Ok interpolated_values) ;;
  interpolated_values <-
    (if String.eqb interpolation_method "TSC"
     then interpolate_grid_to_particle_positions flags N 3 grid part NumPart interpolated_values
     else Ok interpolated_values) ;;
  interpolated_values <-
    (if String.eqb interpolation_method "PCS"
     then interpolate_grid_to_particle_positions flags N 4 grid part NumPart interpolated_values
     else Ok interpolated_values) ;;
  if String.eqb interpolation_method "PQS"
  then interpolate_grid_to_particle_positions flags N 5 grid part NumPart interpolated_values
  else Ok interpolated_values.

(** [interpolation_order_from_name(density_assignment_method)]: the order of
    the method, and an abort on an unknown name. *)
Definition interpolation_order_from_name (density_assignment_method : string) : result Z :=
  if String.eqb density_assignment_method "NGP" then Ok 1
  else if String.eqb density_assignment_method "CIC" then Ok 2
  else if String.eqb density_assignment_method "TSC" then Ok 3
  else if String.eqb density_assignment_method "PCS" then Ok 4
  else if String.eqb density_assignment_method "PQS" then Ok 5
  else AssertionFailed "[interpolation_order_from_name] Unknown density assignment method".

End INTERPOLATION.

Module FOF.

(** A particle as the halo finder sees it.  The mass and the velocity are
    optional methods of the particle class. *)
Record Particle : Type := mkParticle {
  get_pos : list Q;
  get_vel : option (list Q);
  get_mass : option Q
}.

(** Modelled from the spec: [FML::PARTICLE::GetMass] of
    FML/ParticleTypes/ReflectOnParticleMethods.h is not among the sources;
    the mass of the particle, and unit mass when the particle has none. *)
Definition GetMass (particle : Particle) : Q :=
  match get_mass particle with
  | Some m => m
  | None => 1%Q
  end.

(** Modelled from the spec: [FML::PARTICLE::GetPos], the position array. *)
Definition GetPos (particle : Particle) : list Q := get_pos particle.

Definition qat (v : list Q) (idim : nat) : Q := nth idim v 0%Q.

(** [class FoFHalo<T, NDIM>] *)
Record FoFHalo : Type := mkFoFHalo {
  id : Z;
  np : nat;
  mass : Q;
  pos : list Q;
  vel : list Q;
  vel2 : Q;
  shared : bool;
  merged : bool
}.

(** [FoFHalo(_id, _shared)]: the arrays [pos] and [vel] have no initializer,
    their content is whatever [pos0] and [vel0] the storage holds. *)
Definition FoFHalo_new (_id : Z) (_shared : bool) (pos0 vel0 : list Q) : FoFHalo :=
  {| id := _id; np := 0; mass := 0; pos := pos0; vel := vel0; vel2 := 0;
     shared := _shared; merged := false |}.

(** The minimum image of a difference and the wrap of a position. *)
Definition minimum_image (periodic : bool) (dx : Q) : Q :=
  if periodic then
    let dx := if Qltb dx (- (1#2)) then (dx + 1)%Q else dx in
    if Qle_bool (1#2) dx then (dx - 1)%Q else dx
  else dx.

Definition wrap_position (periodic : bool) (p : Q) : Q :=
  if periodic then
    let p := if Qltb p 0 then (p + 1)%Q else p in
    if Qle_bool 1 p then (p - 1)%Q else p
  else p.

(** [add(particle, periodic)] *)
Definition add (NDIM : nat) (h : FoFHalo) (particle : Particle) (periodic : bool) : FoFHalo :=
  let _mass := GetMass particle in
  let _pos := GetPos particle in
  let h :=
    if (np h =? 0)%nat then
      {| id := id h; np := np h; mass := 0;
         pos := repeat 0%Q NDIM; vel := repeat 0%Q NDIM; vel2 := 0;
         shared := shared h; merged := merged h |}
    else h in
  let new_pos :=
    map (fun idim =>
           let dx := minimum_image periodic (qat _pos idim - qat (pos h) idim) in
           wrap_position periodic (qat (pos h) idim + dx * _mass / (mass h + _mass))%Q)
        (seq 0 NDIM) in
  let '(new_vel, v2) :=
    match get_vel particle with
    | Some _vel =>
        let new_vel :=
          map (fun idim =>
                 ((qat (vel h) idim * mass h + qat _vel idim * _mass) / (mass h + _mass))%Q)
              (seq 0 NDIM) in
        (new_vel, fold_left (fun v2 v => (v2 + v * v)%Q) new_vel 0%Q)
    | None => (vel h, 0%Q)
    end in
  {| id := id h;
     np := S (np h);
     mass := (mass h + _mass)%Q;
     pos := new_pos;
     vel := new_vel;
     vel2 := ((vel2 h * mass h + _mass * v2) / (mass h + _mass))%Q;
     shared := shared h;
     merged := merged h |}.

(** [merge(g, periodic)]: the halo and the halo [g] after the call. *)
Definition merge (NDIM : nat) (h g : FoFHalo) (periodic : bool) : result (FoFHalo * FoFHalo) :=
  if (np g =? 0)%nat then Ok (h, g)
  else
    (if (np h =? 0)%nat then AssertionFailed "assert(false)" else Ok tt) ;;;
    let new_pos :=
      map (fun idim =>
             let dx := minimum_image periodic (qat (pos g) idim - qat (pos h) idim) in
             wrap_position periodic (qat (pos h) idim + dx * mass g / (mass h + mass g))%Q)
          (seq 0 NDIM) in
    let new_vel :=
      map (fun idim =>
             ((qat (vel h) idim * mass h + qat (vel g) idim * mass g) / (mass h + mass g))%Q)
          (seq 0 NDIM) in
    Ok ({| id := id h;
           np := np h + np g;
           mass := mass h;
           pos := new_pos;
           vel := new_vel;
           vel2 := ((vel2 h * mass h + vel2 g * mass g) / (mass h + mass g))%Q;
           shared := shared h;
           merged := merged h |},
        {| id := id g; np := 0; mass := mass g; pos := pos g; vel := vel g;
           vel2 := vel2 g; shared := shared g; merged := merged g |}).

(** The halo that results from adding the particles of a list in turn. *)
Definition add_all (NDIM : nat) (h : FoFHalo) (particles : list Particle) (periodic : bool)
  : FoFHalo :=
  fold_left (fun h particle => add NDIM h particle periodic) particles h.

(** The sum of the masses and the mass-weighted sum of the positions on an
    axis: what the claims about a halo are measured against. *)
Definition total_mass (particles : list Particle) : Q :=
  fold_right (fun particle s => (GetMass particle + s)%Q) 0%Q particles.

Definition mass_weighted_sum (idim : nat) (particles : list Particle) : Q :=
  fold_right (fun particle s => (GetMass particle * qat (GetPos particle) idim + s)%Q)
             0%Q particles.

End FOF.

(** ** The example program of the halo finder *)

Module FOF_EXAMPLE.

(** FML/FriendsOfFriends/example/Main.cpp, the loop that scales a coordinate
    read from the file to the unit box:
    [x /= box; if (x < 0.0) x += 1.0; if (x >= 1.0) x -= 1.0;]. *)
Definition scale_to_unit_box (box x : Q) : Q :=
  let x := (x / box)%Q in
  let x := if Qltb x 0 then (x + 1)%Q else x in
  if Qle_bool 1 x then (x - 1)%Q else x.

End FOF_EXAMPLE.

(** ** The quantities the specification speaks of *)

Module SPEC.
Import GRID.

(** The real linear index of the specification, section 4.A:
    [(((... (c0 + gL) * M + c1) * M + c2) ...) * (2 * (M/2+1)) + c_{N-1}]. *)
Definition idx_real (gL M : Z) (coord : list Z) : Z :=
  match coord with
  | [] => 0
  | c0 :: rest =>
      fold_left (fun acc c => acc * M + c) (removelast rest) (c0 + gL)
      * (2 * (M / 2 + 1)) + last rest 0
  end.






(** The required ghost widths of section 4.E: at least [p/2] on each side,
    and one more on the right for an odd order. *)
Definition ghost_widths_as_specified (p : Z) (widths : Z * Z) : Prop :=
  p / 2 <= fst widths /\ p / 2 <= snd widths /\
  (Z.odd p = true -> snd widths = p / 2 + 1).

End SPEC.

(** ** Well-formed grids *)

Import GRID.

(** The slice size the constructors compute. *)
Definition slice_shape (N : nat) (g : FFTWGrid) : Prop :=
  NmeshTotRealSlice g = 2 * ((Nmesh g ÷ 2 + 1) * power (Nmesh g) (Z.of_nat N - 2)).

(** Two grids that differ by the content of the storage only. *)
Definition same_shape (g g' : FFTWGrid) : Prop :=
  with_memory g (fun _ => 0%Q) = with_memory g' (fun _ => 0%Q).

(** The tasks of a world hold grids of one size: what the exchange of the
    slices reads of a grid. *)
Definition exchange_shape (g : FFTWGrid) : Z * Z * Z * Z :=
  (NmeshTotRealSlice g, n_extra_x_slices_left g, n_extra_x_slices_right g, Local_nx g).

Definition uniform (w : world) : Prop :=
  forall g g', In g w -> In g' w -> exchange_shape g = exchange_shape g'.






(** ** Sums *)

(** The sum of [f] over a list of integers. *)
Definition qsum (f : Z -> Q) (l : list Z) : Q :=
  fold_right (fun i s => (f i + s)%Q) 0%Q l.

(** The product of the sums over [0 .. p-1] of the functions of a list. *)
Definition qprod_of_sums (p : Z) (fs : list (Z -> Q)) : Q :=
  fold_right (fun f w => (qsum f (zseq 0 (Z.to_nat p)) * w)%Q) 1%Q fs.

(** The weight of the neighbour cell [i] of a stencil of width [p], from the
    weights [fs] of the offsets on each axis: the offset on the first axis
    is the last digit of [i] in base [p]. *)
Fixpoint weight_of_cell (p : Z) (fs : list (Z -> Q)) (i : Z) : Q :=
  match fs with
  | [] => 1%Q
  | f :: fs' => (f (Z.rem i p) * weight_of_cell p fs' (i ÷ p))%Q
  end.

(** The weight that [stencil_cell] gives to the offset [j] on the axis
    [idim]. *)
Definition axis_weight (flags : BuildFlags) (ORDER : Z) (x : list Q) (xstart : list Z)
  (idim : nat) (j : Z) : Q :=
  let go_left_right_or_stay := if ORDER =? 1 then 0 else at_ xstart idim + j in
  if CELLCENTERSHIFTED flags
  then INTERPOLATION.kernel ORDER (Qabs (- INTERPOLATION.qat x idim + inject_Z go_left_right_or_stay + (1#2)))
  else INTERPOLATION.kernel ORDER (Qabs (- INTERPOLATION.qat x idim + inject_Z go_left_right_or_stay)).

(** ** Halos *)

(** The state of a halo that holds the particles [ps]: their number, the sum
    of their masses and, on every axis, their centre of mass (the centre
    times the mass is the mass-weighted sum of the positions). *)
Definition halo_holds (NDIM : nat) (h : FOF.FoFHalo) (ps : list FOF.Particle) : Prop :=
  FOF.np h = List.length ps
  /\ (FOF.mass h == FOF.total_mass ps)%Q
  /\ forall idim, (idim < NDIM)%nat ->
       (FOF.qat (FOF.pos h) idim * FOF.mass h == FOF.mass_weighted_sum idim ps)%Q.

(** The velocity of a particle that has one, and the mass-weighted sum of
    the velocities on an axis. *)
Definition velocity_of (particle : FOF.Particle) : list Q :=
  match FOF.get_vel particle with
  | Some v => v
  | None => []
  end.

Definition mass_weighted_velocity_sum (idim : nat) (ps : list FOF.Particle) : Q :=
  fold_right (fun particle s =>
                (FOF.GetMass particle * FOF.qat (velocity_of particle) idim + s)%Q)
             0%Q ps.

(** ** Active cells *)

(** The place in the real view, counted from the first owned cell, of the
    [n]-th active cell: the rows of [M] cells are [2*(M/2+1)] reals apart.
    The cells of the left ghost slabs have the negative numbers. *)
Definition active_index (M n : Z) : Z := n + (2 * (M ÷ 2 + 1) - M) * (n / M).

(** The sum of a storage over the active cells [lo .. lo+len-1], the first
    owned cell being at the offset [base]. *)
Definition active_sum (m : memory) (base M lo : Z) (len : nat) : Q :=
  qsum (fun n => m (base + active_index M n)) (zseq lo len).

(** The number of a cell from its coordinates: the digits in base [M]. *)
Definition cell_number (M : Z) (coord : list Z) : Z :=
  fold_left (fun acc c => acc * M + c) (tl coord) (hd 0 coord).

(** ** The setting of the scatter *)

(** A corner-centered scatter of an order 2..5 in [N >= 2] dimensions on a
    mesh of [M] cells a side with the ghost widths [(gL, gR)], which are at
    least the widths the order requires and at most the [M] owned slabs. *)
Definition scatter_setting (flags : BuildFlags) (N : nat) (ORDER M gL gR : Z) : Prop :=
  CELLCENTERSHIFTED flags = false /\ (2 <= N)%nat /\ 1 <= M /\ 2 <= ORDER <= 5 /\
  fst (INTERPOLATION.get_extra_slices_needed_by_order flags ORDER) <= gL <= M /\
  snd (INTERPOLATION.get_extra_slices_needed_by_order flags ORDER) <= gR <= M.

(** A particle of the box [[0,1)^N]. *)
Definition in_box (N : nat) (p : INTERPOLATION.Particle) : Prop :=
  forall idim, (idim < N)%nat ->
    (0 <= INTERPOLATION.qat (INTERPOLATION.get_pos p) idim < 1)%Q.

(** The sum of a storage over the active cells of all the slabs, the ghost
    slabs too, of the grid [FFTWGrid<N>(M, gL, gR)] of one task. *)
Definition total_sum (N : nat) (M gL gR : Z) (m : memory) : Q :=
  active_sum m (NmeshTotRealSlice (FFTWGrid_new N M gL gR) * gL) M
    (- gL * M ^ (Z.of_nat N - 1))
    (Z.to_nat ((gL + M + gR) * M ^ (Z.of_nat N - 1))).

(** The sum over the active cells of the owned slabs. *)
Definition owned_sum (N : nat) (M gL gR : Z) (m : memory) : Q :=
  active_sum m (NmeshTotRealSlice (FFTWGrid_new N M gL gR) * gL) M
    0 (Z.to_nat (M * M ^ (Z.of_nat N - 1))).

(** ** The cells of the Fourier grid *)

(** The coordinate tuples of the cells of the main Fourier grid: the last
    axis has [Nmesh/2+1] cells. *)
Definition fourier_cell (N : nat) (g : FFTWGrid) (coord : list Z) : Prop :=
  List.length coord = N /\
  0 <= at_ coord 0 < Local_nx g /\
  (forall k, (1 <= k < N - 1)%nat -> 0 <= at_ coord k < Nmesh g) /\
  0 <= at_ coord (N - 1) < Nmesh g ÷ 2 + 1.

Definition sum_of_squares (kvec : list Q) : Q :=
  fold_right (fun k acc => k * k + acc)%Q 0%Q kvec.

(** The wave number of the coordinate [i] on a mesh of [M] cells a side. *)
Definition wave_number (M i : Z) : Z := if i <=? M ÷ 2 then i else i - M.

(** ** Grids that fit in [int] *)

(** The whole storage of the grid has at most [INT_MAX] reals, counted with
    rows of [Nmesh + 2] reals, which are at least the padded rows of
    [2*(Nmesh/2+1)]: then no [int] of the index arithmetic of the real grid
    overflows (on one task without extra slices this is [Nmesh <= 1289]
    in three dimensions). *)
Definition grid_fits_int (N : nat) (g : FFTWGrid) : Prop :=
  0 <= n_extra_x_slices_left g /\ 0 <= Local_nx g /\ 0 <= n_extra_x_slices_right g /\
  (Nmesh g + 2) * Nmesh g ^ (Z.of_nat N - 2)
  * (n_extra_x_slices_left g + Local_nx g + n_extra_x_slices_right g) <= INT_MAX.

(** The Fourier grid of the whole mesh has at most [INT_MAX] cells: then no
    [int] of the index arithmetic of the Fourier grid overflows (in three
    dimensions this is [Nmesh <= 1625]). *)
Definition fourier_fits_int (N : nat) (g : FFTWGrid) : Prop :=
  0 <= Local_nx g <= Nmesh g /\
  (Nmesh g ÷ 2 + 1) * Nmesh g ^ (Z.of_nat N - 1) <= INT_MAX.

(** No [int] of the arithmetic of the real grid overflows: the range over
    the active cells and its loop, the [int]s [num_cells_slice],
    [n_extra_left] and [n_extra_right] of
    [add_contribution_from_extra_slices], [get_coord_from_index] on the
    indices of the storage, [get_index_real] on the cells of the
    addressable region. *)
Definition real_grid_in_int (N : nat) (g : FFTWGrid) : Prop :=
  get_real_range_in_int g
  /\ range_for_in_int (get_real_range g)
  /\ (in_int (NmeshTotRealSlice g) /\ in_int (n_extra_x_slices_left g)
      /\ in_int (n_extra_x_slices_right g))
  /\ (forall index,
        - NmeshTotRealSlice g * n_extra_x_slices_left g <= index
        < NmeshTotRealSlice g * (Local_nx g + n_extra_x_slices_right g) ->
        get_coord_from_index_in_int N g index)
  /\ (forall coord, List.length coord = N ->
        - n_extra_x_slices_left g <= at_ coord 0 < Local_nx g + n_extra_x_slices_right g ->
        (forall k, (1 <= k < N)%nat -> 0 <= at_ coord k < Nmesh g) ->
        get_index_real_in_int N g coord).

(** No [int] of the arithmetic of the Fourier grid overflows:
    [get_index_fourier] on the cells of the grid, and
    [get_fourier_coord_from_index] and the wave vector of an index on the
    indices of the range over the Fourier cells. *)
Definition fourier_grid_in_int (N : nat) (g : FFTWGrid) : Prop :=
  (forall coord, fourier_cell N g coord -> get_index_fourier_in_int N g coord)
  /\ (forall index,
        0 <= index < power (Nmesh g) (Z.of_nat N - 2) * (Nmesh g ÷ 2 + 1) * Local_nx g ->
        get_fourier_coord_from_index_in_int N g index
        /\ get_fourier_wavevector_from_index_in_int N g index).

(** * Properties *)

Import INTERPOLATION.

#[local] Arguments Z.mul : simpl never.
#[local] Arguments Z.add : simpl never.
#[local] Arguments Z.sub : simpl never.
#[local] Arguments Z.pow : simpl never.
#[local] Arguments Z.quot : simpl never.
#[local] Arguments Z.rem : simpl never.

(** ** Lists of integers and runs of stores *)

Lemma zseq_S from len : zseq from (S len) = zseq from len ++ [from + Z.of_nat len].
Proof. unfold zseq. rewrite seq_S, map_app. reflexivity. Qed.

Lemma zseq_length from len : List.length (zseq from len) = len.
Proof. unfold zseq. rewrite length_map, length_seq. reflexivity. Qed.

Lemma zseq_In from len i : In i (zseq from len) <-> from <= i < from + Z.of_nat len.
Proof.
  unfold zseq. rewrite in_map_iff. split.
  - intros [k [<- Hk]]. apply in_seq in Hk. lia.
  - intros H. exists (Z.to_nat (i - from)). split; [lia|]. apply in_seq. lia.
Qed.

Lemma zseq_nth from len k d : (k < len)%nat -> nth k (zseq from len) d = from + Z.of_nat k.
Proof.
  intros H. unfold zseq.
  rewrite (nth_indep _ d (from + Z.of_nat 0)) by (rewrite length_map, length_seq; exact H).
  rewrite (map_nth (fun k => from + Z.of_nat k)). rewrite seq_nth by exact H. reflexivity.
Qed.

Lemma andb_range lo hi a : lo <= a < hi -> (lo <=? a) && (a <? hi) = true.
Proof. intros H. apply andb_true_iff. split; [apply Z.leb_le | apply Z.ltb_lt]; lia. Qed.

Lemma andb_range_out lo hi a : ~ (lo <= a < hi) -> (lo <=? a) && (a <? hi) = false.
Proof.
  intros H. apply andb_false_iff.
  destruct (Z_le_gt_dec lo a); [right; apply Z.ltb_ge | left; apply Z.leb_gt]; lia.
Qed.

(** A run of stores at [base + i], for [i] from [from] on, read back. *)
Lemma fold_store_zseq (f : Z -> Q) base from len m a :
  fold_left (fun m i => store m (base + i) (f i)) (zseq from len) m a =
  if (base + from <=? a) && (a <? base + from + Z.of_nat len) then f (a - base) else m a.
Proof.
  induction len as [|len IH].
  - cbn [zseq seq map fold_left]. rewrite andb_range_out by lia. reflexivity.
  - rewrite zseq_S, fold_left_app. cbn [fold_left]. unfold store at 1.
    rewrite IH.
    destruct (a =? base + (from + Z.of_nat len)) eqn:E.
    + apply Z.eqb_eq in E. rewrite andb_range by lia. f_equal. lia.
    + apply Z.eqb_neq in E.
      destruct (Z_le_gt_dec (base + from) a) as [H1|H1];
        [destruct (Z_lt_ge_dec a (base + from + Z.of_nat len)) as [H2|H2]|].
      * rewrite !andb_range by lia. reflexivity.
      * rewrite !andb_range_out by lia. reflexivity.
      * rewrite !andb_range_out by lia. reflexivity.
Qed.

(** ** The range over the active real cells *)

Lemma it_advance_S n it : it_advance (S n) it = it_incr (it_advance n it).
Proof.
  revert it. induction n as [|n IH]; intros it; [reflexivity|].
  change (it_advance (S (S n)) it) with (it_advance (S n) (it_incr it)).
  rewrite IH. reflexivity.
Qed.

(** The padding of a row: two lanes for an even mesh, one for an odd mesh. *)
Lemma padding_cases M : 1 <= M ->
  (if Z.rem M 2 =? 0 then 2 else 1) = 2 * (M ÷ 2 + 1) - M.
Proof.
  intros HM.
  pose proof (Z.quot_rem M 2 ltac:(lia)) as E.
  pose proof (Z.rem_bound_pos M 2 ltac:(lia) ltac:(lia)) as B.
  destruct (Z.rem M 2 =? 0) eqn:H; [apply Z.eqb_eq in H | apply Z.eqb_neq in H]; lia.
Qed.

Lemma div_succ M n : 1 <= M -> 0 <= n ->
  (n + 1) / M = n / M + (if Z.rem (n + 1) M =? 0 then 1 else 0).
Proof.
  intros HM Hn.
  rewrite Z.rem_mod_nonneg by lia.
  pose proof (Z.div_mod n M ltac:(lia)) as E1.
  pose proof (Z.mod_pos_bound n M ltac:(lia)) as B1.
  pose proof (Z.div_mod (n + 1) M ltac:(lia)) as E2.
  pose proof (Z.mod_pos_bound (n + 1) M ltac:(lia)) as B2.
  destruct ((n + 1) mod M =? 0) eqn:H; [apply Z.eqb_eq in H | apply Z.eqb_neq in H]; nia.
Qed.

Lemma it_advance_begin M to n : 1 <= M ->
  it_advance n (RealRange_begin (mkRealRange 0 to M)) =
  {| it_index := Z.of_nat n;
     it_real_index := Z.of_nat n + (2 * (M ÷ 2 + 1) - M) * (Z.of_nat n / M);
     it_Nmesh := M; it_odd := Z.rem M 2 |}.
Proof.
  intros HM. rewrite <- (padding_cases M HM). induction n as [|n IH].
  - cbn [it_advance]. unfold RealRange_begin, LoopIteratorReal_new.
    cbn [rr_from rr_Nmesh]. rewrite Z.quot_0_l by lia. rewrite Zdiv_0_l. f_equal; lia.
  - rewrite it_advance_S, IH. unfold it_incr.
    cbn [it_index it_real_index it_Nmesh it_odd].
    rewrite Nat2Z.inj_succ. unfold Z.succ.
    rewrite (div_succ M (Z.of_nat n)) by lia.
    generalize (Z.of_nat n / M) as q; intros q.
    destruct (Z.rem (Z.of_nat n + 1) M =? 0); destruct (Z.rem M 2 =? 0); f_equal; lia.
Qed.

(** The loop over a range from 0 ends, and visits the values of the
    iterator in turn. *)
Lemma range_for_begin M to fuel k : 1 <= M -> 0 <= to ->
  (k + fuel = Z.to_nat to)%nat ->
  range_for fuel (it_advance k (RealRange_begin (mkRealRange 0 to M)))
            (RealRange_end (mkRealRange 0 to M)) =
  Some (map (fun n => Z.of_nat n + (2 * (M ÷ 2 + 1) - M) * (Z.of_nat n / M)) (seq k fuel)).
Proof.
  intros HM Hto. revert k. induction fuel as [|fuel IH]; intros k Hk.
  - cbn [range_for seq map]. rewrite it_advance_begin by assumption.
    unfold it_neq, RealRange_end, LoopIteratorReal_new. cbn [it_index rr_to].
    replace (Z.of_nat k =? to) with true; [reflexivity|].
    symmetry. apply Z.eqb_eq. lia.
  - cbn [range_for]. rewrite <- it_advance_S, IH by lia.
    rewrite it_advance_begin by assumption.
    unfold it_neq, RealRange_end, LoopIteratorReal_new, it_deref.
    cbn [it_index it_real_index rr_to].
    replace (Z.of_nat k =? to) with false; [reflexivity|].
    symmetry. apply Z.eqb_neq. lia.
Qed.

(** ** Values that fit in an [int] *)

Lemma in_int_between lo hi x : in_int lo -> in_int hi -> lo <= x <= hi -> in_int x.
Proof. unfold in_int. lia. Qed.

Lemma in_int_range x : 0 <= x <= INT_MAX -> in_int x.
Proof. unfold in_int, INT_MIN, INT_MAX. lia. Qed.

Lemma in_int_abs B x : 0 <= B <= INT_MAX -> - B <= x <= B -> in_int x.
Proof. unfold in_int, INT_MIN, INT_MAX. lia. Qed.

(** The padded length of a row: at least [Nmesh], at most [Nmesh + 2]. *)
Lemma padded_row M : 1 <= M -> 1 <= M ÷ 2 + 1 <= M /\ M < 2 * (M ÷ 2 + 1) <= M + 2.
Proof.
  intros HM. pose proof (Z.quot_rem M 2 ltac:(lia)) as E.
  pose proof (Z.rem_bound_pos M 2 ltac:(lia) ltac:(lia)) as B.
  assert (0 <= M ÷ 2) by (apply Z.quot_pos; lia). lia.
Qed.

(** The fields of the iterator after [n] increments are representable when
    its value is. *)
Lemma it_advance_in_int M to n : 1 <= M -> M <= INT_MAX ->
  Z.of_nat n + (2 * (M ÷ 2 + 1) - M) * (Z.of_nat n / M) <= INT_MAX ->
  forall k : nat, (k <= n)%nat ->
    it_in_int (it_advance k (RealRange_begin (mkRealRange 0 to M))).
Proof.
  intros HM HI Hn k Hk. rewrite it_advance_begin by exact HM.
  unfold it_in_int. cbn [it_index it_real_index it_Nmesh].
  destruct (padded_row M HM) as [_ Hp].
  assert (Hq : 0 <= Z.of_nat k / M <= Z.of_nat n / M).
  { split; [apply Z.div_pos; lia | apply Z.div_le_mono; lia]. }
  assert (Hm : (2 * (M ÷ 2 + 1) - M) * (Z.of_nat k / M)
               <= (2 * (M ÷ 2 + 1) - M) * (Z.of_nat n / M))
    by (apply Z.mul_le_mono_nonneg_l; lia).
  assert (0 <= (2 * (M ÷ 2 + 1) - M) * (Z.of_nat k / M))
    by (apply Z.mul_nonneg_nonneg; lia).
  repeat split; apply in_int_range; lia.
Qed.

(** A loop over a range from 0 whose end iterator is representable does not
    overflow. *)
Lemma range_from_zero_in_int M to : 1 <= M -> M <= INT_MAX ->
  0 <= to -> to + 2 * (to ÷ M) <= INT_MAX ->
  range_for_in_int (mkRealRange 0 to M).
Proof.
  intros HM HI Hto Hend.
  destruct (padded_row M HM) as [_ Hp].
  assert (Hq : to ÷ M = to / M) by (apply Z.quot_div_nonneg; lia).
  assert (Hq0 : 0 <= to / M) by (apply Z.div_pos; lia).
  unfold range_for_in_int. cbn [rr_from rr_to rr_Nmesh].
  split; [|split].
  - unfold LoopIteratorReal_new_in_int. rewrite Z.quot_0_l by lia.
    repeat split; apply in_int_range; unfold INT_MAX in *; lia.
  - unfold LoopIteratorReal_new_in_int. rewrite Hq in *.
    repeat split; apply in_int_range; unfold INT_MAX in *; lia.
  - intros k Hk. rewrite Z.add_0_l in Hk.
    assert (Hl : Z.of_nat (S k) + (2 * (M ÷ 2 + 1) - M) * (Z.of_nat (S k) / M) <= INT_MAX).
    { assert (Z.of_nat (S k) / M <= to / M) by (apply Z.div_le_mono; lia).
      assert (0 <= Z.of_nat (S k) / M) by (apply Z.div_pos; lia).
      assert ((2 * (M ÷ 2 + 1) - M) * (Z.of_nat (S k) / M) <= 2 * (to / M)) by nia.
      rewrite Hq in Hend. lia. }
    split; [|rewrite <- it_advance_S];
      apply (it_advance_in_int M to (S k) HM HI Hl); lia.
Qed.


(** C4, as stated, fails on an odd mesh: with [Nmesh = 3] the rows of the
    storage are [2*(3/2+1) = 4] reals long, and the value after 3 increments
    is 4, the start of the second row, not [3 + 2*floor(3/3) = 5]. *)
Lemma real_range_odd_mesh_counterexample :
  it_deref (it_advance 3 (RealRange_begin (get_real_range (FFTWGrid_new 2 3 0 0))))
  <> 3 + 2 * (3 / 3).
Proof. vm_compute. discriminate. Qed.

(** C4, amended: for every mesh size [M >= 1] the value of the real-range
    iterator after [n] increments of [begin] is
    [n + (2*(M/2+1) - M) * floor(n/M)], as long as this value, and the
    bounds of the range, are representable in the [int] fields of the
    iterator and of the range, which then do not overflow on the way: the iterator skips the padding at the end of every
    row of [M] cells, two lanes when [M] is even and one lane when [M] is
    odd, so that the rows start at the multiples of [2*(M/2+1)]; and the loop
    over the range [0 .. to) visits these values for [n = 0 .. to-1] and
    ends, without an overflow, when [to + 2*(to/M)], which the constructor
    of the end iterator computes, is representable. *)
Theorem real_range_iterator_values (M to : Z) (n : nat) :
  1 <= M -> M <= INT_MAX -> in_int to ->
  Z.of_nat n + (2 * (M ÷ 2 + 1) - M) * (Z.of_nat n / M) <= INT_MAX ->
  let value := it_deref (it_advance n (RealRange_begin (mkRealRange 0 to M))) in
  (forall k : nat, (k <= n)%nat ->
     it_in_int (it_advance k (RealRange_begin (mkRealRange 0 to M))))
  /\ value = Z.of_nat n + (2 * (M ÷ 2 + 1) - M) * (Z.of_nat n / M)
  /\ (Z.even M = true -> value = Z.of_nat n + 2 * (Z.of_nat n / M))
  /\ (Z.odd M = true -> value = Z.of_nat n + Z.of_nat n / M)
  /\ (Z.of_nat n mod M = 0 -> value = Z.of_nat n / M * (2 * (M ÷ 2 + 1)))
  /\ (0 <= to -> to + 2 * (to ÷ M) <= INT_MAX ->
      range_for_in_int (mkRealRange 0 to M)
      /\ range_for (Z.to_nat to) (RealRange_begin (mkRealRange 0 to M))
                   (RealRange_end (mkRealRange 0 to M))
         = Some (map (fun n => Z.of_nat n + (2 * (M ÷ 2 + 1) - M) * (Z.of_nat n / M))
                     (seq 0 (Z.to_nat to)))).
Proof.
  intros HM HI _ Hn value. subst value.
  split; [exact (it_advance_in_int M to n HM HI Hn)|].
  rewrite it_advance_begin by exact HM.
  unfold it_deref. cbn [it_real_index].
  pose proof (Z.quot_rem M 2 ltac:(lia)) as E.
  pose proof (Z.rem_bound_pos M 2 ltac:(lia) ltac:(lia)) as B.
  split; [reflexivity|].
  split; [|split; [|split]].
  - intros Hev. apply Z.even_spec in Hev. destruct Hev as [h Hh].
    replace (2 * (M ÷ 2 + 1) - M) with 2 by lia. reflexivity.
  - intros Hodd. apply Z.odd_spec in Hodd. destruct Hodd as [h Hh].
    replace (2 * (M ÷ 2 + 1) - M) with 1 by lia. lia.
  - intros Hrow.
    pose proof (Z.div_mod (Z.of_nat n) M ltac:(lia)) as D. rewrite Hrow in D.
    generalize dependent (Z.of_nat n / M). intros q _ D. rewrite D at 1. ring.
  - intros Hto Hend.
    split; [exact (range_from_zero_in_int M to HM HI Hto Hend)|].
    apply (range_for_begin M to (Z.to_nat to) 0 HM Hto). lia.
Qed.

Lemma real_range_iterator_values_witness :
  1 <= 4 /\ 4 <= INT_MAX /\ in_int 16 /\
  Z.of_nat 5 + (2 * (4 ÷ 2 + 1) - 4) * (Z.of_nat 5 / 4) <= INT_MAX /\
  let value := it_deref (it_advance 5 (RealRange_begin (mkRealRange 0 16 4))) in
  (forall k : nat, (k <= 5)%nat ->
     it_in_int (it_advance k (RealRange_begin (mkRealRange 0 16 4))))
  /\ value = Z.of_nat 5 + (2 * (4 ÷ 2 + 1) - 4) * (Z.of_nat 5 / 4)
  /\ (Z.even 4 = true -> value = Z.of_nat 5 + 2 * (Z.of_nat 5 / 4))
  /\ (Z.odd 4 = true -> value = Z.of_nat 5 + Z.of_nat 5 / 4)
  /\ (Z.of_nat 5 mod 4 = 0 -> value = Z.of_nat 5 / 4 * (2 * (4 ÷ 2 + 1)))
  /\ (0 <= 16 -> 16 + 2 * (16 ÷ 4) <= INT_MAX ->
      range_for_in_int (mkRealRange 0 16 4)
      /\ range_for (Z.to_nat 16) (RealRange_begin (mkRealRange 0 16 4))
                   (RealRange_end (mkRealRange 0 16 4))
         = Some (map (fun n => Z.of_nat n + (2 * (4 ÷ 2 + 1) - 4) * (Z.of_nat n / 4))
                     (seq 0 (Z.to_nat 16)))).
Proof.
  assert (H1 : 4 <= INT_MAX) by (vm_compute; congruence).
  assert (H2 : Z.of_nat 5 + (2 * (4 ÷ 2 + 1) - 4) * (Z.of_nat 5 / 4) <= INT_MAX)
    by (vm_compute; congruence).
  assert (H3 : in_int 16) by (vm_compute; split; congruence).
  split; [lia|]. split; [exact H1|]. split; [exact H3|]. split; [exact H2|].
  apply (real_range_iterator_values 4 16 5 ltac:(lia) H1 H3 H2).
Defined.

(** Beyond the bound the range of a grid is not the range of its cells:
    on [FFTWGrid<3>(2048)] the number of cells, [NmeshTotReal = 2^33], is
    handed to [RealRange(int, int, int)], and a 32-bit [int] keeps 0 of
    it. *)
Remark real_range_of_a_large_grid :
  let g := FFTWGrid_new 3 2048 0 0 in
  NmeshTotReal g = 2 ^ 33
  /\ ~ get_real_range_in_int g
  /\ wrap_int (NmeshTotReal g) = 0.
Proof.
  intros g. split; [vm_compute; reflexivity|]. split; [|vm_compute; reflexivity].
  intros [[_ H] _]. vm_compute in H. apply H. reflexivity.
Qed.

(** ** Index algebra *)

Lemma horner_shift M l a b :
  fold_left (fun acc c => acc * M + c) l (a + b) =
  fold_left (fun acc c => acc * M + c) l a + b * M ^ Z.of_nat (List.length l).
Proof.
  revert a b. induction l as [|c l IH]; intros a b.
  - cbn [fold_left List.length Z.of_nat]. rewrite Z.pow_0_r. lia.
  - cbn [fold_left List.length].
    replace ((a + b) * M + c) with ((a * M + c) + b * M) by lia.
    rewrite IH. rewrite Nat2Z.inj_succ, Z.pow_succ_r by lia. lia.
Qed.

Lemma horner_seq M coord s k a :
  (s + k <= List.length coord)%nat ->
  fold_left (fun index idim => index * M + at_ coord idim) (seq s k) a =
  fold_left (fun acc c => acc * M + c) (firstn k (skipn s coord)) a.
Proof.
  revert s a. induction k as [|k IH]; intros s a H.
  - reflexivity.
  - cbn [seq fold_left].
    destruct (skipn s coord) as [|c rest] eqn:E.
    + exfalso. assert (L : List.length (skipn s coord) = 0%nat) by (rewrite E; reflexivity).
      rewrite length_skipn in L. lia.
    + cbn [firstn fold_left].
      assert (Hc : at_ coord s = c).
      { unfold at_. rewrite <- (firstn_skipn s coord) at 1.
        rewrite app_nth2; rewrite length_firstn; [|lia].
        replace (s - Nat.min s (List.length coord))%nat with 0%nat by lia.
        rewrite E. reflexivity. }
      rewrite Hc, IH by lia.
      replace (skipn (S s) coord) with rest; [reflexivity|].
      change (S s) with (1 + s)%nat. rewrite <- skipn_skipn, E. reflexivity.
Qed.

Lemma removelast_firstn_len {A} (l : list A) :
  removelast l = firstn (List.length l - 1) l.
Proof.
  induction l as [|a l IH]; [reflexivity|].
  destruct l as [|b l]; [reflexivity|].
  cbn [removelast List.length] in *. rewrite IH.
  replace (S (S (List.length l)) - 1)%nat with (S (List.length l - 0)) by lia.
  cbn [firstn]. rewrite Nat.sub_0_r.
  replace (S (List.length l) - 1)%nat with (List.length l) by lia. reflexivity.
Qed.

Lemma last_nth {A} (l : list A) d : last l d = nth (List.length l - 1) l d.
Proof.
  induction l as [|a l IH]; [reflexivity|].
  destruct l as [|b l]; [reflexivity|].
  cbn [last List.length] in *. rewrite IH.
  replace (S (S (List.length l)) - 1)%nat with (S (List.length l)) by lia.
  replace (S (List.length l) - 1)%nat with (List.length l) by lia. reflexivity.
Qed.

(** The index of the code, moved by the left ghost slabs, is the index of the
    specification. *)
Lemma index_real_spec N g coord index :
  (2 <= N)%nat -> List.length coord = N -> 0 <= Nmesh g -> slice_shape N g ->
  get_index_real default_flags N g coord = Ok index ->
  real_cell_address g index = SPEC.idx_real (n_extra_x_slices_left g) (Nmesh g) coord.
Proof.
  intros HN Hlen HM Hshape.
  unfold real_cell_address. rewrite Hshape. unfold power.
  assert (Hq : Nmesh g / 2 = Nmesh g ÷ 2) by (symmetry; apply Z.quot_div_nonneg; lia).
  unfold SPEC.idx_real. rewrite Hq. clear Hq.
  unfold get_index_real, get_index_real_2d, get_index_real_3d.
  cbn [BOUNDSCHECK_FFTWGRID default_flags bind].
  destruct (N =? 2)%nat eqn:E2.
  { apply Nat.eqb_eq in E2. subst N.
    destruct coord as [|c0 [|c1 [|? ?]]]; try discriminate.
    intros H; injection H as <-.
    replace (Z.of_nat (List.length [c0; c1]) - 2) with 0 by reflexivity.
    rewrite Z.pow_0_r. unfold at_. cbn [nth fold_left removelast last]. lia. }
  destruct (N =? 3)%nat eqn:E3.
  { apply Nat.eqb_eq in E3. subst N.
    destruct coord as [|c0 [|c1 [|c2 [|? ?]]]]; try discriminate.
    intros H; injection H as <-.
    replace (Z.of_nat (List.length [c0; c1; c2]) - 2) with 1 by reflexivity.
    rewrite Z.pow_1_r. unfold at_. cbn [nth fold_left removelast last]. lia. }
  intros H; injection H as <-.
  rewrite horner_seq by lia.
  destruct coord as [|c0 rest]; [cbn in Hlen; lia|].
  cbn [List.length] in Hlen.
  rewrite horner_shift.
  rewrite removelast_firstn_len, last_nth.
  change (skipn 1 (c0 :: rest)) with rest.
  change (at_ (c0 :: rest) 0) with c0.
  replace (List.length rest - 1)%nat with (N - 2)%nat by lia.
  rewrite length_firstn. replace (Nat.min (N - 2) (List.length rest)) with (N - 2)%nat by lia.
  replace (Z.of_nat (N - 2)) with (Z.of_nat N - 2) by lia.
  unfold at_. replace (N - 1)%nat with (S (N - 2)) by lia.
  change (nth (S (N - 2)) (c0 :: rest) 0) with (nth (N - 2) rest 0).
  generalize (Nmesh g ^ (Z.of_nat N - 2)) as P. intros P. ring.
Qed.

Lemma for_each_asserts (P : nat -> bool) msg l :
  (forall k, In k l -> P k = true) ->
  for_each (fun (_ : unit) k => assert_mpi (P k) msg) l tt = Ok tt.
Proof.
  induction l as [|k l IH]; intros H; [reflexivity|].
  cbn [for_each]. rewrite (H k (or_introl eq_refl)). cbn [assert_mpi bind].
  apply IH. intros k' Hk'. apply H. right. exact Hk'.
Qed.

(** The bounds checks pass on the coordinates of the addressable region. *)
Lemma get_index_real_checked flags N g coord :
  (2 <= N)%nat -> List.length coord = N ->
  - n_extra_x_slices_left g <= at_ coord 0 < Local_nx g + n_extra_x_slices_right g ->
  (forall k, (1 <= k < N)%nat -> 0 <= at_ coord k < Nmesh g) ->
  get_index_real flags N g coord = get_index_real default_flags N g coord.
Proof.
  intros HN Hlen H0 Hk.
  unfold get_index_real, get_index_real_2d, get_index_real_3d.
  cbn [BOUNDSCHECK_FFTWGRID default_flags].
  destruct (BOUNDSCHECK_FFTWGRID flags); [|reflexivity].
  rewrite Hlen, Nat.eqb_refl. cbn [assert_mpi bind].
  destruct (N =? 2)%nat eqn:E2.
  { apply Nat.eqb_eq in E2. subst N.
    rewrite (andb_range _ _ _ H0).
    pose proof (Hk 1%nat ltac:(lia)) as H1.
    replace (0 <=? at_ coord 1) with true by (symmetry; apply Z.leb_le; lia).
    replace (at_ coord 1 <? Nmesh g) with true by (symmetry; apply Z.ltb_lt; lia).
    reflexivity. }
  destruct (N =? 3)%nat eqn:E3.
  { apply Nat.eqb_eq in E3. subst N.
    rewrite (andb_range _ _ _ H0).
    pose proof (Hk 1%nat ltac:(lia)) as H1. pose proof (Hk 2%nat ltac:(lia)) as H2.
    replace (0 <=? at_ coord 1) with true by (symmetry; apply Z.leb_le; lia).
    replace (at_ coord 1 <? Nmesh g) with true by (symmetry; apply Z.ltb_lt; lia).
    replace (0 <=? at_ coord 2) with true by (symmetry; apply Z.leb_le; lia).
    replace (at_ coord 2 <? Nmesh g) with true by (symmetry; apply Z.ltb_lt; lia).
    reflexivity. }
  rewrite (andb_range _ _ _ H0). cbn [assert_mpi bind].
  rewrite for_each_asserts; [reflexivity|].
  intros k Hin. apply in_seq in Hin. apply andb_range. apply Hk. lia.
Qed.

Lemma get_index_real_default N g coord :
  exists index, get_index_real default_flags N g coord = Ok index.
Proof.
  unfold get_index_real, get_index_real_2d, get_index_real_3d.
  cbn [BOUNDSCHECK_FFTWGRID default_flags bind].
  destruct (N =? 2)%nat; [eexists; reflexivity|].
  destruct (N =? 3)%nat; eexists; reflexivity.
Qed.

(** ** The index arithmetic does not overflow *)

(** What a grid that fits in [int] gives, when it has a slab at all. *)
Lemma grid_fits_int_bounds N g :
  (2 <= N)%nat -> 1 <= Nmesh g -> grid_fits_int N g ->
  1 <= n_extra_x_slices_left g + Local_nx g + n_extra_x_slices_right g ->
  let T := n_extra_x_slices_left g + Local_nx g + n_extra_x_slices_right g in
  Nmesh g + 2 <= INT_MAX /\ T <= INT_MAX /\ (Nmesh g + 2) * T <= INT_MAX
  /\ (Nmesh g + 2) * Nmesh g ^ (Z.of_nat N - 2) * T <= INT_MAX
  /\ 1 <= Nmesh g ^ (Z.of_nat N - 2).
Proof.
  intros HN HM (HL & HX & HR & HB) HT T. fold T in HB.
  assert (HP : 1 <= Nmesh g ^ (Z.of_nat N - 2)).
  { assert (0 < Nmesh g ^ (Z.of_nat N - 2)) by (apply Z.pow_pos_nonneg; lia). lia. }
  set (P := Nmesh g ^ (Z.of_nat N - 2)) in *. clearbody P.
  assert ((Nmesh g + 2) * T <= (Nmesh g + 2) * P * T) by nia.
  assert (Nmesh g + 2 <= (Nmesh g + 2) * T) by nia.
  assert (T <= (Nmesh g + 2) * T) by nia.
  lia.
Qed.

(** On a grid that fits in [int], the [int] expressions of
    [get_index_real] are representable for every cell of the addressable
    region. *)
Lemma addressable_cell_in_int N g coord :
  (2 <= N)%nat -> List.length coord = N -> 1 <= Nmesh g -> grid_fits_int N g ->
  - n_extra_x_slices_left g <= at_ coord 0 < Local_nx g + n_extra_x_slices_right g ->
  (forall k, (1 <= k < N)%nat -> 0 <= at_ coord k < Nmesh g) ->
  get_index_real_in_int N g coord.
Proof.
  intros HN Hlen HM Hfit H0 Hk.
  pose proof Hfit as (HL & HX & HR & _).
  destruct (grid_fits_int_bounds N g HN HM Hfit ltac:(lia)) as (B1 & B2 & B3 & B4 & HP).
  destruct (padded_row (Nmesh g) HM) as [Hh Hp].
  set (T := n_extra_x_slices_left g + Local_nx g + n_extra_x_slices_right g) in *.
  set (M := Nmesh g) in *. set (h := M ÷ 2 + 1) in *.
  assert (HI : 0 < INT_MAX) by reflexivity.
  assert (Hc : Forall in_int coord).
  { apply Forall_forall. intros c Hin. apply (In_nth _ _ 0) in Hin.
    destruct Hin as (k & Hlt & <-). rewrite Hlen in Hlt.
    destruct k as [|k].
    - apply (in_int_abs T); [lia|]. unfold at_ in H0. lia.
    - specialize (Hk (S k) ltac:(lia)). unfold at_ in Hk. apply in_int_range. lia. }
  unfold get_index_real_in_int. fold M.
  split; [apply in_int_range; lia|]. split; [exact Hc|].
  destruct (N =? 2)%nat eqn:E2.
  { apply Nat.eqb_eq in E2. rewrite E2 in *. clear E2.
    pose proof (Hk 1%nat ltac:(lia)) as H1.
    set (c0 := at_ coord 0) in *. set (c1 := at_ coord 1) in *.
    assert (Hc0 : - T <= c0 <= T - 1) by (unfold T; lia).
    unfold get_index_real_2d_in_int. fold M h.
    assert (Hb : - (T * (2 * h)) <= c0 * 2 * h /\ c0 * 2 * h + c1 < T * (2 * h)).
    { clearbody c0 c1 T M h. nia. }
    assert (Ht : T * (2 * h) <= (M + 2) * T) by (clearbody T M h; nia).
    repeat split; try (apply (in_int_abs ((M + 2) * T)); [clearbody T M h; nia|]);
      clearbody c0 c1 T M h; nia. }
  destruct (N =? 3)%nat eqn:E3.
  { apply Nat.eqb_eq in E3. rewrite E3 in *. clear E3.
    pose proof (Hk 1%nat ltac:(lia)) as H1. pose proof (Hk 2%nat ltac:(lia)) as H2.
    set (c0 := at_ coord 0) in *. set (c1 := at_ coord 1) in *. set (c2 := at_ coord 2) in *.
    assert (Hc0 : - T <= c0 <= T - 1) by (unfold T; lia).
    change (Z.of_nat 3 - 2) with 1 in B4. rewrite Z.pow_1_r in B4. fold M in B4.
    unfold get_index_real_3d_in_int. fold M h.
    set (q := M * c0 + c1).
    assert (Hq : - (M * T) <= q <= M * T - 1) by (unfold q; clearbody c0 c1 T M h; nia).
    assert (Hq0 : - (M * T) <= M * c0 <= M * T) by (clearbody c0 c1 T M h; nia).
    assert (Hq2 : - (M * T * (2 * h)) <= q * 2 * h /\ q * 2 * h + c2 < M * T * (2 * h)).
    { clearbody q c0 c1 c2 T M h. nia. }
    assert (Ht : M * T * (2 * h) <= (M + 2) * M * T) by (clearbody T M h; nia).
    assert (Ht1 : 2 * (M * T) <= (M + 2) * M * T) by (clearbody T M h; nia).
    repeat split; try (apply (in_int_abs ((M + 2) * M * T)); [clearbody T M h; nia|]);
      clearbody q c0 c1 c2 T M h; nia. }
  split; apply in_int_range; lia.
Qed.

Lemma quot_rem_between lo hi R M :
  1 <= M -> lo <= 0 <= hi -> lo <= R <= hi ->
  lo <= R ÷ M <= hi /\ lo <= Z.rem R M <= hi
  /\ (0 <= R -> 0 <= M * (R ÷ M) <= R) /\ (R <= 0 -> R <= M * (R ÷ M) <= 0).
Proof.
  intros HM H0 HR. pose proof (Z.quot_rem' R M) as E.
  destruct (Z_le_gt_dec 0 R) as [Hp | Hn].
  - pose proof (Z.rem_bound_pos R M Hp ltac:(lia)) as Br.
    assert (Hq : 0 <= R ÷ M) by (apply Z.quot_pos; lia).
    assert (Hm : 1 * (R ÷ M) <= M * (R ÷ M)) by (apply Z.mul_le_mono_nonneg_r; lia).
    repeat split; lia.
  - pose proof (Z.rem_bound_pos_neg R M ltac:(lia) ltac:(lia)) as Br.
    assert (Hq : R ÷ M <= 0).
    { replace R with (- (- R)) by lia. rewrite Z.quot_opp_l by lia.
      assert (0 <= (- R) ÷ M) by (apply Z.quot_pos; lia). lia. }
    assert (Hm : M * (R ÷ M) <= 1 * (R ÷ M)) by (apply Z.mul_le_mono_nonpos_r; lia).
    repeat split; lia.
Qed.

Lemma Forall_vector_set {A} (P : A -> Prop) (v : list A) i a :
  Forall P v -> P a -> Forall P (vector_set v i a).
Proof.
  intros Hv Ha. revert i. induction Hv as [|b v Hb Hv IH]; intros i.
  - constructor.
  - destruct i; cbn [vector_set]; constructor; auto.
Qed.

Lemma Forall_repeat {A} (P : A -> Prop) a n : P a -> Forall P (repeat a n).
Proof. intros H. induction n; cbn [repeat]; constructor; auto. Qed.

(** The loop of [get_coord_from_index] keeps inside any range around 0
    that holds the number it starts from. *)
Lemma coord_digits_between lo hi M l :
  1 <= M -> lo <= 0 <= hi ->
  forall R coord, lo <= R <= hi -> Forall (fun c => lo <= c <= hi) coord ->
    Forall (fun c => lo <= c <= hi)
      (fst (fold_left (fun '(coord, index) idim =>
                         (vector_set coord idim (Z.rem index M), index ÷ M))
                      l (coord, R)))
    /\ lo <= snd (fold_left (fun '(coord, index) idim =>
                               (vector_set coord idim (Z.rem index M), index ÷ M))
                            l (coord, R)) <= hi.
Proof.
  intros HM H0. induction l as [|i l IH]; intros R coord HR Hc.
  - cbn [fold_left fst snd]. split; assumption.
  - cbn [fold_left].
    destruct (quot_rem_between lo hi R M HM H0 HR) as (Hq & Hr & _).
    apply IH; [exact Hq|]. apply Forall_vector_set; assumption.
Qed.

(** The coordinates that [get_coord_from_index] stores are representable
    when the index is. *)
Lemma coord_from_index_in_int N g index :
  (2 <= N)%nat -> 1 <= Nmesh g -> Nmesh g + 2 <= INT_MAX -> in_int index ->
  get_coord_from_index_in_int N g index.
Proof.
  intros HN HM HI Hindex.
  destruct (padded_row (Nmesh g) HM) as [Hh Hp].
  assert (Hz : INT_MIN <= 0 <= INT_MAX) by (unfold INT_MIN, INT_MAX; lia).
  unfold get_coord_from_index_in_int.
  split; [apply in_int_range; lia|]. split; [apply in_int_range; lia|].
  split; [apply in_int_range; lia|].
  unfold get_coord_from_index. cbn [BOUNDSCHECK_FFTWGRID default_flags bind].
  set (pad := 2 * (Nmesh g ÷ 2 + 1)) in *.
  destruct (quot_rem_between INT_MIN INT_MAX index pad ltac:(lia) Hz Hindex) as (Hq & Hr & _).
  assert (H0 : Forall in_int (vector_set (repeat 0 N) (N - 1) (Z.rem index pad)))
    by (apply Forall_vector_set; [apply Forall_repeat; exact Hz | exact Hr]).
  destruct (N =? 2)%nat; [apply Forall_vector_set; assumption|].
  destruct (N =? 3)%nat.
  { destruct (quot_rem_between INT_MIN INT_MAX (index ÷ pad) (Nmesh g) HM Hz Hq)
      as (Hq2 & Hr2 & _).
    apply Forall_vector_set; [apply Forall_vector_set|]; assumption. }
  destruct (coord_digits_between INT_MIN INT_MAX (Nmesh g) (rev (seq 1 (N - 2))) HM Hz
              (index ÷ pad) (vector_set (repeat 0 N) (N - 1) (Z.rem index pad)) Hq H0)
    as [Hb1 Hb2].
  destruct (fold_left _ _ _) as [coord' R']. cbn [fst snd] in Hb1, Hb2.
  apply Forall_vector_set; assumption.
Qed.




Lemma slice_shape_new N M gL gR : slice_shape N (FFTWGrid_new N M gL gR).
Proof. reflexivity. Qed.

(** ** FFT driver *)

Lemma restore_right_memory g right_copy :
  n_extra_x_slices_right g > 0 ->
  restore_right g right_copy =
  with_memory g
    (fold_left (fun m i => store m (get_real_grid_right g + i) (nth (Z.to_nat i) right_copy 0%Q))
               (zseq 0 (Z.to_nat (Nmesh g ÷ 2 + 1))) (fourier_grid_raw g)).
Proof.
  intros H. unfold restore_right.
  replace (n_extra_x_slices_right g >? 0) with true by (symmetry; apply Z.gtb_lt; lia).
  generalize (zseq 0 (Z.to_nat (Nmesh g ÷ 2 + 1))) as l.
  assert (G : forall l m,
    fold_left (fun g0 i => with_memory g0 (store (fourier_grid_raw g0) (get_real_grid_right g0 + i)
                                            (nth (Z.to_nat i) right_copy 0%Q))) l (with_memory g m) =
    with_memory g (fold_left (fun m i => store m (get_real_grid_right g + i)
                                            (nth (Z.to_nat i) right_copy 0%Q)) l m)).
  { induction l as [|i l IH]; intros m; [reflexivity|].
    cbn [fold_left]. exact (IH _). }
  intros l. specialize (G l (fourier_grid_raw g)).
  destruct g. exact G.
Qed.

Lemma restore_right_reads g right_copy i :
  n_extra_x_slices_right g > 0 -> 0 <= i < Nmesh g ÷ 2 + 1 ->
  fourier_grid_raw (restore_right g right_copy) (get_real_grid_right g + i) =
  nth (Z.to_nat i) right_copy 0%Q.
Proof.
  intros H Hi. rewrite restore_right_memory by assumption.
  cbn [with_memory fourier_grid_raw]. rewrite fold_store_zseq.
  rewrite andb_range by lia. do 2 f_equal. lia.
Qed.

Lemma save_right_nth g i :
  n_extra_x_slices_right g > 0 -> 0 <= i < Nmesh g ÷ 2 + 1 ->
  nth (Z.to_nat i) (save_right g) 0%Q = fourier_grid_raw g (get_real_grid_right g + i).
Proof.
  intros H Hi. unfold save_right.
  replace (n_extra_x_slices_right g >? 0) with true by (symmetry; apply Z.gtb_lt; lia).
  set (F := fun i => fourier_grid_raw g (get_real_grid_right g + i)).
  rewrite (nth_indep _ 0%Q (F 0)) by (rewrite length_map, zseq_length; lia).
  rewrite (map_nth F). rewrite zseq_nth by lia. unfold F. f_equal. lia.
Qed.

Lemma scale_fold_memory g norm l :
  exists m, fold_left (fun g index => scale_fourier_cell g index norm) l g = with_memory g m.
Proof.
  revert g. induction l as [|i l IH]; intros g.
  - exists (fourier_grid_raw g). destruct g; reflexivity.
  - cbn [fold_left]. destruct (IH (scale_fourier_cell g i norm)) as [m Hm].
    exists m. rewrite Hm. reflexivity.
Qed.

Lemma restore_right_shape g right_copy :
  exists m, restore_right g right_copy = with_memory g m.
Proof.
  destruct (Z_gt_le_dec (n_extra_x_slices_right g) 0) as [H|H].
  - eexists. apply restore_right_memory. exact H.
  - exists (fourier_grid_raw g). unfold restore_right.
    replace (n_extra_x_slices_right g >? 0) with false
      by (symmetry; rewrite Z.gtb_ltb; apply Z.ltb_ge; lia).
    destruct g; reflexivity.
Qed.

(** What the driver does after the engine has run, whatever the engine and
    the normalisation have left in the memory [m]. *)
Lemma restore_after_transform g m b i :
  n_extra_x_slices_right g > 0 -> 0 <= i < Nmesh g ÷ 2 + 1 ->
  let g' := restore_right (with_memory (set_grid_status_real g b) m) (save_right g) in
  fourier_grid_raw g' (get_real_grid_right g' + i)
  = fourier_grid_raw g (get_real_grid_right g + i)
  /\ get_grid_status_real g' = b.
Proof.
  intros HR Hi g'. subst g'.
  set (g3 := with_memory (set_grid_status_real g b) m).
  destruct (restore_right_shape g3 (save_right g)) as [m' Hm'].
  split.
  - replace (get_real_grid_right (restore_right g3 (save_right g)))
      with (get_real_grid_right g3) by (rewrite Hm'; reflexivity).
    rewrite restore_right_reads by assumption.
    apply save_right_nth; assumption.
  - rewrite Hm'. reflexivity.
Qed.

(** C7: for every grid with at least one right ghost slab, the forward
    transform [fftw_r2c] and the inverse transform [fftw_c2r] leave the first
    [M/2+1] real values of the right ghost region as they were before the
    call, whatever the external in-place transform writes; after [fftw_r2c]
    the grid is tagged as not in real space, after [fftw_c2r] as in real
    space. *)
Theorem fftw_keeps_right_ghost flags engine N g i :
  USE_FFTW flags = true -> n_extra_x_slices_right g > 0 -> 0 <= i < Nmesh g ÷ 2 + 1 ->
  (exists g', fftw_r2c flags engine N g = Ok g'
     /\ fourier_grid_raw g' (get_real_grid_right g' + i)
        = fourier_grid_raw g (get_real_grid_right g + i)
     /\ get_grid_status_real g' = false)
  /\
  (exists g', fftw_c2r flags engine N g = Ok g'
     /\ fourier_grid_raw g' (get_real_grid_right g' + i)
        = fourier_grid_raw g (get_real_grid_right g + i)
     /\ get_grid_status_real g' = true).
Proof.
  intros Hf HR Hi. unfold fftw_r2c, fftw_c2r. rewrite Hf. split.
  - eexists. split; [reflexivity|].
    match goal with |- context [fold_left ?F ?l ?g0] =>
      destruct (scale_fold_memory g0 (1 / inject_Z (Nmesh g0 ^ Z.of_nat N))%Q l) as [m Hm] end.
    rewrite Hm.
    apply (restore_after_transform g m false i HR Hi).
  - eexists. split; [reflexivity|].
    apply (restore_after_transform g _ true i HR Hi).
Qed.

Lemma fftw_keeps_right_ghost_witness :
  let engine := {| EXECUTE_r2c := fun _ _ _ _ _ => 42%Q;
                   EXECUTE_c2r := fun _ _ _ _ _ => 43%Q |} in
  let g := with_memory (FFTWGrid_new 2 4 0 1) (fun a => inject_Z a) in
  USE_FFTW default_flags = true /\ n_extra_x_slices_right g > 0 /\ 0 <= 2 < Nmesh g ÷ 2 + 1 /\
  (exists g', fftw_r2c default_flags engine 2 g = Ok g'
     /\ fourier_grid_raw g' (get_real_grid_right g' + 2)
        = fourier_grid_raw g (get_real_grid_right g + 2)
     /\ get_grid_status_real g' = false)
  /\
  (exists g', fftw_c2r default_flags engine 2 g = Ok g'
     /\ fourier_grid_raw g' (get_real_grid_right g' + 2)
        = fourier_grid_raw g (get_real_grid_right g + 2)
     /\ get_grid_status_real g' = true).
Proof.
  intros engine g.
  assert (HR : n_extra_x_slices_right g > 0) by reflexivity.
  assert (Hi : 0 <= 2 < Nmesh g ÷ 2 + 1) by (vm_compute; split; congruence).
  split; [reflexivity|]. split; [exact HR|]. split; [exact Hi|].
  apply (fftw_keeps_right_ghost default_flags engine 2 g 2 eq_refl HR Hi).
Defined.

(** ** Dispatch on the name of the method *)

(** C10: for every name that is none of "NGP", "CIC", "TSC", "PCS", "PQS",
    the string overloads of [particles_to_grid] and of
    [interpolate_grid_to_particle_positions] return without an error and
    leave the density grid, respectively the vector of values, as it was. *)
Theorem unknown_method_is_ignored flags N part NumPart NumPartTot density values
  (method : string) :
  method <> "NGP"%string -> method <> "CIC"%string -> method <> "TSC"%string ->
  method <> "PCS"%string -> method <> "PQS"%string ->
  particles_to_grid_by_name flags N part NumPart NumPartTot density method = Ok density
  /\ interpolate_grid_to_particle_positions_by_name flags N density part NumPart values method
     = Ok values.
Proof.
  intros H1 H2 H3 H4 H5.
  unfold particles_to_grid_by_name, interpolate_grid_to_particle_positions_by_name.
  apply String.eqb_neq in H1, H2, H3, H4, H5.
  rewrite H1, H2, H3, H4, H5. split; reflexivity.
Qed.

Lemma unknown_method_is_ignored_witness :
  let density := with_memory (FFTWGrid_new 2 4 0 1) (fun a => inject_Z a) in
  let part := [INTERPOLATION.mkParticle [(1#2)%Q; (1#4)%Q]] in
  "ngp"%string <> "NGP"%string /\ "ngp"%string <> "CIC"%string /\
  "ngp"%string <> "TSC"%string /\ "ngp"%string <> "PCS"%string /\
  "ngp"%string <> "PQS"%string /\
  particles_to_grid_by_name default_flags 2 part 1 1 density "ngp" = Ok density
  /\ interpolate_grid_to_particle_positions_by_name default_flags 2 density part 1
       [5%Q] "ngp" = Ok [5%Q].
Proof.
  intros density part.
  repeat (split; [discriminate|]).
  apply (unknown_method_is_ignored default_flags 2 part 1 1 density [5%Q] "ngp");
    discriminate.
Defined.
(** ** Ghost widths *)

(** C5, as stated, fails for an even order: for CIC the helper returns
    [(0, 1)], and the left width 0 is below [floor(2/2) = 1]. *)
Lemma ghost_widths_even_order_counterexample :
  ~ SPEC.ghost_widths_as_specified 2 (get_extra_slices_needed_by_order default_flags 2).
Proof. intros [H _]. vm_compute in H. apply H. reflexivity. Qed.

(** C5, amended: for every order [p] in 1..5, the helper that returns the
    ghost widths of the corner-centered layout returns [(0, 0)] for [p = 1],
    [(floor(p/2), floor(p/2) + 1)] for the odd orders 3 and 5 and
    [(p/2 - 1, p/2)] for the even orders 2 and 4; and [particles_to_grid]
    fails on its assertion for any grid allocated with fewer extra slices, on
    the left or on the right, than the helper returns. *)
Theorem ghost_widths_by_order flags p N part NumPart NumPartTot density :
  CELLCENTERSHIFTED flags = false -> 1 <= p <= 5 ->
  let widths := get_extra_slices_needed_by_order flags p in
  widths = (if p =? 1 then (0, 0)
            else if Z.odd p then (p / 2, p / 2 + 1)
            else (p / 2 - 1, p / 2))
  /\ (get_n_extra_slices_left density < fst widths
      \/ get_n_extra_slices_right density < snd widths ->
      particles_to_grid flags N p part NumPart NumPartTot density
      = AssertionFailed "[particles_to_grid] Too few extra slices").
Proof.
  intros Hc Hp widths. subst widths. split.
  - unfold get_extra_slices_needed_by_order. rewrite Hc.
    assert (E : p = 1 \/ p = 2 \/ p = 3 \/ p = 4 \/ p = 5) by lia.
    destruct E as [-> | [-> | [-> | [-> | ->]]]]; reflexivity.
  - intros H. unfold particles_to_grid.
    replace ((get_n_extra_slices_left density
               >=? fst (get_extra_slices_needed_by_order flags p))
             && (get_n_extra_slices_right density
                 >=? snd (get_extra_slices_needed_by_order flags p))) with false.
    + reflexivity.
    + symmetry. apply andb_false_iff. rewrite !Z.geb_leb.
      destruct H as [H|H]; [left|right]; apply Z.leb_gt; exact H.
Qed.

Lemma ghost_widths_by_order_witness :
  let density := FFTWGrid_new 2 4 0 1 in
  let part := [INTERPOLATION.mkParticle [(1#2)%Q; (1#4)%Q]] in
  CELLCENTERSHIFTED default_flags = false /\ 1 <= 3 <= 5 /\
  let widths := get_extra_slices_needed_by_order default_flags 3 in
  widths = (if 3 =? 1 then (0, 0)
            else if Z.odd 3 then (3 / 2, 3 / 2 + 1)
            else (3 / 2 - 1, 3 / 2))
  /\ (get_n_extra_slices_left density < fst widths
      \/ get_n_extra_slices_right density < snd widths ->
      particles_to_grid default_flags 2 3 part 1 1 density
      = AssertionFailed "[particles_to_grid] Too few extra slices").
Proof.
  intros density part. split; [reflexivity|]. split; [lia|].
  apply (ghost_widths_by_order default_flags 3 2 part 1 1 density); [reflexivity | lia].
Defined.
(** ** Halo exchange *)

Lemma nth_map_seq {A} (f : nat -> A) n r d : (r < n)%nat -> nth r (map f (seq 0 n)) d = f r.
Proof.
  intros H. rewrite (nth_indep _ d (f 0%nat)) by (rewrite length_map, length_seq; exact H).
  rewrite (map_nth f). rewrite seq_nth by exact H. reflexivity.
Qed.


Lemma same_shape_with_memory g g' m : same_shape g g' -> same_shape (with_memory g m) g'.
Proof. intros H. exact H. Qed.




Section HaloExchange.

Variable w : world.
Variables slab gL gR nx : Z.
Hypothesis Hshape : forall g, In g w -> exchange_shape g = (slab, gL, gR, nx).




Hypothesis Hslab : 0 < slab.
Hypothesis HgL : 0 <= gL.
Hypothesis HgR : 0 <= gR.
Hypothesis Hnx : 0 <= nx.



Lemma range_dec lo hi a : {lo <= a < hi} + {~ (lo <= a < hi)}.
Proof.
  destruct (Z_le_gt_dec lo a); [destruct (Z_lt_ge_dec a hi)|]; [left | right | right]; lia.
Qed.










End HaloExchange.







(** ** Scatter: positions are not checked *)

(** C8 at the failing inputs.  [particles_to_grid] tests no position.  The
    particle [(1/2, 5/4)], outside the box on the second axis, is deposited
    by the CIC scatter on a mesh of 4 cells with the bounds checks and the
    debug assertion compiled in: no error is raised, the cell index 5 of the
    second axis is wrapped to 1 by the periodic boundary code, and the cell
    [(2, 1)] holds [16 - 1 = 15].  The particle [(-7/2, 5/4)] is located in
    the cell [-14] of the first axis.  On [FFTWGrid<2>(4, 1, 2)], which has
    the extra slices that the order 3 needs and an allocation of the 42
    reals [0 .. 41], the scatter of the default build raises no error and
    stores at offsets before the allocation: the real at the offset [-77],
    which is 0 in the embedding of the memory around the allocation, is 9
    afterwards.  With the bounds checks the same run aborts, in
    [get_index_real_2d], on the cell and not on the position. *)
Theorem scatter_out_of_box_is_not_rejected :
  let checked := {| USE_FFTW := true; BOUNDSCHECK_FFTWGRID := true;
                    DEBUG_INTERPOL := true; CELLCENTERSHIFTED := false |} in
  let p := INTERPOLATION.mkParticle [(1#2)%Q; (5#4)%Q] in
  let q := INTERPOLATION.mkParticle [(- (7#2))%Q; (5#4)%Q] in
  let g := FFTWGrid_new 2 4 1 2 in
  ~ (INTERPOLATION.qat (INTERPOLATION.get_pos p) 1 < 1)%Q
  /\ (exists density,
        particles_to_grid checked 2 2 [p] 1 1 (FFTWGrid_new 2 4 0 1) = Ok density
        /\ exists v, get_real checked 2 density [2; 1] = Ok v /\ (v == 15)%Q)
  /\ ~ (0 <= INTERPOLATION.qat (INTERPOLATION.get_pos q) 0)%Q
  /\ fst (get_extra_slices_needed_by_order default_flags 3) <= get_n_extra_slices_left g
  /\ snd (get_extra_slices_needed_by_order default_flags 3) <= get_n_extra_slices_right g
  /\ NmeshTotRealAlloc g = 42
  /\ (exists density,
        particles_to_grid default_flags 2 3 [q] 1 1 g = Ok density
        /\ (fourier_grid_raw g (-77)%Z == 0)%Q
        /\ (fourier_grid_raw density (-77)%Z == 9)%Q)
  /\ particles_to_grid checked 2 3 [q] 1 1 g
     = AssertionFailed "[FFTWGrid::get_index_real_2d] Bounds check failed".
Proof.
  intros checked p q g.
  split; [vm_compute; intros H; discriminate H|].
  split.
  { eexists. split; [vm_compute; reflexivity|].
    eexists. split; [vm_compute; reflexivity|]. reflexivity. }
  split; [vm_compute; intros H; apply H; reflexivity|].
  split; [vm_compute; congruence|].
  split; [vm_compute; congruence|].
  split; [reflexivity|].
  split; [|vm_compute; reflexivity].
  eexists. split; [vm_compute; reflexivity|].
  split; vm_compute; reflexivity.
Qed.

(** ** Scatter: the weights of the NGP kernel *)

(** C2 at the failing input.  A particle at [(3/16, 3/5)], strictly inside
    the box, on a mesh of 4 cells: the distances to the cell are
    [(3/4, 2/5)].  For the order 1 the code deposits in the one cell of
    offset 0 with the weight [kernel<1>(3/4) * kernel<1>(2/5) = 0 * 1]: the
    weights sum to 0, not to 1.  The code says as much of itself: built with
    DEBUG_INTERPOL, [particles_to_grid] aborts on its assertion that the
    weights sum to unity.  The sibling build CELLCENTERSHIFTED gives the
    weight 1 to the same particle. *)
Theorem ngp_weights_sum_to_zero :
  let g := FFTWGrid_new 2 4 0 0 in
  let p := INTERPOLATION.mkParticle [(3#16)%Q; (3#5)%Q] in
  let located := locate_particle 2 g (INTERPOLATION.get_pos p) in
  let shifted := {| USE_FFTW := true; BOUNDSCHECK_FFTWGRID := false;
                    DEBUG_INTERPOL := false; CELLCENTERSHIFTED := true |} in
  let debug := {| USE_FFTW := true; BOUNDSCHECK_FFTWGRID := false;
                  DEBUG_INTERPOL := true; CELLCENTERSHIFTED := false |} in
  (sum_of_weights default_flags 2 1 (fst located) (snd located)
     (stencil_start default_flags 2 1 (snd located)) == 0)%Q
  /\ particles_to_grid debug 2 1 [p] 1 1 g
     = AssertionFailed
         "[particles_to_grid] Possible problem with particles to grid: weights does not sum to unity!"
  /\ (sum_of_weights shifted 2 1 (fst located) (snd located)
        (stencil_start shifted 2 1 (snd located)) == 1)%Q.
Proof.
  intros g p located shifted debug. split; [|split].
  - vm_compute. reflexivity.
  - vm_compute. reflexivity.
  - vm_compute. reflexivity.
Qed.

(** ** Scatter: the sum of the density contrast *)

(** C1 at the failing input.  The same particle, alone ([NumPart =
    NumPartTot = 1]), scattered with the order 1 on a mesh of 4 cells in two
    dimensions, with the ghost widths [(0, 0)] that the order requires: the
    particle receives the weight 0, every active cell is left at -1, and the
    sum over the active cells plus [M^N = 16] is 0, where the claim gives
    [(M^N / N_total) * N_local = 16]. *)
Theorem ngp_scatter_loses_mass :
  let g := FFTWGrid_new 2 4 0 0 in
  let p := INTERPOLATION.mkParticle [(3#16)%Q; (3#5)%Q] in
  get_extra_slices_needed_by_order default_flags 1 = (0, 0)
  /\ exists density sum_cells,
       particles_to_grid default_flags 2 1 [p] 1 1 g = Ok density
       /\ sum_active_cells density = Some sum_cells
       /\ (sum_cells + inject_Z (4 ^ 2) == 0)%Q
       /\ ~ (sum_cells + inject_Z (4 ^ 2) == inject_Z (4 ^ 2) / inject_Z 1 * inject_Z 1)%Q.
Proof.
  intros g p. split; [reflexivity|].
  eexists. eexists. split; [vm_compute; reflexivity|].
  split; [vm_compute; reflexivity|].
  split; [vm_compute; reflexivity|].
  vm_compute. discriminate.
Qed.

(** ** Halos *)

(** C9 at the failing input.  Two halos of one particle of unit mass each, at
    the positions 0 and 2/5 in one dimension, not periodic.  After the merge
    the halo counts 2 particles and its centre is the mean 1/5, but its mass
    is still 1, not 2: [merge] adds [g.np] to [np] and never adds [g.mass]
    to [mass].  A third particle at 4/5, added next, is then weighted
    against the mass 1: the centre moves to 1/2, and the mean of the three
    positions is 2/5. *)
Theorem merge_does_not_add_mass :
  let p1 := FOF.mkParticle [0%Q] None None in
  let p2 := FOF.mkParticle [(2#5)%Q] None None in
  let p3 := FOF.mkParticle [(4#5)%Q] None None in
  let h1 := FOF.add 1 (FOF.FoFHalo_new 1 false [0%Q] [0%Q]) p1 false in
  let h2 := FOF.add 1 (FOF.FoFHalo_new 2 false [0%Q] [0%Q]) p2 false in
  exists h h2',
    FOF.merge 1 h1 h2 false = Ok (h, h2')
    /\ FOF.np h = 2%nat
    /\ (FOF.qat (FOF.pos h) 0 == 1#5)%Q
    /\ (FOF.mass h == 1)%Q
    /\ (FOF.total_mass [p1; p2] == 2)%Q
    /\ let h' := FOF.add 1 h p3 false in
       FOF.np h' = 3%nat
       /\ (FOF.mass h' == 2)%Q
       /\ (FOF.total_mass [p1; p2; p3] == 3)%Q
       /\ (FOF.qat (FOF.pos h') 0 == 1#2)%Q
       /\ (FOF.mass_weighted_sum 0 [p1; p2; p3] / FOF.total_mass [p1; p2; p3] == 2#5)%Q.
Proof.
  intros p1 p2 p3 h1 h2. eexists. eexists.
  split; [vm_compute; reflexivity|].
  repeat split; vm_compute; reflexivity.
Qed.

(** ** Sums of rationals *)

Lemma qsum_nil f : qsum f [] = 0%Q.
Proof. reflexivity. Qed.

Lemma qsum_cons f a l : qsum f (a :: l) = (f a + qsum f l)%Q.
Proof. reflexivity. Qed.

Lemma qsum_app f l1 l2 : (qsum f (l1 ++ l2) == qsum f l1 + qsum f l2)%Q.
Proof.
  induction l1 as [|a l1 IH].
  - rewrite qsum_nil. cbn [app]. ring.
  - cbn [app]. rewrite !qsum_cons, IH. ring.
Qed.

Lemma qsum_ext f g l : (forall i, In i l -> (f i == g i)%Q) -> (qsum f l == qsum g l)%Q.
Proof.
  induction l as [|a l IH]; intros H; [reflexivity|].
  rewrite !qsum_cons.
  rewrite (H a (or_introl eq_refl)), IH; [reflexivity|].
  intros i Hi. apply H. right. exact Hi.
Qed.

Lemma qsum_scale c f l : (qsum (fun i => c * f i) l == c * qsum f l)%Q.
Proof.
  induction l as [|a l IH]; [rewrite !qsum_nil; ring|].
  rewrite !qsum_cons, IH. ring.
Qed.

Lemma qsum_map f (h : Z -> Z) l : qsum f (map h l) = qsum (fun i => f (h i)) l.
Proof.
  induction l as [|a l IH]; [reflexivity|].
  cbn [map]. rewrite !qsum_cons, IH. reflexivity.
Qed.

(** The loops of the code add from the left. *)
Lemma fold_left_qsum f l s :
  (fold_left (fun s i => s + f i) l s == s + qsum f l)%Q.
Proof.
  revert s. induction l as [|a l IH]; intros s.
  - rewrite qsum_nil. cbn [fold_left]. ring.
  - cbn [fold_left]. rewrite IH, qsum_cons. ring.
Qed.

Lemma zseq_app from n1 n2 :
  zseq from (n1 + n2) = zseq from n1 ++ zseq (from + Z.of_nat n1) n2.
Proof.
  induction n2 as [|n2 IH].
  - rewrite Nat.add_0_r. cbn [zseq seq map]. rewrite app_nil_r. reflexivity.
  - rewrite Nat.add_succ_r, !zseq_S, IH, app_assoc. do 2 f_equal. lia.
Qed.

Lemma zseq_shift from len : zseq from len = map (fun j => from + j) (zseq 0 len).
Proof. unfold zseq. rewrite map_map. reflexivity. Qed.

(** A sum over [0 .. p*m-1] by blocks of [p]. *)
Lemma qsum_blocks f (p m : nat) :
  (qsum f (zseq 0 (m * p))
   == qsum (fun i' => qsum (fun j => f (Z.of_nat p * i' + j)%Z) (zseq 0 p)) (zseq 0 m))%Q.
Proof.
  induction m as [|m IH].
  - reflexivity.
  - rewrite zseq_S, !qsum_app, <- IH.
    replace (S m * p)%nat with (m * p + p)%nat by lia.
    rewrite zseq_app, qsum_app.
    rewrite qsum_cons, qsum_nil.
    rewrite (zseq_shift (0 + Z.of_nat (m * p))), qsum_map.
    rewrite (qsum_ext (fun i => f (0 + Z.of_nat (m * p) + i))
                      (fun j => f (Z.of_nat p * (0 + Z.of_nat m) + j))).
    + ring.
    + intros i _. replace (0 + Z.of_nat (m * p) + i) with (Z.of_nat p * (0 + Z.of_nat m) + i) by lia.
      reflexivity.
Qed.

(** The sum of the weights of all the cells of a stencil is the product of
    the sums of the weights on each axis. *)
Lemma weight_of_cell_sum (p : nat) fs :
  (0 < p)%nat ->
  (qsum (weight_of_cell (Z.of_nat p) fs) (zseq 0 (p ^ List.length fs))
   == qprod_of_sums (Z.of_nat p) fs)%Q.
Proof.
  intros Hp. induction fs as [|f fs IH].
  - cbn [List.length Nat.pow zseq seq map weight_of_cell qprod_of_sums fold_right].
    rewrite qsum_cons, qsum_nil. cbn [weight_of_cell]. ring.
  - cbn [List.length qprod_of_sums fold_right].
    fold (qprod_of_sums (Z.of_nat p) fs).
    rewrite Nat2Z.id. rewrite <- IH.
    replace (p ^ S (List.length fs))%nat with (p ^ List.length fs * p)%nat
      by (cbn [Nat.pow]; lia).
    rewrite qsum_blocks.
    rewrite <- qsum_scale.
    apply qsum_ext. intros i' Hi'. apply zseq_In in Hi'.
    rewrite Qmult_comm, <- qsum_scale.
    apply qsum_ext. intros j Hj. apply zseq_In in Hj.
    cbn [weight_of_cell].
    replace (Z.rem (Z.of_nat p * i' + j) (Z.of_nat p)) with j.
    + replace ((Z.of_nat p * i' + j) ÷ Z.of_nat p) with i'; [ring|].
      rewrite Z.quot_div_nonneg by nia.
      apply (Z.div_unique _ _ i' j); lia.
    + rewrite Z.rem_mod_nonneg by nia.
      apply (Z.mod_unique _ _ i' j); lia.
Qed.

(** ** The B spline kernels on their pieces *)

Lemma Qltb_lt x y : Qltb x y = true <-> (x < y)%Q.
Proof.
  unfold Qltb. rewrite negb_true_iff. split.
  - intros H. apply Qnot_le_lt. intros L. apply Qle_bool_iff in L. congruence.
  - intros H. destruct (Qle_bool y x) eqn:E; [|reflexivity].
    apply Qle_bool_iff in E. exfalso. apply (Qlt_not_le _ _ H E).
Qed.

Lemma Qltb_ge x y : Qltb x y = false <-> (y <= x)%Q.
Proof.
  unfold Qltb. rewrite negb_false_iff. apply Qle_bool_iff.
Qed.

Lemma Qle_bool_gt x y : Qle_bool x y = false <-> (y < x)%Q.
Proof.
  split.
  - intros H. apply Qnot_le_lt. intros L. apply Qle_bool_iff in L. congruence.
  - intros H. destruct (Qle_bool x y) eqn:E; [|reflexivity].
    apply Qle_bool_iff in E. exfalso. apply (Qlt_not_le _ _ H E).
Qed.

(** Case analysis on one test of a kernel. *)
Ltac kernel_test :=
  match goal with
  | |- context [Qltb ?a ?b] =>
      let E := fresh "E" in
      destruct (Qltb a b) eqn:E; [apply Qltb_lt in E | apply Qltb_ge in E]
  | |- context [Qle_bool ?a ?b] =>
      let E := fresh "E" in
      destruct (Qle_bool a b) eqn:E; [apply Qle_bool_iff in E | apply Qle_bool_gt in E]
  end.

Lemma kernel1_piece x : (x <= 1#2)%Q -> (kernel 1 x == 1)%Q.
Proof. intros H. unfold kernel. kernel_test; [reflexivity | lra]. Qed.

Lemma kernel2_piece x : (0 <= x <= 1)%Q -> (kernel 2 x == 1 - x)%Q.
Proof. intros H. unfold kernel. kernel_test; [reflexivity | lra]. Qed.

Lemma kernel3_inner x : (0 <= x <= 1#2)%Q -> (kernel 3 x == (3#4) - x * x)%Q.
Proof.
  intros H. unfold kernel. kernel_test; [reflexivity|].
  assert (Hx : (x == 1#2)%Q) by lra.
  kernel_test; [|lra]. rewrite Hx. reflexivity.
Qed.

Lemma kernel3_outer x :
  ((1#2) <= x <= 3#2)%Q -> (kernel 3 x == (1#2) * ((3#2) - x) * ((3#2) - x))%Q.
Proof.
  intros H. unfold kernel. kernel_test; [|kernel_test; [reflexivity|]].
  - assert (Hx : (x == 1#2)%Q) by lra. lra.
  - assert (Hx : (x == 3#2)%Q) by lra. rewrite Hx. reflexivity.
Qed.

Lemma kernel4_inner x :
  (0 <= x <= 1)%Q -> (kernel 4 x == (2#3) + x * x * (- (1) + (1#2) * x))%Q.
Proof.
  intros H. unfold kernel. kernel_test; [reflexivity|].
  assert (Hx : (x == 1)%Q) by lra.
  kernel_test; [|lra]. rewrite Hx. reflexivity.
Qed.

Lemma kernel4_outer x :
  (1 <= x <= 2)%Q -> (kernel 4 x == (2 - x) * (2 - x) * (2 - x) / 6)%Q.
Proof.
  intros H. unfold kernel. kernel_test; [|kernel_test; [reflexivity|]].
  - lra.
  - assert (Hx : (x == 2)%Q) by lra. rewrite Hx. reflexivity.
Qed.

Lemma kernel5_inner x :
  (0 <= x <= 1#2)%Q -> (kernel 5 x == (115#192) + (1#4) * x * x * (x * x - (5#2)))%Q.
Proof.
  intros H. unfold kernel. kernel_test; [reflexivity|].
  assert (Hx : (x == 1#2)%Q) by lra.
  kernel_test; [|lra]. rewrite Hx. reflexivity.
Qed.

Lemma kernel5_middle x :
  ((1#2) <= x <= 3#2)%Q ->
  (kernel 5 x == (55 + 4 * x * (5 - 2 * x * (15 + 2 * (- (5) + x) * x))) / 96)%Q.
Proof.
  intros H. unfold kernel. kernel_test; [lra|]. kernel_test; [reflexivity|].
  assert (Hx : (x == 3#2)%Q) by lra.
  kernel_test; [|lra]. rewrite Hx. reflexivity.
Qed.

Lemma kernel5_outer x :
  ((3#2) <= x <= 5#2)%Q ->
  (kernel 5 x == (5 - 2 * x) * (5 - 2 * x) * (5 - 2 * x) * (5 - 2 * x) / 384)%Q.
Proof.
  intros H. unfold kernel. kernel_test; [lra|]. kernel_test; [lra|].
  kernel_test; [reflexivity|].
  assert (Hx : (x == 5#2)%Q) by lra. rewrite Hx. reflexivity.
Qed.

(** Replace the kernel at a distance by its piece. *)
Ltac piece lem :=
  match goal with
  | |- context [kernel ?p (Qabs ?X)] =>
      let A := fresh "A" in
      first [ assert (A : (Qabs X == X)%Q) by (apply Qabs_pos; lra)
            | assert (A : (Qabs X == - X)%Q) by (apply Qabs_neg; lra) ];
      rewrite (lem (Qabs X)) by (rewrite A; lra);
      rewrite !A; clear A
  end.

(** The weights of the offsets of one axis sum to 1, for the distance
    [delta] of the particle to its cell and the stencil of the code. *)
Lemma one_axis_order2 delta :
  (0 <= delta < 1)%Q ->
  (qsum (fun j => kernel 2 (Qabs (- delta + inject_Z (0 + j)))) (zseq 0 2) == 1)%Q.
Proof.
  intros H. change (zseq 0 2) with [0; 1]. rewrite !qsum_cons, qsum_nil.
  change (inject_Z (0 + 0)) with 0%Q. change (inject_Z (0 + 1)) with 1%Q.
  piece kernel2_piece. piece kernel2_piece. ring.
Qed.

Lemma one_axis_order3_left delta :
  (0 <= delta <= 1#2)%Q ->
  (qsum (fun j => kernel 3 (Qabs (- delta + inject_Z (- 1 + j)))) (zseq 0 3) == 1)%Q.
Proof.
  intros H. change (zseq 0 3) with [0; 1; 2]. rewrite !qsum_cons, qsum_nil.
  change (inject_Z (- 1 + 0)) with (- (1))%Q. change (inject_Z (- 1 + 1)) with 0%Q.
  change (inject_Z (- 1 + 2)) with 1%Q.
  piece kernel3_outer. piece kernel3_inner. piece kernel3_outer. ring.
Qed.

Lemma one_axis_order3_right delta :
  ((1#2) < delta < 1)%Q ->
  (qsum (fun j => kernel 3 (Qabs (- delta + inject_Z (0 + j)))) (zseq 0 3) == 1)%Q.
Proof.
  intros H. change (zseq 0 3) with [0; 1; 2]. rewrite !qsum_cons, qsum_nil.
  change (inject_Z (0 + 0)) with 0%Q. change (inject_Z (0 + 1)) with 1%Q.
  change (inject_Z (0 + 2)) with 2%Q.
  piece kernel3_outer. piece kernel3_inner. piece kernel3_outer. ring.
Qed.

Lemma one_axis_order4 delta :
  (0 <= delta < 1)%Q ->
  (qsum (fun j => kernel 4 (Qabs (- delta + inject_Z (- 1 + j)))) (zseq 0 4) == 1)%Q.
Proof.
  intros H. change (zseq 0 4) with [0; 1; 2; 3]. rewrite !qsum_cons, qsum_nil.
  change (inject_Z (- 1 + 0)) with (- (1))%Q. change (inject_Z (- 1 + 1)) with 0%Q.
  change (inject_Z (- 1 + 2)) with 1%Q. change (inject_Z (- 1 + 3)) with 2%Q.
  piece kernel4_outer. piece kernel4_inner. piece kernel4_inner. piece kernel4_outer.
  field.
Qed.

Lemma one_axis_order5_left delta :
  (0 <= delta <= 1#2)%Q ->
  (qsum (fun j => kernel 5 (Qabs (- delta + inject_Z (- 2 + j)))) (zseq 0 5) == 1)%Q.
Proof.
  intros H. change (zseq 0 5) with [0; 1; 2; 3; 4]. rewrite !qsum_cons, qsum_nil.
  change (inject_Z (- 2 + 0)) with (- (2))%Q. change (inject_Z (- 2 + 1)) with (- (1))%Q.
  change (inject_Z (- 2 + 2)) with 0%Q. change (inject_Z (- 2 + 3)) with 1%Q.
  change (inject_Z (- 2 + 4)) with 2%Q.
  piece kernel5_outer. piece kernel5_middle. piece kernel5_inner.
  piece kernel5_middle. piece kernel5_outer. field.
Qed.

Lemma one_axis_order5_right delta :
  ((1#2) < delta < 1)%Q ->
  (qsum (fun j => kernel 5 (Qabs (- delta + inject_Z (- 1 + j)))) (zseq 0 5) == 1)%Q.
Proof.
  intros H. change (zseq 0 5) with [0; 1; 2; 3; 4]. rewrite !qsum_cons, qsum_nil.
  change (inject_Z (- 1 + 0)) with (- (1))%Q. change (inject_Z (- 1 + 1)) with 0%Q.
  change (inject_Z (- 1 + 2)) with 1%Q. change (inject_Z (- 1 + 3)) with 2%Q.
  change (inject_Z (- 1 + 4)) with 3%Q.
  piece kernel5_outer. piece kernel5_middle. piece kernel5_inner.
  piece kernel5_middle. piece kernel5_outer. field.
Qed.

(** ** The stencil of a particle *)

(** The weight of a neighbour cell is the product over the axes of the
    weights of its offsets, read from the digits of the cell number. *)
Lemma stencil_cell_fold flags ORDER ix x xstart i s k w0 n0 nb0 :
  ORDER <> 0 -> n0 <> 0 ->
  (fst (fst (fold_left (stencil_axis flags ORDER ix x xstart i) (seq s k) (w0, n0, nb0)))
   == w0 * weight_of_cell ORDER (map (axis_weight flags ORDER x xstart) (seq s k)) (i ÷ n0))%Q.
Proof.
  intros Hp. revert s w0 n0 nb0. induction k as [|k IH]; intros s w0 n0 nb0 Hn.
  - cbn [seq fold_left map weight_of_cell fst]. ring.
  - cbn [seq fold_left map weight_of_cell]. unfold stencil_axis at 2.
    rewrite IH by nia.
    rewrite Z.quot_quot by assumption.
    unfold axis_weight at 2.
    destruct (CELLCENTERSHIFTED flags); ring.
Qed.

Lemma stencil_cell_weight flags N ORDER ix x xstart i :
  ORDER <> 0 ->
  (fst (stencil_cell flags N ORDER ix x xstart i)
   == weight_of_cell ORDER (map (axis_weight flags ORDER x xstart) (seq 0 N)) i)%Q.
Proof.
  intros Hp. unfold stencil_cell.
  pose proof (stencil_cell_fold flags ORDER ix x xstart i 0 N 1%Q 1 [] Hp ltac:(lia)) as H.
  rewrite Z.quot_1_r in H.
  destruct (fold_left (stencil_axis flags ORDER ix x xstart i) (seq 0 N) (1%Q, 1, []))
    as [[w n] nb].
  cbn [fst] in H |- *. rewrite H. ring.
Qed.

Lemma to_nat_power (p : Z) (N : nat) :
  0 <= p -> Z.to_nat (power p (Z.of_nat N)) = (Z.to_nat p ^ N)%nat.
Proof.
  intros Hp. unfold power. induction N as [|N IH].
  - reflexivity.
  - rewrite Nat2Z.inj_succ, Z.pow_succ_r by lia.
    rewrite Z2Nat.inj_mul by (try apply Z.pow_nonneg; lia).
    rewrite IH. cbn [Nat.pow]. reflexivity.
Qed.

(** The sum of the weights of a particle is the product over the axes of
    the sums of the weights of the offsets. *)
Lemma sum_of_weights_product flags N ORDER ix x xstart :
  1 <= ORDER ->
  (sum_of_weights flags N ORDER ix x xstart
   == qprod_of_sums ORDER (map (axis_weight flags ORDER x xstart) (seq 0 N)))%Q.
Proof.
  intros Hp. unfold sum_of_weights.
  rewrite (fold_left_qsum (fun i => fst (stencil_cell flags N ORDER ix x xstart i))).
  rewrite Qplus_0_l.
  rewrite (qsum_ext _ (weight_of_cell ORDER (map (axis_weight flags ORDER x xstart) (seq 0 N))))
    by (intros i _; apply stencil_cell_weight; lia).
  rewrite to_nat_power by lia.
  pose proof (weight_of_cell_sum (Z.to_nat ORDER)
                (map (axis_weight flags ORDER x xstart) (seq 0 N)) ltac:(lia)) as H.
  rewrite length_map, length_seq, Z2Nat.id in H by lia. exact H.
Qed.

Lemma qprod_of_sums_one p fs :
  (forall f, In f fs -> (qsum f (zseq 0 (Z.to_nat p)) == 1)%Q) ->
  (qprod_of_sums p fs == 1)%Q.
Proof.
  induction fs as [|f fs IH]; intros H.
  - reflexivity.
  - cbn [qprod_of_sums fold_right]. fold (qprod_of_sums p fs).
    rewrite (H f (or_introl eq_refl)), IH; [ring|].
    intros f' Hf'. apply H. right. exact Hf'.
Qed.

Lemma at_map_seq (f : nat -> Z) N idim : (idim < N)%nat -> at_ (map f (seq 0 N)) idim = f idim.
Proof. intros H. unfold at_. apply nth_map_seq. exact H. Qed.

Lemma qat_map_seq (f : nat -> Q) N idim :
  (idim < N)%nat -> INTERPOLATION.qat (map f (seq 0 N)) idim = f idim.
Proof. intros H. unfold INTERPOLATION.qat. apply nth_map_seq. exact H. Qed.

(** On each axis the weights of the offsets sum to 1 for the orders 2..5. *)
Lemma axis_weights_sum flags N ORDER x idim :
  CELLCENTERSHIFTED flags = false -> 2 <= ORDER <= 5 -> (idim < N)%nat ->
  (0 <= INTERPOLATION.qat x idim < 1)%Q ->
  (qsum (axis_weight flags ORDER x (stencil_start flags N ORDER x) idim)
        (zseq 0 (Z.to_nat ORDER)) == 1)%Q.
Proof.
  intros Hc Hp Hi Hx. unfold axis_weight, stencil_start. rewrite Hc.
  rewrite at_map_seq by exact Hi.
  assert (E : ORDER = 2 \/ ORDER = 3 \/ ORDER = 4 \/ ORDER = 5) by lia.
  destruct E as [-> | [-> | [-> | ->]]].
  - exact (one_axis_order2 _ Hx).
  - change (Z.rem 3 2 =? 0) with false. cbv iota.
    destruct (Qltb (1 # 2) (INTERPOLATION.qat x idim)) eqn:E.
    + apply Qltb_lt in E. apply one_axis_order3_right. lra.
    + apply Qltb_ge in E. apply one_axis_order3_left. lra.
  - exact (one_axis_order4 _ Hx).
  - change (Z.rem 5 2 =? 0) with false. cbv iota.
    destruct (Qltb (1 # 2) (INTERPOLATION.qat x idim)) eqn:E.
    + apply Qltb_lt in E. apply one_axis_order5_right. lra.
    + apply Qltb_ge in E. apply one_axis_order5_left. lra.
Qed.

Lemma inject_Z_lt a b : a < b -> (inject_Z a < inject_Z b)%Q.
Proof. intros H. rewrite <- Zlt_Qlt. exact H. Qed.

Lemma inject_Z_lt_inv a b : (inject_Z a < inject_Z b)%Q -> a < b.
Proof. intros H. rewrite Zlt_Qlt. exact H. Qed.

Lemma inject_Z_le a b : a <= b -> (inject_Z a <= inject_Z b)%Q.
Proof. intros H. rewrite <- Zle_Qle. exact H. Qed.

(** [(int) y] is the floor of a nonnegative [y]. *)
Lemma to_int_floor y : (0 <= y)%Q -> (inject_Z (to_int y) <= y < inject_Z (to_int y) + 1)%Q.
Proof.
  intros H. assert (E : to_int y = Qfloor y).
  { unfold to_int. destruct y as [n d]. cbn [Qnum Qden Qfloor].
    apply Z.quot_div_nonneg; [|lia].
    unfold Qle in H. cbn in H. lia. }
  rewrite E. split; [apply Qfloor_le|].
  pose proof (Qlt_floor y) as L. rewrite inject_Z_plus in L. exact L.
Qed.

(** A particle of the box lies in a cell of the mesh, at a distance in
    [[0,1)] on every axis. *)
Lemma locate_particle_cell N g pos idim :
  (idim < N)%nat -> 1 <= Nmesh g -> (0 <= INTERPOLATION.qat pos idim < 1)%Q ->
  let y := (INTERPOLATION.qat pos idim * inject_Z (Nmesh g))%Q in
  INTERPOLATION.qat (snd (locate_particle N g pos)) idim = (y - inject_Z (to_int y))%Q
  /\ 0 <= to_int y < Nmesh g
  /\ (0 <= y - inject_Z (to_int y) < 1)%Q.
Proof.
  intros Hi HM Hpos y.
  assert (P : (0 < inject_Z (Nmesh g))%Q) by (apply (inject_Z_lt 0); lia).
  assert (Hy : (0 <= y)%Q) by (subst y; apply Qmult_le_0_compat; lra).
  pose proof (to_int_floor y Hy) as F.
  assert (U : (y < inject_Z (Nmesh g))%Q).
  { subst y. destruct Hpos as [_ Hpos]. apply (Qmult_lt_r _ _ _ P) in Hpos. lra. }
  split; [|split].
  - unfold locate_particle. cbn [snd]. unfold get_nmesh.
    rewrite qat_map_seq by exact Hi. rewrite qat_map_seq by exact Hi.
    unfold at_.
    match goal with |- context [nth idim (map to_int ?l) 0] =>
      change (nth idim (map to_int l) 0) with (nth idim (map to_int l) (to_int 0%Q)) end.
    rewrite (map_nth to_int). fold (INTERPOLATION.qat
      (map (fun idim0 => (INTERPOLATION.qat pos idim0 * inject_Z (Nmesh g))%Q) (seq 0 N)) idim).
    rewrite qat_map_seq by exact Hi. reflexivity.
  - assert (L : (inject_Z (-1) < inject_Z (to_int y))%Q) by (change (inject_Z (-1)) with (-1#1)%Q; lra).
    assert (L' : (inject_Z (to_int y) < inject_Z (Nmesh g))%Q) by lra.
    apply inject_Z_lt_inv in L. apply inject_Z_lt_inv in L'. lia.
  - lra.
Qed.

(** The partition of unity of the orders 2..5: for every dimension and
    every particle of the box, the weights that the corner-centered scatter
    gives to the [ORDER^N] cells of the stencil sum to 1. *)
Theorem scatter_weights_sum_to_one flags N ORDER g pos :
  CELLCENTERSHIFTED flags = false -> 2 <= ORDER <= 5 -> 1 <= Nmesh g ->
  (forall idim, (idim < N)%nat -> (0 <= INTERPOLATION.qat pos idim < 1)%Q) ->
  let located := locate_particle N g pos in
  (sum_of_weights flags N ORDER (fst located) (snd located)
     (stencil_start flags N ORDER (snd located)) == 1)%Q.
Proof.
  intros Hc Hp HM Hpos located. subst located.
  rewrite sum_of_weights_product by lia.
  apply qprod_of_sums_one. intros f Hf.
  apply in_map_iff in Hf. destruct Hf as [idim [<- Hidim]]. apply in_seq in Hidim.
  apply axis_weights_sum; [exact Hc | exact Hp | lia |].
  destruct (locate_particle_cell N g pos idim ltac:(lia) HM (Hpos idim ltac:(lia)))
    as [-> [_ H]].
  exact H.
Qed.

(** A product of sums vanishes with one of its factors. *)
Lemma qprod_of_sums_zero p fs f :
  In f fs -> (qsum f (zseq 0 (Z.to_nat p)) == 0)%Q -> (qprod_of_sums p fs == 0)%Q.
Proof.
  induction fs as [|f' fs IH]; intros Hin H0; [destruct Hin|].
  cbn [qprod_of_sums fold_right]. fold (qprod_of_sums p fs).
  destruct Hin as [-> | Hin].
  - rewrite H0. ring.
  - rewrite (IH Hin H0). ring.
Qed.

(** The order 1 in the corner-centered build, for a particle whose cell
    [ix] and whose distances [x] to the cell, in [[0,1)] on every axis, the
    loop over the particles has computed: the one cell of the stencil has
    the weight 1 when the particle lies in the left half of its cell on
    every axis, [x <= 1/2], and the weight 0 as soon as it lies in the right
    half on one axis.  The comparisons of [x] with 1/2 and the products and
    sums of zeros and ones are exact in floating point. *)
Theorem ngp_weight_of_a_particle flags N ix x :
  CELLCENTERSHIFTED flags = false ->
  (forall idim, (idim < N)%nat -> (0 <= INTERPOLATION.qat x idim < 1)%Q) ->
  let weights := sum_of_weights flags N 1 ix x (stencil_start flags N 1 x) in
  ((forall idim, (idim < N)%nat -> (INTERPOLATION.qat x idim <= 1#2)%Q) ->
   (weights == 1)%Q)
  /\ ((exists idim, (idim < N)%nat /\ ((1#2) < INTERPOLATION.qat x idim)%Q) ->
      (weights == 0)%Q).
Proof.
  intros Hc Hx weights. subst weights.
  split.
  - intros Hleft. rewrite sum_of_weights_product by lia.
    apply qprod_of_sums_one. intros f Hf.
    apply in_map_iff in Hf. destruct Hf as [idim [<- Hidim]]. apply in_seq in Hidim.
    unfold axis_weight. rewrite Hc. change (1 =? 1) with true. cbv iota.
    change (zseq 0 (Z.to_nat 1)) with [0]. rewrite qsum_cons, qsum_nil.
    specialize (Hx idim ltac:(lia)). specialize (Hleft idim ltac:(lia)).
    change (inject_Z 0) with 0%Q.
    rewrite kernel1_piece; [ring|].
    rewrite Qabs_neg by lra. lra.
  - intros [idim [Hi Hright]]. rewrite sum_of_weights_product by lia.
    apply (qprod_of_sums_zero _ _ (axis_weight flags 1 x
                                     (stencil_start flags N 1 x) idim)).
    + apply in_map. apply in_seq. lia.
    + unfold axis_weight. rewrite Hc. change (1 =? 1) with true. cbv iota.
      change (zseq 0 (Z.to_nat 1)) with [0]. rewrite qsum_cons, qsum_nil.
      specialize (Hx idim Hi). change (inject_Z 0) with 0%Q.
      assert (A : (Qabs (- INTERPOLATION.qat x idim + 0)
                   == INTERPOLATION.qat x idim)%Q)
        by (rewrite Qabs_neg by lra; ring).
      unfold kernel.
      destruct (Qle_bool (Qabs (- INTERPOLATION.qat x idim + 0)) (1 # 2)) eqn:E.
      * apply Qle_bool_iff in E. rewrite A in E. lra.
      * ring.
Qed.

(** ** Halos built by [add] alone *)

Lemma total_mass_app ps qs :
  (FOF.total_mass (ps ++ qs) == FOF.total_mass ps + FOF.total_mass qs)%Q.
Proof.
  induction ps as [|p ps IH]; cbn [app].
  - unfold FOF.total_mass at 2. cbn [fold_right]. ring.
  - unfold FOF.total_mass in *. cbn [fold_right]. rewrite IH. ring.
Qed.

Lemma mass_weighted_sum_app idim ps qs :
  (FOF.mass_weighted_sum idim (ps ++ qs)
   == FOF.mass_weighted_sum idim ps + FOF.mass_weighted_sum idim qs)%Q.
Proof.
  induction ps as [|p ps IH]; cbn [app].
  - unfold FOF.mass_weighted_sum at 2. cbn [fold_right]. ring.
  - unfold FOF.mass_weighted_sum in *. cbn [fold_right]. rewrite IH. ring.
Qed.

Lemma total_mass_nonneg ps :
  Forall (fun p => (0 < FOF.GetMass p)%Q) ps -> (0 <= FOF.total_mass ps)%Q.
Proof.
  induction 1 as [|p ps Hp _ IH]; unfold FOF.total_mass in *; cbn [fold_right]; lra.
Qed.

Lemma fof_qat_map_seq (f : nat -> Q) N idim :
  (idim < N)%nat -> FOF.qat (map f (seq 0 N)) idim = f idim.
Proof. intros H. unfold FOF.qat. apply nth_map_seq. exact H. Qed.

Lemma fof_qat_zeros N idim : FOF.qat (repeat 0%Q N) idim = 0%Q.
Proof. unfold FOF.qat. apply nth_repeat. Qed.

Lemma add_holds NDIM h ps p :
  Forall (fun p => (0 < FOF.GetMass p)%Q) ps -> (0 < FOF.GetMass p)%Q ->
  halo_holds NDIM h ps -> halo_holds NDIM (FOF.add NDIM h p false) (ps ++ [p]).
Proof.
  intros Hps Hp (Hn & Hm & Hc).
  pose proof (total_mass_nonneg ps Hps) as Hnonneg.
  assert (T1 : (FOF.total_mass [p] == FOF.GetMass p)%Q)
    by (unfold FOF.total_mass; cbn [fold_right]; ring).
  unfold FOF.add.
  destruct (FOF.np h =? 0)%nat eqn:E.
  - apply Nat.eqb_eq in E. rewrite E in Hn. destruct ps as [|? ?]; [|discriminate Hn].
    cbn [app]. cbn [FOF.np FOF.mass FOF.pos FOF.vel FOF.vel2].
    destruct (FOF.get_vel p);
      (split; [cbn [FOF.np]; rewrite E; reflexivity|];
       split; [cbn [FOF.mass]; rewrite T1; ring|];
       intros idim Hi; cbn [FOF.pos FOF.mass];
       rewrite fof_qat_map_seq by exact Hi; rewrite fof_qat_zeros;
       unfold FOF.minimum_image, FOF.wrap_position, FOF.mass_weighted_sum, FOF.GetPos;
       cbn [fold_right]; field; lra).
  - apply Nat.eqb_neq in E.
    destruct (FOF.get_vel p);
      (split; [cbn [FOF.np]; rewrite Hn, length_app; cbn [List.length]; lia|];
       split; [cbn [FOF.mass]; rewrite total_mass_app, T1, Hm; ring|];
       intros idim Hi; cbn [FOF.pos FOF.mass];
       rewrite fof_qat_map_seq by exact Hi;
       rewrite mass_weighted_sum_app, <- (Hc idim Hi);
       unfold FOF.minimum_image, FOF.wrap_position, FOF.mass_weighted_sum, FOF.GetPos;
       cbn [fold_right]; field; rewrite Hm; lra).
Qed.

(** A halo that has received particles of positive mass by [add] alone, not
    periodic, counts them, carries the sum of their masses and sits at their
    centre of mass: the three equalities of C9 hold as long as no [merge]
    takes place. *)
Theorem add_all_holds NDIM h ps :
  FOF.np h = 0%nat -> Forall (fun p => (0 < FOF.GetMass p)%Q) ps -> ps <> [] ->
  let h' := FOF.add_all NDIM h ps false in
  FOF.np h' = List.length ps
  /\ (FOF.mass h' == FOF.total_mass ps)%Q
  /\ forall idim, (idim < NDIM)%nat ->
       (FOF.qat (FOF.pos h') idim == FOF.mass_weighted_sum idim ps / FOF.total_mass ps)%Q.
Proof.
  intros Hnp Hps Hne h'.
  assert (G : forall qs done h0,
             Forall (fun p => (0 < FOF.GetMass p)%Q) (done ++ qs) ->
             halo_holds NDIM h0 done ->
             halo_holds NDIM (FOF.add_all NDIM h0 qs false) (done ++ qs)).
  { induction qs as [|q qs IH]; intros done h0 HF H0.
    - rewrite app_nil_r. exact H0.
    - unfold FOF.add_all. cbn [fold_left]. fold (FOF.add_all NDIM (FOF.add NDIM h0 q false) qs false).
      replace (done ++ q :: qs) with ((done ++ [q]) ++ qs) in * by (rewrite <- app_assoc; reflexivity).
      apply IH; [exact HF|].
      apply Forall_app in HF. destruct HF as [HF _]. apply Forall_app in HF.
      destruct HF as [HF1 HF2]. apply add_holds; [exact HF1 | | exact H0].
      inversion HF2; assumption. }
  destruct ps as [|p ps]; [congruence|].
  assert (H1 : halo_holds NDIM (FOF.add NDIM h p false) [p]).
  { inversion Hps as [|? ? Hp Hps']; subst.
    unfold FOF.add. rewrite Hnp. cbn [Nat.eqb].
    assert (T1 : (FOF.total_mass [p] == FOF.GetMass p)%Q)
      by (unfold FOF.total_mass; cbn [fold_right]; ring).
    destruct (FOF.get_vel p);
      (split; [reflexivity|];
       split; [cbn [FOF.mass]; rewrite T1; ring|];
       intros idim Hi; cbn [FOF.pos FOF.mass];
       rewrite fof_qat_map_seq by exact Hi; rewrite fof_qat_zeros;
       unfold FOF.minimum_image, FOF.wrap_position, FOF.mass_weighted_sum, FOF.GetPos;
       cbn [fold_right]; field; lra). }
  pose proof (G ps [p] (FOF.add NDIM h p false) Hps H1) as (Gn & Gm & Gc).
  subst h'. unfold FOF.add_all. cbn [fold_left].
  fold (FOF.add_all NDIM (FOF.add NDIM h p false) ps false).
  cbn [app] in Gn, Gm, Gc.
  split; [exact Gn|]. split; [exact Gm|].
  intros idim Hi. rewrite <- (Gc idim Hi), <- Gm.
  assert (Hpos : (0 < FOF.mass (FOF.add_all NDIM (FOF.add NDIM h p false) ps false))%Q).
  { rewrite Gm. inversion Hps as [|? ? Hp Hps']; subst.
    pose proof (total_mass_nonneg ps Hps') as Hn.
    unfold FOF.total_mass in *. cbn [fold_right]. lra. }
  field. lra.
Qed.

(** [merge] leaves the mass of the halo as it was, whatever the halo it
    takes in: the mass of the merged halo is lost for the sum. *)
Theorem merge_keeps_mass NDIM h g periodic :
  FOF.np h <> 0%nat -> FOF.np g <> 0%nat ->
  exists h' g',
    FOF.merge NDIM h g periodic = Ok (h', g')
    /\ FOF.np h' = (FOF.np h + FOF.np g)%nat
    /\ FOF.np g' = 0%nat
    /\ FOF.mass h' = FOF.mass h.
Proof.
  intros Hh Hg. unfold FOF.merge.
  apply Nat.eqb_neq in Hh, Hg. rewrite Hh, Hg. cbn [bind].
  eexists. eexists. split; [reflexivity|]. repeat split.
Qed.

(** ** The active cells of the storage *)

Lemma row_padding M : 1 <= M -> 2 * (M ÷ 2 + 1) - M = 1 \/ 2 * (M ÷ 2 + 1) - M = 2.
Proof.
  intros HM. pose proof (Z.quot_rem M 2 ltac:(lia)) as E.
  pose proof (Z.rem_bound_pos M 2 ltac:(lia) ltac:(lia)) as B. lia.
Qed.

Lemma active_index_row M h c :
  1 <= M -> 0 <= c < M -> active_index M (h * M + c) = h * (2 * (M ÷ 2 + 1)) + c.
Proof.
  intros HM Hc. unfold active_index.
  replace ((h * M + c) / M) with h; [ring|].
  apply (Z.div_unique _ _ h c); lia.
Qed.

Lemma active_index_lt M n n' : 1 <= M -> n < n' -> active_index M n < active_index M n'.
Proof.
  intros HM H. unfold active_index.
  assert (D : n / M <= n' / M) by (apply Z.div_le_mono; lia).
  destruct (row_padding M HM) as [-> | ->]; lia.
Qed.

Lemma active_index_inj M n n' : 1 <= M -> active_index M n = active_index M n' -> n = n'.
Proof.
  intros HM H. destruct (Z.lt_trichotomy n n') as [L | [E | L]]; [|exact E|];
    apply (active_index_lt M _ _ HM) in L; lia.
Qed.

(** A whole number of slabs of [M * W] cells is as many slabs of
    [2*(M/2+1) * W] reals. *)
Lemma active_index_slabs M W n k :
  1 <= M ->
  active_index M (n + k * (M * W)) = active_index M n + k * (2 * (M ÷ 2 + 1) * W).
Proof.
  intros HM. unfold active_index.
  replace (n + k * (M * W)) with (n + (k * W) * M) by ring.
  rewrite Z.div_add by lia. ring.
Qed.

Lemma active_index_0 M : 1 <= M -> active_index M 0 = 0.
Proof. intros HM. unfold active_index. rewrite Z.div_0_l by lia. ring. Qed.

Lemma active_index_slab_range M W n lo hi :
  1 <= M -> lo * (M * W) <= n < hi * (M * W) ->
  lo * (2 * (M ÷ 2 + 1) * W) <= active_index M n < hi * (2 * (M ÷ 2 + 1) * W).
Proof.
  intros HM H.
  pose proof (active_index_slabs M W 0 lo HM) as E1.
  pose proof (active_index_slabs M W 0 hi HM) as E2.
  rewrite active_index_0, Z.add_0_l in E1, E2 by exact HM.
  pose proof (active_index_lt M n (hi * (M * W)) HM ltac:(lia)) as L2.
  destruct (Z.eq_dec n (lo * (M * W))) as [->|Hn]; [lia|].
  pose proof (active_index_lt M (lo * (M * W)) n HM ltac:(lia)) as L1. lia.
Qed.

(** ** Sums over the active cells *)

(** A sum over a range, when the function is changed at one point of it. *)
Lemma qsum_update (f g : Z -> Q) lo len n0 :
  (forall n, n <> n0 -> g n = f n) -> lo <= n0 < lo + Z.of_nat len ->
  (qsum g (zseq lo len) == qsum f (zseq lo len) + g n0 - f n0)%Q.
Proof.
  intros Hfg. induction len as [|len IH]; intros Hn; [lia|].
  rewrite zseq_S, !qsum_app, !qsum_cons, !qsum_nil.
  destruct (Z.eq_dec n0 (lo + Z.of_nat len)) as [E|E].
  - rewrite <- E.
    rewrite (qsum_ext g f (zseq lo len)); [ring|].
    intros n Hin. apply zseq_In in Hin. rewrite Hfg by lia. reflexivity.
  - rewrite IH by lia. rewrite (Hfg (lo + Z.of_nat len)) by lia. ring.
Qed.

Lemma qsum_const c l : (qsum (fun _ => c) l == inject_Z (Z.of_nat (List.length l)) * c)%Q.
Proof.
  induction l as [|a l IH]; [rewrite qsum_nil; cbn; ring|].
  rewrite qsum_cons, IH. cbn [List.length]. rewrite Nat2Z.inj_succ. unfold Z.succ.
  rewrite inject_Z_plus. ring.
Qed.

Lemma qsum_plus f g l : (qsum (fun i => f i + g i) l == qsum f l + qsum g l)%Q.
Proof.
  induction l as [|a l IH]; [rewrite !qsum_nil; ring|].
  rewrite !qsum_cons, IH. ring.
Qed.

(** A store on an active cell of the range changes the sum by the change of
    the cell. *)
Lemma active_sum_store m base M lo len n0 v :
  1 <= M -> lo <= n0 < lo + Z.of_nat len ->
  (active_sum (store m (base + active_index M n0)%Z v) base M lo len
   == active_sum m base M lo len + v - m (base + active_index M n0)%Z)%Q.
Proof.
  intros HM Hn. unfold active_sum.
  rewrite (qsum_update (fun n => m (base + active_index M n))
             (fun n => store m (base + active_index M n0) v (base + active_index M n))
             lo len n0); [|intros n Hne|exact Hn].
  - cbv beta. unfold store at 1. rewrite Z.eqb_refl. reflexivity.
  - unfold store. replace (base + active_index M n =? base + active_index M n0) with false;
      [reflexivity|].
    symmetry. apply Z.eqb_neq. intros E. apply Hne.
    apply (active_index_inj M _ _ HM). lia.
Qed.

(** ** The cell of a coordinate tuple *)

Lemma fold_left_snoc {A B} (f : A -> B -> A) l b a :
  fold_left f (l ++ [b]) a = f (fold_left f l a) b.
Proof. rewrite fold_left_app. reflexivity. Qed.

Lemma cell_number_last M c0 rest :
  rest <> [] ->
  cell_number M (c0 :: rest)
  = fold_left (fun acc c => acc * M + c) (removelast rest) c0 * M + last rest 0.
Proof.
  intros H. unfold cell_number. cbn [tl hd].
  rewrite (app_removelast_last 0 H) at 1. rewrite fold_left_snoc. reflexivity.
Qed.

Lemma horner_range M l a :
  1 <= M -> Forall (fun c => 0 <= c < M) l ->
  a * M ^ Z.of_nat (List.length l)
  <= fold_left (fun acc c => acc * M + c) l a
  < (a + 1) * M ^ Z.of_nat (List.length l).
Proof.
  intros HM H. revert a. induction H as [|c l Hc _ IH]; intros a.
  - cbn [fold_left List.length Z.of_nat]. rewrite Z.pow_0_r. lia.
  - cbn [fold_left List.length]. rewrite Nat2Z.inj_succ, Z.pow_succ_r by lia.
    specialize (IH (a * M + c)).
    assert (P : 0 < M ^ Z.of_nat (List.length l)) by (apply Z.pow_pos_nonneg; lia).
    nia.
Qed.

(** The cell that [get_real], [set_real] and [add_real] address is an
    active cell of the storage: the one whose number has the coordinates as
    digits. *)
Lemma real_cell_address_active N g coord index :
  (2 <= N)%nat -> List.length coord = N -> 1 <= Nmesh g -> slice_shape N g ->
  0 <= last coord 0 < Nmesh g ->
  get_index_real default_flags N g coord = Ok index ->
  real_cell_address g index
  = NmeshTotRealSlice g * n_extra_x_slices_left g
    + active_index (Nmesh g) (cell_number (Nmesh g) coord).
Proof.
  intros HN Hlen HM Hshape Hlast Hindex.
  rewrite (index_real_spec N g coord index HN Hlen ltac:(lia) Hshape Hindex).
  destruct coord as [|c0 rest]; [cbn in Hlen; lia|].
  assert (Hrest : rest <> []) by (destruct rest; [cbn in Hlen; lia | discriminate]).
  rewrite cell_number_last by exact Hrest.
  replace (last (c0 :: rest) 0) with (last rest 0) in Hlast
    by (destruct rest; [congruence | reflexivity]).
  rewrite (active_index_row (Nmesh g)) by assumption.
  unfold SPEC.idx_real. rewrite horner_shift.
  rewrite Hshape. unfold power.
  rewrite <- (Z.quot_div_nonneg (Nmesh g) 2) by lia.
  assert (L : Z.of_nat (List.length (removelast rest)) = Z.of_nat N - 2).
  { rewrite removelast_firstn_len, length_firstn. cbn [List.length] in Hlen. lia. }
  rewrite L. ring.
Qed.

(** ** The cells of the stencil *)

Lemma Forall2_seq_nth {A} (P : nat -> A -> Prop) s k l d :
  Forall2 P (seq s k) l ->
  List.length l = k /\ forall j, (j < k)%nat -> P (s + j)%nat (nth j l d).
Proof.
  revert s l. induction k as [|k IH]; intros s l H.
  - inversion H. split; [reflexivity | intros j Hj; lia].
  - cbn [seq] in H. inversion H as [|? c ? l' Hc Hl']; subst.
    destruct (IH _ _ Hl') as [HL Hn]. split; [cbn [List.length]; lia|].
    intros [|j] Hj.
    + rewrite Nat.add_0_r. exact Hc.
    + replace (s + S j)%nat with (S s + j)%nat by lia. apply Hn. lia.
Qed.

(** The offsets of the neighbour cell [i]: on every axis the start of the
    stencil plus a digit of [i] in base [ORDER]. *)
Lemma stencil_cell_fold_coords flags ORDER ix x xstart i s k w0 n0 nb0 :
  2 <= ORDER -> 0 <= i -> 1 <= n0 ->
  exists nb,
    snd (fold_left (stencil_axis flags ORDER ix x xstart i) (seq s k) (w0, n0, nb0))
    = nb0 ++ nb
    /\ Forall2 (fun idim c => exists d, 0 <= d < ORDER
                              /\ c = at_ ix idim + (at_ xstart idim + d))
               (seq s k) nb.
Proof.
  intros Hp Hi. revert s w0 n0 nb0. induction k as [|k IH]; intros s w0 n0 nb0 Hn.
  - exists []. cbn [seq fold_left snd]. rewrite app_nil_r. split; [reflexivity | constructor].
  - cbn [seq fold_left]. unfold stencil_axis at 2.
    replace (ORDER =? 1) with false by (symmetry; apply Z.eqb_neq; lia).
    destruct (IH (S s)
                (w0 * kernel ORDER
                        (if CELLCENTERSHIFTED flags
                         then Qabs (- INTERPOLATION.qat x s
                                    + inject_Z (at_ xstart s + Z.rem (i ÷ n0) ORDER) + (1 # 2))
                         else Qabs (- INTERPOLATION.qat x s
                                    + inject_Z (at_ xstart s + Z.rem (i ÷ n0) ORDER))))%Q
                (n0 * ORDER)
                (nb0 ++ [at_ ix s + (at_ xstart s + Z.rem (i ÷ n0) ORDER)])
                ltac:(nia)) as [nb [E F]].
    exists ((at_ ix s + (at_ xstart s + Z.rem (i ÷ n0) ORDER)) :: nb).
    split.
    + rewrite E, <- app_assoc. reflexivity.
    + constructor; [|exact F].
      exists (Z.rem (i ÷ n0) ORDER). split; [|reflexivity].
      apply Z.rem_bound_pos; [|lia]. apply Z.quot_pos; lia.
Qed.

Lemma stencil_cell_coords flags N ORDER ix x xstart i :
  2 <= ORDER -> 0 <= i ->
  let nb := snd (stencil_cell flags N ORDER ix x xstart i) in
  List.length nb = N
  /\ forall idim, (idim < N)%nat ->
       exists d, 0 <= d < ORDER /\ at_ nb idim = at_ ix idim + (at_ xstart idim + d).
Proof.
  intros Hp Hi nb. subst nb. unfold stencil_cell.
  destruct (stencil_cell_fold_coords flags ORDER ix x xstart i 0 N 1%Q 1 [] Hp Hi ltac:(lia))
    as [nb [E F]].
  destruct (fold_left (stencil_axis flags ORDER ix x xstart i) (seq 0 N) (1%Q, 1, []))
    as [[w n] nb'].
  cbn [snd app] in E |- *. subst nb'.
  destruct (Forall2_seq_nth _ _ _ _ 0 F) as [HL Hn].
  split; [exact HL|]. intros idim Hidim. apply (Hn idim Hidim).
Qed.

(** The start of the stencil and its end lie within the extra slices that
    the order requires. *)
Lemma stencil_start_bounds flags N ORDER x idim :
  CELLCENTERSHIFTED flags = false -> 2 <= ORDER <= 5 -> (idim < N)%nat ->
  let widths := get_extra_slices_needed_by_order flags ORDER in
  - fst widths <= at_ (stencil_start flags N ORDER x) idim
  /\ at_ (stencil_start flags N ORDER x) idim + ORDER - 1 <= snd widths.
Proof.
  intros Hc Hp Hi widths. subst widths.
  unfold stencil_start, get_extra_slices_needed_by_order.
  rewrite at_map_seq by exact Hi. rewrite Hc.
  assert (E : ORDER = 2 \/ ORDER = 3 \/ ORDER = 4 \/ ORDER = 5) by lia.
  destruct E as [-> | [-> | [-> | ->]]];
    try (destruct (Qltb (1 # 2) (INTERPOLATION.qat x idim)));
    vm_compute; split; congruence.
Qed.

Lemma at_periodic_coord N M nb idim :
  (idim < N)%nat ->
  at_ (periodic_coord N M nb) idim
  = if (idim =? 0)%nat then at_ nb 0
    else let c := at_ nb idim in
         let c := if c >=? M then c - M else c in
         if c <? 0 then c + M else c.
Proof. intros H. unfold periodic_coord. apply at_map_seq. exact H. Qed.

Lemma at_locate_particle N g pos idim :
  (idim < N)%nat ->
  at_ (fst (locate_particle N g pos)) idim
  = let i := to_int (INTERPOLATION.qat pos idim * inject_Z (Nmesh g))%Q in
    if (idim =? 0)%nat then i - Local_x_start g
    else if i =? Nmesh g then 0 else i.
Proof.
  intros H. unfold locate_particle. cbn [fst]. unfold get_nmesh, get_local_x_start.
  rewrite at_map_seq by exact H.
  assert (E : forall k, (k < N)%nat ->
            at_ (map to_int (map (fun idim0 => (INTERPOLATION.qat pos idim0 * inject_Z (Nmesh g))%Q)
                                 (seq 0 N))) k
            = to_int (INTERPOLATION.qat pos k * inject_Z (Nmesh g))%Q).
  { intros k Hk. rewrite map_map. apply at_map_seq. exact Hk. }
  destruct idim as [|idim]; cbn [Nat.eqb].
  - rewrite E by lia. reflexivity.
  - rewrite E by lia. reflexivity.
Qed.

(** ** The deposit of a particle *)

Lemma periodic_coord_length N M nb : List.length (periodic_coord N M nb) = N.
Proof. unfold periodic_coord. rewrite length_map, length_seq. reflexivity. Qed.

(** Every cell of the stencil of a particle of the box is a cell of the
    storage: in an owned or a ghost slab on the first axis, wrapped into the
    mesh on the other axes. *)
Lemma deposit_coord_in_range flags N ORDER M gL gR m p i :
  scatter_setting flags N ORDER M gL gR -> in_box N p -> 0 <= i ->
  let g := with_memory (FFTWGrid_new N M gL gR) m in
  let located := locate_particle N g (INTERPOLATION.get_pos p) in
  let coord :=
    periodic_coord N M
      (snd (stencil_cell flags N ORDER (fst located) (snd located)
              (stencil_start flags N ORDER (snd located)) i)) in
  List.length coord = N
  /\ - gL <= at_ coord 0 < M + gR
  /\ forall k, (1 <= k < N)%nat -> 0 <= at_ coord k < M.
Proof.
  intros (Hc & HN & HM & Hp & HL & HR) Hbox Hi g located coord.
  split; [apply periodic_coord_length|].
  assert (A : forall idim, (idim < N)%nat ->
            exists c d, 0 <= c < M /\ 0 <= d < ORDER
              /\ at_ (snd (stencil_cell flags N ORDER (fst located) (snd located)
                             (stencil_start flags N ORDER (snd located)) i)) idim
                 = c + (at_ (stencil_start flags N ORDER (snd located)) idim + d)).
  { intros idim Hidim.
    destruct (stencil_cell_coords flags N ORDER (fst located) (snd located)
                (stencil_start flags N ORDER (snd located)) i ltac:(lia) Hi) as [_ H].
    destruct (H idim Hidim) as [d [Hd E]].
    destruct (locate_particle_cell N g (INTERPOLATION.get_pos p) idim Hidim HM (Hbox idim Hidim))
      as [_ [Hcell _]].
    change (Nmesh g) with M in Hcell.
    exists (to_int (INTERPOLATION.qat (INTERPOLATION.get_pos p) idim * inject_Z M)%Q), d.
    split; [exact Hcell|]. split; [exact Hd|].
    rewrite E. f_equal. subst located. rewrite at_locate_particle by exact Hidim.
    change (Nmesh g) with M. change (Local_x_start g) with 0. cbv zeta.
    destruct idim as [|idim]; cbn [Nat.eqb]; [lia|].
    replace (to_int (INTERPOLATION.qat (INTERPOLATION.get_pos p) (S idim) * inject_Z M) =? M)
      with false; [reflexivity|]. symmetry. apply Z.eqb_neq. lia. }
  split.
  - subst coord. rewrite at_periodic_coord by lia. cbn [Nat.eqb].
    destruct (A 0%nat ltac:(lia)) as (c & d & Hcr & Hd & ->).
    pose proof (stencil_start_bounds flags N ORDER (snd located) 0 Hc Hp ltac:(lia)) as B.
    cbv zeta in B. lia.
  - intros k Hk. subst coord. rewrite at_periodic_coord by lia.
    replace (k =? 0)%nat with false by (symmetry; apply Nat.eqb_neq; lia).
    destruct (A k ltac:(lia)) as (c & d & Hcr & Hd & ->).
    pose proof (stencil_start_bounds flags N ORDER (snd located) k Hc Hp ltac:(lia)) as B.
    cbv zeta in B |- *.
    match goal with |- context [?a >=? M] =>
      destruct (a >=? M) eqn:E1; [apply Z.geb_le in E1 | rewrite Z.geb_leb in E1; apply Z.leb_gt in E1]
    end;
    match goal with |- context [?a <? 0] =>
      destruct (a <? 0) eqn:E2; [apply Z.ltb_lt in E2 | apply Z.ltb_ge in E2]
    end; lia.
Qed.

Lemma Forall_tl (P : Z -> Prop) coord N :
  List.length coord = N -> (forall k, (1 <= k < N)%nat -> P (at_ coord k)) ->
  Forall P (tl coord).
Proof.
  intros HL H. destruct coord as [|c0 rest]; [constructor|].
  cbn [tl]. apply Forall_forall. intros c Hin.
  destruct (In_nth _ _ 0 Hin) as [j [Hj <-]].
  cbn [List.length] in HL. apply (H (S j)). lia.
Qed.

(** One deposit: a store on an active cell of an owned or a ghost slab. *)
Lemma deposit_cell flags N ORDER M gL gR m p i v :
  scatter_setting flags N ORDER M gL gR -> in_box N p -> 0 <= i ->
  let g0 := FFTWGrid_new N M gL gR in
  let base := NmeshTotRealSlice g0 * gL in
  let located := locate_particle N g0 (INTERPOLATION.get_pos p) in
  let coord :=
    periodic_coord N M
      (snd (stencil_cell flags N ORDER (fst located) (snd located)
              (stencil_start flags N ORDER (snd located)) i)) in
  exists n,
    - gL * M ^ (Z.of_nat N - 1) <= n < (M + gR) * M ^ (Z.of_nat N - 1)
    /\ add_real flags N (with_memory g0 m) coord v
       = Ok (with_memory g0
               (store m (base + active_index M n)
                      (Qplus (m (base + active_index M n)) v))).
Proof.
  intros Hs Hbox Hi g0 base located coord.
  destruct (deposit_coord_in_range flags N ORDER M gL gR m p i Hs Hbox Hi) as (HL & H0 & Hk).
  fold g0 in HL, H0, Hk. 
  change (locate_particle N (with_memory g0 m) (INTERPOLATION.get_pos p)) with located in HL, H0, Hk.
  fold coord in HL, H0, Hk.
  destruct Hs as (Hc & HN & HM & Hp & HgL & HgR).
  exists (cell_number M coord). split.
  - unfold cell_number.
    pose proof (horner_range M (tl coord) (hd 0 coord) HM
                  (Forall_tl _ coord N HL Hk)) as R.
    replace (hd 0 coord) with (at_ coord 0) in R by (destruct coord; reflexivity).
    replace (Z.of_nat (List.length (tl coord))) with (Z.of_nat N - 1) in R
      by (destruct coord; cbn [List.length tl] in *; lia).
    assert (P : 0 < M ^ (Z.of_nat N - 1)) by (apply Z.pow_pos_nonneg; lia).
    assert (P1 : - gL * M ^ (Z.of_nat N - 1) <= at_ coord 0 * M ^ (Z.of_nat N - 1))
      by (apply Z.mul_le_mono_nonneg_r; lia).
    assert (P2 : (at_ coord 0 + 1) * M ^ (Z.of_nat N - 1) <= (M + gR) * M ^ (Z.of_nat N - 1))
      by (apply Z.mul_le_mono_nonneg_r; lia).
    replace (hd 0 coord) with (at_ coord 0) by (destruct coord; reflexivity).
    lia.
  - unfold add_real.
    rewrite (get_index_real_checked flags N (with_memory g0 m) coord HN HL H0 Hk).
    destruct (get_index_real_default N (with_memory g0 m) coord) as [index Hindex].
    rewrite Hindex. cbn [bind].
    assert (Hlast : 0 <= last coord 0 < Nmesh (with_memory g0 m)).
    { rewrite last_nth, HL. apply (Hk (N - 1)%nat). lia. }
    pose proof (real_cell_address_active N (with_memory g0 m) coord index HN HL HM
                  (slice_shape_new N M gL gR) Hlast Hindex) as A.
    unfold real_cell_address in A.
    change (NmeshTotRealSlice (with_memory g0 m) * n_extra_x_slices_left (with_memory g0 m))
      with base in A.
    change (Nmesh (with_memory g0 m)) with M in A.
    unfold get_real_grid, get_real_grid_left.
    change (NmeshTotRealSlice (with_memory g0 m) * n_extra_x_slices_left (with_memory g0 m))
      with base.
    rewrite Z.add_0_l, A. reflexivity.
Qed.

(** The deposits of one particle raise the sum over the active cells of all
    the slabs by the weights of the cells. *)
Lemma deposit_cells flags N ORDER M gL gR p norm_fac l :
  scatter_setting flags N ORDER M gL gR -> in_box N p -> Forall (fun i => 0 <= i) l ->
  let g0 := FFTWGrid_new N M gL gR in
  let located := locate_particle N g0 (INTERPOLATION.get_pos p) in
  let xstart := stencil_start flags N ORDER (snd located) in
  let weight i := fst (stencil_cell flags N ORDER (fst located) (snd located) xstart i) in
  forall m sumweights,
  exists m' sumweights',
    for_each (deposit_in_cell flags N ORDER norm_fac 1 (fst located) (snd located) xstart)
             l (with_memory g0 m, sumweights)
    = Ok (with_memory g0 m', sumweights')
    /\ (total_sum N M gL gR m' == total_sum N M gL gR m + norm_fac * qsum weight l)%Q
    /\ (sumweights' == sumweights + qsum weight l)%Q.
Proof.
  intros Hs Hbox Hl g0 located xstart weight.
  induction Hl as [|i l Hi _ IH]; intros m sumweights.
  - exists m, sumweights. cbn [for_each]. rewrite qsum_nil. repeat split; ring.
  - cbn [for_each]. unfold deposit_in_cell at 1.
    destruct (deposit_cell flags N ORDER M gL gR m p i
                (weight i * norm_fac * 1)%Q Hs Hbox Hi) as [n [Hn Hadd]].
    fold g0 in Hadd. fold located in Hadd. fold xstart in Hadd.
    change (get_nmesh (with_memory g0 m)) with M.
    unfold weight in Hadd.
    destruct (stencil_cell flags N ORDER (fst located) (snd located) xstart i)
      as [w nb] eqn:E.
    cbn [fst snd] in Hadd. rewrite Hadd. cbn [bind].
    match goal with |- context [with_memory g0 ?m1] =>
      match m1 with store _ _ _ => destruct (IH m1 (sumweights + w)%Q) as (m' & sw' & E1 & E2 & E3) end
    end.
    exists m', sw'. split; [exact E1|].
    assert (W : weight i = w) by (unfold weight; rewrite E; reflexivity).
    rewrite qsum_cons, W. split.
    + rewrite E2. unfold total_sum. fold g0.
      destruct Hs as (_ & HN & HM & _ & HL & HR).
      assert (P : 0 < M ^ (Z.of_nat N - 1)) by (apply Z.pow_pos_nonneg; lia).
      assert (Hrange : - gL * M ^ (Z.of_nat N - 1) <= n
                       < - gL * M ^ (Z.of_nat N - 1)
                         + Z.of_nat (Z.to_nat ((gL + M + gR) * M ^ (Z.of_nat N - 1)))).
      { rewrite Z2Nat.id by nia. nia. }
      rewrite (active_sum_store m (NmeshTotRealSlice g0 * gL) M _ _ n _ HM Hrange).
      ring.
    + rewrite E3. ring.
Qed.

(** A particle of the box raises the sum over the active cells of all the
    slabs by [norm_fac]: its weights sum to 1, and the debug assertion
    holds. *)
Lemma deposit_particle_sum flags N ORDER M gL gR p norm_fac m :
  scatter_setting flags N ORDER M gL gR -> in_box N p ->
  let g0 := FFTWGrid_new N M gL gR in
  exists m',
    deposit_particle flags N ORDER norm_fac (with_memory g0 m) p = Ok (with_memory g0 m')
    /\ (total_sum N M gL gR m' == total_sum N M gL gR m + norm_fac)%Q.
Proof.
  intros Hs Hbox g0. subst g0. unfold deposit_particle.
  change (locate_particle N (with_memory (FFTWGrid_new N M gL gR) m) (INTERPOLATION.get_pos p))
    with (locate_particle N (FFTWGrid_new N M gL gR) (INTERPOLATION.get_pos p)).
  pose proof Hs as (Hc & HN & HM & Hp & HL & HR).
  pose proof (scatter_weights_sum_to_one flags N ORDER (FFTWGrid_new N M gL gR)
                (INTERPOLATION.get_pos p)
                Hc Hp HM Hbox) as W.
  cbv zeta in W. unfold sum_of_weights in W. rewrite fold_left_qsum, Qplus_0_l in W.
  destruct (deposit_cells flags N ORDER M gL gR p norm_fac
              (zseq 0 (Z.to_nat (power ORDER (Z.of_nat N)))) Hs Hbox
              ltac:(apply Forall_forall; intros i Hi; apply zseq_In in Hi; lia)
              m 0%Q) as (m' & sw' & E1 & E2 & E3).
  cbv zeta in E1, E2, E3.
  destruct (locate_particle N (FFTWGrid_new N M gL gR) (INTERPOLATION.get_pos p)) as [ix x].
  cbn [fst snd] in *.
  rewrite E1. cbn [bind].
  exists m'. split.
  - destruct (DEBUG_INTERPOL flags); [|reflexivity].
    replace (Qltb (Qabs (sw' - 1)) (1 # 1000)) with true; [reflexivity|].
    symmetry. apply Qltb_lt. rewrite E3, W.
    setoid_replace (0 + 1 - 1)%Q with 0%Q by ring. reflexivity.
  - rewrite E2, W. ring.
Qed.

Lemma deposit_particles_sum flags N ORDER M gL gR norm_fac ps :
  scatter_setting flags N ORDER M gL gR -> Forall (in_box N) ps ->
  let g0 := FFTWGrid_new N M gL gR in
  forall m,
  exists m',
    for_each (deposit_particle flags N ORDER norm_fac) ps (with_memory g0 m)
    = Ok (with_memory g0 m')
    /\ (total_sum N M gL gR m'
        == total_sum N M gL gR m + norm_fac * inject_Z (Z.of_nat (List.length ps)))%Q.
Proof.
  intros Hs Hps g0. induction Hps as [|p ps Hp _ IH]; intros m.
  - exists m. split; [reflexivity|]. cbn [List.length Z.of_nat inject_Z]. ring.
  - cbn [for_each].
    destruct (deposit_particle_sum flags N ORDER M gL gR p norm_fac m Hs Hp) as (m1 & E1 & S1).
    fold g0 in E1. rewrite E1. cbn [bind].
    destruct (IH m1) as (m' & E' & S'). exists m'. split; [exact E'|].
    rewrite S', S1. cbn [List.length]. rewrite Nat2Z.inj_succ. unfold Z.succ.
    rewrite inject_Z_plus. ring.
Qed.

(** ** The grid of the constructor *)

Lemma fold_mul_const (f : nat -> Z) M l a :
  (forall i, In i l -> f i = M) ->
  fold_left (fun acc i => acc * f i) l a = a * M ^ Z.of_nat (List.length l).
Proof.
  revert a. induction l as [|i l IH]; intros a H.
  - cbn [fold_left List.length Z.of_nat]. rewrite Z.pow_0_r. ring.
  - cbn [fold_left List.length]. rewrite IH by (intros j Hj; apply H; right; exact Hj).
    rewrite (H i (or_introl eq_refl)), Nat2Z.inj_succ, Z.pow_succ_r by lia. ring.
Qed.

(** The slabs of [M^(N-1)] cells and of [NmeshTotRealSlice] reals, and the
    allocation of [gL + M + gR] slabs. *)
Lemma new_grid_sizes N M gL gR :
  (2 <= N)%nat -> 1 <= M ->
  let g0 := FFTWGrid_new N M gL gR in
  let W := M ^ (Z.of_nat N - 2) in
  0 < W
  /\ M ^ (Z.of_nat N - 1) = M * W
  /\ NmeshTotRealSlice g0 = 2 * (M ÷ 2 + 1) * W
  /\ NmeshTotRealAlloc g0 = NmeshTotRealSlice g0 * (gL + M + gR)
  /\ NmeshTotReal g0 = M * M ^ (Z.of_nat N - 1)
  /\ 0 < NmeshTotRealSlice g0.
Proof.
  intros HN HM g0 W.
  assert (HW : 0 < W) by (apply Z.pow_pos_nonneg; lia).
  assert (HV : M ^ (Z.of_nat N - 1) = M * W).
  { subst W. replace (Z.of_nat N - 1) with (Z.succ (Z.of_nat N - 2)) by lia.
    rewrite Z.pow_succ_r by lia. reflexivity. }
  assert (Hq : 0 <= M ÷ 2) by (apply Z.quot_pos; lia).
  split; [exact HW|]. split; [exact HV|].
  split; [unfold g0, FFTWGrid_new, power; cbn [NmeshTotRealSlice]; fold W; ring|].
  split; [|split].
  - unfold g0, FFTWGrid_new, power. cbn [NmeshTotRealAlloc NmeshTotRealSlice]. fold W.
    replace N with (S (N - 1)) at 1 by lia.
    rewrite seq_S, fold_left_app. cbn [fold_left].
    replace (0 + (N - 1) =? N - 1)%nat with true by (symmetry; apply Nat.eqb_eq; lia).
    rewrite (fold_mul_const _ M).
    + rewrite length_seq. replace (Z.of_nat (N - 1)) with (Z.of_nat N - 1) by lia.
      rewrite HV. ring.
    + intros i Hi. apply in_seq in Hi.
      replace (i =? N - 1)%nat with false by (symmetry; apply Nat.eqb_neq; lia). reflexivity.
  - reflexivity.
  - unfold g0, FFTWGrid_new, power. cbn [NmeshTotRealSlice]. fold W. nia.
Qed.

(** The addresses of the active cells of all the slabs lie in the
    allocation. *)
Lemma active_cell_allocated N M gL gR n :
  (2 <= N)%nat -> 1 <= M ->
  - gL * M ^ (Z.of_nat N - 1) <= n < (M + gR) * M ^ (Z.of_nat N - 1) ->
  let g0 := FFTWGrid_new N M gL gR in
  0 <= NmeshTotRealSlice g0 * gL + active_index M n < NmeshTotRealAlloc g0.
Proof.
  intros HN HM Hn g0.
  destruct (new_grid_sizes N M gL gR HN HM) as (HW & HV & HS & HA & _).
  fold g0 in HS, HA. rewrite HA, HS. rewrite HV in Hn.
  pose proof (active_index_slab_range M (M ^ (Z.of_nat N - 2)) n (- gL) (M + gR) HM Hn) as R.
  lia.
Qed.

(** After [fill_real_grid(-1)] every active cell of every slab is -1. *)
Lemma total_sum_filled N M gL gR m :
  (2 <= N)%nat -> 1 <= M -> 0 <= gL -> 0 <= gR ->
  let g0 := FFTWGrid_new N M gL gR in
  fill_real_grid (with_memory g0 m) (- (1))%Q
  = with_memory g0 (fill m 0 (NmeshTotRealAlloc g0) (- (1))%Q)
  /\ (total_sum N M gL gR (fill m 0 (NmeshTotRealAlloc g0) (- (1))%Q)
      == - inject_Z ((gL + M + gR) * M ^ (Z.of_nat N - 1)))%Q.
Proof.
  intros HN HM HgL HgR g0. split; [reflexivity|].
  unfold total_sum, active_sum. fold g0.
  assert (P : 0 < M ^ (Z.of_nat N - 1)) by (apply Z.pow_pos_nonneg; lia).
  rewrite (qsum_ext _ (fun _ => (- (1))%Q)).
  - rewrite qsum_const, zseq_length, Z2Nat.id by nia. ring.
  - intros n Hn. apply zseq_In in Hn. rewrite Z2Nat.id in Hn by nia.
    unfold fill.
    pose proof (active_cell_allocated N M gL gR n HN HM ltac:(nia)) as A.
    cbv zeta in A. fold g0 in A.
    rewrite andb_range by lia. reflexivity.
Qed.

(** On a grid made by the constructor that fits in [int], no [int] of the
    arithmetic of the real grid overflows. *)
Lemma new_grid_in_int N M gL gR m :
  (2 <= N)%nat -> 1 <= M ->
  grid_fits_int N (FFTWGrid_new N M gL gR) ->
  real_grid_in_int N (with_memory (FFTWGrid_new N M gL gR) m).
Proof.
  intros HN HM Hfit.
  assert (Hfit' : grid_fits_int N (with_memory (FFTWGrid_new N M gL gR) m)) by exact Hfit.
  destruct (new_grid_sizes N M gL gR HN HM) as (HW & HV & Hslice & _ & Htot & _).
  pose proof Hfit as (HL & _ & HR & _).
  cbn [FFTWGrid_new n_extra_x_slices_left n_extra_x_slices_right] in HL, HR.
  destruct (grid_fits_int_bounds N (FFTWGrid_new N M gL gR) HN HM Hfit) as (B1 & B2 & B3 & B4 & HP).
  { cbn [FFTWGrid_new n_extra_x_slices_left n_extra_x_slices_right Local_nx]. lia. }
  cbn [FFTWGrid_new n_extra_x_slices_left n_extra_x_slices_right Local_nx Nmesh] in B1, B2, B3, B4, HP.
  destruct (padded_row M HM) as [Hh Hp].
  set (W := M ^ (Z.of_nat N - 2)) in *.
  set (T := gL + M + gR) in *.
  assert (HT : M <= T) by (unfold T; lia).
  assert (Hbig : M * W * (M + 2) <= (M + 2) * W * T).
  { clearbody W T. nia. }
  assert (Hto : 0 <= M * (M * W) /\ M * (M * W) + 2 * (M * W) <= INT_MAX).
  { clearbody W T. nia. }
  unfold real_grid_in_int.
  split; [|split; [|split; [|split]]].
  - unfold get_real_range_in_int. cbn [with_memory NmeshTotReal Nmesh].
    rewrite Htot, HV. cbn [FFTWGrid_new Nmesh].
    split; apply in_int_range; lia.
  - unfold get_real_range. cbn [with_memory NmeshTotReal Nmesh].
    rewrite Htot, HV. cbn [FFTWGrid_new Nmesh].
    apply range_from_zero_in_int; [lia | lia | lia |].
    replace (M * (M * W)) with (M * W * M) by ring.
    rewrite Z.quot_mul by lia. clearbody W T. nia.
  - cbn [with_memory NmeshTotRealSlice n_extra_x_slices_left n_extra_x_slices_right].
    rewrite Hslice. cbn [FFTWGrid_new n_extra_x_slices_left n_extra_x_slices_right].
    assert (0 <= 2 * (M ÷ 2 + 1) * W <= (M + 2) * W) by (clearbody W T; nia).
    assert ((M + 2) * W <= (M + 2) * W * T) by (clearbody W T; nia).
    assert (gL <= T /\ gR <= T) by (unfold T; lia).
    repeat split; apply in_int_range; lia.
  - intros index Hindex.
    cbn [with_memory NmeshTotRealSlice Local_nx n_extra_x_slices_left
         n_extra_x_slices_right] in Hindex.
    rewrite Hslice in Hindex.
    cbn [FFTWGrid_new Local_nx n_extra_x_slices_left n_extra_x_slices_right] in Hindex.
    apply coord_from_index_in_int.
    + exact HN.
    + exact HM.
    + cbn [with_memory FFTWGrid_new Nmesh]. lia.
    + apply (in_int_abs ((M + 2) * W * T)); [clearbody W T; nia|].
      assert (gL <= T /\ M + gR <= T) by (unfold T; lia).
      assert (0 <= 2 * (M ÷ 2 + 1) * W <= (M + 2) * W) by (clearbody W T; nia).
      set (S := 2 * (M ÷ 2 + 1) * W) in *.
      assert (S * gL <= (M + 2) * W * T /\ S * (M + gR) <= (M + 2) * W * T).
      { clearbody S W T. nia. }
      clearbody S W T. lia.
  - intros coord Hlen H0 Hk.
    apply addressable_cell_in_int; assumption.
Qed.

(** ** The reduction of the extra slices *)

(** [slice[j] += temp[j] + 1] over a slice, for a [temp] apart from it. *)
Lemma add_slice_steps g dst src k :
  (dst + Z.of_nat k <= src \/ src + Z.of_nat k <= dst) ->
  exists m',
    fold_left
      (fun g j =>
         let m := fourier_grid_raw g in
         with_memory g (store m (dst + j) (Qplus (m (dst + j)) (Qplus (m (src + j)) 1))))
      (zseq 0 k) g
    = with_memory g m'
    /\ forall a, m' a = if (dst <=? a) && (a <? dst + Z.of_nat k)
                        then Qplus (fourier_grid_raw g a)
                                   (Qplus (fourier_grid_raw g (a - dst + src)) 1)
                        else fourier_grid_raw g a.
Proof.
  induction k as [|k IH]; intros Hd.
  - exists (fourier_grid_raw g). split; [destruct g; reflexivity|].
    intros a. rewrite andb_range_out by lia. reflexivity.
  - destruct (IH ltac:(lia)) as (m1 & E1 & H1).
    rewrite zseq_S, fold_left_app, E1. cbn [fold_left with_memory fourier_grid_raw].
    eexists. split; [reflexivity|].
    intros a. unfold store. rewrite !H1.
    rewrite (andb_range_out dst (dst + Z.of_nat k) (dst + (0 + Z.of_nat k))) by lia.
    rewrite (andb_range_out dst (dst + Z.of_nat k) (src + (0 + Z.of_nat k))) by lia.
    destruct (a =? dst + (0 + Z.of_nat k)) eqn:E.
    + apply Z.eqb_eq in E. subst a. rewrite andb_range by lia.
      do 3 f_equal. lia.
    + apply Z.eqb_neq in E.
      destruct (range_dec dst (dst + Z.of_nat k) a) as [R|R].
      * rewrite !andb_range by lia. reflexivity.
      * rewrite !andb_range_out by lia. reflexivity.
Qed.

Lemma add_slice_memory g dst src :
  0 <= NmeshTotRealSlice g ->
  (dst + NmeshTotRealSlice g <= src \/ src + NmeshTotRealSlice g <= dst) ->
  exists m',
    add_slice g dst src = with_memory g m'
    /\ forall a, m' a = if (dst <=? a) && (a <? dst + NmeshTotRealSlice g)
                        then Qplus (fourier_grid_raw g a)
                                   (Qplus (fourier_grid_raw g (a - dst + src)) 1)
                        else fourier_grid_raw g a.
Proof.
  intros Hs Hd. unfold add_slice, get_ntot_real_slice_alloc.
  destruct (add_slice_steps g dst src (Z.to_nat (NmeshTotRealSlice g)) ltac:(lia))
    as (m' & E & H).
  exists m'. split; [exact E|]. intros a. rewrite H, Z2Nat.id by lia. reflexivity.
Qed.

Ltac split_ranges :=
  repeat match goal with
  | |- context [(?lo <=? ?a) && (?a <? ?hi)] =>
      let H := fresh "R" in
      destruct (range_dec lo hi a) as [H|H];
      [rewrite (andb_range lo hi a H) | rewrite (andb_range_out lo hi a H)]
  end.

(** The first loop: the right ghost slab [i] is added, and 1 with it, to the
    owned slab [i]. *)
Lemma reduce_right g0 num_cells_slice k m :
  num_cells_slice = NmeshTotRealSlice g0 -> 0 < NmeshTotRealSlice g0 ->
  0 <= n_extra_x_slices_left g0 -> Z.of_nat k <= Local_nx g0 ->
  let slab := NmeshTotRealSlice g0 in
  let main := slab * n_extra_x_slices_left g0 in
  exists m',
    fold_left
      (fun density i =>
         let extra_slice_right := get_real_grid_right density + num_cells_slice * i in
         let slice_left := get_real_grid density + num_cells_slice * i in
         add_slice density slice_left extra_slice_right)
      (zseq 0 k) (with_memory g0 m)
    = with_memory g0 m'
    /\ forall a, m' a = if (main <=? a) && (a <? main + slab * Z.of_nat k)
                        then Qplus (m a) (Qplus (m (a + slab * Local_nx g0)) 1)
                        else m a.
Proof.
  intros -> Hslab HgL Hk slab main.
  induction k as [|k IH].
  - exists m. split; [reflexivity|]. intros a. rewrite andb_range_out by lia. reflexivity.
  - destruct (IH ltac:(lia)) as (m1 & E1 & H1).
    rewrite zseq_S, fold_left_app, E1. cbn [fold_left]. cbv zeta.
    destruct (add_slice_memory (with_memory g0 m1)
                (get_real_grid (with_memory g0 m1) + NmeshTotRealSlice g0 * (0 + Z.of_nat k))
                (get_real_grid_right (with_memory g0 m1)
                 + NmeshTotRealSlice g0 * (0 + Z.of_nat k)))
      as (m2 & E2 & H2).
    + change (NmeshTotRealSlice (with_memory g0 m1)) with slab. lia.
    + change (NmeshTotRealSlice (with_memory g0 m1)) with slab.
      unfold get_real_grid, get_real_grid_right, get_real_grid_left.
      cbn [with_memory NmeshTotRealSlice n_extra_x_slices_left Local_nx]. fold slab.
      left. nia.
    + exists m2. split; [exact E2|].
      intros a. rewrite H2. cbn [with_memory fourier_grid_raw NmeshTotRealSlice].
      unfold get_real_grid, get_real_grid_right, get_real_grid_left.
      cbn [with_memory NmeshTotRealSlice n_extra_x_slices_left Local_nx].
      fold slab. fold main. rewrite !H1.
      assert (M1 : 0 <= slab * Z.of_nat k) by nia.
      assert (M2 : slab * Z.of_nat k + slab <= slab * Local_nx g0) by nia.
      assert (M3 : slab * (n_extra_x_slices_left g0 + Local_nx g0)
                   = main + slab * Local_nx g0) by (subst main; ring).
      rewrite M3.
      split_ranges; try lia; try reflexivity.
      all: do 3 f_equal; lia.
Qed.

(** The second loop: the left ghost slab [-i] is added, and 1 with it, to
    the owned slab [nx - i]. *)
Lemma reduce_left g0 num_cells_slice k m :
  num_cells_slice = NmeshTotRealSlice g0 -> 0 < NmeshTotRealSlice g0 ->
  Z.of_nat k <= n_extra_x_slices_left g0 -> Z.of_nat k <= Local_nx g0 ->
  let slab := NmeshTotRealSlice g0 in
  let main := slab * n_extra_x_slices_left g0 in
  exists m',
    fold_left
      (fun density i =>
         let extra_slice_left := get_real_grid density - i * num_cells_slice in
         let slice_right :=
           get_real_grid density + num_cells_slice * (get_local_nx density - i) in
         add_slice density slice_right extra_slice_left)
      (zseq 1 k) (with_memory g0 m)
    = with_memory g0 m'
    /\ forall a, m' a = if (main + slab * (Local_nx g0 - Z.of_nat k) <=? a)
                           && (a <? main + slab * Local_nx g0)
                        then Qplus (m a) (Qplus (m (a - slab * Local_nx g0)) 1)
                        else m a.
Proof.
  intros -> Hslab HgL Hk slab main.
  induction k as [|k IH].
  - exists m. split; [reflexivity|]. intros a. rewrite andb_range_out by lia. reflexivity.
  - destruct (IH ltac:(lia) ltac:(lia)) as (m1 & E1 & H1).
    rewrite zseq_S, fold_left_app, E1. cbn [fold_left]. cbv zeta.
    destruct (add_slice_memory (with_memory g0 m1)
                (get_real_grid (with_memory g0 m1)
                 + NmeshTotRealSlice g0 * (get_local_nx (with_memory g0 m1) - (1 + Z.of_nat k)))
                (get_real_grid (with_memory g0 m1) - (1 + Z.of_nat k) * NmeshTotRealSlice g0))
      as (m2 & E2 & H2).
    + change (NmeshTotRealSlice (with_memory g0 m1)) with slab. lia.
    + change (NmeshTotRealSlice (with_memory g0 m1)) with slab.
      unfold get_real_grid, get_real_grid_left, get_local_nx.
      cbn [with_memory NmeshTotRealSlice n_extra_x_slices_left Local_nx]. fold slab.
      right. nia.
    + exists m2. split; [exact E2|].
      intros a. rewrite H2. cbn [with_memory fourier_grid_raw NmeshTotRealSlice].
      unfold get_real_grid, get_real_grid_left, get_local_nx.
      cbn [with_memory NmeshTotRealSlice n_extra_x_slices_left Local_nx].
      fold slab. fold main. rewrite !H1.
      assert (M1 : 0 <= slab * Z.of_nat k) by nia.
      assert (M2 : slab * Z.of_nat k + slab <= slab * Local_nx g0) by nia.
      assert (M4 : slab * Z.of_nat k + slab <= main) by (subst main; nia).
      split_ranges; try lia; try reflexivity.
      all: do 3 f_equal; lia.
Qed.

(** The reduction, on the content: what every cell holds after
    [add_contribution_from_extra_slices]. *)
Lemma reduction_memory g0 m :
  0 < NmeshTotRealSlice g0 ->
  0 <= n_extra_x_slices_left g0 <= Local_nx g0 ->
  0 <= n_extra_x_slices_right g0 <= Local_nx g0 ->
  let slab := NmeshTotRealSlice g0 in
  let main := slab * n_extra_x_slices_left g0 in
  let nx := Local_nx g0 in
  let m1 a := if (main <=? a) && (a <? main + slab * n_extra_x_slices_right g0)
              then Qplus (m a) (Qplus (m (a + slab * nx)) 1)
              else m a in
  exists m',
    add_contribution_from_extra_slices (with_memory g0 m) = with_memory g0 m'
    /\ forall a, m' a = if (main + slab * (nx - n_extra_x_slices_left g0) <=? a)
                           && (a <? main + slab * nx)
                        then Qplus (m1 a) (Qplus (m1 (a - slab * nx)) 1)
                        else m1 a.
Proof.
  intros Hslab HgL HgR slab main nx m1.
  unfold add_contribution_from_extra_slices. cbv zeta.
  change (get_ntot_real_slice_alloc (with_memory g0 m)) with (NmeshTotRealSlice g0).
  change (get_n_extra_slices_left (with_memory g0 m)) with (n_extra_x_slices_left g0).
  change (get_n_extra_slices_right (with_memory g0 m)) with (n_extra_x_slices_right g0).
  destruct (reduce_right g0 (NmeshTotRealSlice g0) (Z.to_nat (n_extra_x_slices_right g0)) m
              eq_refl Hslab ltac:(lia) ltac:(lia)) as (ma & Ea & Ha).
  cbv zeta in Ea. rewrite Ea.
  destruct (reduce_left g0 (NmeshTotRealSlice g0) (Z.to_nat (n_extra_x_slices_left g0)) ma
              eq_refl Hslab ltac:(lia) ltac:(lia)) as (mb & Eb & Hb).
  cbv zeta in Eb. change (get_local_nx ?d) with (Local_nx d) in Eb |- *. rewrite Eb. exists mb. split; [reflexivity|].
  intros a. rewrite Hb, !Ha. fold slab main nx.
  rewrite !Z2Nat.id by lia. reflexivity.
Qed.

(** ** The sum after the reduction *)

Lemma zseq_map_shift lo len d : map (fun n => n + d) (zseq lo len) = zseq (lo + d) len.
Proof.
  unfold zseq. rewrite map_map. apply map_ext. intros k. lia.
Qed.

Lemma qsum_shift f lo len d :
  qsum (fun n => f (n + d)) (zseq lo len) = qsum f (zseq (lo + d) len).
Proof. rewrite <- zseq_map_shift, qsum_map. reflexivity. Qed.

Lemma qsum_zero l : (qsum (fun _ => 0) l == 0)%Q.
Proof. rewrite qsum_const. ring. Qed.

(** A sum of terms that vanish from [c] on, or up to [c]. *)
Lemma qsum_below f (c len : nat) :
  (c <= len)%nat ->
  (qsum (fun n => if n <? Z.of_nat c then f n else 0) (zseq 0 len) == qsum f (zseq 0 c))%Q.
Proof.
  intros H. replace len with (c + (len - c))%nat by lia.
  rewrite zseq_app, qsum_app.
  rewrite (qsum_ext _ f (zseq 0 c)).
  - rewrite (qsum_ext _ (fun _ => 0%Q) (zseq (0 + Z.of_nat c) (len - c))).
    + rewrite qsum_zero. ring.
    + intros n Hn. apply zseq_In in Hn.
      replace (n <? Z.of_nat c) with false by (symmetry; apply Z.ltb_ge; lia). reflexivity.
  - intros n Hn. apply zseq_In in Hn.
    replace (n <? Z.of_nat c) with true by (symmetry; apply Z.ltb_lt; lia). reflexivity.
Qed.

Lemma qsum_above f (c len : nat) :
  (c <= len)%nat ->
  (qsum (fun n => if Z.of_nat c <=? n then f n else 0) (zseq 0 len)
   == qsum f (zseq (Z.of_nat c) (len - c)))%Q.
Proof.
  intros H. replace len with (c + (len - c))%nat at 1 by lia.
  rewrite zseq_app, qsum_app.
  rewrite (qsum_ext _ (fun _ => 0%Q) (zseq 0 c)).
  - rewrite (qsum_ext _ f (zseq (0 + Z.of_nat c) (len - c))).
    + rewrite qsum_zero. rewrite Z.add_0_l. ring.
    + intros n Hn. apply zseq_In in Hn.
      replace (Z.of_nat c <=? n) with true by (symmetry; apply Z.leb_le; lia). reflexivity.
  - intros n Hn. apply zseq_In in Hn.
    replace (Z.of_nat c <=? n) with false by (symmetry; apply Z.leb_gt; lia). reflexivity.
Qed.

Lemma active_index_slab_le M W n k :
  1 <= M -> k * (M * W) <= n <-> k * (2 * (M ÷ 2 + 1) * W) <= active_index M n.
Proof.
  intros HM.
  pose proof (active_index_slabs M W 0 k HM) as E.
  rewrite active_index_0, Z.add_0_l in E by exact HM.
  split; intros H.
  - destruct (Z.eq_dec (k * (M * W)) n) as [<- | Hne]; [lia|].
    pose proof (active_index_lt M (k * (M * W)) n HM ltac:(lia)). lia.
  - destruct (Z_lt_le_dec n (k * (M * W))) as [L | L]; [|exact L].
    pose proof (active_index_lt M n (k * (M * W)) HM L). lia.
Qed.

(** What an owned cell holds after the reduction: its own value, the value of
    its image in the right ghost when it lies in the first [gR] slices, the
    value of its image in the left ghost when it lies in the last [gL]. *)
Lemma reduction_owned_cell N M gL gR m :
  (2 <= N)%nat -> 1 <= M -> 0 <= gL <= M -> 0 <= gR <= M ->
  let g0 := FFTWGrid_new N M gL gR in
  let V := M ^ (Z.of_nat N - 1) in
  let main := NmeshTotRealSlice g0 * gL in
  let s n := m (main + active_index M n) in
  exists m',
    add_contribution_from_extra_slices (with_memory g0 m) = with_memory g0 m'
    /\ forall n, 0 <= n < M * V ->
       (m' (main + active_index M n)%Z
        == s n + ((if (n <? gR * V)%Z then s (n + M * V)%Z + 1 else 0)
                  + (if ((M - gL) * V <=? n)%Z then s (n - M * V)%Z + 1 else 0)))%Q.
Proof.
  intros HN HM HgL HgR g0 V main s.
  destruct (new_grid_sizes N M gL gR HN HM) as (HW & EV & Eslab & _ & _ & Hslab).
  fold g0 in Eslab, Hslab. fold V in EV.
  destruct (reduction_memory g0 m Hslab ltac:(exact HgL) ltac:(exact HgR)) as (m' & E & Hm').
  exists m'. split; [exact E|].
  intros n Hn.
  change (n_extra_x_slices_left g0) with gL in Hm'.
  change (n_extra_x_slices_right g0) with gR in Hm'.
  change (Local_nx g0) with M in Hm'.
  fold main in Hm'.
  set (W := M ^ (Z.of_nat N - 2)) in *.
  set (slab := NmeshTotRealSlice g0) in *.
  pose proof (active_index_slab_le M W n 0 HM) as L0.
  pose proof (active_index_slab_le M W n M HM) as LM.
  pose proof (active_index_slab_le M W n gR HM) as LR.
  pose proof (active_index_slab_le M W n (M - gL) HM) as LL.
  pose proof (active_index_slabs M W n M HM) as Eup.
  pose proof (active_index_slabs M W n (- M) HM) as Edown.
  rewrite <- Eslab in L0, LM, LR, LL, Eup, Edown. rewrite <- EV in L0, LM, LR, LL, Eup, Edown.
  assert (B0 : 0 <= active_index M n < M * slab) by lia.
  rewrite Hm'.
  replace (main + active_index M n - slab * M) with (main + active_index M (n - M * V))
    by (replace (n - M * V) with (n + - M * V) by ring; lia).
  replace (main + active_index M n + slab * M) with (main + active_index M (n + M * V))
    by lia.
  rewrite (andb_range_out main (main + slab * gR) (main + active_index M (n - M * V)))
    by (replace (n - M * V) with (n + - M * V) by ring; lia).
  subst s. cbv beta.
  destruct (Z.ltb_spec n (gR * V)) as [HR | HR];
    destruct (Z.leb_spec ((M - gL) * V) n) as [HL | HL].
  - rewrite (andb_range (main + slab * (M - gL))) by lia.
    rewrite (andb_range main) by lia. ring.
  - rewrite (andb_range_out (main + slab * (M - gL))) by lia.
    rewrite (andb_range main) by lia. ring.
  - rewrite (andb_range (main + slab * (M - gL))) by lia.
    rewrite (andb_range_out main) by lia. ring.
  - rewrite (andb_range_out (main + slab * (M - gL))) by lia.
    rewrite (andb_range_out main) by lia. ring.
Qed.

Lemma qsum_succ f l : (qsum (fun n => f n + 1) l == qsum f l + inject_Z (Z.of_nat (List.length l)))%Q.
Proof. rewrite qsum_plus, qsum_const. ring. Qed.

(** The reduction moves what the ghost slices received into the owned cells:
    with the [+1] of each visited ghost cell, the owned cells sum afterwards
    to what all the cells summed to before, plus the number of ghost cells. *)
Lemma reduction_sum N M gL gR m :
  (2 <= N)%nat -> 1 <= M -> 0 <= gL <= M -> 0 <= gR <= M ->
  let g0 := FFTWGrid_new N M gL gR in
  exists m',
    add_contribution_from_extra_slices (with_memory g0 m) = with_memory g0 m'
    /\ (owned_sum N M gL gR m'
        == total_sum N M gL gR m + inject_Z ((gL + gR) * M ^ (Z.of_nat N - 1)))%Q.
Proof.
  intros HN HM HgL HgR g0.
  destruct (reduction_owned_cell N M gL gR m HN HM HgL HgR) as (m' & E & Hm').
  exists m'. split; [exact E|].
  destruct (new_grid_sizes N M gL gR HN HM) as (HW & EV & _).
  unfold owned_sum, total_sum, active_sum. fold g0.
  set (V := M ^ (Z.of_nat N - 1)) in *.
  set (main := NmeshTotRealSlice g0 * gL) in *.
  set (s := fun n => m (main + active_index M n)) in *.
  assert (HV : 0 < V) by nia.
  assert (HgLV : 0 <= gL * V) by nia.
  assert (HgRV : 0 <= gR * V) by nia.
  assert (HMgL : 0 <= (M - gL) * V) by nia.
  assert (HMV : 0 <= M * V) by nia.
  assert (HR : gR * V <= M * V) by nia.
  set (cR := Z.to_nat (gR * V)).
  set (cL := Z.to_nat ((M - gL) * V)).
  set (len := Z.to_nat (M * V)).
  rewrite (qsum_ext _ (fun n => s n + ((if n <? Z.of_nat cR then s (n + M * V)%Z + 1 else 0)
                                     + (if Z.of_nat cL <=? n then s (n + - (M * V))%Z + 1 else 0)))%Q).
  2:{ intros n Hn. apply zseq_In in Hn.
      etransitivity; [apply Hm'; unfold len in Hn; lia|].
      unfold cR, cL. rewrite !Z2Nat.id by lia. reflexivity. }
  rewrite !qsum_plus.
  rewrite (qsum_below (fun n => s (n + M * V)%Z + 1)%Q cR len) by (unfold cR, len; lia).
  rewrite (qsum_above (fun n => s (n + - (M * V))%Z + 1)%Q cL len) by (unfold cL, len; nia).
  rewrite !qsum_succ, !zseq_length.
  rewrite (qsum_shift s 0 cR (M * V)), (qsum_shift s (Z.of_nat cL) (len - cL) (- (M * V))).
  replace (Z.to_nat ((gL + M + gR) * V)) with ((len - cL) + (len + cR))%nat
    by (unfold len, cL, cR; nia).
  rewrite !zseq_app, !qsum_app.
  replace (- gL * V + Z.of_nat (len - cL)) with 0 by (unfold len, cL; nia).
  replace (0 + Z.of_nat len) with (0 + M * V) by (unfold len; lia).
  replace (Z.of_nat cL + - (M * V)) with (- gL * V) by (unfold cL; nia).
  replace ((gL + gR) * V) with (Z.of_nat cR + Z.of_nat (len - cL)) by (unfold len, cL, cR; nia).
  rewrite inject_Z_plus. ring.
Qed.

(** The sum over the active cells, as the real range visits them, is the sum
    over the owned cells. *)
Lemma sum_active_cells_owned N M gL gR m :
  (2 <= N)%nat -> 1 <= M ->
  exists s, sum_active_cells (with_memory (FFTWGrid_new N M gL gR) m) = Some s
            /\ (s == owned_sum N M gL gR m)%Q.
Proof.
  intros HN HM. set (g0 := FFTWGrid_new N M gL gR).
  destruct (new_grid_sizes N M gL gR HN HM) as (HW & EV & _ & _ & Etot & _).
  fold g0 in Etot.
  unfold sum_active_cells.
  change (get_real_range (with_memory g0 m)) with (mkRealRange 0 (NmeshTotReal g0) M).
  change (NmeshTotReal (with_memory g0 m)) with (NmeshTotReal g0).
  assert (Hto : 0 <= NmeshTotReal g0) by (rewrite Etot, EV; nia).
  pose proof (range_for_begin M (NmeshTotReal g0) (Z.to_nat (NmeshTotReal g0)) 0 HM Hto eq_refl) as R.
  change (it_advance 0 ?x) with x in R. rewrite R.
  eexists. split; [reflexivity|].
  rewrite fold_left_qsum.
  unfold owned_sum, active_sum. fold g0. rewrite Etot.
  replace (map (fun n => Z.of_nat n + (2 * (M ÷ 2 + 1) - M) * (Z.of_nat n / M))
               (seq 0 (Z.to_nat (M * M ^ (Z.of_nat N - 1)))))
    with (map (active_index M) (zseq 0 (Z.to_nat (M * M ^ (Z.of_nat N - 1))))).
  2:{ unfold zseq. rewrite map_map. apply map_ext. intros k. unfold active_index.
      rewrite Z.add_0_l. reflexivity. }
  rewrite qsum_map. rewrite Qplus_0_l. apply qsum_ext. intros n _.
  reflexivity.
Qed.

(** ** Scatter: the mass accounting of the orders 2 to 5 *)

Lemma required_widths_nonneg flags ORDER :
  CELLCENTERSHIFTED flags = false -> 2 <= ORDER <= 5 ->
  0 <= fst (get_extra_slices_needed_by_order flags ORDER)
  /\ 0 <= snd (get_extra_slices_needed_by_order flags ORDER).
Proof.
  intros Hc Ho. unfold get_extra_slices_needed_by_order. rewrite Hc.
  assert (E : ORDER = 2 \/ ORDER = 3 \/ ORDER = 4 \/ ORDER = 5) by lia.
  destruct E as [-> | [-> | [-> | ->]]]; vm_compute; split; discriminate.
Qed.

(** The mass accounting of the scatter for the orders 2 to 5 (CIC, TSC, PCS,
    PQS) in the corner-centered build (CELLCENTERSHIFTED off), with the
    bounds checks and the debug assertions or without, in a dimension
    [N >= 2]: on a grid of the constructor that fits in [int], with ghost
    widths that are at least the ones the order requires and at most the
    [M] owned slabs, and with [ORDER^N] representable in [int], for
    [NumPart] particles of the box [[0,1)^N], no [int] of the index
    arithmetic overflows, [particles_to_grid] returns, and the active cells
    of the returned grid sum to [s] with
    [s + M^N = (M^N / NumPartTot) * NumPart].  The sums are those of the
    exact arithmetic of the model; floating point follows them up to
    rounding. *)
Theorem scatter_conserves_mass flags N ORDER M gL gR part NumPart NumPartTot m :
  CELLCENTERSHIFTED flags = false -> (2 <= N)%nat -> 1 <= M -> 2 <= ORDER <= 5 ->
  fst (get_extra_slices_needed_by_order flags ORDER) <= gL <= M ->
  snd (get_extra_slices_needed_by_order flags ORDER) <= gR <= M ->
  grid_fits_int N (FFTWGrid_new N M gL gR) ->
  power ORDER (Z.of_nat N) <= INT_MAX ->
  0 < NumPartTot ->
  Forall (in_box N) (firstn NumPart part) ->
  real_grid_in_int N (with_memory (FFTWGrid_new N M gL gR) m)
  /\ exists density' s,
    particles_to_grid flags N ORDER part NumPart NumPartTot
                      (with_memory (FFTWGrid_new N M gL gR) m) = Ok density'
    /\ sum_active_cells density' = Some s
    /\ (s + inject_Z (M ^ Z.of_nat N)
        == inject_Z (M ^ Z.of_nat N) / inject_Z NumPartTot
           * inject_Z (Z.of_nat (List.length (firstn NumPart part))))%Q.
Proof.
  intros Hc HN HM Ho HgL HgR Hfit _ Htot Hbox.
  pose proof (conj Hc (conj HN (conj HM (conj Ho (conj HgL HgR))))
              : scatter_setting flags N ORDER M gL gR) as Hs.
  split; [apply new_grid_in_int; assumption|].
  destruct (required_widths_nonneg flags ORDER Hc Ho) as [HwL HwR].
  set (g0 := FFTWGrid_new N M gL gR).
  set (norm_fac := (inject_Z (M ^ Z.of_nat N) / inject_Z NumPartTot)%Q).
  destruct (total_sum_filled N M gL gR m HN HM ltac:(lia) ltac:(lia)) as [Efill Sfill].
  fold g0 in Efill, Sfill.
  set (m0 := fill m 0 (NmeshTotRealAlloc g0) (- (1))%Q) in *.
  destruct (deposit_particles_sum flags N ORDER M gL gR norm_fac (firstn NumPart part)
              Hs Hbox m0) as (m1 & Edep & Sdep).
  fold g0 in Edep.
  destruct (reduction_sum N M gL gR m1 HN HM ltac:(lia) ltac:(lia)) as (m2 & Ered & Sred).
  fold g0 in Ered.
  destruct (sum_active_cells_owned N M gL gR m2 HN HM) as (s & Esum & Ss).
  fold g0 in Esum.
  exists (with_memory g0 m2), s. split; [|split].
  - unfold particles_to_grid.
    change (get_n_extra_slices_left (with_memory g0 m)) with gL.
    change (get_n_extra_slices_right (with_memory g0 m)) with gR.
    replace ((gL >=? fst (get_extra_slices_needed_by_order flags ORDER))
             && (gR >=? snd (get_extra_slices_needed_by_order flags ORDER))) with true.
    2:{ symmetry. apply andb_true_iff. rewrite !Z.geb_leb. split; apply Z.leb_le; lia. }
    cbn [assert_mpi bind]. cbv zeta. rewrite Efill.
    change (get_nmesh (with_memory g0 m0)) with M. fold norm_fac.
    rewrite Edep. cbn [bind]. rewrite Ered. reflexivity.
  - exact Esum.
  - rewrite Ss, Sred, Sdep, Sfill.
    destruct (new_grid_sizes N M gL gR HN HM) as (_ & EV & _).
    unfold norm_fac.
    replace (M ^ Z.of_nat N) with (M * M ^ (Z.of_nat N - 1)).
    2:{ replace (Z.of_nat N) with (Z.succ (Z.of_nat N - 1)) at 2 by lia.
        rewrite Z.pow_succ_r by lia. reflexivity. }
    fold norm_fac. rewrite !inject_Z_mult, !inject_Z_plus. ring.
Qed.

(** [scatter_conserves_mass] on a mesh of 4 x 4 cells, order 3 (TSC), two
    particles out of three in total. *)
Example scatter_conserves_mass_example :
  real_grid_in_int 2 (with_memory (FFTWGrid_new 2 4 1 2) (fun _ => 0%Q))
  /\ exists density' s,
    particles_to_grid default_flags 2 3
      [mkParticle [(3#16)%Q; (3#5)%Q]; mkParticle [(15#16)%Q; 0%Q]] 2 3
      (with_memory (FFTWGrid_new 2 4 1 2) (fun _ => 0%Q)) = Ok density'
    /\ sum_active_cells density' = Some s
    /\ (s + inject_Z (4 ^ 2) == inject_Z (4 ^ 2) / inject_Z 3 * inject_Z 2)%Q.
Proof.
  apply (scatter_conserves_mass default_flags 2 3 4 1 2
           [mkParticle [(3#16)%Q; (3#5)%Q]; mkParticle [(15#16)%Q; 0%Q]] 2 3 (fun _ => 0%Q)).
  - reflexivity.
  - lia.
  - lia.
  - lia.
  - vm_compute; split; discriminate.
  - vm_compute; split; discriminate.
  - vm_compute; repeat split; discriminate.
  - vm_compute; discriminate.
  - lia.
  - cbn [firstn]. apply Forall_cons; [|apply Forall_cons; [|apply Forall_nil]];
      intros idim Hi;
      (destruct idim as [|[|idim]]; [vm_compute; split; congruence .. | lia]).
Defined.

(** * Further properties of the grid *)

(** ** Vectors *)

Lemma vector_set_length {A} (v : list A) i a : List.length (vector_set v i a) = List.length v.
Proof.
  revert i. induction v as [|b v IH]; intros i; [reflexivity|].
  destruct i; cbn [vector_set List.length]; [reflexivity|]. rewrite IH. reflexivity.
Qed.

Lemma vector_set_nth {A} (v : list A) i a j d :
  nth j (vector_set v i a) d
  = if (j =? i)%nat && (i <? List.length v)%nat then a else nth j v d.
Proof.
  revert i j. induction v as [|b v IH]; intros i j.
  - cbn [vector_set List.length].
    replace (i <? 0)%nat with false by (symmetry; apply Nat.ltb_ge; lia).
    rewrite andb_false_r. reflexivity.
  - destruct i as [|i]; destruct j as [|j]; cbn [vector_set nth List.length]; try reflexivity.
    rewrite IH. reflexivity.
Qed.

Lemma nth_repeat_0 (n j : nat) : nth j (repeat 0 n) 0 = 0.
Proof.
  revert j. induction n as [|n IH]; intros [|j]; cbn [repeat nth]; try reflexivity. apply IH.
Qed.

(** ** The index of a coordinate tuple *)

(** The index of the cell [(c0, mid, cl)] without the bounds checks: the
    number of its row of [Nmesh] cells times the padded length of a row,
    plus the last coordinate. *)
Lemma get_index_real_rows N g c0 mid cl :
  List.length mid = (N - 2)%nat -> (2 <= N)%nat ->
  get_index_real default_flags N g (c0 :: mid ++ [cl])
  = Ok (fold_left (fun acc c => acc * Nmesh g + c) mid c0 * (2 * (Nmesh g ÷ 2 + 1)) + cl).
Proof.
  intros Hmid HN.
  unfold get_index_real, get_index_real_2d, get_index_real_3d.
  cbn [BOUNDSCHECK_FFTWGRID default_flags bind].
  destruct (N =? 2)%nat eqn:E2.
  { apply Nat.eqb_eq in E2. subst N. destruct mid; [|discriminate].
    unfold at_. cbn [app nth fold_left]. f_equal. ring. }
  destruct (N =? 3)%nat eqn:E3.
  { apply Nat.eqb_eq in E3. subst N. destruct mid as [|c1 [|? ?]]; try discriminate.
    unfold at_. cbn [app nth fold_left]. f_equal. ring. }
  rewrite horner_seq by (cbn [List.length]; rewrite length_app; cbn [List.length]; lia).
  change (skipn 1 (c0 :: mid ++ [cl])) with (mid ++ [cl]).
  rewrite firstn_app, Hmid, Nat.sub_diag. cbn [firstn]. rewrite app_nil_r.
  rewrite <- Hmid, firstn_all.
  change (at_ (c0 :: mid ++ [cl]) 0) with c0.
  unfold at_. replace (N - 1)%nat with (S (List.length mid)) by lia.
  cbn [nth]. rewrite app_nth2 by lia. rewrite Nat.sub_diag. reflexivity.
Qed.

(** A tuple of [N >= 2] coordinates is a first one, the middle ones and a
    last one. *)
Lemma coord_split N (coord : list Z) :
  List.length coord = N -> (2 <= N)%nat ->
  exists c0 mid cl, coord = c0 :: mid ++ [cl] /\ List.length mid = (N - 2)%nat.
Proof.
  intros Hlen HN. destruct coord as [|c0 rest]; [cbn in Hlen; lia|].
  assert (Hrest : rest <> []) by (destruct rest; [cbn in Hlen; lia | discriminate]).
  exists c0, (removelast rest), (last rest 0). split.
  - f_equal. apply app_removelast_last. exact Hrest.
  - rewrite removelast_firstn_len, length_firstn. cbn [List.length] in Hlen. lia.
Qed.

(** ** Coordinates and indices of the real grid *)

Lemma quot_rem_digit R M c :
  0 <= R -> 0 <= c < M -> (R * M + c) ÷ M = R /\ Z.rem (R * M + c) M = c.
Proof.
  intros HR Hc.
  rewrite Z.quot_div_nonneg, Z.rem_mod_nonneg by nia.
  split; [symmetry; apply (Z.div_unique _ _ R c) | symmetry; apply (Z.mod_unique _ _ R c)]; lia.
Qed.

Lemma horner_nonneg M l a :
  1 <= M -> Forall (fun c => 0 <= c < M) l -> 0 <= a ->
  0 <= fold_left (fun acc c => acc * M + c) l a.
Proof.
  intros HM Hl Ha. pose proof (horner_range M l a HM Hl) as H.
  assert (P : 0 < M ^ Z.of_nat (List.length l)) by (apply Z.pow_pos_nonneg; lia). nia.
Qed.

(** The loop of [get_coord_from_index] over the middle coordinates reads the
    digits in base [M] of the row number, the last one first. *)
Lemma coord_digits_loop M mid :
  1 <= M -> Forall (fun c => 0 <= c < M) mid ->
  forall c0 coord, 0 <= c0 -> (List.length mid + 1 < List.length coord)%nat ->
  exists coord',
    fold_left (fun '(coord, index) idim => (vector_set coord idim (Z.rem index M), index ÷ M))
              (rev (seq 1 (List.length mid)))
              (coord, fold_left (fun acc c => acc * M + c) mid c0)
    = (coord', c0)
    /\ List.length coord' = List.length coord
    /\ forall j, nth j coord' 0
                 = if ((1 <=? j) && (j <=? List.length mid))%nat
                   then nth (j - 1) mid 0 else nth j coord 0.
Proof.
  intros HM. induction mid as [|c mid IH] using rev_ind; intros Hmid c0 coord Hc0 Hlen.
  - exists coord. cbn [List.length seq rev fold_left]. repeat split.
    intros j. destruct j; reflexivity.
  - apply Forall_app in Hmid. destruct Hmid as [Hmid Hc].
    inversion Hc as [|? ? Hc' _]; subst.
    rewrite length_app in *. cbn [List.length] in *.
    rewrite Nat.add_1_r in *. rewrite seq_S, rev_app_distr. cbn [rev app fold_left].
    rewrite fold_left_app. cbn [fold_left].
    pose proof (horner_nonneg M mid c0 HM Hmid Hc0) as HR.
    destruct (quot_rem_digit _ M c HR Hc') as [-> ->].
    destruct (IH Hmid c0 (vector_set coord (1 + List.length mid) c) Hc0
                ltac:(rewrite vector_set_length; lia)) as (coord' & E & L & Hn).
    exists coord'. split; [exact E|]. split; [rewrite L; apply vector_set_length|].
    intros j. rewrite Hn, vector_set_nth.
    destruct (Nat.eq_dec j (S (List.length mid))) as [-> | Hj].
    + replace ((1 <=? S (List.length mid)) && (S (List.length mid) <=? List.length mid))%nat
        with false by (symmetry; apply andb_false_iff; right; apply Nat.leb_gt; lia).
      replace ((1 <=? S (List.length mid)) && (S (List.length mid) <=? S (List.length mid)))%nat
        with true by (symmetry; apply andb_true_iff; split; apply Nat.leb_le; lia).
      rewrite Nat.eqb_refl.
      replace (1 + List.length mid <? List.length coord)%nat with true
        by (symmetry; apply Nat.ltb_lt; lia).
      cbn [andb]. rewrite app_nth2 by lia.
      replace (S (List.length mid) - 1 - List.length mid)%nat with 0%nat by lia. reflexivity.
    + replace (j =? 1 + List.length mid)%nat with false by (symmetry; apply Nat.eqb_neq; lia).
      cbn [andb].
      destruct (Nat.leb_spec 1 j) as [H1 | H1]; cbn [andb]; [|reflexivity].
      destruct (Nat.leb_spec j (List.length mid)) as [H2 | H2].
      * replace (j <=? S (List.length mid))%nat with true by (symmetry; apply Nat.leb_le; lia).
        rewrite app_nth1 by lia. reflexivity.
      * replace (j <=? S (List.length mid))%nat with false by (symmetry; apply Nat.leb_gt; lia).
        reflexivity.
Qed.

Lemma coord_bounds_split N c0 mid cl M :
  List.length mid = (N - 2)%nat -> (2 <= N)%nat ->
  (forall k, (1 <= k < N)%nat -> 0 <= at_ (c0 :: mid ++ [cl]) k < M) ->
  Forall (fun c => 0 <= c < M) mid /\ 0 <= cl < M.
Proof.
  intros Hmid HN Hk. split.
  - apply Forall_forall. intros c Hc. apply (In_nth _ _ 0) in Hc.
    destruct Hc as (j & Hj & <-).
    specialize (Hk (S j) ltac:(lia)). unfold at_ in Hk. cbn [nth] in Hk.
    rewrite app_nth1 in Hk by exact Hj. exact Hk.
  - specialize (Hk (S (List.length mid)) ltac:(lia)). unfold at_ in Hk. cbn [nth] in Hk.
    rewrite app_nth2, Nat.sub_diag in Hk by lia. exact Hk.
Qed.

(** The coordinates that [get_coord_from_index] computes from the index
    [row * (2*(M/2+1)) + cl] of a cell of a row [row >= 0]. *)
Lemma get_coord_from_index_rows N g c0 mid cl :
  List.length mid = (N - 2)%nat -> (2 <= N)%nat -> 1 <= Nmesh g ->
  0 <= c0 -> Forall (fun c => 0 <= c < Nmesh g) mid -> 0 <= cl < Nmesh g ->
  get_coord_from_index default_flags N g
    (fold_left (fun acc c => acc * Nmesh g + c) mid c0 * (2 * (Nmesh g ÷ 2 + 1)) + cl)
  = Ok (c0 :: mid ++ [cl]).
Proof.
  intros Hmid HN HM Hc0 HF Hcl.
  unfold get_coord_from_index. cbn [BOUNDSCHECK_FFTWGRID default_flags bind].
  pose proof (horner_nonneg (Nmesh g) mid c0 HM HF Hc0) as HR.
  assert (Hpad : 0 <= cl < 2 * (Nmesh g ÷ 2 + 1)).
  { pose proof (Z.quot_rem (Nmesh g) 2 ltac:(lia)) as E.
    pose proof (Z.rem_bound_pos (Nmesh g) 2 ltac:(lia) ltac:(lia)) as B. lia. }
  destruct (quot_rem_digit _ _ cl HR Hpad) as [-> ->].
  destruct (N =? 2)%nat eqn:E2.
  { apply Nat.eqb_eq in E2. subst N. destruct mid; [|discriminate]. reflexivity. }
  destruct (N =? 3)%nat eqn:E3.
  { apply Nat.eqb_eq in E3. subst N. destruct mid as [|c1 [|? ?]]; try discriminate.
    inversion HF as [|? ? Hc1 _]; subst. cbn [fold_left].
    destruct (quot_rem_digit c0 (Nmesh g) c1 Hc0 Hc1) as [-> ->]. reflexivity. }
  apply Nat.eqb_neq in E2, E3.
  rewrite <- Hmid.
  destruct (coord_digits_loop (Nmesh g) mid HM HF c0
              (vector_set (repeat 0 N) (N - 1) cl) Hc0
              ltac:(rewrite vector_set_length, repeat_length; lia)) as (coord' & E & L & Hn).
  rewrite E. f_equal.
  rewrite vector_set_length, repeat_length in L.
  apply (nth_ext _ _ 0 0).
  - rewrite vector_set_length, L. cbn [List.length]. rewrite length_app. cbn [List.length]. lia.
  - intros j Hj. rewrite vector_set_length, L in Hj.
    rewrite vector_set_nth, Hn, vector_set_nth, repeat_length, nth_repeat_0, L.
    replace (0 <? N)%nat with true by (symmetry; apply Nat.ltb_lt; lia).
    replace (N - 1 <? N)%nat with true by (symmetry; apply Nat.ltb_lt; lia).
    rewrite !andb_true_r.
    destruct j as [|j]; [reflexivity|].
    replace (S j =? 0)%nat with false by reflexivity.
    replace (1 <=? S j)%nat with true by reflexivity.
    replace (S j - 1)%nat with j by lia.
    cbn [andb nth].
    destruct (Nat.leb_spec (S j) (List.length mid)) as [H2 | H2].
    + rewrite app_nth1 by lia. reflexivity.
    + replace (S j =? N - 1)%nat with true by (symmetry; apply Nat.eqb_eq; lia).
      rewrite app_nth2 by lia.
      replace (j - List.length mid)%nat with 0%nat by lia. reflexivity.
Qed.

(** The bounds check of [get_coord_from_index] passes on the index of a
    cell of the owned slabs and of the right ghost slabs. *)
Lemma coord_from_index_checked flags N g index :
  (BOUNDSCHECK_FFTWGRID flags = true ->
   - NmeshTotRealSlice g * n_extra_x_slices_left g <= index
   < NmeshTotRealSlice g * (Local_nx g + n_extra_x_slices_right g)) ->
  get_coord_from_index flags N g index = get_coord_from_index default_flags N g index.
Proof.
  intros H. unfold get_coord_from_index. cbn [BOUNDSCHECK_FFTWGRID default_flags].
  destruct (BOUNDSCHECK_FFTWGRID flags); [|reflexivity].
  specialize (H eq_refl).
  rewrite Z.geb_leb, andb_range by exact H. reflexivity.
Qed.

(** Round trip on the cells of the owned slabs and of the right ghost
    slabs of a grid that fits in [int]: [get_coord_from_index] gives back
    the coordinates of which [get_index_real] has made the index, with the
    bounds checks or without, and no [int] of the two overflows. *)
Theorem coord_from_index_of_coord flags N g coord :
  (2 <= N)%nat -> List.length coord = N -> 1 <= Nmesh g -> slice_shape N g ->
  grid_fits_int N g ->
  0 <= at_ coord 0 < Local_nx g + n_extra_x_slices_right g ->
  (forall k, (1 <= k < N)%nat -> 0 <= at_ coord k < Nmesh g) ->
  exists index,
    get_index_real flags N g coord = Ok index
    /\ get_coord_from_index flags N g index = Ok coord
    /\ get_index_real_in_int N g coord
    /\ get_coord_from_index_in_int N g index.
Proof.
  intros HN Hlen HM Hshape Hfit H0 Hk.
  pose proof Hfit as (HgL & _).
  pose proof (addressable_cell_in_int N g coord HN Hlen HM Hfit ltac:(lia) Hk) as Hint.
  rewrite (get_index_real_checked flags N g coord HN Hlen ltac:(lia) Hk).
  destruct (coord_split N coord Hlen HN) as (c0 & mid & cl & -> & Hmid).
  destruct (coord_bounds_split N c0 mid cl (Nmesh g) Hmid HN Hk) as [HF Hcl].
  change (at_ (c0 :: mid ++ [cl]) 0) with c0 in H0.
  rewrite (get_index_real_rows N g c0 mid cl Hmid HN).
  pose proof (get_coord_from_index_rows N g c0 mid cl Hmid HN HM ltac:(lia) HF Hcl) as Erows.
  eexists. split; [reflexivity|]. split; [|split; [exact Hint|]].
  - rewrite coord_from_index_checked; [exact Erows|].
    intros _. rewrite Hshape. unfold power.
    pose proof (horner_range (Nmesh g) mid c0 HM HF) as HR.
    rewrite Hmid in HR. replace (Z.of_nat (N - 2)) with (Z.of_nat N - 2) in HR by lia.
    assert (P : 0 < Nmesh g ^ (Z.of_nat N - 2)) by (apply Z.pow_pos_nonneg; lia).
    assert (Hq : 0 <= Nmesh g ÷ 2) by (apply Z.quot_pos; lia).
    assert (Hpad : cl < 2 * (Nmesh g ÷ 2 + 1)).
    { pose proof (Z.quot_rem (Nmesh g) 2 ltac:(lia)) as E.
      pose proof (Z.rem_bound_pos (Nmesh g) 2 ltac:(lia) ltac:(lia)) as B. lia. }
    set (R := fold_left (fun acc c => acc * Nmesh g + c) mid c0) in *.
    set (W := Nmesh g ^ (Z.of_nat N - 2)) in *.
    set (h := Nmesh g ÷ 2 + 1) in *.
    assert (HR1 : R + 1 <= (Local_nx g + n_extra_x_slices_right g) * W) by nia.
    assert (HR0 : 0 <= R) by nia.
    split; [nia|].
    assert (R * (2 * h) + cl < (R + 1) * (2 * h)) by lia.
    assert ((R + 1) * (2 * h) <= (Local_nx g + n_extra_x_slices_right g) * W * (2 * h))
      by (apply Z.mul_le_mono_nonneg_r; lia).
    lia.
  - destruct Hint as (HiM & Hic & _).
    destruct (grid_fits_int_bounds N g HN HM Hfit ltac:(destruct Hfit as (?&?&?&?); lia))
      as (B1 & _).
    destruct (padded_row (Nmesh g) HM) as [Hh Hp].
    unfold get_coord_from_index_in_int. rewrite Erows.
    split; [exact HiM|]. split; [apply in_int_range; lia|].
    split; [apply in_int_range; lia | exact Hic].
Qed.

Lemma coord_from_index_of_coord_witness :
  let g := FFTWGrid_new 4 3 1 2 in
  let flags := mkBuildFlags true true true false in
  let coord := [4; 2; 0; 1] in
  exists index,
    get_index_real flags 4 g coord = Ok index
    /\ get_coord_from_index flags 4 g index = Ok coord
    /\ get_index_real_in_int 4 g coord
    /\ get_coord_from_index_in_int 4 g index.
Proof.
  intros g flags coord.
  apply (coord_from_index_of_coord flags 4 g coord).
  - lia.
  - reflexivity.
  - vm_compute; congruence.
  - exact (slice_shape_new 4 3 1 2).
  - vm_compute; repeat split; congruence.
  - vm_compute; split; congruence.
  - intros k Hk. destruct k as [|[|[|[|k]]]]; try lia; vm_compute; split; congruence.
Defined.

Lemma fold_left_ext_in {A B} (f f' : A -> B -> A) l a :
  (forall x b, In b l -> f x b = f' x b) -> fold_left f l a = fold_left f' l a.
Proof.
  revert a. induction l as [|b l IH]; intros a H; [reflexivity|].
  cbn [fold_left]. rewrite (H a b (or_introl eq_refl)). apply IH.
  intros x b' Hb. apply H. right. exact Hb.
Qed.

(** The loop of [get_coord_from_index] on any number [R], negative too: the
    digits it writes and the number it leaves give [R] back by the
    recurrence of [get_index_real]. *)
Lemma coord_digits_recompose M k :
  forall R coord, (k + 1 < List.length coord)%nat ->
  exists coord' R',
    fold_left (fun '(coord, index) idim => (vector_set coord idim (Z.rem index M), index ÷ M))
              (rev (seq 1 k)) (coord, R)
    = (coord', R')
    /\ List.length coord' = List.length coord
    /\ (forall j, ~ (1 <= j <= k)%nat -> nth j coord' 0 = nth j coord 0)
    /\ fold_left (fun index idim => index * M + at_ coord' idim) (seq 1 k) R' = R.
Proof.
  induction k as [|k IH]; intros R coord Hlen.
  - exists coord, R. repeat split.
  - rewrite seq_S, rev_app_distr. cbn [rev app fold_left].
    destruct (IH (R ÷ M) (vector_set coord (1 + k) (Z.rem R M))
                ltac:(rewrite vector_set_length; lia)) as (coord' & R' & E & L & Hout & Hin).
    exists coord', R'. split; [exact E|].
    rewrite vector_set_length in L. split; [exact L|]. split.
    + intros j Hj. rewrite Hout by lia. rewrite vector_set_nth.
      replace (j =? 1 + k)%nat with false by (symmetry; apply Nat.eqb_neq; lia). reflexivity.
    + rewrite fold_left_app. cbn [fold_left]. rewrite Hin.
      unfold at_. rewrite Hout by lia. rewrite vector_set_nth, Nat.eqb_refl.
      replace (1 + k <? List.length coord)%nat with true by (symmetry; apply Nat.ltb_lt; lia).
      cbn [andb]. pose proof (Z.quot_rem' R M). lia.
Qed.

(** [get_index_real] undoes [get_coord_from_index] on every index that is
    representable in [int], the indices of the padding cells and the
    negative ones of the left ghost slabs too, in the build without the
    bounds checks: the coordinates, which the code stores in [int], and the
    index that it computes from them, in [int] in two and three dimensions,
    do not overflow. *)
Theorem index_of_coord_from_index N g index :
  (2 <= N)%nat -> 1 <= Nmesh g -> Nmesh g + 2 <= INT_MAX -> in_int index ->
  exists coord,
    get_coord_from_index default_flags N g index = Ok coord
    /\ List.length coord = N
    /\ get_index_real default_flags N g coord = Ok index
    /\ get_coord_from_index_in_int N g index
    /\ get_index_real_in_int N g coord.
Proof.
  intros HN HM HI Hindex.
  destruct (padded_row (Nmesh g) HM) as [Hh Hp].
  assert (HiM : in_int (Nmesh g)) by (apply in_int_range; lia).
  assert (Hih : in_int (Nmesh g ÷ 2 + 1)) by (apply in_int_range; lia).
  assert (Hip : in_int (2 * (Nmesh g ÷ 2 + 1))) by (apply in_int_range; lia).
  assert (Hz : INT_MIN <= 0 <= INT_MAX) by (unfold INT_MIN, INT_MAX; lia).
  unfold get_coord_from_index_in_int, get_index_real_in_int.
  unfold get_coord_from_index, get_index_real, get_index_real_2d, get_index_real_3d.
  cbn [BOUNDSCHECK_FFTWGRID default_flags bind].
  set (pad := 2 * (Nmesh g ÷ 2 + 1)) in *.
  pose proof (Z.quot_rem' index pad) as Hqr.
  destruct (quot_rem_between INT_MIN INT_MAX index pad ltac:(lia) Hz Hindex)
    as (Hq & Hr & Hqp & Hqn).
  fold (in_int (index ÷ pad)) in Hq. fold (in_int (Z.rem index pad)) in Hr.
  destruct (N =? 2)%nat eqn:E2.
  { apply Nat.eqb_eq in E2. subst N. eexists. split; [reflexivity|]. split; [reflexivity|].
    unfold at_. cbn [repeat vector_set Nat.sub nth].
    split; [f_equal; fold pad; lia|].
    assert (Hc : Forall in_int [index ÷ pad; Z.rem index pad])
      by (repeat (apply Forall_cons; [assumption|]); apply Forall_nil).
    split; [repeat (split; [assumption|]); exact Hc|].
    split; [exact HiM|]. split; [exact Hc|].
    unfold get_index_real_2d_in_int.
    set (i := index ÷ pad) in *. set (j := Z.rem index pad) in *.
    assert (E : i * 2 * (Nmesh g ÷ 2 + 1) = pad * i) by (unfold pad; ring).
    rewrite E.
    assert (Hi2 : in_int (i * 2)).
    { unfold in_int in *. destruct (Z_le_gt_dec 0 index) as [Hp0 | Hn0].
      - specialize (Hqp Hp0). assert (0 <= i) by (unfold i; apply Z.quot_pos; lia).
        clearbody i j pad. nia.
      - specialize (Hqn ltac:(lia)).
        assert (i <= 0) by (clearbody i j pad; nia).
        clearbody i j pad. nia. }
    split; [exact Hi2|]. split; [exact Hih|].
    split; [|replace (pad * i + j) with index by lia; exact Hindex].
    unfold in_int in *. destruct (Z_le_gt_dec 0 index) as [Hp0 | Hn0].
    + specialize (Hqp Hp0). lia.
    + specialize (Hqn ltac:(lia)). lia. }
  destruct (N =? 3)%nat eqn:E3.
  { apply Nat.eqb_eq in E3. subst N. eexists. split; [reflexivity|]. split; [reflexivity|].
    unfold at_. cbn [repeat vector_set Nat.sub nth].
    pose proof (Z.quot_rem' (index ÷ pad) (Nmesh g)) as Hqr2.
    destruct (quot_rem_between INT_MIN INT_MAX (index ÷ pad) (Nmesh g) HM Hz Hq)
      as (Hq2 & Hr2 & Hqp2 & Hqn2).
    split; [f_equal; fold pad; lia|].
    assert (Hc : Forall in_int [index ÷ pad ÷ Nmesh g; Z.rem (index ÷ pad) (Nmesh g);
                                Z.rem index pad])
      by (repeat (apply Forall_cons; [assumption|]); apply Forall_nil).
    split; [repeat (split; [assumption|]); exact Hc|].
    split; [exact HiM|]. split; [exact Hc|].
    unfold get_index_real_3d_in_int.
    set (qq := index ÷ pad) in *.
    set (i := qq ÷ Nmesh g) in *. set (j := Z.rem qq (Nmesh g)) in *.
    set (k := Z.rem index pad) in *.
    replace (Nmesh g * i + j) with qq by lia.
    assert (E : qq * 2 * (Nmesh g ÷ 2 + 1) = pad * qq) by (unfold pad; ring).
    rewrite E.
    assert (HMi : in_int (Nmesh g * i)).
    { unfold in_int in *. destruct (Z_le_gt_dec 0 qq) as [Hp0 | Hn0].
      - specialize (Hqp2 Hp0). lia.
      - specialize (Hqn2 ltac:(lia)). lia. }
    assert (Hpq : in_int (pad * qq)).
    { unfold in_int in *. destruct (Z_le_gt_dec 0 index) as [Hp0 | Hn0].
      - specialize (Hqp Hp0). lia.
      - specialize (Hqn ltac:(lia)). lia. }
    assert (Hq2' : in_int (qq * 2)).
    { unfold in_int in *. destruct Hpq as [Ha Hb].
      destruct (Z_le_gt_dec 0 qq) as [Hp0 | Hn0]; clearbody qq i j k pad; nia. }
    split; [exact HMi|]. split; [exact Hq|]. split; [exact Hq2'|]. split; [exact Hih|].
    split; [exact Hpq|]. replace (pad * qq + k) with index by lia. exact Hindex. }
  apply Nat.eqb_neq in E2, E3.
  destruct (coord_digits_recompose (Nmesh g) (N - 2) (index ÷ pad)
              (vector_set (repeat 0 N) (N - 1) (Z.rem index pad))
              ltac:(rewrite vector_set_length, repeat_length; lia))
    as (coord' & R' & E & L & Hout & Hin).
  destruct (coord_digits_between INT_MIN INT_MAX (Nmesh g) (rev (seq 1 (N - 2))) HM Hz
              (index ÷ pad) (vector_set (repeat 0 N) (N - 1) (Z.rem index pad)) Hq
              ltac:(apply Forall_vector_set; [apply Forall_repeat; exact Hz | exact Hr]))
    as [Hb1 Hb2].
  rewrite E in Hb1, Hb2. cbn [fst snd] in Hb1, Hb2.
  rewrite E. rewrite vector_set_length, repeat_length in L.
  assert (Hc : Forall in_int (vector_set coord' 0 R'))
    by (apply Forall_vector_set; assumption).
  eexists. split; [reflexivity|]. split; [rewrite vector_set_length; exact L|].
  split; [|split; [repeat (split; [assumption|]); exact Hc|]].
  2:{ split; [exact HiM|]. split; [exact Hc|]. split; assumption. }
  f_equal.
  assert (H0 : at_ (vector_set coord' 0 R') 0 = R').
  { unfold at_. rewrite vector_set_nth, L. cbn [Nat.eqb].
    replace (0 <? N)%nat with true by (symmetry; apply Nat.ltb_lt; lia). reflexivity. }
  assert (Hrest : forall j, (1 <= j)%nat -> at_ (vector_set coord' 0 R') j = at_ coord' j).
  { intros j Hj. unfold at_. rewrite vector_set_nth.
    replace (j =? 0)%nat with false by (symmetry; apply Nat.eqb_neq; lia). reflexivity. }
  rewrite H0, Hrest by lia.
  rewrite (fold_left_ext_in _ (fun index idim => index * Nmesh g + at_ coord' idim)).
  2:{ intros x b Hb. apply in_seq in Hb. rewrite Hrest by lia. reflexivity. }
  rewrite Hin. unfold at_. rewrite Hout by lia.
  rewrite vector_set_nth, repeat_length, Nat.eqb_refl.
  replace (N - 1 <? N)%nat with true by (symmetry; apply Nat.ltb_lt; lia).
  cbn [andb]. fold pad. lia.
Qed.

Lemma index_of_coord_from_index_witness :
  let g := FFTWGrid_new 4 3 1 2 in
  exists coord,
    get_coord_from_index default_flags 4 g (-29) = Ok coord
    /\ List.length coord = 4%nat
    /\ get_index_real default_flags 4 g coord = Ok (-29)
    /\ get_coord_from_index_in_int 4 g (-29)
    /\ get_index_real_in_int 4 g coord.
Proof.
  intros g.
  apply (index_of_coord_from_index 4 g (-29));
    [lia | vm_compute; congruence | vm_compute; congruence | vm_compute; split; congruence].
Defined.





(** ** Writing and reading a cell *)

Lemma horner_inj M :
  1 <= M ->
  forall mid mid' c0 c0',
    List.length mid = List.length mid' ->
    Forall (fun c => 0 <= c < M) mid -> Forall (fun c => 0 <= c < M) mid' ->
    fold_left (fun acc c => acc * M + c) mid c0 = fold_left (fun acc c => acc * M + c) mid' c0' ->
    c0 = c0' /\ mid = mid'.
Proof.
  intros HM mid. induction mid as [|c mid IH] using rev_ind; intros mid' c0 c0' Hlen HF HF' H.
  - destruct mid'; [|discriminate]. split; [exact H | reflexivity].
  - destruct mid' as [|c' mid' _] using rev_ind.
    { rewrite length_app in Hlen. cbn in Hlen. lia. }
    rewrite !length_app in Hlen. cbn [List.length] in Hlen.
    apply Forall_app in HF, HF'. destruct HF as [HF Hc], HF' as [HF' Hc'].
    inversion Hc as [|? ? Hc1 _]; inversion Hc' as [|? ? Hc1' _]; subst.
    rewrite !fold_left_snoc in H.
    destruct (Z.div_mod_unique M
                (fold_left (fun acc c => acc * M + c) mid c0)
                (fold_left (fun acc c => acc * M + c) mid' c0') c c'
                ltac:(lia) ltac:(lia) ltac:(lia)) as [Hq Hr].
    destruct (IH mid' c0 c0' ltac:(lia) HF HF' Hq) as [-> ->]. subst. split; reflexivity.
Qed.

(** Two cells of the addressable region with one index are one cell. *)
Lemma get_index_real_inj N g coord coord' index :
  (2 <= N)%nat -> List.length coord = N -> List.length coord' = N -> 1 <= Nmesh g ->
  (forall k, (1 <= k < N)%nat -> 0 <= at_ coord k < Nmesh g) ->
  (forall k, (1 <= k < N)%nat -> 0 <= at_ coord' k < Nmesh g) ->
  get_index_real default_flags N g coord = Ok index ->
  get_index_real default_flags N g coord' = Ok index ->
  coord = coord'.
Proof.
  intros HN Hlen Hlen' HM Hk Hk'.
  destruct (coord_split N coord Hlen HN) as (c0 & mid & cl & -> & Hmid).
  destruct (coord_split N coord' Hlen' HN) as (c0' & mid' & cl' & -> & Hmid').
  destruct (coord_bounds_split N c0 mid cl (Nmesh g) Hmid HN Hk) as [HF Hcl].
  destruct (coord_bounds_split N c0' mid' cl' (Nmesh g) Hmid' HN Hk') as [HF' Hcl'].
  rewrite !get_index_real_rows by assumption.
  intros H H'. injection H as <-. injection H' as H'.
  assert (Hpad : Nmesh g <= 2 * (Nmesh g ÷ 2 + 1)).
  { pose proof (Z.quot_rem (Nmesh g) 2 ltac:(lia)) as E.
    pose proof (Z.rem_bound_pos (Nmesh g) 2 ltac:(lia) ltac:(lia)) as B. lia. }
  destruct (Z.div_mod_unique (2 * (Nmesh g ÷ 2 + 1))
              (fold_left (fun acc c => acc * Nmesh g + c) mid' c0')
              (fold_left (fun acc c => acc * Nmesh g + c) mid c0) cl' cl
              ltac:(lia) ltac:(lia) ltac:(lia)) as [Hq Hr].
  destruct (horner_inj (Nmesh g) HM mid' mid c0' c0 ltac:(lia) HF' HF Hq) as [-> ->].
  subst. reflexivity.
Qed.

(** Insert and lookup on a grid that fits in [int]: after
    [set_real(coord, value)], [get_real(coord)] returns [value] and
    [get_real] of every other cell of the addressable region returns what it
    returned before; no [int] of the index of either cell overflows. *)
Theorem get_real_after_set_real flags N g coord coord' value :
  (2 <= N)%nat -> List.length coord = N -> List.length coord' = N -> 1 <= Nmesh g ->
  grid_fits_int N g ->
  - n_extra_x_slices_left g <= at_ coord 0 < Local_nx g + n_extra_x_slices_right g ->
  (forall k, (1 <= k < N)%nat -> 0 <= at_ coord k < Nmesh g) ->
  - n_extra_x_slices_left g <= at_ coord' 0 < Local_nx g + n_extra_x_slices_right g ->
  (forall k, (1 <= k < N)%nat -> 0 <= at_ coord' k < Nmesh g) ->
  get_index_real_in_int N g coord /\ get_index_real_in_int N g coord'
  /\ exists g',
       set_real flags N g coord value = Ok g'
       /\ get_real flags N g' coord = Ok value
       /\ (coord' <> coord -> get_real flags N g' coord' = get_real flags N g coord').
Proof.
  intros HN Hlen Hlen' HM Hfit H0 Hk H0' Hk'.
  split; [exact (addressable_cell_in_int N g coord HN Hlen HM Hfit H0 Hk)|].
  split; [exact (addressable_cell_in_int N g coord' HN Hlen' HM Hfit H0' Hk')|].
  unfold set_real, get_real.
  pose proof (get_index_real_checked flags N g coord HN Hlen H0 Hk) as E.
  pose proof (get_index_real_checked flags N g coord' HN Hlen' H0' Hk') as E'.
  destruct (get_index_real_default N g coord) as [index Hi].
  destruct (get_index_real_default N g coord') as [index' Hi'].
  rewrite E, Hi. cbn [bind]. eexists. split; [reflexivity|].
  set (g' := with_memory g _).
  change (get_index_real flags N g' coord) with (get_index_real flags N g coord).
  change (get_index_real flags N g' coord') with (get_index_real flags N g coord').
  rewrite E, E', Hi, Hi'. cbn [bind].
  unfold g', real_cell_address, get_real_grid, get_real_grid_left, store.
  cbn [with_memory fourier_grid_raw NmeshTotRealSlice n_extra_x_slices_left].
  rewrite Z.add_0_l. split.
  - rewrite Z.eqb_refl. reflexivity.
  - intros Hne.
    destruct (Z.eqb_spec (NmeshTotRealSlice g * n_extra_x_slices_left g + index')
                         (NmeshTotRealSlice g * n_extra_x_slices_left g + index)) as [Heq|]; [|reflexivity].
    exfalso. apply Hne. assert (index' = index) by lia. subst index'.
    exact (get_index_real_inj N g coord' coord index HN Hlen' Hlen HM Hk' Hk Hi' Hi).
Qed.

Lemma get_real_after_set_real_witness :
  let g := FFTWGrid_new 3 4 1 2 in
  let flags := mkBuildFlags true true false false in
  get_index_real_in_int 3 g [-1; 3; 0] /\ get_index_real_in_int 3 g [5; 0; 3]
  /\ exists g',
       set_real flags 3 g [-1; 3; 0] 7 = Ok g'
       /\ get_real flags 3 g' [-1; 3; 0] = Ok 7%Q
       /\ ([5; 0; 3] <> [-1; 3; 0] ->
           get_real flags 3 g' [5; 0; 3] = get_real flags 3 g [5; 0; 3]).
Proof.
  intros g flags.
  apply (get_real_after_set_real flags 3 g [-1; 3; 0] [5; 0; 3] 7).
  - lia.
  - reflexivity.
  - reflexivity.
  - vm_compute; congruence.
  - vm_compute; repeat split; congruence.
  - vm_compute; split; congruence.
  - intros k Hk. destruct k as [|[|[|k]]]; try lia; vm_compute; split; congruence.
  - vm_compute; split; congruence.
  - intros k Hk. destruct k as [|[|[|k]]]; try lia; vm_compute; split; congruence.
Defined.

(** ** Filling the grid *)

(** The cells of the addressable region lie in the allocation of the grid
    that the constructor makes. *)
Lemma address_in_allocation N M gL gR coord index :
  (2 <= N)%nat -> 1 <= M -> List.length coord = N ->
  - gL <= at_ coord 0 < M + gR ->
  (forall k, (1 <= k < N)%nat -> 0 <= at_ coord k < M) ->
  let g0 := FFTWGrid_new N M gL gR in
  get_index_real default_flags N g0 coord = Ok index ->
  0 <= NmeshTotRealSlice g0 * gL + index < NmeshTotRealAlloc g0.
Proof.
  intros HN HM Hlen H0 Hk g0.
  destruct (new_grid_sizes N M gL gR HN HM) as (HW & _ & Eslab & Ealloc & _ & _).
  fold g0 in Eslab, Ealloc. rewrite Ealloc, Eslab.
  destruct (coord_split N coord Hlen HN) as (c0 & mid & cl & -> & Hmid).
  destruct (coord_bounds_split N c0 mid cl M Hmid HN Hk) as [HF Hcl].
  change (at_ (c0 :: mid ++ [cl]) 0) with c0 in H0.
  rewrite (get_index_real_rows N g0 c0 mid cl Hmid HN).
  intros H. injection H as <-. change (Nmesh g0) with M.
  pose proof (horner_range M mid c0 HM HF) as HR.
  rewrite Hmid in HR. replace (Z.of_nat (N - 2)) with (Z.of_nat N - 2) in HR by lia.
  assert (Hq : 0 <= M ÷ 2) by (apply Z.quot_pos; lia).
  assert (Hpad : cl < 2 * (M ÷ 2 + 1)).
  { pose proof (Z.quot_rem M 2 ltac:(lia)) as E.
    pose proof (Z.rem_bound_pos M 2 ltac:(lia) ltac:(lia)) as B. lia. }
  set (R := fold_left (fun acc c => acc * M + c) mid c0) in *.
  set (W := M ^ (Z.of_nat N - 2)) in *.
  set (h := M ÷ 2 + 1) in *.
  assert (HR0 : - gL * W <= R) by nia.
  assert (HR1 : R + 1 <= (M + gR) * W) by nia.
  assert (- gL * W * (2 * h) <= R * (2 * h)) by (apply Z.mul_le_mono_nonneg_r; lia).
  assert ((R + 1) * (2 * h) <= (M + gR) * W * (2 * h)) by (apply Z.mul_le_mono_nonneg_r; lia).
  split; nia.
Qed.








(** The index of a cell [nx] slabs to the right. *)
Lemma index_of_shifted_slab N M gL gR c0 mid cl k :
  (2 <= N)%nat -> 1 <= M -> List.length mid = (N - 2)%nat ->
  fold_left (fun acc c => acc * M + c) mid (c0 + k) * (2 * (M ÷ 2 + 1)) + cl
  = fold_left (fun acc c => acc * M + c) mid c0 * (2 * (M ÷ 2 + 1)) + cl
    + k * NmeshTotRealSlice (FFTWGrid_new N M gL gR).
Proof.
  intros HN HM Hmid.
  destruct (new_grid_sizes N M gL gR HN HM) as (_ & _ & -> & _).
  rewrite horner_shift, Hmid. replace (Z.of_nat (N - 2)) with (Z.of_nat N - 2) by lia. ring.
Qed.



(** ** The exchange, repeated *)



(** ** Coordinates and indices of the Fourier grid *)

Lemma half_plus_one M : 1 <= M -> 1 <= M ÷ 2 + 1 <= M.
Proof.
  intros HM. pose proof (Z.quot_rem M 2 ltac:(lia)) as E.
  pose proof (Z.rem_bound_pos M 2 ltac:(lia) ltac:(lia)) as B.
  assert (0 <= M ÷ 2) by (apply Z.quot_pos; lia). lia.
Qed.

Lemma get_index_fourier_rows N g c0 mid cl :
  List.length mid = (N - 2)%nat -> (2 <= N)%nat ->
  get_index_fourier default_flags N g (c0 :: mid ++ [cl])
  = Ok (fold_left (fun acc c => acc * Nmesh g + c) mid c0 * (Nmesh g ÷ 2 + 1) + cl).
Proof.
  intros Hmid HN.
  unfold get_index_fourier, get_index_fourier_2d, get_index_fourier_3d.
  cbn [BOUNDSCHECK_FFTWGRID default_flags bind].
  destruct (N =? 2)%nat eqn:E2.
  { apply Nat.eqb_eq in E2. subst N. destruct mid; [|discriminate]. reflexivity. }
  destruct (N =? 3)%nat eqn:E3.
  { apply Nat.eqb_eq in E3. subst N. destruct mid as [|c1 [|? ?]]; try discriminate.
    unfold at_. cbn [app nth fold_left]. f_equal. ring. }
  rewrite horner_seq by (cbn [List.length]; rewrite length_app; cbn [List.length]; lia).
  change (skipn 1 (c0 :: mid ++ [cl])) with (mid ++ [cl]).
  rewrite firstn_app, Hmid, Nat.sub_diag. cbn [firstn]. rewrite app_nil_r.
  rewrite <- Hmid, firstn_all.
  change (at_ (c0 :: mid ++ [cl]) 0) with c0.
  unfold at_. replace (N - 1)%nat with (S (List.length mid)) by lia.
  cbn [nth]. rewrite app_nth2 by lia. rewrite Nat.sub_diag. reflexivity.
Qed.

(** The bounds checks of [get_index_fourier] pass on the cells of the
    Fourier grid. *)
Lemma get_index_fourier_checked flags N g coord :
  (2 <= N)%nat -> 1 <= Nmesh g ->
  0 <= at_ coord 0 < Local_nx g ->
  (forall k, (1 <= k < N - 1)%nat -> 0 <= at_ coord k < Nmesh g) ->
  0 <= at_ coord (N - 1) < Nmesh g ÷ 2 + 1 ->
  get_index_fourier flags N g coord = get_index_fourier default_flags N g coord.
Proof.
  intros HN HM H0 Hk Hl.
  pose proof (half_plus_one (Nmesh g) HM) as Hh.
  unfold get_index_fourier, get_index_fourier_2d, get_index_fourier_3d.
  cbn [BOUNDSCHECK_FFTWGRID default_flags].
  destruct (BOUNDSCHECK_FFTWGRID flags); [|reflexivity].
  destruct (N =? 2)%nat eqn:E2.
  { apply Nat.eqb_eq in E2. subst N. cbn [Nat.sub] in Hl.
    rewrite (andb_range _ _ _ H0).
    replace (0 <=? at_ coord 1) with true by (symmetry; apply Z.leb_le; lia).
    replace (at_ coord 1 <? Nmesh g ÷ 2 + 1) with true by (symmetry; apply Z.ltb_lt; lia).
    reflexivity. }
  destruct (N =? 3)%nat eqn:E3.
  { apply Nat.eqb_eq in E3. subst N. cbn [Nat.sub] in Hl.
    rewrite (andb_range _ _ _ H0).
    pose proof (Hk 1%nat ltac:(lia)) as H1.
    replace (0 <=? at_ coord 1) with true by (symmetry; apply Z.leb_le; lia).
    replace (at_ coord 1 <? Nmesh g) with true by (symmetry; apply Z.ltb_lt; lia).
    replace (0 <=? at_ coord 2) with true by (symmetry; apply Z.leb_le; lia).
    replace (at_ coord 2 <? Nmesh g ÷ 2 + 1) with true by (symmetry; apply Z.ltb_lt; lia).
    reflexivity. }
  rewrite (andb_range _ _ _ H0). cbn [assert_mpi bind].
  rewrite for_each_asserts; [reflexivity|].
  intros k Hin. apply in_seq in Hin. apply andb_range.
  destruct (Nat.eq_dec k (N - 1)) as [-> | Hne]; [lia|]. apply Hk. lia.
Qed.

(** The loop of [get_fourier_coord_from_index]: with [index / n] the number
    whose digits in base [M] are [c0] and [mid], it writes these digits. *)
Lemma fourier_digits_loop M index mid :
  1 <= M -> Forall (fun c => 0 <= c < M) mid ->
  forall c0 coord n, 0 <= c0 < M -> 0 < n ->
    index ÷ n = fold_left (fun acc c => acc * M + c) mid c0 ->
    (List.length mid < List.length coord)%nat ->
  exists coord' n',
    fold_left (fun '(coord, n) idim => (vector_set coord idim (Z.rem (index ÷ n) M), n * M))
              (rev (seq 0 (S (List.length mid)))) (coord, n)
    = (coord', n')
    /\ List.length coord' = List.length coord
    /\ forall j, nth j coord' 0
                 = if (j <=? List.length mid)%nat then nth j (c0 :: mid) 0 else nth j coord 0.
Proof.
  intros HM. induction mid as [|c mid IH] using rev_ind; intros Hmid c0 coord n Hc0 Hn Hq Hlen.
  - cbn [List.length seq rev app fold_left] in *. rewrite Hq.
    rewrite Z.rem_small by lia.
    eexists. eexists. split; [reflexivity|]. split; [apply vector_set_length|].
    intros j. rewrite vector_set_nth.
    destruct j as [|j]; cbn [Nat.eqb Nat.leb andb nth].
    + replace (0 <? List.length coord)%nat with true by (symmetry; apply Nat.ltb_lt; lia).
      reflexivity.
    + reflexivity.
  - apply Forall_app in Hmid. destruct Hmid as [Hmid Hc].
    inversion Hc as [|? ? Hc' _]; subst.
    rewrite length_app in *. cbn [List.length] in *. rewrite Nat.add_1_r in *.
    rewrite seq_S, rev_app_distr. cbn [rev app fold_left]. rewrite Nat.add_0_l.
    rewrite fold_left_snoc in Hq.
    pose proof (horner_nonneg M mid c0 HM Hmid ltac:(lia)) as HR.
    destruct (quot_rem_digit _ M c HR Hc') as [Eq Er].
    rewrite Hq, Er.
    destruct (IH Hmid c0 (vector_set coord (S (List.length mid)) c) (n * M) Hc0 ltac:(nia)
                ltac:(rewrite <- Z.quot_quot, Hq by lia; exact Eq)
                ltac:(rewrite vector_set_length; lia)) as (coord' & n' & E & L & Hn').
    exists coord', n'. split; [exact E|]. split; [rewrite L; apply vector_set_length|].
    intros j. rewrite Hn', vector_set_nth.
    destruct (Nat.leb_spec j (List.length mid)) as [H1 | H1].
    + replace (j <=? S (List.length mid))%nat with true by (symmetry; apply Nat.leb_le; lia).
      destruct j as [|j]; [reflexivity|]. cbn [nth]. rewrite app_nth1 by lia. reflexivity.
    + destruct (Nat.eq_dec j (S (List.length mid))) as [-> | Hj].
      * rewrite Nat.eqb_refl, Nat.leb_refl.
        replace (S (List.length mid) <? List.length coord)%nat with true
          by (symmetry; apply Nat.ltb_lt; lia).
        cbn [andb nth]. rewrite app_nth2 by lia. rewrite Nat.sub_diag. reflexivity.
      * replace (j =? S (List.length mid))%nat with false by (symmetry; apply Nat.eqb_neq; lia).
        replace (j <=? S (List.length mid))%nat with false by (symmetry; apply Nat.leb_gt; lia).
        reflexivity.
Qed.

(** ** The index arithmetic of the Fourier grid does not overflow *)

(** The range over the Fourier cells of a grid that fits in [int]. *)
Lemma fourier_range_fits N g :
  (2 <= N)%nat -> 1 <= Nmesh g -> fourier_fits_int N g ->
  0 <= power (Nmesh g) (Z.of_nat N - 2) * (Nmesh g ÷ 2 + 1) * Local_nx g <= INT_MAX
  /\ Nmesh g <= INT_MAX
  /\ forall k : nat, (k <= N - 1)%nat ->
       0 <= (Nmesh g ÷ 2 + 1) * Nmesh g ^ Z.of_nat k <= INT_MAX.
Proof.
  intros HN HM ((Hx0 & Hx) & Hfit).
  destruct (padded_row (Nmesh g) HM) as [Hh _].
  set (M := Nmesh g) in *. set (h := M ÷ 2 + 1) in *.
  assert (HP : forall k : nat, 0 < M ^ Z.of_nat k) by (intros k; apply Z.pow_pos_nonneg; lia).
  assert (Hmono : forall k : nat, (k <= N - 1)%nat -> M ^ Z.of_nat k <= M ^ (Z.of_nat N - 1))
    by (intros k Hk; apply Z.pow_le_mono_r; lia).
  assert (HV : M ^ (Z.of_nat N - 1) = M * M ^ (Z.of_nat N - 2)).
  { replace (Z.of_nat N - 1) with (Z.succ (Z.of_nat N - 2)) by lia.
    rewrite Z.pow_succ_r by lia. reflexivity. }
  assert (HW : 0 < M ^ (Z.of_nat N - 2)) by (apply Z.pow_pos_nonneg; lia).
  unfold power.
  set (V := M ^ (Z.of_nat N - 1)) in *. set (W := M ^ (Z.of_nat N - 2)) in *.
  split; [|split].
  - assert (W * h * Local_nx g <= h * V).
    { rewrite HV. clearbody W h M. nia. }
    split; [clearbody W h M; nia | lia].
  - specialize (Hmono 1%nat ltac:(lia)). change (M ^ Z.of_nat 1) with (M ^ 1) in Hmono.
    rewrite Z.pow_1_r in Hmono. clearbody V W h M. nia.
  - intros k Hk. specialize (Hmono k Hk). specialize (HP k).
    set (P := M ^ Z.of_nat k) in *. clearbody P V W h M. nia.
Qed.

(** The loop of [get_fourier_coord_from_index] stores remainders by
    [Nmesh]. *)
Lemma fourier_digits_between M index l :
  1 <= M ->
  forall coord n, Forall (fun c => - M < c < M) coord ->
    Forall (fun c => - M < c < M)
      (fst (fold_left (fun '(coord, n) idim =>
                         (vector_set coord idim (Z.rem (index ÷ n) M), n * M))
                      l (coord, n))).
Proof.
  intros HM. induction l as [|idim l IH]; intros coord n Hc; cbn [fold_left].
  - exact Hc.
  - apply IH. apply Forall_vector_set; [exact Hc|].
    destruct (Z_le_gt_dec 0 (index ÷ n)).
    + pose proof (Z.rem_bound_pos (index ÷ n) M ltac:(lia) ltac:(lia)). lia.
    + pose proof (Z.rem_bound_pos_neg (index ÷ n) M ltac:(lia) ltac:(lia)). lia.
Qed.

Lemma fourier_coord_between N g index :
  1 <= Nmesh g ->
  Forall (fun c => - Nmesh g < c < Nmesh g) (get_fourier_coord_from_index N g index).
Proof.
  intros HM. unfold get_fourier_coord_from_index.
  destruct (padded_row (Nmesh g) HM) as [Hh _].
  apply fourier_digits_between; [exact HM|].
  apply Forall_vector_set; [apply Forall_repeat; lia|].
  destruct (Z_le_gt_dec 0 index).
  - pose proof (Z.rem_bound_pos index (Nmesh g ÷ 2 + 1) ltac:(lia) ltac:(lia)). lia.
  - pose proof (Z.rem_bound_pos_neg index (Nmesh g ÷ 2 + 1) ltac:(lia) ltac:(lia)). lia.
Qed.

(** On a grid whose Fourier grid fits in [int], the [int]s of
    [get_fourier_coord_from_index] and of the wave vector of an index are
    representable for every index of the range over the Fourier cells. *)
Lemma fourier_index_in_int N g index :
  (2 <= N)%nat -> 1 <= Nmesh g -> fourier_fits_int N g ->
  0 <= index < power (Nmesh g) (Z.of_nat N - 2) * (Nmesh g ÷ 2 + 1) * Local_nx g ->
  get_fourier_coord_from_index_in_int N g index
  /\ get_fourier_wavevector_from_index_in_int N g index.
Proof.
  intros HN HM Hfit Hindex.
  destruct (fourier_range_fits N g HN HM Hfit) as (Hr & HI & Hn).
  destruct (padded_row (Nmesh g) HM) as [Hh _].
  pose proof (fourier_coord_between N g index HM) as Hc.
  assert (Hq : 0 <= Nmesh g ÷ 2) by (apply Z.quot_pos; lia).
  assert (Hin : forall lo hi x, - INT_MAX <= lo -> hi <= INT_MAX -> lo <= x <= hi -> in_int x).
  { intros lo hi x H1 H2 H3. unfold in_int, INT_MIN, INT_MAX in *. lia. }
  assert (HnI : forall k : nat, (k <= N - 1)%nat ->
                 in_int ((Nmesh g ÷ 2 + 1) * Nmesh g ^ Z.of_nat k)).
  { intros k Hk. apply in_int_range. apply Hn. exact Hk. }
  assert (Hquot : forall x y, 0 <= x <= INT_MAX -> 1 <= y ->
                    0 <= x ÷ y <= INT_MAX /\ 0 <= Z.rem x y < y).
  { intros x y Hx Hy. pose proof (Z.quot_rem x y ltac:(lia)) as E.
    pose proof (Z.rem_bound_pos x y ltac:(lia) ltac:(lia)) as B.
    assert (0 <= x ÷ y) by (apply Z.quot_pos; lia).
    split; [|exact B]. split; [assumption|]. nia. }
  split.
  - unfold get_fourier_coord_from_index_in_int.
    split; [apply in_int_range; lia|]. split; [apply in_int_range; lia|].
    split; [exact HnI|].
    eapply Forall_impl; [|exact Hc]. cbn beta. intros c Hb.
    apply (Hin (- Nmesh g) (Nmesh g)); lia.
  - unfold get_fourier_wavevector_from_index_in_int. cbv zeta.
    split; [apply in_int_range; lia|]. split; [apply in_int_range; lia|].
    destruct (Hquot index (Nmesh g ÷ 2 + 1) ltac:(lia) ltac:(lia)) as [Q1 R1].
    destruct (Hquot (index ÷ (Nmesh g ÷ 2 + 1)) (Nmesh g) Q1 HM) as [Q2 R2].
    destruct (N =? 3)%nat.
    { repeat split; try (apply in_int_range; lia);
        apply (Hin (- Nmesh g) (Nmesh g)); lia. }
    destruct (N =? 2)%nat.
    { repeat split; try (apply in_int_range; lia);
        apply (Hin (- Nmesh g) (Nmesh g)); lia. }
    destruct (N =? 1)%nat.
    { split; apply in_int_range; lia. }
    split; [exact HnI|].
    eapply Forall_impl; [|exact Hc]. cbn beta. intros c Hb.
    split; [apply (Hin (- Nmesh g) (Nmesh g)); lia|].
    assert (H2 : 2 * Nmesh g <= INT_MAX).
    { specialize (Hn 1%nat ltac:(lia)). change (Z.of_nat 1) with 1 in Hn.
      rewrite Z.pow_1_r in Hn. pose proof (Z.quot_rem (Nmesh g) 2 ltac:(lia)) as E.
      pose proof (Z.rem_bound_pos (Nmesh g) 2 ltac:(lia) ltac:(lia)) as B.
      assert (I : 2 <= INT_MAX) by (unfold INT_MAX; lia).
      set (M := Nmesh g) in *. set (q := M ÷ 2) in *. clearbody q M.
      destruct (Z.eq_dec M 1) as [->|]; [lia|]. nia. }
    apply (Hin (- (2 * Nmesh g)) 0); lia.
Qed.

(** The index of the cell [(c0, mid, cl)] lies in the range over the
    Fourier cells. *)
Lemma fourier_rows_in_range N g c0 mid cl :
  (2 <= N)%nat -> 1 <= Nmesh g -> List.length mid = (N - 2)%nat ->
  0 <= c0 < Local_nx g -> Forall (fun c => 0 <= c < Nmesh g) mid ->
  0 <= cl < Nmesh g ÷ 2 + 1 ->
  0 <= fold_left (fun acc c => acc * Nmesh g + c) mid c0 * (Nmesh g ÷ 2 + 1) + cl
  < power (Nmesh g) (Z.of_nat N - 2) * (Nmesh g ÷ 2 + 1) * Local_nx g.
Proof.
  intros HN HM Hmid H0 HF Hl.
  pose proof (horner_range (Nmesh g) mid c0 HM HF) as HR.
  rewrite Hmid in HR. replace (Z.of_nat (N - 2)) with (Z.of_nat N - 2) in HR by lia.
  assert (HW : 0 < Nmesh g ^ (Z.of_nat N - 2)) by (apply Z.pow_pos_nonneg; lia).
  unfold power.
  set (R := fold_left (fun acc c => acc * Nmesh g + c) mid c0) in *.
  set (W := Nmesh g ^ (Z.of_nat N - 2)) in *.
  set (h := Nmesh g ÷ 2 + 1) in *.
  assert (HR1 : R + 1 <= Local_nx g * W) by (clearbody R W h; nia).
  assert (0 <= R) by (clearbody R W h; nia).
  assert ((R + 1) * h <= Local_nx g * W * h).
  { apply Z.mul_le_mono_nonneg_r; lia. }
  clearbody R W h. nia.
Qed.

(** On a grid whose Fourier grid fits in [int], the [int] expressions of
    [get_index_fourier] are representable for every cell of the grid. *)
Lemma fourier_cell_in_int N g coord :
  (2 <= N)%nat -> 1 <= Nmesh g -> fourier_fits_int N g -> fourier_cell N g coord ->
  get_index_fourier_in_int N g coord.
Proof.
  intros HN HM Hfit (Hlen & H0 & Hk & Hl).
  destruct (fourier_range_fits N g HN HM Hfit) as (Hr & HI & Hn).
  pose proof Hfit as ((_ & Hx) & _).
  destruct (padded_row (Nmesh g) HM) as [Hh _].
  assert (Hc : Forall in_int coord).
  { apply Forall_forall. intros c Hin. apply (In_nth _ _ 0) in Hin.
    destruct Hin as (k & Hlt & <-). rewrite Hlen in Hlt. apply in_int_range.
    destruct (Nat.eq_dec k 0) as [->|Hk0]; [unfold at_ in H0; lia|].
    destruct (Nat.eq_dec k (N - 1)) as [->|Hk1]; [unfold at_ in Hl; lia|].
    specialize (Hk k ltac:(lia)). unfold at_ in Hk. lia. }
  unfold get_index_fourier_in_int.
  split; [apply in_int_range; lia|]. split; [exact Hc|].
  destruct (N =? 2)%nat eqn:E2.
  { apply Nat.eqb_eq in E2. rewrite E2 in *. clear E2.
    change (2 - 1)%nat with 1%nat in Hl.
    specialize (Hn 1%nat ltac:(lia)). change (Z.of_nat 1) with 1 in Hn.
    rewrite Z.pow_1_r in Hn.
    set (c0 := at_ coord 0) in *. set (c1 := at_ coord 1) in *.
    set (M := Nmesh g) in *. set (h := M ÷ 2 + 1) in *.
    unfold get_index_fourier_2d_in_int. fold M h.
    assert (0 <= c0 * h /\ c0 * h + c1 < h * M) by (clearbody c0 c1 M h; nia).
    repeat split; apply in_int_range; lia. }
  destruct (N =? 3)%nat eqn:E3.
  { apply Nat.eqb_eq in E3. rewrite E3 in *. clear E3.
    change (3 - 1)%nat with 2%nat in Hl.
    specialize (Hk 1%nat ltac:(lia)).
    specialize (Hn 2%nat ltac:(lia)). change (Z.of_nat 2) with 2 in Hn.
    rewrite Z.pow_2_r in Hn.
    set (c0 := at_ coord 0) in *. set (c1 := at_ coord 1) in *. set (c2 := at_ coord 2) in *.
    set (M := Nmesh g) in *. set (h := M ÷ 2 + 1) in *.
    unfold get_index_fourier_3d_in_int. fold M h.
    assert (B1 : 0 <= M * c0 /\ M * c0 + c1 < M * M) by (clearbody c0 c1 c2 M h; nia).
    assert (B2 : 0 <= (M * c0 + c1) * h /\ (M * c0 + c1) * h + c2 < h * (M * M)).
    { set (q := M * c0 + c1) in *.
      assert ((q + 1) * h <= M * M * h) by (apply Z.mul_le_mono_nonneg_r; lia).
      assert (0 <= q * h) by (apply Z.mul_nonneg_nonneg; lia).
      clearbody q c0 c1 c2 M h. lia. }
    assert (B3 : M * M <= h * (M * M)) by (clearbody c0 c1 c2 M h; nia).
    repeat split; apply in_int_range; lia. }
  apply in_int_range; lia.
Qed.

(** On a grid whose Fourier grid fits in [int], no [int] of the arithmetic
    of the Fourier grid overflows. *)
Lemma fourier_fits_grid_in_int N g :
  (2 <= N)%nat -> 1 <= Nmesh g -> fourier_fits_int N g -> fourier_grid_in_int N g.
Proof.
  intros HN HM Hfit. split.
  - intros coord Hc. apply fourier_cell_in_int; assumption.
  - intros index Hindex. apply fourier_index_in_int; assumption.
Qed.

(** Round trip on a Fourier grid that fits in [int], with
    [Local_nx <= Nmesh]: [get_fourier_coord_from_index] gives back the
    coordinates of which [get_index_fourier] has made the index, for the
    cells [0 <= c0 < Local_nx], [0 <= c_k < Nmesh] and
    [0 <= c_{N-1} < Nmesh/2+1], with the bounds checks or without, and no
    [int] of the two overflows. *)
Theorem fourier_coord_from_index_of_coord flags N g coord :
  (2 <= N)%nat -> List.length coord = N -> 1 <= Nmesh g -> fourier_fits_int N g ->
  0 <= at_ coord 0 < Local_nx g ->
  (forall k, (1 <= k < N - 1)%nat -> 0 <= at_ coord k < Nmesh g) ->
  0 <= at_ coord (N - 1) < Nmesh g ÷ 2 + 1 ->
  get_index_fourier_in_int N g coord
  /\ exists index,
    get_index_fourier flags N g coord = Ok index
    /\ get_fourier_coord_from_index_in_int N g index
    /\ get_fourier_coord_from_index N g index = coord.
Proof.
  intros HN Hlen HM Hfit H0 Hk Hl.
  split; [apply fourier_cell_in_int; try assumption; exact (conj Hlen (conj H0 (conj Hk Hl)))|].
  rewrite (get_index_fourier_checked flags N g coord HN HM H0 Hk Hl).
  destruct (coord_split N coord Hlen HN) as (c0 & mid & cl & -> & Hmid).
  change (at_ (c0 :: mid ++ [cl]) 0) with c0 in H0.
  assert (El : at_ (c0 :: mid ++ [cl]) (N - 1) = cl).
  { unfold at_. replace (N - 1)%nat with (S (List.length mid)) by lia. cbn [nth].
    rewrite app_nth2, Nat.sub_diag by lia. reflexivity. }
  rewrite El in Hl.
  assert (HF : Forall (fun c => 0 <= c < Nmesh g) mid).
  { apply Forall_forall. intros c Hc. apply (In_nth _ _ 0) in Hc.
    destruct Hc as (j & Hj & <-).
    specialize (Hk (S j) ltac:(lia)). unfold at_ in Hk. cbn [nth] in Hk.
    rewrite app_nth1 in Hk by exact Hj. exact Hk. }
  rewrite (get_index_fourier_rows N g c0 mid cl Hmid HN).
  eexists. split; [reflexivity|].
  split.
  { apply fourier_index_in_int; try assumption.
    apply fourier_rows_in_range; assumption. }
  pose proof Hfit as ((_ & Hnx) & _).
  unfold get_fourier_coord_from_index.
  pose proof (half_plus_one (Nmesh g) HM) as Hh.
  pose proof (horner_nonneg (Nmesh g) mid c0 HM HF ltac:(lia)) as HR.
  set (R := fold_left (fun acc c => acc * Nmesh g + c) mid c0) in *.
  set (h := Nmesh g ÷ 2 + 1) in *.
  destruct (quot_rem_digit R h cl HR Hl) as [Eq Er].
  rewrite Er.
  replace (N - 1)%nat with (S (List.length mid)) by lia.
  destruct (fourier_digits_loop (Nmesh g) (R * h + cl) mid HM HF c0
              (vector_set (repeat 0 N) (S (List.length mid)) cl) h
              ltac:(lia) ltac:(lia) Eq
              ltac:(rewrite vector_set_length, repeat_length; lia))
    as (coord' & n' & E & L & Hn).
  rewrite E. cbn [fst].
  rewrite vector_set_length, repeat_length in L.
  apply (nth_ext _ _ 0 0).
  - rewrite L. cbn [List.length]. rewrite length_app. cbn [List.length]. lia.
  - intros j Hj. rewrite L in Hj. rewrite Hn.
    destruct (Nat.leb_spec j (List.length mid)) as [H1 | H1].
    + destruct j as [|j]; [reflexivity|]. cbn [nth]. rewrite app_nth1 by lia. reflexivity.
    + assert (Ej : j = S (List.length mid)) by lia. subst j.
      rewrite vector_set_nth, repeat_length, Nat.eqb_refl.
      replace (S (List.length mid) <? N)%nat with true by (symmetry; apply Nat.ltb_lt; lia).
      cbn [andb nth]. rewrite app_nth2 by lia. rewrite Nat.sub_diag. reflexivity.
Qed.

Lemma fourier_coord_from_index_of_coord_witness :
  let g := FFTWGrid_new 4 5 1 1 in
  let flags := mkBuildFlags true true false false in
  fourier_fits_int 4 g
  /\ get_index_fourier_in_int 4 g [4; 0; 3; 2]
  /\ exists index,
    get_index_fourier flags 4 g [4; 0; 3; 2] = Ok index
    /\ get_fourier_coord_from_index_in_int 4 g index
    /\ get_fourier_coord_from_index 4 g index = [4; 0; 3; 2].
Proof.
  intros g flags.
  assert (Hfit : fourier_fits_int 4 g) by (vm_compute; repeat split; congruence).
  split; [exact Hfit|].
  apply (fourier_coord_from_index_of_coord flags 4 g [4; 0; 3; 2]).
  - lia.
  - reflexivity.
  - vm_compute; congruence.
  - exact Hfit.
  - vm_compute; split; congruence.
  - intros k Hk. destruct k as [|[|[|k]]]; try lia; vm_compute; split; congruence.
  - vm_compute; split; congruence.
Defined.

(** ** The Fourier grid lies on the main real grid *)

(** The in-place layout: with real slices of twice the length of the
    complex slices, as the constructors make them, the complex cell [k] of
    the Fourier grid is the pair of the real cells [2k] and [2k+1] of the
    main real grid.  [set_fourier_from_index] is read back by
    [get_fourier_from_index], writes these two real cells and no other. *)
Theorem fourier_cell_overlays_real_cells g k value index :
  NmeshTotRealSlice g = 2 * NmeshTotComplexSlice g ->
  let g' := set_fourier_from_index g k value in
  get_fourier_from_index g' k = value
  /\ get_fourier_from_index g k = (get_real_from_index g (2 * k), get_real_from_index g (2 * k + 1))
  /\ get_real_from_index g' (2 * k) = fst value
  /\ get_real_from_index g' (2 * k + 1) = snd value
  /\ (index <> 2 * k -> index <> 2 * k + 1 ->
      get_real_from_index g' index = get_real_from_index g index).
Proof.
  intros Hs g'. subst g'.
  unfold get_fourier_from_index, set_fourier_from_index, get_real_from_index, real_cell_address,
    get_fourier_grid, load_complex, store_complex, store.
  cbn [with_memory fourier_grid_raw NmeshTotComplexSlice NmeshTotRealSlice n_extra_x_slices_left].
  rewrite Hs.
  set (c := NmeshTotComplexSlice g * n_extra_x_slices_left g).
  replace (2 * NmeshTotComplexSlice g * n_extra_x_slices_left g) with (2 * c) by (unfold c; ring).
  replace (2 * c + 2 * k) with (2 * (c + k)) by ring.
  replace (2 * c + (2 * k + 1)) with (2 * (c + k) + 1) by ring.
  rewrite !Z.eqb_refl.
  replace (2 * (c + k) =? 2 * (c + k) + 1) with false by (symmetry; apply Z.eqb_neq; lia).
  destruct value as [re im]. cbn [fst snd].
  repeat split.
  intros H1 H2.
  replace (2 * c + index =? 2 * (c + k) + 1) with false by (symmetry; apply Z.eqb_neq; lia).
  replace (2 * c + index =? 2 * (c + k)) with false by (symmetry; apply Z.eqb_neq; lia).
  reflexivity.
Qed.

Lemma fourier_cell_overlays_real_cells_witness :
  let g := FFTWGrid_new 3 4 2 1 in
  let g' := set_fourier_from_index g 7 ((3#2)%Q, (- (5))%Q) in
  get_fourier_from_index g' 7 = ((3#2)%Q, (- (5))%Q)
  /\ get_real_from_index g' (2 * 7) = (3#2)%Q
  /\ get_real_from_index g' (2 * 7 + 1) = (- (5))%Q.
Proof.
  intros g g'.
  destruct (fourier_cell_overlays_real_cells g 7 ((3#2)%Q, (- (5))%Q) 0 eq_refl)
    as (H1 & _ & H2 & H3 & _).
  split; [exact H1|]. split; [exact H2 | exact H3].
Defined.

(** ** Positions of the cells and cells of the positions *)

Lemma vector_set_loop_nth {A} (f : nat -> A) s k (v : list A) j d :
  (s + k <= List.length v)%nat ->
  nth j (fold_left (fun v idim => vector_set v idim (f idim)) (seq s k) v) d
  = if ((s <=? j) && (j <? s + k))%nat then f j else nth j v d.
Proof.
  revert s v. induction k as [|k IH]; intros s v Hlen.
  - cbn [seq fold_left]. rewrite Nat.add_0_r.
    destruct (Nat.leb_spec s j); cbn [andb]; [|reflexivity].
    replace (j <? s)%nat with false by (symmetry; apply Nat.ltb_ge; lia). reflexivity.
  - cbn [seq fold_left]. rewrite IH by (rewrite vector_set_length; lia).
    rewrite vector_set_nth.
    destruct (Nat.eq_dec j s) as [-> | Hj].
    + rewrite Nat.eqb_refl, Nat.leb_refl.
      replace (S s <=? s)%nat with false by (symmetry; apply Nat.leb_gt; lia).
      replace (s <? List.length v)%nat with true by (symmetry; apply Nat.ltb_lt; lia).
      replace (s <? s + S k)%nat with true by (symmetry; apply Nat.ltb_lt; lia).
      reflexivity.
    + replace (j =? s)%nat with false by (symmetry; apply Nat.eqb_neq; lia).
      cbn [andb].
      replace (j <? S s + k)%nat with (j <? s + S k)%nat by (f_equal; lia).
      destruct (Nat.leb_spec (S s) j) as [H1 | H1].
      * replace (s <=? j)%nat with true by (symmetry; apply Nat.leb_le; lia). reflexivity.
      * replace (s <=? j)%nat with false by (symmetry; apply Nat.leb_gt; lia). reflexivity.
Qed.

Lemma nth_repeat_q (n j : nat) : nth j (repeat 0%Q n) 0%Q = 0%Q.
Proof.
  revert j. induction n as [|n IH]; intros [|j]; cbn [repeat nth]; try reflexivity. apply IH.
Qed.

(** The components of [get_real_position(coord)]. *)
Lemma get_real_position_nth flags N g coord idim :
  (idim < N)%nat ->
  INTERPOLATION.qat (get_real_position flags N g coord) idim
  = ((inject_Z (if (idim =? 0)%nat then Local_x_start g + at_ coord 0 else at_ coord idim)
      + (if CELLCENTERSHIFTED flags then 1#2 else 0)) / inject_Z (Nmesh g))%Q.
Proof.
  intros Hi. unfold get_real_position, INTERPOLATION.qat.
  rewrite vector_set_loop_nth by (rewrite vector_set_length, repeat_length; lia).
  destruct idim as [|idim].
  - cbn [Nat.leb Nat.eqb andb]. rewrite vector_set_nth, repeat_length. cbn [Nat.eqb].
    replace (0 <? N)%nat with true by (symmetry; apply Nat.ltb_lt; lia). reflexivity.
  - cbn [Nat.eqb].
    replace ((1 <=? S idim) && (S idim <? 1 + (N - 1)))%nat with true; [reflexivity|].
    symmetry. apply andb_true_iff. split; [reflexivity | apply Nat.ltb_lt; lia].
Qed.

Lemma get_real_position_length flags N g coord :
  List.length (get_real_position flags N g coord) = N.
Proof.
  unfold get_real_position.
  assert (H : forall (f : nat -> Q) l (v : list Q),
            List.length (fold_left (fun v idim => vector_set v idim (f idim)) l v)
            = List.length v).
  { intros f l. induction l as [|i l IH]; intros v; [reflexivity|].
    cbn [fold_left]. rewrite IH. apply vector_set_length. }
  rewrite H, vector_set_length, repeat_length. reflexivity.
Qed.

(** The distance of a position to its cell in [particles_to_grid]. *)
Lemma qat_snd_locate_particle N g pos idim :
  (idim < N)%nat ->
  INTERPOLATION.qat (snd (locate_particle N g pos)) idim
  = (INTERPOLATION.qat pos idim * inject_Z (Nmesh g)
     - inject_Z (to_int (INTERPOLATION.qat pos idim * inject_Z (Nmesh g))))%Q.
Proof.
  intros Hi. unfold locate_particle. cbn [snd]. unfold get_nmesh.
  rewrite qat_map_seq by exact Hi. rewrite qat_map_seq by exact Hi.
  unfold at_.
  match goal with |- context [nth idim (map to_int ?l) 0] =>
    change (nth idim (map to_int l) 0) with (nth idim (map to_int l) (to_int 0%Q)) end.
  rewrite (map_nth to_int). fold (INTERPOLATION.qat
    (map (fun idim0 => (INTERPOLATION.qat pos idim0 * inject_Z (Nmesh g))%Q) (seq 0 N)) idim).
  rewrite qat_map_seq by exact Hi. reflexivity.
Qed.

(** [(int) y] of a number that is a nonnegative integer plus a part in
    [[0,1)]. *)
Lemma to_int_of_integer_part y a (s : Q) :
  0 <= a -> (0 <= s < 1)%Q -> (y == inject_Z a + s)%Q -> to_int y = a.
Proof.
  intros Ha Hs Hy.
  assert (P : (0 <= inject_Z a)%Q) by (apply (inject_Z_le 0); exact Ha).
  pose proof (to_int_floor y ltac:(lra)) as F.
  assert (L1 : (inject_Z (to_int y) < inject_Z (a + 1))%Q) by (rewrite inject_Z_plus; change (inject_Z 1) with 1%Q; lra).
  assert (L2 : (inject_Z a < inject_Z (to_int y + 1))%Q) by (rewrite inject_Z_plus; change (inject_Z 1) with 1%Q; lra).
  apply inject_Z_lt_inv in L1, L2. lia.
Qed.

(** Round trip between the grid and the scatter on a mesh whose size is a
    power of two, where the division by [Nmesh] in [get_real_position] and
    the product with [Nmesh] in [particles_to_grid] are exact in binary
    floating point: a particle at the position that [get_real_position]
    gives for a cell is located by [particles_to_grid] in that cell, at the
    distance 0 on every axis, and at the distance 1/2 in the
    CELLCENTERSHIFTED build.  The global coordinate of the cell on the first
    axis is representable in [int], as [(int) x[idim]] needs it.  (On other
    meshes the quotient is rounded: the double nearest to [15/22], times 22,
    is below 15.) *)
Theorem locate_particle_at_cell_position flags N g coord (e : nat) :
  Nmesh g = 2 ^ Z.of_nat e -> Nmesh g <= INT_MAX -> List.length coord = N ->
  in_int (at_ coord 0) -> 0 <= Local_x_start g + at_ coord 0 <= INT_MAX ->
  (forall k, (1 <= k < N)%nat -> 0 <= at_ coord k < Nmesh g) ->
  let located := locate_particle N g (get_real_position flags N g coord) in
  fst located = coord
  /\ forall idim, (idim < N)%nat ->
       (INTERPOLATION.qat (snd located) idim
        == if CELLCENTERSHIFTED flags then 1#2 else 0)%Q.
Proof.
  intros HM2 _ Hlen _ [H0 _] Hk located. subst located.
  assert (HM : 1 <= Nmesh g).
  { rewrite HM2. assert (0 < 2 ^ Z.of_nat e) by (apply Z.pow_pos_nonneg; lia). lia. }
  clear HM2.
  set (shift := (if CELLCENTERSHIFTED flags then 1#2 else 0)%Q).
  assert (Hs : (0 <= shift < 1)%Q) by (unfold shift; destruct (CELLCENTERSHIFTED flags); lra).
  assert (P : ~ (inject_Z (Nmesh g) == 0)%Q).
  { intros E. assert (L : (inject_Z 0 < inject_Z (Nmesh g))%Q) by (apply inject_Z_lt; lia).
    change (inject_Z 0) with 0%Q in L. lra. }
  assert (Hy : forall idim, (idim < N)%nat ->
            (INTERPOLATION.qat (get_real_position flags N g coord) idim * inject_Z (Nmesh g)
             == inject_Z (if (idim =? 0)%nat then Local_x_start g + at_ coord 0
                          else at_ coord idim) + shift)%Q).
  { intros idim Hi. rewrite get_real_position_nth by exact Hi. fold shift. field. exact P. }
  assert (Hint : forall idim, (idim < N)%nat ->
            to_int (INTERPOLATION.qat (get_real_position flags N g coord) idim
                    * inject_Z (Nmesh g))%Q
            = if (idim =? 0)%nat then Local_x_start g + at_ coord 0 else at_ coord idim).
  { intros idim Hi. apply (to_int_of_integer_part _ _ shift); [|exact Hs|apply Hy; exact Hi].
    destruct idim as [|idim]; cbn [Nat.eqb]; [exact H0|]. apply Hk. lia. }
  split.
  - apply (nth_ext _ _ 0 0).
    + unfold locate_particle. cbn [fst]. rewrite length_map, length_seq. symmetry. exact Hlen.
    + intros idim Hi.
      assert (Hi' : (idim < N)%nat).
      { unfold locate_particle in Hi. cbn [fst] in Hi.
        rewrite length_map, length_seq in Hi. exact Hi. }
      fold (at_ (fst (locate_particle N g (get_real_position flags N g coord))) idim).
      rewrite at_locate_particle by exact Hi'. cbv zeta.
      rewrite Hint by exact Hi'.
      destruct idim as [|idim]; cbn [Nat.eqb].
      * unfold at_. ring.
      * specialize (Hk (S idim) ltac:(lia)).
        replace (at_ coord (S idim) =? Nmesh g) with false by (symmetry; apply Z.eqb_neq; lia).
        reflexivity.
  - intros idim Hi. rewrite qat_snd_locate_particle by exact Hi.
    rewrite Hint by exact Hi. rewrite Hy by exact Hi. ring.
Qed.

Lemma locate_particle_at_cell_position_witness :
  let g := FFTWGrid_new 3 4 1 1 in
  let located := locate_particle 3 g (get_real_position default_flags 3 g [4; 0; 3]) in
  Nmesh g = 2 ^ Z.of_nat 2
  /\ fst located = [4; 0; 3]
  /\ forall idim, (idim < 3)%nat -> (INTERPOLATION.qat (snd located) idim == 0)%Q.
Proof.
  intros g. split; [reflexivity|].
  apply (locate_particle_at_cell_position default_flags 3 g [4; 0; 3] 2).
  - reflexivity.
  - vm_compute; congruence.
  - reflexivity.
  - vm_compute; split; congruence.
  - vm_compute; split; congruence.
  - intros k Hk. destruct k as [|[|[|k]]]; try lia; vm_compute; split; congruence.
Defined.

(** * Further properties of the transfer between particles and grid *)

(** ** The names of the methods *)

Ltac by_order :=
  cbn [bind];
  try match goal with
      | |- context [particles_to_grid ?a ?b ?c ?d ?e ?f ?g] =>
          destruct (particles_to_grid a b c d e f g)
      | |- context [interpolate_grid_to_particle_positions ?a ?b ?c ?d ?e ?f ?g] =>
          destruct (interpolate_grid_to_particle_positions a b c d e f g)
      end;
  reflexivity.

(** The functions that take the name of a method agree with the templates
    on the order that [interpolation_order_from_name] gives: the extra
    slices, the scatter and the gather by name are those of the order, for
    the five names; on any other name [interpolation_order_from_name] and
    [get_extra_slices_needed_for_density_assignment] abort. *)
Theorem method_names_agree flags name :
  match interpolation_order_from_name name with
  | Ok p =>
      1 <= p <= 5
      /\ get_extra_slices_needed_for_density_assignment flags name
         = Ok (get_extra_slices_needed_by_order flags p)
      /\ (forall N part NumPart NumPartTot density,
            particles_to_grid_by_name flags N part NumPart NumPartTot density name
            = particles_to_grid flags N p part NumPart NumPartTot density)
      /\ (forall N grid part NumPart interpolated_values,
            interpolate_grid_to_particle_positions_by_name flags N grid part NumPart
              interpolated_values name
            = interpolate_grid_to_particle_positions flags N p grid part NumPart
                interpolated_values)
  | AssertionFailed _ =>
      get_extra_slices_needed_for_density_assignment flags name
      = AssertionFailed "[extra_slices_needed_density_assignment] Unknown density assignment method"
  end.
Proof.
  unfold interpolation_order_from_name, get_extra_slices_needed_for_density_assignment,
    get_extra_slices_needed_by_order, particles_to_grid_by_name,
    interpolate_grid_to_particle_positions_by_name.
  destruct (String.eqb_spec name "NGP") as [-> | H1].
  { cbn [String.eqb Ascii.eqb Bool.eqb]. split; [lia|]. split; [reflexivity|].
    split; intros; by_order. }
  destruct (String.eqb_spec name "CIC") as [-> | H2].
  { cbn [String.eqb Ascii.eqb Bool.eqb]. split; [lia|].
    split; [destruct (CELLCENTERSHIFTED flags); reflexivity|].
    split; intros; by_order. }
  destruct (String.eqb_spec name "TSC") as [-> | H3].
  { cbn [String.eqb Ascii.eqb Bool.eqb]. split; [lia|].
    split; [destruct (CELLCENTERSHIFTED flags); reflexivity|].
    split; intros; by_order. }
  destruct (String.eqb_spec name "PCS") as [-> | H4].
  { cbn [String.eqb Ascii.eqb Bool.eqb]. split; [lia|].
    split; [destruct (CELLCENTERSHIFTED flags); reflexivity|].
    split; intros; by_order. }
  destruct (String.eqb_spec name "PQS") as [-> | H5].
  { cbn [String.eqb Ascii.eqb Bool.eqb]. split; [lia|].
    split; [destruct (CELLCENTERSHIFTED flags); reflexivity|].
    split; intros; by_order. }
  reflexivity.
Qed.

(** ** The gather *)

Lemma at_map_to_int (f : nat -> Q) N idim :
  (idim < N)%nat -> at_ (map to_int (map f (seq 0 N))) idim = to_int (f idim).
Proof. intros H. rewrite map_map. apply at_map_seq. exact H. Qed.

(** For a particle of the box, on the grid of the constructor, the gather
    finds the cell and the distances that the scatter finds: none of its
    corrections of the cell applies. *)
Lemma locate_for_interpolation_in_box N M gL gR m p :
  1 <= M -> in_box N p ->
  let g := with_memory (FFTWGrid_new N M gL gR) m in
  locate_particle_for_interpolation N g (INTERPOLATION.get_pos p)
  = locate_particle N (FFTWGrid_new N M gL gR) (INTERPOLATION.get_pos p).
Proof.
  intros HM Hbox g. subst g. set (g0 := FFTWGrid_new N M gL gR).
  unfold locate_particle_for_interpolation, locate_particle.
  unfold get_local_nx, get_local_x_start, get_nmesh.
  change (Local_nx (with_memory g0 m)) with M. change (Local_x_start (with_memory g0 m)) with 0.
  change (Nmesh (with_memory g0 m)) with M. change (Nmesh g0) with M.
  change (Local_x_start g0) with 0.
  set (pos := INTERPOLATION.get_pos p).
  set (scaled := map (fun idim => (INTERPOLATION.qat pos idim * inject_Z M)%Q) (seq 0 N)).
  assert (Hcell : forall idim, (idim < N)%nat ->
            0 <= to_int (INTERPOLATION.qat scaled idim) < M).
  { intros idim Hi. unfold scaled. rewrite qat_map_seq by exact Hi.
    destruct (locate_particle_cell N g0 pos idim Hi HM (Hbox idim Hi)) as (_ & H & _).
    exact H. }
  set (ixi := map (fun idim =>
                     let i := to_int (INTERPOLATION.qat scaled idim) in
                     if (idim =? 0)%nat
                     then let i0 := if i =? 0 + M then 0 + M - 1 else i in
                          if i0 <? 0 then 0 else i0
                     else if i =? M then M - 1 else i) (seq 0 N)).
  assert (Hix : forall idim, (idim < N)%nat -> at_ ixi idim = at_ (map to_int scaled) idim).
  { intros idim Hi. unfold ixi. rewrite at_map_seq by exact Hi. cbv zeta.
    assert (E : at_ (map to_int scaled) idim = to_int (INTERPOLATION.qat scaled idim)).
    { unfold scaled. rewrite at_map_to_int, qat_map_seq by exact Hi. reflexivity. }
    rewrite E. pose proof (Hcell idim Hi) as Hc.
    destruct idim as [|idim]; cbn [Nat.eqb].
    - replace (_ =? 0 + M) with false by (symmetry; apply Z.eqb_neq; lia).
      replace (_ <? 0) with false by (symmetry; apply Z.ltb_ge; lia). reflexivity.
    - replace (_ =? M) with false by (symmetry; apply Z.eqb_neq; lia). reflexivity. }
  assert (Hat : forall idim, (idim < N)%nat ->
            at_ (map to_int scaled) idim = to_int (INTERPOLATION.qat scaled idim)).
  { intros idim Hi. unfold scaled. rewrite at_map_to_int, qat_map_seq by exact Hi.
    reflexivity. }
  f_equal.
  - apply map_ext_in. intros idim Hi. apply in_seq in Hi.
    rewrite !Hix by lia.
    destruct idim as [|idim]; cbn [Nat.eqb]; [reflexivity|].
    rewrite Hat by lia. pose proof (Hcell (S idim) ltac:(lia)) as Hc.
    replace (_ =? M) with false by (symmetry; apply Z.eqb_neq; lia). reflexivity.
  - apply map_ext_in. intros idim Hi. apply in_seq in Hi.
    rewrite Hix by lia. reflexivity.
Qed.

(** [get_real] on the addressable region of the grid of the constructor
    reads inside the allocation. *)
Lemma get_real_in_allocation flags N M gL gR m coord :
  (2 <= N)%nat -> 1 <= M -> List.length coord = N ->
  - gL <= at_ coord 0 < M + gR ->
  (forall k, (1 <= k < N)%nat -> 0 <= at_ coord k < M) ->
  let g0 := FFTWGrid_new N M gL gR in
  exists a, 0 <= a < NmeshTotRealAlloc g0
            /\ get_real flags N (with_memory g0 m) coord = Ok (m a).
Proof.
  intros HN HM Hlen H0 Hk g0. unfold get_real.
  change (get_index_real flags N (with_memory g0 m) coord)
    with (get_index_real flags N g0 coord).
  rewrite (get_index_real_checked flags N g0 coord HN Hlen H0 Hk).
  destruct (get_index_real_default N g0 coord) as [index Hi].
  rewrite Hi. cbn [bind].
  exists (NmeshTotRealSlice g0 * gL + index). split; [|reflexivity].
  exact (address_in_allocation N M gL gR coord index HN HM Hlen H0 Hk Hi).
Qed.

(** The loop of the gather over the cells of the stencil, on a grid that
    holds [c] in its whole allocation. *)
Lemma gather_cells flags N ORDER M gL gR m p c l :
  scatter_setting flags N ORDER M gL gR -> in_box N p -> Forall (fun i => 0 <= i) l ->
  let g0 := FFTWGrid_new N M gL gR in
  (forall a, 0 <= a < NmeshTotRealAlloc g0 -> m a = c) ->
  let located := locate_particle N g0 (INTERPOLATION.get_pos p) in
  let xstart := stencil_start flags N ORDER (snd located) in
  let weight i := fst (stencil_cell flags N ORDER (fst located) (snd located) xstart i) in
  forall value sumweight,
  exists value' sumweight',
    for_each
      (fun '(value, sumweight) i =>
         let '(w, ix_nbor) := stencil_cell flags N ORDER (fst located) (snd located) xstart i in
         let icoord := periodic_coord N (get_nmesh (with_memory g0 m)) ix_nbor in
         v <- get_real flags N (with_memory g0 m) icoord ;;
         Ok ((value + v * w)%Q, (sumweight + w)%Q))
      l (value, sumweight)
    = Ok (value', sumweight')
    /\ (value' == value + c * qsum weight l)%Q
    /\ (sumweight' == sumweight + qsum weight l)%Q.
Proof.
  intros Hs Hbox Hl g0 Hm located xstart weight.
  induction Hl as [|i l Hi _ IH]; intros value sumweight.
  - exists value, sumweight. split; [reflexivity|]. rewrite qsum_nil. split; ring.
  - cbn [for_each].
    pose proof (deposit_coord_in_range flags N ORDER M gL gR m p i Hs Hbox Hi) as Hr.
    cbv zeta in Hr.
    change (locate_particle N (with_memory (FFTWGrid_new N M gL gR) m) (INTERPOLATION.get_pos p))
      with located in Hr.
    fold xstart in Hr.
    destruct (stencil_cell flags N ORDER (fst located) (snd located) xstart i) as [w nb] eqn:E.
    cbn [snd] in Hr. destruct Hr as (Hlen & H0 & Hk).
    cbv beta iota zeta.
    change (get_nmesh (with_memory g0 m)) with M.
    pose proof Hs as (_ & HN & HM & _).
    destruct (get_real_in_allocation flags N M gL gR m (periodic_coord N M nb)
                HN HM Hlen H0 Hk) as (a & Ha & Eg).
    cbv zeta in Eg. fold g0 in Eg. rewrite Eg.
    cbn [bind]. rewrite (Hm a Ha).
    destruct (IH (value + c * w)%Q (sumweight + w)%Q) as (v' & s' & E' & Hv & Hsw).
    exists v', s'. split; [exact E'|].
    assert (W : weight i = w) by (unfold weight; rewrite E; reflexivity).
    rewrite qsum_cons, W. split; [rewrite Hv | rewrite Hsw]; ring.
Qed.

(** The gather of one particle of the box on a grid that holds [c]. *)
Lemma gather_particle flags N ORDER M gL gR m p c :
  scatter_setting flags N ORDER M gL gR -> in_box N p ->
  let g0 := FFTWGrid_new N M gL gR in
  (forall a, 0 <= a < NmeshTotRealAlloc g0 -> m a = c) ->
  exists value,
    interpolate_particle flags N ORDER (with_memory g0 m) p = Ok value /\ (value == c)%Q.
Proof.
  intros Hs Hbox g0 Hm. unfold interpolate_particle.
  pose proof Hs as (Hc & HN & HM & Hp & HL & HR).
  pose proof (locate_for_interpolation_in_box N M gL gR m p HM Hbox) as El.
  cbv zeta in El. fold g0 in El. rewrite El.
  pose proof (scatter_weights_sum_to_one flags N ORDER g0 (INTERPOLATION.get_pos p)
                Hc Hp HM Hbox) as W.
  cbv zeta in W. unfold sum_of_weights in W. rewrite fold_left_qsum, Qplus_0_l in W.
  destruct (gather_cells flags N ORDER M gL gR m p c
              (zseq 0 (Z.to_nat (power ORDER (Z.of_nat N)))) Hs Hbox
              ltac:(apply Forall_forall; intros i Hi; apply zseq_In in Hi; lia)
              Hm 0%Q 0%Q) as (v' & s' & E1 & E2 & E3).
  cbv zeta in E1, E2, E3. fold g0 in E1, E2, E3.
  destruct (locate_particle N g0 (INTERPOLATION.get_pos p)) as [ix x].
  cbn [fst snd] in *.
  rewrite E1. cbn [bind].
  exists v'. split.
  - destruct (DEBUG_INTERPOL flags); [|reflexivity].
    replace (Qltb (Qabs (s' - 1)) (1 # 1000)) with true; [reflexivity|].
    symmetry. apply Qltb_lt. rewrite E3, W.
    setoid_replace (0 + 1 - 1)%Q with 0%Q by ring. reflexivity.
  - rewrite E2, W. ring.
Qed.

Lemma assign_length v ind value : List.length (assign v ind value) = List.length v.
Proof.
  revert ind. induction v as [|a v IH]; intros ind; [reflexivity|].
  destruct ind; cbn [assign List.length]; [reflexivity|]. rewrite IH. reflexivity.
Qed.

Lemma assign_nth v ind value j :
  nth j (assign v ind value) 0%Q
  = if ((j =? ind) && (ind <? List.length v))%nat then value else nth j v 0%Q.
Proof.
  revert ind j. induction v as [|a v IH]; intros ind j.
  - cbn [assign List.length].
    replace (ind <? 0)%nat with false by (symmetry; apply Nat.ltb_ge; lia).
    rewrite andb_false_r. reflexivity.
  - destruct ind as [|ind]; destruct j as [|j]; cbn [assign nth List.length]; try reflexivity.
    rewrite IH. reflexivity.
Qed.

(** The loop of the gather over the particles: the entries of the
    particles seen so far hold [c]. *)
Lemma gather_loop flags N ORDER M gL gR m c ps :
  scatter_setting flags N ORDER M gL gR -> Forall (in_box N) ps ->
  let g0 := FFTWGrid_new N M gL gR in
  (forall a, 0 <= a < NmeshTotRealAlloc g0 -> m a = c) ->
  forall values ind,
    (ind + List.length ps <= List.length values)%nat ->
    (forall j, (j < ind)%nat -> (nth j values 0 == c)%Q) ->
  exists values',
    for_each (fun '(interpolated_values, ind) p =>
                value <- interpolate_particle flags N ORDER (with_memory g0 m) p ;;
                Ok (assign interpolated_values ind value, S ind))
             ps (values, ind)
    = Ok (values', (ind + List.length ps)%nat)
    /\ List.length values' = List.length values
    /\ forall j, (j < ind + List.length ps)%nat -> (nth j values' 0 == c)%Q.
Proof.
  intros Hs Hps g0 Hm. induction Hps as [|p ps Hp _ IH]; intros values ind Hlen Hval.
  - exists values. cbn [for_each List.length]. rewrite !Nat.add_0_r.
    split; [reflexivity|]. split; [reflexivity | exact Hval].
  - cbn [for_each List.length] in *.
    destruct (gather_particle flags N ORDER M gL gR m p c Hs Hp Hm) as (value & E & Hv).
    fold g0 in E. rewrite E. cbn [bind].
    destruct (IH (assign values ind value) (S ind)
                ltac:(rewrite assign_length; lia)) as (values' & E' & L & Hn).
    { intros j Hj. rewrite assign_nth.
      destruct (Nat.eq_dec j ind) as [-> | Hne].
      - rewrite Nat.eqb_refl.
        replace (ind <? List.length values)%nat with true by (symmetry; apply Nat.ltb_lt; lia).
        exact Hv.
      - replace (j =? ind)%nat with false by (symmetry; apply Nat.eqb_neq; lia).
        apply Hval. lia. }
    exists values'. replace (ind + S (List.length ps))%nat with (S ind + List.length ps)%nat by lia.
    split; [exact E'|]. split; [rewrite L; apply assign_length | exact Hn].
Qed.

Lemma resize_length v n : List.length (resize v n) = n.
Proof.
  unfold resize. rewrite length_app, length_firstn, repeat_length. lia.
Qed.

(** The gather of a constant field, for the orders 2 to 5 in the
    corner-centered build (CELLCENTERSHIFTED off), with the bounds checks
    and the debug assertions or without: on a grid of the constructor that
    fits in [int], with ghost widths that are at least the ones the order
    requires and at most the [M] owned slabs, with [ORDER^N] representable
    in [int], and that [fill_real_grid] has filled with [c], no [int] of
    the index arithmetic overflows,
    [interpolate_grid_to_particle_positions] returns, resizes the vector to
    [NumPart] entries, and gives [c] for every particle of the box.  The
    value is that of the exact arithmetic of the model; floating point
    follows it up to rounding. *)
Theorem interpolation_of_constant_field flags N ORDER M gL gR m c part NumPart values0 :
  CELLCENTERSHIFTED flags = false -> (2 <= N)%nat -> 1 <= M -> 2 <= ORDER <= 5 ->
  fst (get_extra_slices_needed_by_order flags ORDER) <= gL <= M ->
  snd (get_extra_slices_needed_by_order flags ORDER) <= gR <= M ->
  grid_fits_int N (FFTWGrid_new N M gL gR) ->
  power ORDER (Z.of_nat N) <= INT_MAX ->
  (NumPart <= List.length part)%nat ->
  Forall (in_box N) (firstn NumPart part) ->
  let grid := fill_real_grid (with_memory (FFTWGrid_new N M gL gR) m) c in
  real_grid_in_int N grid
  /\ exists values,
    interpolate_grid_to_particle_positions flags N ORDER grid part NumPart values0 = Ok values
    /\ List.length values = NumPart
    /\ Forall (fun v => (v == c)%Q) values.
Proof.
  intros Hc HN HM Ho HgL HgR Hfit _ Hnum Hbox grid. subst grid.
  set (g0 := FFTWGrid_new N M gL gR).
  pose proof (conj Hc (conj HN (conj HM (conj Ho (conj HgL HgR))))
              : scatter_setting flags N ORDER M gL gR) as Hs.
  set (m1 := fill m 0 (NmeshTotRealAlloc g0) c).
  change (fill_real_grid (with_memory g0 m) c) with (with_memory g0 m1).
  split; [apply new_grid_in_int; assumption|].
  assert (Hm : forall a, 0 <= a < NmeshTotRealAlloc g0 -> m1 a = c).
  { intros a Ha. unfold m1, fill. rewrite andb_range by lia. reflexivity. }
  unfold interpolate_grid_to_particle_positions.
  change (get_nmesh (with_memory g0 m1)) with M.
  change (get_n_extra_slices_left (with_memory g0 m1)) with gL.
  change (get_n_extra_slices_right (with_memory g0 m1)) with gR.
  replace (M >? 0) with true by (symmetry; apply Z.gtb_lt; lia).
  replace ((gL >=? fst (get_extra_slices_needed_by_order flags ORDER))
           && (gR >=? snd (get_extra_slices_needed_by_order flags ORDER))) with true.
  2:{ symmetry. apply andb_true_iff. rewrite !Z.geb_leb. split; apply Z.leb_le; lia. }
  cbn [assert_mpi bind]. cbv zeta.
  assert (Lp : List.length (firstn NumPart part) = NumPart) by (rewrite length_firstn; lia).
  destruct (gather_loop flags N ORDER M gL gR m1 c (firstn NumPart part) Hs Hbox Hm
              (resize values0 NumPart) 0%nat
              ltac:(rewrite resize_length, Lp; lia)
              ltac:(intros j Hj; lia)) as (values & E & L & Hn).
  fold g0 in E. rewrite E. cbn [bind fst].
  exists values. split; [reflexivity|].
  rewrite resize_length in L. split; [exact L|].
  apply Forall_forall. intros v Hv. apply (In_nth _ _ 0%Q) in Hv.
  destruct Hv as (j & Hj & <-). apply Hn. rewrite Lp. lia.
Qed.

Lemma interpolation_of_constant_field_witness :
  let part := [mkParticle [(3#16)%Q; (3#5)%Q]; mkParticle [(15#16)%Q; 0%Q];
               mkParticle [(1#2)%Q; (1#3)%Q]] in
  let flags := mkBuildFlags true true true false in
  let grid := fill_real_grid (with_memory (FFTWGrid_new 2 4 1 2) (fun a => inject_Z a)) (7#3) in
  real_grid_in_int 2 grid
  /\ exists values,
    interpolate_grid_to_particle_positions flags 2 3 grid part 2 [] = Ok values
    /\ List.length values = 2%nat
    /\ Forall (fun v => (v == 7#3)%Q) values.
Proof.
  intros part flags.
  apply (interpolation_of_constant_field flags 2 3 4 1 2 (fun a => inject_Z a) (7#3) part 2 []).
  - reflexivity.
  - lia.
  - lia.
  - lia.
  - vm_compute; split; discriminate.
  - vm_compute; split; discriminate.
  - vm_compute; repeat split; discriminate.
  - vm_compute; discriminate.
  - cbn [List.length part]. lia.
  - cbn [firstn]. apply Forall_cons; [|apply Forall_cons; [|apply Forall_nil]];
      intros idim Hi;
      (destruct idim as [|[|idim]]; [vm_compute; split; congruence .. | lia]).
Defined.

(** ** The scatter stays inside the allocation *)

(** The place of a cell of an owned or a ghost slab lies in the allocation
    of the grid of the constructor. *)
Lemma active_cell_in_allocation N M gL gR n :
  (2 <= N)%nat -> 1 <= M ->
  - gL * M ^ (Z.of_nat N - 1) <= n < (M + gR) * M ^ (Z.of_nat N - 1) ->
  let g0 := FFTWGrid_new N M gL gR in
  0 <= NmeshTotRealSlice g0 * gL + active_index M n < NmeshTotRealAlloc g0.
Proof.
  intros HN HM Hn g0.
  destruct (new_grid_sizes N M gL gR HN HM) as (HW & EV & Eslab & Ealloc & _ & _).
  fold g0 in Eslab, Ealloc. rewrite Ealloc, Eslab. rewrite EV in Hn.
  pose proof (active_index_slab_range M (M ^ (Z.of_nat N - 2)) n (- gL) (M + gR) HM Hn) as H.
  lia.
Qed.

(** The deposits of one particle of the box write inside the allocation. *)
Lemma deposit_cells_frame flags N ORDER M gL gR p norm_fac l :
  scatter_setting flags N ORDER M gL gR -> in_box N p -> Forall (fun i => 0 <= i) l ->
  let g0 := FFTWGrid_new N M gL gR in
  let located := locate_particle N g0 (INTERPOLATION.get_pos p) in
  let xstart := stencil_start flags N ORDER (snd located) in
  forall m sumweights,
  exists m' sumweights',
    for_each (deposit_in_cell flags N ORDER norm_fac 1 (fst located) (snd located) xstart)
             l (with_memory g0 m, sumweights)
    = Ok (with_memory g0 m', sumweights')
    /\ forall a, ~ (0 <= a < NmeshTotRealAlloc g0) -> m' a = m a.
Proof.
  intros Hs Hbox Hl g0 located xstart.
  induction Hl as [|i l Hi _ IH]; intros m sumweights.
  - exists m, sumweights. split; reflexivity.
  - cbn [for_each]. unfold deposit_in_cell at 1.
    destruct (stencil_cell flags N ORDER (fst located) (snd located) xstart i) as [w nb] eqn:E.
    destruct (deposit_cell flags N ORDER M gL gR m p i (w * norm_fac * 1)%Q Hs Hbox Hi)
      as (n & Hn & Ea).
    cbv zeta in Ea. fold g0 located xstart in Ea. rewrite E in Ea. cbn [snd] in Ea.
    change (get_nmesh (with_memory g0 m)) with M.
    rewrite Ea. cbn [bind].
    destruct (IH (store m (NmeshTotRealSlice g0 * gL + active_index M n)
                    (Qplus (m (NmeshTotRealSlice g0 * gL + active_index M n))
                           (w * norm_fac * 1)%Q))
                 (sumweights + w)%Q) as (m' & sw' & E' & Hout).
    exists m', sw'. split; [exact E'|].
    intros a Ha. rewrite (Hout a Ha). unfold store.
    pose proof Hs as (_ & HN & HM & _).
    pose proof (active_cell_in_allocation N M gL gR n HN HM Hn) as Hin. cbv zeta in Hin. fold g0 in Hin.
    replace (a =? NmeshTotRealSlice g0 * gL + active_index M n) with false; [reflexivity|].
    symmetry. apply Z.eqb_neq. lia.
Qed.

Lemma deposit_particle_frame flags N ORDER M gL gR p norm_fac m m' :
  scatter_setting flags N ORDER M gL gR -> in_box N p ->
  let g0 := FFTWGrid_new N M gL gR in
  deposit_particle flags N ORDER norm_fac (with_memory g0 m) p = Ok (with_memory g0 m') ->
  forall a, ~ (0 <= a < NmeshTotRealAlloc g0) -> m' a = m a.
Proof.
  intros Hs Hbox g0. unfold deposit_particle.
  change (locate_particle N (with_memory g0 m) (INTERPOLATION.get_pos p))
    with (locate_particle N g0 (INTERPOLATION.get_pos p)).
  destruct (deposit_cells_frame flags N ORDER M gL gR p norm_fac
              (zseq 0 (Z.to_nat (power ORDER (Z.of_nat N)))) Hs Hbox
              ltac:(apply Forall_forall; intros i Hi; apply zseq_In in Hi; lia)
              m 0%Q) as (m1 & sw & E & Hout).
  cbv zeta in E. fold g0 in E.
  destruct (locate_particle N g0 (INTERPOLATION.get_pos p)) as [ix x].
  cbn [fst snd] in E. rewrite E. cbn [bind].
  destruct (if DEBUG_INTERPOL flags then _ else _) as [[]|msg]; cbn [bind]; [|discriminate].
  intros H. injection H as H. subst m'. exact Hout.
Qed.

Lemma deposit_particles_frame flags N ORDER M gL gR norm_fac ps :
  scatter_setting flags N ORDER M gL gR -> Forall (in_box N) ps ->
  let g0 := FFTWGrid_new N M gL gR in
  forall m m',
    for_each (deposit_particle flags N ORDER norm_fac) ps (with_memory g0 m)
    = Ok (with_memory g0 m') ->
    forall a, ~ (0 <= a < NmeshTotRealAlloc g0) -> m' a = m a.
Proof.
  intros Hs Hps g0. induction Hps as [|p ps Hp Hps IH]; intros m m'.
  - cbn [for_each]. intros H. injection H as H. subst m'. reflexivity.
  - cbn [for_each].
    destruct (deposit_particle_sum flags N ORDER M gL gR p norm_fac m Hs Hp) as (m1 & E1 & _).
    fold g0 in E1. rewrite E1. cbn [bind]. intros H a Ha.
    rewrite (IH m1 m' H a Ha).
    exact (deposit_particle_frame flags N ORDER M gL gR p norm_fac m m1 Hs Hp E1 a Ha).
Qed.

(** Memory safety of the scatter for the orders 2 to 5 in the
    corner-centered build (CELLCENTERSHIFTED off), with the bounds checks
    and the debug assertions or without: on a grid of the constructor that
    fits in [int], with ghost widths that are at least the ones the order
    requires and at most the [M] owned slabs, and with [ORDER^N]
    representable in [int], no [int] of the index arithmetic overflows,
    [particles_to_grid] of particles of the box returns, the grid keeps its
    shape, and no real outside the allocation [0 .. NmeshTotRealAlloc-1] is
    written. *)
Theorem particles_to_grid_stays_in_allocation
  flags N ORDER M gL gR part NumPart NumPartTot m :
  CELLCENTERSHIFTED flags = false -> (2 <= N)%nat -> 1 <= M -> 2 <= ORDER <= 5 ->
  fst (get_extra_slices_needed_by_order flags ORDER) <= gL <= M ->
  snd (get_extra_slices_needed_by_order flags ORDER) <= gR <= M ->
  grid_fits_int N (FFTWGrid_new N M gL gR) ->
  power ORDER (Z.of_nat N) <= INT_MAX ->
  Forall (in_box N) (firstn NumPart part) ->
  let g0 := FFTWGrid_new N M gL gR in
  real_grid_in_int N (with_memory g0 m)
  /\ exists m',
    particles_to_grid flags N ORDER part NumPart NumPartTot (with_memory g0 m)
    = Ok (with_memory g0 m')
    /\ forall a, ~ (0 <= a < NmeshTotRealAlloc g0) -> m' a = m a.
Proof.
  intros Hc HN HM Ho HgL HgR Hfit _ Hbox g0.
  pose proof (conj Hc (conj HN (conj HM (conj Ho (conj HgL HgR))))
              : scatter_setting flags N ORDER M gL gR) as Hs.
  split; [apply new_grid_in_int; assumption|].
  destruct (required_widths_nonneg flags ORDER Hc Ho) as [HwL HwR].
  destruct (new_grid_sizes N M gL gR HN HM) as (HW & EV & Eslab & Ealloc & _ & Hslab).
  fold g0 in Eslab, Ealloc, Hslab.
  set (norm_fac := (inject_Z (M ^ Z.of_nat N) / inject_Z NumPartTot)%Q).
  set (m0 := fill m 0 (NmeshTotRealAlloc g0) (- (1))%Q).
  destruct (deposit_particles_sum flags N ORDER M gL gR norm_fac (firstn NumPart part)
              Hs Hbox m0) as (m1 & Edep & _).
  fold g0 in Edep.
  destruct (reduction_memory (with_memory g0 m1) m1 Hslab
              ltac:(change (n_extra_x_slices_left (with_memory g0 m1)) with gL;
                    change (Local_nx (with_memory g0 m1)) with M; lia)
              ltac:(change (n_extra_x_slices_right (with_memory g0 m1)) with gR;
                    change (Local_nx (with_memory g0 m1)) with M; lia))
    as (m2 & Ered & Hm2).
  cbv zeta in Hm2.
  change (NmeshTotRealSlice (with_memory g0 m1)) with (NmeshTotRealSlice g0) in Hm2.
  change (n_extra_x_slices_left (with_memory g0 m1)) with gL in Hm2.
  change (n_extra_x_slices_right (with_memory g0 m1)) with gR in Hm2.
  change (Local_nx (with_memory g0 m1)) with M in Hm2.
  exists m2. split.
  - unfold particles_to_grid.
    change (get_n_extra_slices_left (with_memory g0 m)) with gL.
    change (get_n_extra_slices_right (with_memory g0 m)) with gR.
    replace ((gL >=? fst (get_extra_slices_needed_by_order flags ORDER))
             && (gR >=? snd (get_extra_slices_needed_by_order flags ORDER))) with true.
    2:{ symmetry. apply andb_true_iff. rewrite !Z.geb_leb. split; apply Z.leb_le; lia. }
    cbn [assert_mpi bind]. cbv zeta.
    change (fill_real_grid (with_memory g0 m) (- (1))%Q) with (with_memory g0 m0).
    change (get_nmesh (with_memory g0 m0)) with M. fold norm_fac.
    rewrite Edep. cbn [bind].
    change (with_memory (with_memory g0 m1) m1) with (with_memory g0 m1) in Ered.
    rewrite Ered. reflexivity.
  - intros a Ha. rewrite Hm2.
    set (slab := NmeshTotRealSlice g0) in *.
    assert (P1 : 0 <= slab * gL) by nia.
    assert (P2 : 0 <= slab * gR <= slab * M) by nia.
    assert (P3 : 0 <= slab * (M - gL)) by nia.
    assert (Ea : NmeshTotRealAlloc g0 = slab * gL + slab * M + slab * gR) by (rewrite Ealloc; ring).
    rewrite andb_range_out by nia.
    rewrite andb_range_out by nia.
    rewrite (deposit_particles_frame flags N ORDER M gL gR norm_fac (firstn NumPart part)
               Hs Hbox m0 m1 Edep a Ha).
    unfold m0, fill. rewrite andb_range_out by lia. reflexivity.
Qed.

Lemma particles_to_grid_stays_in_allocation_witness :
  let part := [mkParticle [(3#16)%Q; (3#5)%Q]; mkParticle [(15#16)%Q; 0%Q]] in
  let flags := mkBuildFlags true true true false in
  let g0 := FFTWGrid_new 2 4 1 2 in
  real_grid_in_int 2 (with_memory g0 (fun a => inject_Z a))
  /\ exists m',
    particles_to_grid flags 2 3 part 2 2 (with_memory g0 (fun a => inject_Z a))
    = Ok (with_memory g0 m')
    /\ forall a, ~ (0 <= a < NmeshTotRealAlloc g0) -> m' a = inject_Z a.
Proof.
  intros part flags g0.
  apply (particles_to_grid_stays_in_allocation flags 2 3 4 1 2 part 2 2 (fun a => inject_Z a)).
  - reflexivity.
  - lia.
  - lia.
  - lia.
  - vm_compute; split; discriminate.
  - vm_compute; split; discriminate.
  - vm_compute; repeat split; discriminate.
  - vm_compute; discriminate.
  - cbn [firstn]. apply Forall_cons; [|apply Forall_cons; [|apply Forall_nil]];
      intros idim Hi;
      (destruct idim as [|[|idim]]; [vm_compute; split; congruence .. | lia]).
Defined.

(** ** The reduction of the extra slices, cell by cell *)

(** What [get_real] reads in the slab [c0] of the grid of the constructor:
    the cell of the slab 0 with the same other coordinates, [c0] slabs
    further. *)
Lemma get_real_of_slab flags N M gL gR m c0 mid cl :
  (2 <= N)%nat -> 1 <= M -> List.length mid = (N - 2)%nat ->
  - gL <= c0 < M + gR -> Forall (fun c => 0 <= c < M) mid -> 0 <= cl < M ->
  let g0 := FFTWGrid_new N M gL gR in
  let slab := NmeshTotRealSlice g0 in
  let index := fold_left (fun acc c => acc * M + c) mid 0 * (2 * (M ÷ 2 + 1)) + cl in
  get_real flags N (with_memory g0 m) (c0 :: mid ++ [cl])
  = Ok (m (slab * gL + index + c0 * slab))
  /\ 0 <= index < slab.
Proof.
  intros HN HM Hmid Hc0 HF Hcl g0 slab index. split.
  - unfold get_real.
    change (get_index_real flags N (with_memory g0 m) (c0 :: mid ++ [cl]))
      with (get_index_real flags N g0 (c0 :: mid ++ [cl])).
    rewrite (get_index_real_checked flags N g0 (c0 :: mid ++ [cl]) HN).
    + rewrite (get_index_real_rows N g0 c0 mid cl Hmid HN). cbn [bind].
      change (Nmesh g0) with M.
      replace c0 with (0 + c0) at 1 by ring.
      rewrite (index_of_shifted_slab N M gL gR 0 mid cl c0 HN HM Hmid).
      unfold real_cell_address. cbn [with_memory fourier_grid_raw].
      f_equal. f_equal. fold g0 slab index.
      change (NmeshTotRealSlice (with_memory g0 m)) with slab.
      change (n_extra_x_slices_left (with_memory g0 m)) with gL. ring.
    + cbn [List.length]. rewrite length_app. cbn [List.length]. lia.
    + exact Hc0.
    + intros k Hk. destruct k as [|k]; [lia|]. unfold at_. cbn [nth].
      destruct (Nat.eq_dec k (List.length mid)) as [-> | Hne].
      * rewrite app_nth2, Nat.sub_diag by lia. exact Hcl.
      * rewrite app_nth1 by lia.
        apply (proj1 (Forall_forall _ _) HF). apply nth_In. lia.
  - destruct (new_grid_sizes N M gL gR HN HM) as (HW & _ & Eslab & _).
    fold g0 slab in Eslab. rewrite Eslab.
    pose proof (horner_range M mid 0 HM HF) as HR.
    rewrite Hmid in HR. replace (Z.of_nat (N - 2)) with (Z.of_nat N - 2) in HR by lia.
    pose proof (half_plus_one M HM) as Hh.
    assert (Hpad : cl < 2 * (M ÷ 2 + 1)).
    { pose proof (Z.quot_rem M 2 ltac:(lia)) as E.
      pose proof (Z.rem_bound_pos M 2 ltac:(lia) ltac:(lia)) as B. lia. }
    unfold index.
    set (R := fold_left (fun acc c => acc * M + c) mid 0) in *.
    set (W := M ^ (Z.of_nat N - 2)) in *.
    assert (0 <= R) by lia. assert (R + 1 <= W) by lia.
    assert ((R + 1) * (2 * (M ÷ 2 + 1)) <= W * (2 * (M ÷ 2 + 1)))
      by (apply Z.mul_le_mono_nonneg_r; lia).
    split; nia.
Qed.

(** [add_contribution_from_extra_slices], built without MPI, cell by cell,
    on a grid of the constructor that fits in [int], with ghost widths of
    at most the [M] owned slabs: no [int] of the reduction, which narrows
    the size of a slice to [int], or of the index that [get_real] computes
    overflows; an owned cell of one of the first [gR] slabs
    receives what its image in the right ghost slabs holds, plus 1; an
    owned cell of one of the last [gL] slabs what its image in the left
    ghost slabs holds, plus 1 (the [+1] undoes the [-1] of the pre-fill of
    the ghost cell); a cell of both receives both, and the other owned
    cells keep their value. *)
Theorem reduction_folds_ghost_cells flags N M gL gR m coord :
  (2 <= N)%nat -> 1 <= M -> 0 <= gL <= M -> 0 <= gR <= M ->
  grid_fits_int N (FFTWGrid_new N M gL gR) ->
  List.length coord = N -> (forall k, (k < N)%nat -> 0 <= at_ coord k < M) ->
  let g := with_memory (FFTWGrid_new N M gL gR) m in
  let g' := add_contribution_from_extra_slices g in
  let c0 := at_ coord 0 in
  real_grid_in_int N g
  /\ exists own,
    get_real flags N g coord = Ok own
    /\ (gR <= c0 < M - gL -> get_real flags N g' coord = Ok own)
    /\ (c0 < gR -> exists right,
          get_real flags N g (c0 + M :: tl coord) = Ok right
          /\ (c0 < M - gL -> get_real flags N g' coord = Ok (own + (right + 1))%Q)
          /\ (M - gL <= c0 -> exists left,
                get_real flags N g (c0 - M :: tl coord) = Ok left
                /\ get_real flags N g' coord = Ok (own + (right + 1) + (left + 1))%Q))
    /\ (M - gL <= c0 -> gR <= c0 -> exists left,
          get_real flags N g (c0 - M :: tl coord) = Ok left
          /\ get_real flags N g' coord = Ok (own + (left + 1))%Q).
Proof.
  intros HN HM HgL HgR Hfit Hlen Hk g g' c0. subst g g' c0.
  split; [apply new_grid_in_int; assumption|].
  set (g0 := FFTWGrid_new N M gL gR).
  destruct (new_grid_sizes N M gL gR HN HM) as (HW & EV & Eslab & _ & _ & Hslab).
  fold g0 in Eslab, Hslab.
  destruct (reduction_memory (with_memory g0 m) m Hslab
              ltac:(change (n_extra_x_slices_left (with_memory g0 m)) with gL;
                    change (Local_nx (with_memory g0 m)) with M; lia)
              ltac:(change (n_extra_x_slices_right (with_memory g0 m)) with gR;
                    change (Local_nx (with_memory g0 m)) with M; lia))
    as (m' & Ered & Hm').
  cbv zeta in Hm'.
  change (NmeshTotRealSlice (with_memory g0 m)) with (NmeshTotRealSlice g0) in Hm'.
  change (n_extra_x_slices_left (with_memory g0 m)) with gL in Hm'.
  change (n_extra_x_slices_right (with_memory g0 m)) with gR in Hm'.
  change (Local_nx (with_memory g0 m)) with M in Hm'.
  change (with_memory (with_memory g0 m) m) with (with_memory g0 m) in Ered.
  rewrite Ered. change (with_memory (with_memory g0 m) m') with (with_memory g0 m').
  destruct (coord_split N coord Hlen HN) as (c0 & mid & cl & -> & Hmid).
  destruct (coord_bounds_split N c0 mid cl M Hmid HN ltac:(intros k Hk'; apply Hk; lia))
    as [HF Hcl].
  pose proof (Hk 0%nat ltac:(lia)) as Hc0. change (at_ (c0 :: mid ++ [cl]) 0) with c0 in *.
  cbn [tl].
  set (slab := NmeshTotRealSlice g0) in *.
  set (index := fold_left (fun acc c => acc * M + c) mid 0 * (2 * (M ÷ 2 + 1)) + cl).
  assert (Hread : forall mm c0', - gL <= c0' < M + gR ->
            get_real flags N (with_memory g0 mm) (c0' :: mid ++ [cl])
            = Ok (mm (slab * gL + index + c0' * slab))).
  { intros mm c0' Hc0'.
    exact (proj1 (get_real_of_slab flags N M gL gR mm c0' mid cl HN HM Hmid Hc0' HF Hcl)). }
  pose proof (proj2 (get_real_of_slab flags N M gL gR m c0 mid cl HN HM Hmid
                       ltac:(lia) HF Hcl)) as Hindex.
  cbv zeta in Hindex. fold g0 slab index in Hindex.
  assert (P0 : 0 <= c0 * slab <= (M - 1) * slab) by nia.
  assert (PL : 0 <= slab * gL <= slab * M) by nia.
  assert (PR : 0 <= slab * gR <= slab * M) by nia.
  exists (m (slab * gL + index + c0 * slab)).
  split; [apply Hread; lia|].
  rewrite (Hread m' c0) by lia. rewrite Hm'.
  replace (slab * gL + index + c0 * slab + slab * M)
    with (slab * gL + index + (c0 + M) * slab) by ring.
  replace (slab * gL + index + c0 * slab - slab * M)
    with (slab * gL + index + (c0 - M) * slab) by ring.
  rewrite (andb_range_out (slab * gL) (slab * gL + slab * gR)
             (slab * gL + index + (c0 - M) * slab)) by nia.
  split; [|split].
  - intros H. rewrite andb_range_out by nia. rewrite andb_range_out by nia. reflexivity.
  - intros H. eexists. split; [apply Hread; lia|]. split.
    + intros H'. rewrite andb_range_out by nia. rewrite andb_range by nia. reflexivity.
    + intros H'. eexists. split; [apply Hread; lia|].
      rewrite andb_range by nia. rewrite andb_range by nia. reflexivity.
  - intros H H'. eexists. split; [apply Hread; lia|].
    rewrite andb_range by nia. rewrite andb_range_out by nia. reflexivity.
Qed.

Lemma reduction_folds_ghost_cells_witness :
  let g := with_memory (FFTWGrid_new 2 4 1 2) (fun a => inject_Z a) in
  let g' := add_contribution_from_extra_slices g in
  real_grid_in_int 2 g
  /\ exists own right,
    get_real default_flags 2 g [1; 3] = Ok own
    /\ get_real default_flags 2 g [5; 3] = Ok right
    /\ get_real default_flags 2 g' [1; 3] = Ok (own + (right + 1))%Q.
Proof.
  intros g g'.
  assert (Hk : forall k, (k < 2)%nat -> 0 <= at_ [1; 3] k < 4).
  { intros k Hk. destruct k as [|[|k]]; try lia; vm_compute; split; congruence. }
  destruct (reduction_folds_ghost_cells default_flags 2 4 1 2 (fun a => inject_Z a) [1; 3]
              ltac:(lia) ltac:(lia) ltac:(lia) ltac:(lia)
              ltac:(vm_compute; repeat split; discriminate) eq_refl Hk)
    as (Hint & own & Hown & _ & H & _).
  split; [exact Hint|].
  destruct (H ltac:(vm_compute; reflexivity)) as (right & Hr & H' & _).
  exists own, right. split; [exact Hown|]. split; [exact Hr|].
  apply H'. vm_compute. reflexivity.
Defined.

(** * Instances *)

(** [ngp_weight_of_a_particle] in two dimensions: at the distances
    (1/4, 1/2) the particle lies in the left half of its cell on both axes
    and the weight is 1; at the distances (1/4, 3/4) it lies in the right
    half on the second axis and the weight is 0. *)
Lemma ngp_weight_of_a_particle_witness :
  let left := [(1#4)%Q; (1#2)%Q] in
  let right := [(1#4)%Q; (3#4)%Q] in
  (sum_of_weights default_flags 2 1 [0%Z; 2%Z] left (stencil_start default_flags 2 1 left) == 1)%Q
  /\ (sum_of_weights default_flags 2 1 [0%Z; 2%Z] right (stencil_start default_flags 2 1 right)
      == 0)%Q.
Proof.
  intros left right.
  assert (Hl : forall idim, (idim < 2)%nat -> (0 <= INTERPOLATION.qat left idim < 1)%Q).
  { intros idim Hi. destruct idim as [|[|idim]]; [vm_compute; split; congruence .. | lia]. }
  assert (Hr : forall idim, (idim < 2)%nat -> (0 <= INTERPOLATION.qat right idim < 1)%Q).
  { intros idim Hi. destruct idim as [|[|idim]]; [vm_compute; split; congruence .. | lia]. }
  split.
  - destruct (ngp_weight_of_a_particle default_flags 2 [0; 2] left eq_refl Hl) as [H _].
    apply H. intros idim Hi.
    destruct idim as [|[|idim]]; [vm_compute; congruence .. | lia].
  - destruct (ngp_weight_of_a_particle default_flags 2 [0; 2] right eq_refl Hr) as [_ H].
    apply H. exists 1%nat. split; [lia | vm_compute; reflexivity].
Defined.

(** [add_all_holds] on three particles of masses 1, 2 and 1/2 in two
    dimensions. *)
Lemma add_all_holds_witness :
  let ps := [FOF.mkParticle [(1#10)%Q; (1#2)%Q] None None;
             FOF.mkParticle [(3#10)%Q; (1#4)%Q] None (Some 2%Q);
             FOF.mkParticle [(9#10)%Q; 0%Q] None (Some (1#2)%Q)] in
  let h' := FOF.add_all 2 (FOF.FoFHalo_new 7 false [] []) ps false in
  FOF.np h' = 3%nat
  /\ (FOF.mass h' == FOF.total_mass ps)%Q
  /\ forall idim, (idim < 2)%nat ->
       (FOF.qat (FOF.pos h') idim == FOF.mass_weighted_sum idim ps / FOF.total_mass ps)%Q.
Proof.
  intros ps.
  apply (add_all_holds 2 (FOF.FoFHalo_new 7 false [] []) ps).
  - reflexivity.
  - repeat constructor.
  - discriminate.
Defined.

(** * Further properties of the halos *)

(** ** Periodic boxes *)

Lemma minimum_image_range d :
  (- (1) < d < 1)%Q -> (- (1#2) <= FOF.minimum_image true d < 1#2)%Q.
Proof.
  intros Hd. unfold FOF.minimum_image.
  destruct (Qltb d (- (1 # 2))) eqn:E1.
  - apply Qltb_lt in E1.
    destruct (Qle_bool (1 # 2) (d + 1)) eqn:E2.
    + apply Qle_bool_iff in E2. lra.
    + apply Qle_bool_gt in E2. lra.
  - apply Qltb_ge in E1.
    destruct (Qle_bool (1 # 2) d) eqn:E2.
    + apply Qle_bool_iff in E2. lra.
    + apply Qle_bool_gt in E2. lra.
Qed.

Lemma wrap_position_range p :
  (- (1) <= p < 2)%Q -> (0 <= FOF.wrap_position true p < 1)%Q.
Proof.
  intros Hp. unfold FOF.wrap_position.
  destruct (Qltb p 0) eqn:E1.
  - apply Qltb_lt in E1.
    destruct (Qle_bool 1 (p + 1)) eqn:E2.
    + apply Qle_bool_iff in E2. lra.
    + apply Qle_bool_gt in E2. lra.
  - apply Qltb_ge in E1.
    destruct (Qle_bool 1 p) eqn:E2.
    + apply Qle_bool_iff in E2. lra.
    + apply Qle_bool_gt in E2. lra.
Qed.

(** A step of at most half a box, weighted by a share of the mass. *)
Lemma weighted_step_range d m1 m2 :
  (- (1#2) <= d < 1#2)%Q -> (0 <= m1)%Q -> (0 < m2)%Q ->
  (- (1#2) <= d * m2 / (m1 + m2) <= 1#2)%Q.
Proof.
  intros Hd H1 H2.
  assert (P : (0 < m1 + m2)%Q) by lra.
  split.
  - apply Qle_shift_div_l; [exact P|]. nra.
  - apply Qle_shift_div_r; [exact P|]. nra.
Qed.

(** In a periodic box the centre of a halo stays in [[0,1)^NDIM]: [add] of
    a particle of the box, of positive mass, to a halo that is empty or has
    its centre in the box gives a halo of positive mass with its centre in
    the box. *)
Theorem add_keeps_centre_in_box NDIM h particle :
  (0 < FOF.GetMass particle)%Q ->
  (FOF.np h <> 0%nat ->
   (0 <= FOF.mass h)%Q
   /\ forall idim, (idim < NDIM)%nat -> (0 <= FOF.qat (FOF.pos h) idim < 1)%Q) ->
  (forall idim, (idim < NDIM)%nat -> (0 <= FOF.qat (FOF.GetPos particle) idim < 1)%Q) ->
  let h' := FOF.add NDIM h particle true in
  FOF.np h' <> 0%nat
  /\ (0 < FOF.mass h')%Q
  /\ forall idim, (idim < NDIM)%nat -> (0 <= FOF.qat (FOF.pos h') idim < 1)%Q.
Proof.
  intros Hm Hh Hp h'. subst h'. unfold FOF.add.
  destruct (FOF.np h =? 0)%nat eqn:E.
  - destruct (FOF.get_vel particle);
      (cbn [FOF.np FOF.mass FOF.pos]; split; [discriminate|]; split; [lra|];
       intros idim Hi; rewrite fof_qat_map_seq by exact Hi; rewrite fof_qat_zeros;
       specialize (Hp idim Hi);
       pose proof (minimum_image_range (FOF.qat (FOF.GetPos particle) idim - 0) ltac:(lra)) as D;
       pose proof (weighted_step_range _ 0 (FOF.GetMass particle) D ltac:(lra) Hm) as W;
       apply wrap_position_range; lra).
  - apply Nat.eqb_neq in E. destruct (Hh E) as [Hmass Hpos].
    destruct (FOF.get_vel particle);
      (cbn [FOF.np FOF.mass FOF.pos]; split; [discriminate|]; split; [lra|];
       intros idim Hi; rewrite fof_qat_map_seq by exact Hi;
       specialize (Hp idim Hi); specialize (Hpos idim Hi);
       pose proof (minimum_image_range
                     (FOF.qat (FOF.GetPos particle) idim - FOF.qat (FOF.pos h) idim)
                     ltac:(lra)) as D;
       pose proof (weighted_step_range _ (FOF.mass h) (FOF.GetMass particle) D Hmass Hm) as W;
       apply wrap_position_range; lra).
Qed.

Lemma add_keeps_centre_in_box_witness :
  let h := FOF.add 2 (FOF.FoFHalo_new 0 false [] []) (FOF.mkParticle [(1#10)%Q; (9#10)%Q] None None) true in
  let particle := FOF.mkParticle [(9#10)%Q; (1#10)%Q] None (Some 3%Q) in
  let h' := FOF.add 2 h particle true in
  FOF.np h' <> 0%nat
  /\ (0 < FOF.mass h')%Q
  /\ forall idim, (idim < 2)%nat -> (0 <= FOF.qat (FOF.pos h') idim < 1)%Q.
Proof.
  intros h particle.
  apply (add_keeps_centre_in_box 2 h particle).
  - reflexivity.
  - intros _. split; [vm_compute; congruence|].
    intros idim Hi. destruct idim as [|[|idim]]; [vm_compute; split; congruence .. | lia].
  - intros idim Hi. destruct idim as [|[|idim]]; [vm_compute; split; congruence .. | lia].
Defined.

(** The same for [merge] of two halos that are not empty, the second of
    positive mass: the merged centre stays in the box. *)
Theorem merge_keeps_centre_in_box NDIM h g :
  FOF.np h <> 0%nat -> FOF.np g <> 0%nat ->
  (0 <= FOF.mass h)%Q -> (0 < FOF.mass g)%Q ->
  (forall idim, (idim < NDIM)%nat -> (0 <= FOF.qat (FOF.pos h) idim < 1)%Q) ->
  (forall idim, (idim < NDIM)%nat -> (0 <= FOF.qat (FOF.pos g) idim < 1)%Q) ->
  exists h' g',
    FOF.merge NDIM h g true = Ok (h', g')
    /\ forall idim, (idim < NDIM)%nat -> (0 <= FOF.qat (FOF.pos h') idim < 1)%Q.
Proof.
  intros Hh Hg Hmh Hmg Hph Hpg. unfold FOF.merge.
  apply Nat.eqb_neq in Hh, Hg. rewrite Hh, Hg. cbn [bind].
  eexists. eexists. split; [reflexivity|].
  intros idim Hi. cbn [FOF.pos]. rewrite fof_qat_map_seq by exact Hi.
  specialize (Hph idim Hi). specialize (Hpg idim Hi).
  pose proof (minimum_image_range (FOF.qat (FOF.pos g) idim - FOF.qat (FOF.pos h) idim)
                ltac:(lra)) as D.
  pose proof (weighted_step_range _ (FOF.mass h) (FOF.mass g) D Hmh Hmg) as W.
  apply wrap_position_range. lra.
Qed.

Lemma merge_keeps_centre_in_box_witness :
  let h := FOF.add 1 (FOF.FoFHalo_new 0 false [] []) (FOF.mkParticle [(1#20)%Q] None None) true in
  let g := FOF.add 1 (FOF.FoFHalo_new 1 false [] []) (FOF.mkParticle [(19#20)%Q] None None) true in
  exists h' g',
    FOF.merge 1 h g true = Ok (h', g')
    /\ forall idim, (idim < 1)%nat -> (0 <= FOF.qat (FOF.pos h') idim < 1)%Q.
Proof.
  intros h g.
  apply (merge_keeps_centre_in_box 1 h g).
  - discriminate.
  - discriminate.
  - vm_compute; congruence.
  - reflexivity.
  - intros idim Hi. destruct idim as [|idim]; [vm_compute; split; congruence | lia].
  - intros idim Hi. destruct idim as [|idim]; [vm_compute; split; congruence | lia].
Defined.

(** ** The first particle of a halo *)

Lemma first_position_periodic x m :
  (0 <= x < 1)%Q -> (0 < m)%Q ->
  (FOF.wrap_position true (0 + FOF.minimum_image true (x - 0) * m / (0 + m)) == x)%Q.
Proof.
  intros Hx Hm.
  assert (E : forall d, (0 + d * m / (0 + m) == d)%Q) by (intros d; field; lra).
  unfold FOF.minimum_image.
  destruct (Qltb (x - 0) (- (1 # 2))) eqn:E1; [apply Qltb_lt in E1; lra|].
  destruct (Qle_bool (1 # 2) (x - 0)) eqn:E2.
  - apply Qle_bool_iff in E2. pose proof (E (x - 0 - 1)%Q) as Ep.
    set (p := (0 + (x - 0 - 1) * m / (0 + m))%Q) in *.
    unfold FOF.wrap_position.
    destruct (Qltb p 0) eqn:E3; [|apply Qltb_ge in E3; lra].
    destruct (Qle_bool 1 (p + 1)) eqn:E4; [apply Qle_bool_iff in E4; lra|]. lra.
  - apply Qle_bool_gt in E2. pose proof (E (x - 0)%Q) as Ep.
    set (p := (0 + (x - 0) * m / (0 + m))%Q) in *.
    unfold FOF.wrap_position.
    destruct (Qltb p 0) eqn:E3; [apply Qltb_lt in E3; lra|].
    destruct (Qle_bool 1 p) eqn:E4; [apply Qle_bool_iff in E4; lra|]. lra.
Qed.

(** [add] of a particle of positive mass to an empty halo: whatever the
    halo held in its arrays, which the constructor leaves without a value,
    it becomes the halo of the one particle, with its mass, its position
    and, when the particle has one, its velocity; in a periodic box for a
    particle of the box.  (The mass divides the weighted sums: a particle of
    mass 0 is outside the statement.) *)
Theorem add_to_empty_halo NDIM h particle periodic :
  FOF.np h = 0%nat -> (0 < FOF.GetMass particle)%Q ->
  (periodic = true ->
   forall idim, (idim < NDIM)%nat -> (0 <= FOF.qat (FOF.GetPos particle) idim < 1)%Q) ->
  let h' := FOF.add NDIM h particle periodic in
  FOF.np h' = 1%nat
  /\ (FOF.mass h' == FOF.GetMass particle)%Q
  /\ FOF.id h' = FOF.id h
  /\ (forall idim, (idim < NDIM)%nat ->
        (FOF.qat (FOF.pos h') idim == FOF.qat (FOF.GetPos particle) idim)%Q)
  /\ (forall v, FOF.get_vel particle = Some v ->
        forall idim, (idim < NDIM)%nat -> (FOF.qat (FOF.vel h') idim == FOF.qat v idim)%Q).
Proof.
  intros Hn Hm Hp h'. subst h'. unfold FOF.add. rewrite Hn. cbn [Nat.eqb].
  assert (Hpos : forall idim, (idim < NDIM)%nat ->
            (FOF.wrap_position periodic
               (0 + FOF.minimum_image periodic (FOF.qat (FOF.GetPos particle) idim - 0)
                    * FOF.GetMass particle / (0 + FOF.GetMass particle))
             == FOF.qat (FOF.GetPos particle) idim)%Q).
  { intros idim Hi. destruct periodic.
    - apply first_position_periodic; [apply Hp; [reflexivity | exact Hi] | exact Hm].
    - unfold FOF.wrap_position, FOF.minimum_image. field. lra. }
  destruct (FOF.get_vel particle) as [v|] eqn:Ev;
    cbn [FOF.np FOF.mass FOF.pos FOF.vel FOF.id].
  - split; [reflexivity|]. split; [ring|]. split; [reflexivity|]. split.
    + intros idim Hi. rewrite fof_qat_map_seq by exact Hi. rewrite fof_qat_zeros.
      apply Hpos. exact Hi.
    + intros v' Hv idim Hi. injection Hv as <-.
      rewrite fof_qat_map_seq by exact Hi. rewrite fof_qat_zeros. field. lra.
  - split; [reflexivity|]. split; [ring|]. split; [reflexivity|]. split.
    + intros idim Hi. rewrite fof_qat_map_seq by exact Hi. rewrite fof_qat_zeros.
      apply Hpos. exact Hi.
    + intros v' Hv. discriminate Hv.
Qed.

Lemma add_to_empty_halo_witness :
  let h := FOF.FoFHalo_new 5 true [(7#1)%Q; (- (3))%Q] [(100#1)%Q] in
  let particle := FOF.mkParticle [(3#4)%Q; (1#8)%Q] (Some [(2#1)%Q; (- (1))%Q]) (Some (5#2)%Q) in
  let h' := FOF.add 2 h particle true in
  FOF.np h' = 1%nat
  /\ (FOF.mass h' == 5#2)%Q
  /\ (forall idim, (idim < 2)%nat ->
        (FOF.qat (FOF.pos h') idim == FOF.qat [(3#4)%Q; (1#8)%Q] idim)%Q).
Proof.
  intros h particle.
  destruct (add_to_empty_halo 2 h particle true eq_refl eq_refl) as (H1 & H2 & _ & H3 & _).
  - intros _ idim Hi. destruct idim as [|[|idim]]; [vm_compute; split; congruence .. | lia].
  - split; [exact H1|]. split; [exact H2 | exact H3].
Defined.

(** ** The velocity of a halo *)

Lemma velocity_sum_app idim ps qs :
  (mass_weighted_velocity_sum idim (ps ++ qs)
   == mass_weighted_velocity_sum idim ps + mass_weighted_velocity_sum idim qs)%Q.
Proof.
  induction ps as [|p ps IH]; cbn [app].
  - unfold mass_weighted_velocity_sum at 2. cbn [fold_right]. ring.
  - unfold mass_weighted_velocity_sum in *. cbn [fold_right]. rewrite IH. ring.
Qed.

Lemma total_mass_pos ps :
  Forall (fun p => (0 < FOF.GetMass p)%Q) ps -> ps <> [] -> (0 < FOF.total_mass ps)%Q.
Proof.
  intros H Hne. destruct H as [|p ps Hp Hps]; [congruence|].
  pose proof (total_mass_nonneg ps Hps) as Hn.
  unfold FOF.total_mass in *. cbn [fold_right]. lra.
Qed.

(** One [add] of a particle that has a velocity, on the mass and the
    velocity. *)
Lemma add_velocity NDIM h ps p periodic :
  Forall (fun p => (0 < FOF.GetMass p)%Q) ps -> (0 < FOF.GetMass p)%Q ->
  FOF.get_vel p <> None ->
  FOF.np h = List.length ps ->
  (ps <> [] ->
   (FOF.mass h == FOF.total_mass ps)%Q
   /\ forall idim, (idim < NDIM)%nat ->
        (FOF.qat (FOF.vel h) idim * FOF.mass h == mass_weighted_velocity_sum idim ps)%Q) ->
  let h' := FOF.add NDIM h p periodic in
  FOF.np h' = List.length (ps ++ [p])
  /\ (FOF.mass h' == FOF.total_mass (ps ++ [p]))%Q
  /\ forall idim, (idim < NDIM)%nat ->
       (FOF.qat (FOF.vel h') idim * FOF.mass h'
        == mass_weighted_velocity_sum idim (ps ++ [p]))%Q.
Proof.
  intros Hps Hp Hv Hn Hinv h'. subst h'.
  assert (T1 : (FOF.total_mass [p] == FOF.GetMass p)%Q)
    by (unfold FOF.total_mass; cbn [fold_right]; ring).
  assert (V1 : forall idim, (mass_weighted_velocity_sum idim [p]
                             == FOF.GetMass p * FOF.qat (velocity_of p) idim)%Q)
    by (intros idim; unfold mass_weighted_velocity_sum; cbn [fold_right]; ring).
  unfold FOF.add.
  destruct (FOF.get_vel p) as [v|] eqn:Ev; [|congruence].
  assert (Evel : velocity_of p = v) by (unfold velocity_of; rewrite Ev; reflexivity).
  destruct (FOF.np h =? 0)%nat eqn:E.
  - apply Nat.eqb_eq in E. rewrite E in Hn. destruct ps as [|? ?]; [|discriminate Hn].
    cbn [app FOF.np FOF.mass FOF.vel].
    split; [rewrite E; reflexivity|]. split; [rewrite T1; ring|].
    intros idim Hi. rewrite fof_qat_map_seq by exact Hi. rewrite fof_qat_zeros.
    rewrite V1, Evel. field. lra.
  - apply Nat.eqb_neq in E.
    assert (Hne : ps <> []) by (intros ->; cbn in Hn; lia).
    destruct (Hinv Hne) as [Hm Hvel].
    pose proof (total_mass_pos ps Hps Hne) as Hpos.
    cbn [FOF.np FOF.mass FOF.vel].
    split; [rewrite Hn, length_app; cbn [List.length]; lia|].
    split; [rewrite total_mass_app, T1, Hm; ring|].
    intros idim Hi. rewrite fof_qat_map_seq by exact Hi.
    rewrite velocity_sum_app, V1, Evel, <- (Hvel idim Hi). field. rewrite Hm. lra.
Qed.

(** The velocity of a halo built by [add] from particles that have a
    velocity is their mass-weighted mean velocity, in a periodic box or
    not: the velocity times the sum of the masses is the mass-weighted sum
    of the velocities. *)
Theorem add_all_velocity NDIM h ps periodic :
  FOF.np h = 0%nat -> ps <> [] ->
  Forall (fun p => (0 < FOF.GetMass p)%Q) ps ->
  Forall (fun p => FOF.get_vel p <> None) ps ->
  let h' := FOF.add_all NDIM h ps periodic in
  (FOF.mass h' == FOF.total_mass ps)%Q
  /\ forall idim, (idim < NDIM)%nat ->
       (FOF.qat (FOF.vel h') idim * FOF.total_mass ps
        == mass_weighted_velocity_sum idim ps)%Q.
Proof.
  intros Hnp Hne Hps Hvs h'.
  assert (G : forall qs done h0,
             Forall (fun p => (0 < FOF.GetMass p)%Q) (done ++ qs) ->
             Forall (fun p => FOF.get_vel p <> None) qs ->
             FOF.np h0 = List.length done ->
             (done <> [] ->
              (FOF.mass h0 == FOF.total_mass done)%Q
              /\ forall idim, (idim < NDIM)%nat ->
                   (FOF.qat (FOF.vel h0) idim * FOF.mass h0
                    == mass_weighted_velocity_sum idim done)%Q) ->
             let h1 := FOF.add_all NDIM h0 qs periodic in
             FOF.np h1 = List.length (done ++ qs)
             /\ (done ++ qs <> [] ->
                 (FOF.mass h1 == FOF.total_mass (done ++ qs))%Q
                 /\ forall idim, (idim < NDIM)%nat ->
                      (FOF.qat (FOF.vel h1) idim * FOF.mass h1
                       == mass_weighted_velocity_sum idim (done ++ qs))%Q)).
  { induction qs as [|q qs IH]; intros done h0 HF HV Hn Hinv.
    - rewrite app_nil_r. split; [exact Hn | exact Hinv].
    - unfold FOF.add_all. cbn [fold_left]. fold (FOF.add_all NDIM (FOF.add NDIM h0 q periodic) qs periodic).
      replace (done ++ q :: qs) with ((done ++ [q]) ++ qs) in * by (rewrite <- app_assoc; reflexivity).
      inversion HV as [|? ? Hq HV']; subst.
      apply Forall_app in HF. destruct HF as [HF1 HF2].
      apply Forall_app in HF1. destruct HF1 as [Hd Hq1].
      inversion Hq1 as [|? ? Hq1' _]; subst.
      destruct (add_velocity NDIM h0 done q periodic Hd Hq1' Hq Hn Hinv) as (A1 & A2 & A3).
      apply IH.
      + apply Forall_app. split; [apply Forall_app; split; assumption | exact HF2].
      + exact HV'.
      + exact A1.
      + intros _. split; [exact A2 | exact A3]. }
  destruct (G ps [] h ltac:(exact Hps) Hvs Hnp ltac:(congruence)) as [_ H].
  cbn [app] in H. destruct (H Hne) as [Hm Hv]. fold h' in Hm, Hv.
  split; [exact Hm|]. intros idim Hi. rewrite <- Hm. apply Hv. exact Hi.
Qed.

Lemma add_all_velocity_witness :
  let ps := [FOF.mkParticle [(1#10)%Q] (Some [(2#1)%Q]) None;
             FOF.mkParticle [(9#10)%Q] (Some [(- (4))%Q]) (Some 3%Q)] in
  let h' := FOF.add_all 1 (FOF.FoFHalo_new 0 false [] []) ps true in
  (FOF.mass h' == FOF.total_mass ps)%Q
  /\ forall idim, (idim < 1)%nat ->
       (FOF.qat (FOF.vel h') idim * FOF.total_mass ps
        == mass_weighted_velocity_sum idim ps)%Q.
Proof.
  intros ps.
  apply (add_all_velocity 1 (FOF.FoFHalo_new 0 false [] []) ps true).
  - reflexivity.
  - discriminate.
  - repeat constructor.
  - repeat constructor; discriminate.
Defined.

(** ** Merging two halos *)

(** [merge] of two halos built from the particles [ps] and [qs], not
    periodic: the merged halo counts the particles of both and sits at the
    centre of mass of all of them; the halo taken in is left empty, and a
    second [merge] of the two changes nothing. *)
Theorem merge_joins_halos NDIM h g ps qs :
  ps <> [] -> qs <> [] ->
  Forall (fun p => (0 < FOF.GetMass p)%Q) ps ->
  Forall (fun p => (0 < FOF.GetMass p)%Q) qs ->
  halo_holds NDIM h ps -> halo_holds NDIM g qs ->
  exists h' g',
    FOF.merge NDIM h g false = Ok (h', g')
    /\ FOF.np h' = List.length (ps ++ qs)
    /\ (forall idim, (idim < NDIM)%nat ->
          (FOF.qat (FOF.pos h') idim * FOF.total_mass (ps ++ qs)
           == FOF.mass_weighted_sum idim (ps ++ qs))%Q)
    /\ FOF.np g' = 0%nat
    /\ FOF.merge NDIM h' g' false = Ok (h', g').
Proof.
  intros Hps Hqs HFp HFq (Hn & Hm & Hc) (Hn' & Hm' & Hc').
  pose proof (total_mass_pos ps HFp Hps) as P1.
  pose proof (total_mass_pos qs HFq Hqs) as P2.
  unfold FOF.merge at 1.
  replace (FOF.np g =? 0)%nat with false
    by (symmetry; apply Nat.eqb_neq; rewrite Hn'; destruct qs; [congruence | discriminate]).
  replace (FOF.np h =? 0)%nat with false
    by (symmetry; apply Nat.eqb_neq; rewrite Hn; destruct ps; [congruence | discriminate]).
  cbn [bind]. eexists. eexists. split; [reflexivity|].
  cbn [FOF.np FOF.pos]. split; [rewrite length_app; congruence|]. split; [|split].
  - intros idim Hi. rewrite fof_qat_map_seq by exact Hi.
    rewrite total_mass_app, mass_weighted_sum_app, <- (Hc idim Hi), <- (Hc' idim Hi).
    unfold FOF.minimum_image, FOF.wrap_position. rewrite <- Hm, <- Hm'.
    field. rewrite Hm, Hm'. lra.
  - reflexivity.
  - reflexivity.
Qed.

Lemma merge_joins_halos_witness :
  let ps := [FOF.mkParticle [0%Q; (1#2)%Q] None None;
             FOF.mkParticle [(2#5)%Q; (1#4)%Q] None (Some 2%Q)] in
  let qs := [FOF.mkParticle [(4#5)%Q; 0%Q] None (Some 3%Q)] in
  let h := FOF.add_all 2 (FOF.FoFHalo_new 0 false [] []) ps false in
  let g := FOF.add_all 2 (FOF.FoFHalo_new 1 false [] []) qs false in
  exists h' g',
    FOF.merge 2 h g false = Ok (h', g')
    /\ FOF.np h' = 3%nat
    /\ (forall idim, (idim < 2)%nat ->
          (FOF.qat (FOF.pos h') idim * FOF.total_mass (ps ++ qs)
           == FOF.mass_weighted_sum idim (ps ++ qs))%Q).
Proof.
  intros ps qs h g.
  assert (Hh : halo_holds 2 h ps).
  { split; [reflexivity|]. split; [vm_compute; reflexivity|].
    intros idim Hi. destruct idim as [|[|idim]]; [vm_compute; reflexivity .. | lia]. }
  assert (Hg : halo_holds 2 g qs).
  { split; [reflexivity|]. split; [vm_compute; reflexivity|].
    intros idim Hi. destruct idim as [|[|idim]]; [vm_compute; reflexivity .. | lia]. }
  destruct (merge_joins_halos 2 h g ps qs) as (h' & g' & E & Hn & Hc & _);
    [discriminate | discriminate | repeat constructor | repeat constructor
     | exact Hh | exact Hg |].
  exists h', g'. split; [exact E|]. split; [exact Hn | exact Hc].
Defined.

(** * Further properties of the FFT driver *)

(** The loop of the normalisation: every Fourier cell of the range is
    multiplied once. *)
Lemma scale_loop g norm len m :
  exists m',
    fold_left (fun g index => scale_fourier_cell g index norm) (zseq 0 len) (with_memory g m)
    = with_memory g m'
    /\ forall a,
         m' a = if (2 * get_fourier_grid g <=? a)
                   && (a <? 2 * get_fourier_grid g + 2 * Z.of_nat len)
                then (m a * norm)%Q else m a.
Proof.
  induction len as [|len IH].
  - exists m. split; [reflexivity|]. intros a. rewrite andb_range_out by lia. reflexivity.
  - destruct IH as (m1 & E1 & H1).
    rewrite zseq_S, fold_left_app, E1. cbn [fold_left].
    unfold scale_fourier_cell.
    change (get_fourier_grid (with_memory g m1)) with (get_fourier_grid g).
    change (fourier_grid_raw (with_memory g m1)) with m1.
    eexists. split; [reflexivity|].
    intros a. unfold store. rewrite !H1. rewrite Z.add_0_l.
    set (c0 := get_fourier_grid g).
    destruct (Z.eqb_spec a (2 * (c0 + Z.of_nat len) + 1)) as [-> | Him].
    + rewrite andb_range_out by lia. rewrite andb_range by lia. reflexivity.
    + destruct (Z.eqb_spec a (2 * (c0 + Z.of_nat len))) as [-> | Hre].
      * rewrite andb_range_out by lia. rewrite andb_range by lia. reflexivity.
      * destruct (Z_le_gt_dec (2 * c0) a) as [L1|L1];
          [destruct (Z_lt_ge_dec a (2 * c0 + 2 * Z.of_nat len)) as [L2|L2]|].
        -- rewrite !andb_range by lia. reflexivity.
        -- rewrite !andb_range_out by lia. reflexivity.
        -- rewrite !andb_range_out by lia. reflexivity.
Qed.

(** The cells that [restore_right] leaves as they are. *)
Lemma restore_right_frame g right_copy a :
  a < get_real_grid_right g ->
  fourier_grid_raw (restore_right g right_copy) a = fourier_grid_raw g a.
Proof.
  intros Ha.
  destruct (Z_gt_le_dec (n_extra_x_slices_right g) 0) as [H|H].
  - rewrite restore_right_memory by exact H.
    cbn [with_memory fourier_grid_raw]. rewrite fold_store_zseq.
    rewrite andb_range_out by lia. reflexivity.
  - unfold restore_right.
    replace (n_extra_x_slices_right g >? 0) with false
      by (symmetry; rewrite Z.gtb_ltb; apply Z.ltb_ge; lia).
    reflexivity.
Qed.

(** The normalisation convention of the driver: after [fftw_r2c] every
    Fourier cell of the main grid is what the engine has written there
    divided by [Nmesh^N], the real part and the imaginary part; [fftw_c2r]
    leaves the real cells of the main grid as the engine has written
    them. *)
Theorem fftw_r2c_normalises flags engine N g :
  USE_FFTW flags = true ->
  NmeshTotRealSlice g = 2 * NmeshTotComplexSlice g ->
  NmeshTotComplexSlice g = (Nmesh g ÷ 2 + 1) * power (Nmesh g) (Z.of_nat N - 2) ->
  0 <= Local_nx g ->
  let norm := (1 / inject_Z (Nmesh g ^ Z.of_nat N))%Q in
  (exists g',
     fftw_r2c flags engine N g = Ok g'
     /\ forall k, 0 <= k < NmeshTotComplexSlice g * Local_nx g ->
          let out := EXECUTE_r2c engine N (Nmesh g) (get_real_grid g) (fourier_grid_raw g) in
          get_fourier_from_index g' k
          = (Qmult (out (2 * (get_fourier_grid g + k))) norm,
             Qmult (out (2 * (get_fourier_grid g + k) + 1)) norm))
  /\
  (exists g',
     fftw_c2r flags engine N g = Ok g'
     /\ forall index, 0 <= index < NmeshTotRealSlice g * Local_nx g ->
          let out := EXECUTE_c2r engine N (Nmesh g) (get_real_grid g) (fourier_grid_raw g) in
          get_real_from_index g' index = out (get_real_grid g + index)).
Proof.
  intros Hf Hr Hc Hnx norm. subst norm. unfold fftw_r2c, fftw_c2r. rewrite Hf. split.
  - eexists. split; [reflexivity|]. intros k Hk. cbv zeta.
    set (out := EXECUTE_r2c engine N (Nmesh g) (get_real_grid g) (fourier_grid_raw g)).
    set (g1 := set_grid_status_real (with_memory g out) false).
    change (Nmesh (set_grid_status_real
                     (with_memory g (EXECUTE_r2c engine N (Nmesh g) (get_real_grid g)
                                       (fourier_grid_raw g))) false)) with (Nmesh g).
    fold out g1.
    unfold get_fourier_range.
    change (Nmesh g1) with (Nmesh g). change (Local_nx g1) with (Local_nx g).
    replace (power (Nmesh g) (Z.of_nat N - 2) * (Nmesh g ÷ 2 + 1) * Local_nx g)
      with (NmeshTotComplexSlice g * Local_nx g) by (rewrite Hc; ring).
    destruct (scale_loop g1 (1 / inject_Z (Nmesh g ^ Z.of_nat N))%Q (Z.to_nat (NmeshTotComplexSlice g * Local_nx g)) out)
      as (m' & E & Hm').
    change (with_memory g1 out) with g1 in E. rewrite E.
    unfold get_fourier_from_index, load_complex.
    destruct (restore_right_shape (with_memory g1 m') (save_right g)) as [m'' Em''].
    assert (Hfr : forall a, a < get_real_grid_right g ->
              fourier_grid_raw (restore_right (with_memory g1 m') (save_right g)) a = m' a).
    { intros a Ha. apply (restore_right_frame (with_memory g1 m')). exact Ha. }
    replace (NmeshTotComplexSlice (restore_right (with_memory g1 m') (save_right g)))
      with (NmeshTotComplexSlice g) by (rewrite Em''; reflexivity).
    replace (n_extra_x_slices_left (restore_right (with_memory g1 m') (save_right g)))
      with (n_extra_x_slices_left g) by (rewrite Em''; reflexivity).
    unfold get_fourier_grid in *. change (NmeshTotComplexSlice g1) with (NmeshTotComplexSlice g) in Hm'.
    change (n_extra_x_slices_left g1) with (n_extra_x_slices_left g) in Hm'.
    set (c0 := NmeshTotComplexSlice g * n_extra_x_slices_left g) in *.
    assert (Hright : get_real_grid_right g = 2 * c0 + 2 * (NmeshTotComplexSlice g * Local_nx g)).
    { unfold get_real_grid_right, get_real_grid_left, c0. rewrite Hr. ring. }
    rewrite !Hfr by lia. rewrite !Hm'. rewrite Z2Nat.id by nia.
    rewrite !andb_range by lia. reflexivity.
  - eexists. split; [reflexivity|]. intros index Hi. cbv zeta.
    set (out := EXECUTE_c2r engine N (Nmesh g) (get_real_grid g) (fourier_grid_raw g)).
    set (g1 := set_grid_status_real (with_memory g out) true).
    unfold get_real_from_index, real_cell_address.
    destruct (restore_right_shape g1 (save_right g)) as [m'' Em''].
    replace (NmeshTotRealSlice (restore_right g1 (save_right g)))
      with (NmeshTotRealSlice g) by (rewrite Em''; reflexivity).
    replace (n_extra_x_slices_left (restore_right g1 (save_right g)))
      with (n_extra_x_slices_left g) by (rewrite Em''; reflexivity).
    rewrite (restore_right_frame g1).
    + unfold get_real_grid, get_real_grid_left. rewrite Z.add_0_l. reflexivity.
    + change (get_real_grid_right g1) with (get_real_grid_right g).
      unfold get_real_grid_right, get_real_grid_left. lia.
Qed.

Lemma fftw_r2c_normalises_witness :
  let engine := mkFFTEngine (fun _ _ _ m a => (m a + 1)%Q) (fun _ _ _ m a => (2 * m a)%Q) in
  let g := with_memory (FFTWGrid_new 2 4 1 1) (fun a => inject_Z a) in
  exists g',
    fftw_r2c default_flags engine 2 g = Ok g'
    /\ get_fourier_from_index g' 5
       = (Qmult (inject_Z 16 + 1) (1 / inject_Z (4 ^ 2)),
          Qmult (inject_Z 17 + 1) (1 / inject_Z (4 ^ 2))).
Proof.
  intros engine g.
  destruct (fftw_r2c_normalises default_flags engine 2 g eq_refl eq_refl eq_refl
              ltac:(vm_compute; congruence)) as [(g' & E & H) _].
  exists g'. split; [exact E|].
  apply (H 5). vm_compute. split; congruence.
Defined.

(** * The example program of the halo finder *)

(** The scaling of the example brings a coordinate of the file into the
    unit box when it lies within one box length of the box, moved by a whole
    number of box lengths; a coordinate of two box lengths or more is moved
    by one period only and stays outside. *)
Theorem scale_to_unit_box_range box x :
  (0 < box)%Q ->
  let y := FOF_EXAMPLE.scale_to_unit_box box x in
  ((- box <= x < 2 * box)%Q ->
   (0 <= y < 1)%Q
   /\ ((y * box == x)%Q \/ (y * box == x + box)%Q \/ (y * box == x - box)%Q))
  /\ ((2 * box <= x)%Q -> (1 <= y)%Q).
Proof.
  intros Hb y. subst y. unfold FOF_EXAMPLE.scale_to_unit_box.
  assert (Hs : (x / box * box == x)%Q) by (field; lra).
  set (s := (x / box)%Q) in *.
  split.
  - intros Hx.
    assert (Hr : (- (1) <= s < 2)%Q) by (split; nra).
    destruct (Qltb s 0) eqn:E1.
    + apply Qltb_lt in E1.
      destruct (Qle_bool 1 (s + 1)) eqn:E2; [apply Qle_bool_iff in E2; lra|].
      split; [lra|]. right. left. nra.
    + apply Qltb_ge in E1.
      destruct (Qle_bool 1 s) eqn:E2.
      * apply Qle_bool_iff in E2. split; [lra|]. right. right. nra.
      * apply Qle_bool_gt in E2. split; [lra|]. left. exact Hs.
  - intros Hx.
    assert (Hr : (2 <= s)%Q) by nra.
    destruct (Qltb s 0) eqn:E1; [apply Qltb_lt in E1; lra|].
    destruct (Qle_bool 1 s) eqn:E2; [lra|]. apply Qle_bool_gt in E2. lra.
Qed.

Lemma scale_to_unit_box_range_witness :
  (0 <= FOF_EXAMPLE.scale_to_unit_box 1024 (- (100)) < 1)%Q.
Proof.
  destruct (scale_to_unit_box_range 1024 (- (100))%Q eq_refl) as [H _].
  apply H. vm_compute. split; congruence.
Defined.

(** * The layout of the storage *)

(** The storage of the grid of the constructor is the slices
    [-gL .. Nmesh+gR-1] one after the other: [get_real_grid_by_slice] gives
    for every slice a stretch of [NmeshTotRealSlice] reals inside the
    allocation, the stretches of two slices do not overlap, the first one
    begins at [get_real_grid_left], the slice 0 at [get_real_grid], the
    slice [Nmesh] at [get_real_grid_right], and the last one ends with the
    allocation.  With BOUNDSCHECK_FFTWGRID any other slice aborts. *)
Theorem slices_tile_allocation flags N M gL gR m s :
  (2 <= N)%nat -> 1 <= M -> 0 <= gL -> 0 <= gR ->
  let g := with_memory (FFTWGrid_new N M gL gR) m in
  let slab := NmeshTotRealSlice g in
  (- gL <= s < M + gR ->
   get_real_grid_by_slice flags g s = Ok (slab * (gL + s))
   /\ 0 <= slab * (gL + s)
   /\ slab * (gL + s) + slab <= NmeshTotRealAlloc g
   /\ slab * (gL + s) + slab = slab * (gL + (s + 1)))
  /\ (BOUNDSCHECK_FFTWGRID flags = true -> ~ (- gL <= s < M + gR) ->
      get_real_grid_by_slice flags g s
      = AssertionFailed "[FFTWGrid::get_real_grid] Bounds check failed")
  /\ get_real_grid_left g = slab * (gL + - gL)
  /\ get_real_grid g = slab * (gL + 0)
  /\ get_real_grid_right g = slab * (gL + M)
  /\ NmeshTotRealAlloc g = slab * (gL + (M + gR)).
Proof.
  intros HN HM HgL HgR g slab. subst g slab.
  set (g0 := FFTWGrid_new N M gL gR).
  destruct (new_grid_sizes N M gL gR HN HM) as (HW & EV & Eslab & Ealloc & _ & Hslab).
  fold g0 in Eslab, Ealloc, Hslab.
  unfold get_real_grid_by_slice, get_real_grid, get_real_grid_right, get_real_grid_left.
  change (NmeshTotRealSlice (with_memory g0 m)) with (NmeshTotRealSlice g0).
  change (NmeshTotRealAlloc (with_memory g0 m)) with (NmeshTotRealAlloc g0).
  change (n_extra_x_slices_left (with_memory g0 m)) with gL.
  change (n_extra_x_slices_right (with_memory g0 m)) with gR.
  change (Local_nx (with_memory g0 m)) with M.
  set (slab := NmeshTotRealSlice g0) in *. clearbody slab.
  split; [|split; [|split; [|split; [|split]]]].
  - intros Hs. split.
    + destruct (BOUNDSCHECK_FFTWGRID flags).
      * rewrite andb_range by lia. reflexivity.
      * reflexivity.
    + split; [nia|]. split; [rewrite Ealloc; nia | lia].
  - intros Hb Hs. rewrite Hb. rewrite andb_range_out by lia. reflexivity.
  - lia.
  - lia.
  - lia.
  - rewrite Ealloc. lia.
Qed.

Lemma slices_tile_allocation_witness :
  let g := with_memory (FFTWGrid_new 3 4 1 2) (fun _ => 0%Q) in
  get_real_grid_by_slice (mkBuildFlags true true false false) g 5
  = Ok (NmeshTotRealSlice g * (1 + 5))
  /\ NmeshTotRealSlice g * (1 + 5) + NmeshTotRealSlice g <= NmeshTotRealAlloc g.
Proof.
  intros g.
  destruct (slices_tile_allocation (mkBuildFlags true true false false) 3 4 1 2
              (fun _ => 0%Q) 5 ltac:(lia) ltac:(lia) ltac:(lia) ltac:(lia)) as [H _].
  destruct (H ltac:(lia)) as (H1 & _ & H2 & _).
  split; [exact H1 | exact H2].
Defined.

(** The constructor built with MPI and without the FFTW library: when the
    number of tasks divides the mesh, every task receives [Nmesh/NTasks]
    slices, the slices of the tasks follow each other and cover the mesh,
    and the task allocates its slices and its extra slices; otherwise, and
    in one dimension, the constructor aborts. *)
Theorem mpi_constructor_splits_the_mesh N NTasks M nleft nright :
  1 <= NTasks -> 1 <= M ->
  ((2 <= N)%nat -> Z.rem M NTasks = 0 ->
   forall ThisTask, 0 <= ThisTask < NTasks ->
   exists g,
     FFTWGrid_new_mpi N ThisTask NTasks M nleft nright = Ok g
     /\ Local_nx g * NTasks = M
     /\ Local_x_start g = ThisTask * Local_nx g
     /\ 0 <= Local_x_start g
     /\ Local_x_start g + Local_nx g <= M
     /\ (ThisTask = NTasks - 1 -> Local_x_start g + Local_nx g = M)
     /\ NmeshTotRealAlloc g = NmeshTotRealSlice g * (nleft + Local_nx g + nright)
     /\ NmeshTotReal g = Local_nx g * M ^ (Z.of_nat N - 1))
  /\ ((N <= 1)%nat -> forall ThisTask,
      FFTWGrid_new_mpi N ThisTask NTasks M nleft nright
      = AssertionFailed "[FFTWGrid] FFTW r2c and c2r with MPI currently not supported for 1D")
  /\ ((2 <= N)%nat -> Z.rem M NTasks <> 0 -> forall ThisTask,
      FFTWGrid_new_mpi N ThisTask NTasks M nleft nright
      = AssertionFailed "[FFTWGrid] The number of CPUs should divide the gridsize").
Proof.
  intros HT HM. unfold FFTWGrid_new_mpi. split; [|split].
  - intros HN Hdiv ThisTask Ht.
    replace (1 <? Z.of_nat N) with true by (symmetry; apply Z.ltb_lt; lia).
    rewrite Hdiv. cbn [Z.eqb assert_mpi bind].
    eexists. split; [reflexivity|].
    cbn [Local_nx Local_x_start NmeshTotRealAlloc NmeshTotRealSlice NmeshTotReal].
    pose proof (Z.quot_rem' M NTasks) as Hqr. rewrite Hdiv in Hqr.
    assert (Hq : 0 <= M ÷ NTasks) by (apply Z.quot_pos; lia).
    set (q := M ÷ NTasks) in *.
    split; [lia|]. split; [reflexivity|]. split; [nia|]. split; [nia|]. split; [intros ->; nia|].
    split; [|reflexivity].
    unfold power.
    set (h := M ÷ 2 + 1).
    replace (Z.of_nat N - 1) with (Z.succ (Z.of_nat N - 2)) by lia.
    rewrite Z.pow_succ_r by lia.
    set (W := M ^ (Z.of_nat N - 2)).
    replace (h * (M * W)) with ((h * W * q) * NTasks) by (rewrite Hqr at 1; ring).
    rewrite Z.quot_mul by lia. ring.
  - intros HN ThisTask.
    replace (1 <? Z.of_nat N) with false by (symmetry; apply Z.ltb_ge; lia). reflexivity.
  - intros HN Hdiv ThisTask.
    replace (1 <? Z.of_nat N) with true by (symmetry; apply Z.ltb_lt; lia).
    replace (Z.rem M NTasks =? 0) with false by (symmetry; apply Z.eqb_neq; exact Hdiv).
    reflexivity.
Qed.

Lemma mpi_constructor_splits_the_mesh_witness :
  exists g,
    FFTWGrid_new_mpi 3 2 4 12 1 2 = Ok g
    /\ Local_nx g * 4 = 12
    /\ Local_x_start g = 2 * Local_nx g.
Proof.
  destruct (mpi_constructor_splits_the_mesh 3 4 12 1 2 ltac:(lia) ltac:(lia)) as [H _].
  destruct (H ltac:(lia) eq_refl 2 ltac:(lia)) as (g & E & H1 & H2 & _).
  exists g. split; [exact E|]. split; [exact H1 | exact H2].
Defined.
(** * Further properties of the Fourier grid *)

(** ** The index of a cell of the Fourier grid *)

(** A cell of the Fourier grid is a first coordinate, the middle ones and a
    last one below [Nmesh/2+1]; its index is the number of its row times
    [Nmesh/2+1] plus the last coordinate, in every build. *)
Lemma fourier_cell_rows flags N g coord :
  (2 <= N)%nat -> 1 <= Nmesh g -> fourier_cell N g coord ->
  exists c0 mid cl,
    coord = c0 :: mid ++ [cl] /\ List.length mid = (N - 2)%nat
    /\ 0 <= c0 < Local_nx g
    /\ Forall (fun c => 0 <= c < Nmesh g) mid
    /\ 0 <= cl < Nmesh g ÷ 2 + 1
    /\ get_index_fourier flags N g coord
       = Ok (fold_left (fun acc c => acc * Nmesh g + c) mid c0 * (Nmesh g ÷ 2 + 1) + cl).
Proof.
  intros HN HM (Hlen & H0 & Hk & Hl).
  rewrite (get_index_fourier_checked flags N g coord HN HM H0 Hk Hl).
  destruct (coord_split N coord Hlen HN) as (c0 & mid & cl & -> & Hmid).
  change (at_ (c0 :: mid ++ [cl]) 0) with c0 in H0.
  assert (El : at_ (c0 :: mid ++ [cl]) (N - 1) = cl).
  { unfold at_. replace (N - 1)%nat with (S (List.length mid)) by lia. cbn [nth].
    rewrite app_nth2, Nat.sub_diag by lia. reflexivity. }
  rewrite El in Hl.
  assert (HF : Forall (fun c => 0 <= c < Nmesh g) mid).
  { apply Forall_forall. intros c Hc. apply (In_nth _ _ 0) in Hc.
    destruct Hc as (j & Hj & <-).
    specialize (Hk (S j) ltac:(lia)). unfold at_ in Hk. cbn [nth] in Hk.
    rewrite app_nth1 in Hk by exact Hj. exact Hk. }
  exists c0, mid, cl. split; [reflexivity|]. repeat (split; [assumption|]).
  apply get_index_fourier_rows; assumption.
Qed.

(** Two cells of the Fourier grid with one index are one cell. *)
Lemma get_index_fourier_inj flags N g coord coord' index :
  (2 <= N)%nat -> 1 <= Nmesh g -> fourier_cell N g coord -> fourier_cell N g coord' ->
  get_index_fourier flags N g coord = Ok index ->
  get_index_fourier flags N g coord' = Ok index ->
  coord = coord'.
Proof.
  intros HN HM Hc Hc'.
  destruct (fourier_cell_rows flags N g coord HN HM Hc)
    as (c0 & mid & cl & -> & Hmid & H0 & HF & Hl & ->).
  destruct (fourier_cell_rows flags N g coord' HN HM Hc')
    as (c0' & mid' & cl' & -> & Hmid' & H0' & HF' & Hl' & ->).
  intros H H'. injection H as <-. injection H' as H'.
  destruct (Z.div_mod_unique (Nmesh g ÷ 2 + 1)
              (fold_left (fun acc c => acc * Nmesh g + c) mid' c0')
              (fold_left (fun acc c => acc * Nmesh g + c) mid c0) cl' cl
              ltac:(lia) ltac:(lia) ltac:(lia)) as [Hq Hr].
  destruct (horner_inj (Nmesh g) HM mid' mid c0' c0 ltac:(lia) HF' HF Hq) as [-> ->].
  subst. reflexivity.
Qed.

(** ** Writing and reading a cell of the Fourier grid *)

(** Insert and lookup on a Fourier grid that fits in [int], with
    [Local_nx <= Nmesh]: after [set_fourier(coord, value)],
    [get_fourier(coord)] returns [value], and [get_fourier] of every other
    cell of the Fourier grid returns what it returned before; no [int] of
    the index of either cell overflows. *)
Theorem get_fourier_after_set_fourier flags N g coord coord' value :
  (2 <= N)%nat -> 1 <= Nmesh g -> fourier_fits_int N g ->
  fourier_cell N g coord -> fourier_cell N g coord' ->
  get_index_fourier_in_int N g coord
  /\ get_index_fourier_in_int N g coord'
  /\ exists g',
    set_fourier flags N g coord value = Ok g'
    /\ get_fourier flags N g' coord = Ok value
    /\ (coord' <> coord -> get_fourier flags N g' coord' = get_fourier flags N g coord').
Proof.
  intros HN HM Hfit Hc Hc'.
  split; [apply fourier_cell_in_int; assumption|].
  split; [apply fourier_cell_in_int; assumption|].
  destruct (fourier_cell_rows flags N g coord HN HM Hc)
    as (c0 & mid & cl & Ec & Hmid & H0 & HF & Hl & Ei).
  destruct (fourier_cell_rows flags N g coord' HN HM Hc')
    as (c0' & mid' & cl' & Ec' & Hmid' & H0' & HF' & Hl' & Ei').
  set (index := fold_left (fun acc c => acc * Nmesh g + c) mid c0 * (Nmesh g ÷ 2 + 1) + cl) in *.
  set (index' := fold_left (fun acc c => acc * Nmesh g + c) mid' c0' * (Nmesh g ÷ 2 + 1) + cl')
    in *.
  set (g' := with_memory g (store_complex (fourier_grid_raw g) (get_fourier_grid g + index) value)).
  assert (Eg : forall c, get_index_fourier flags N g' c = get_index_fourier flags N g c)
    by reflexivity.
  exists g'. split; [unfold set_fourier; rewrite Ei; reflexivity|].
  unfold get_fourier. rewrite !Eg, Ei, Ei'. cbn [bind].
  unfold g', load_complex, store_complex, store, get_fourier_grid.
  cbn [with_memory fourier_grid_raw NmeshTotComplexSlice n_extra_x_slices_left].
  set (base := NmeshTotComplexSlice g * n_extra_x_slices_left g).
  split.
  - replace (2 * (base + index) =? 2 * (base + index) + 1) with false
      by (symmetry; apply Z.eqb_neq; lia).
    rewrite !Z.eqb_refl. destruct value; reflexivity.
  - intros Hne.
    assert (Hi : index' <> index).
    { intros E. apply Hne.
      apply (get_index_fourier_inj flags N g coord' coord index HN HM Hc' Hc);
        [rewrite Ei', E; reflexivity | exact Ei]. }
    replace (2 * (base + index') =? 2 * (base + index) + 1) with false
      by (symmetry; apply Z.eqb_neq; lia).
    replace (2 * (base + index') =? 2 * (base + index)) with false
      by (symmetry; apply Z.eqb_neq; lia).
    replace (2 * (base + index') + 1 =? 2 * (base + index) + 1) with false
      by (symmetry; apply Z.eqb_neq; lia).
    replace (2 * (base + index') + 1 =? 2 * (base + index)) with false
      by (symmetry; apply Z.eqb_neq; lia).
    reflexivity.
Qed.

Lemma get_fourier_after_set_fourier_witness :
  let g := FFTWGrid_new 3 4 1 1 in
  let flags := mkBuildFlags true true false false in
  fourier_fits_int 3 g
  /\ get_index_fourier_in_int 3 g [3; 1; 2]
  /\ get_index_fourier_in_int 3 g [3; 2; 1]
  /\ exists g',
    set_fourier flags 3 g [3; 1; 2] ((7#2)%Q, (- (1))%Q) = Ok g'
    /\ get_fourier flags 3 g' [3; 1; 2] = Ok ((7#2)%Q, (- (1))%Q)
    /\ get_fourier flags 3 g' [3; 2; 1] = get_fourier flags 3 g [3; 2; 1].
Proof.
  intros g flags.
  assert (Hfit : fourier_fits_int 3 g) by (vm_compute; repeat split; congruence).
  split; [exact Hfit|].
  assert (C : forall a b c, 0 <= a < 4 -> 0 <= b < 4 -> 0 <= c < 3 -> fourier_cell 3 g [a; b; c]).
  { intros a b c Ha Hb Hc. split; [reflexivity|]. split; [exact Ha|]. split; [|exact Hc].
    intros k Hk. destruct k as [|[|k]]; try lia. exact Hb. }
  destruct (get_fourier_after_set_fourier flags 3 g [3; 1; 2] [3; 2; 1] ((7#2)%Q, (- (1))%Q)
              ltac:(lia) ltac:(vm_compute; congruence) Hfit
              (C 3 1 2 ltac:(lia) ltac:(lia) ltac:(lia))
              (C 3 2 1 ltac:(lia) ltac:(lia) ltac:(lia)))
    as (I1 & I2 & g' & E1 & E2 & E3).
  split; [exact I1|]. split; [exact I2|].
  exists g'. split; [exact E1|]. split; [exact E2|]. apply E3. discriminate.
Defined.

(** ** Wave vectors *)

Lemma vector_set_map {A B} (f : A -> B) (v : list A) i a :
  vector_set (map f v) i (f a) = map f (vector_set v i a).
Proof.
  revert i. induction v as [|b v IH]; intros [|i]; cbn [map vector_set]; try reflexivity.
  rewrite IH. reflexivity.
Qed.

(** A loop that overwrites the entries [s .. s+k-1] of a vector, each one
    from its old value. *)
Lemma vector_update_loop_nth {A} (F : nat -> A -> A) s k (v : list A) j d :
  (s + k <= List.length v)%nat ->
  nth j (fold_left (fun v idim => vector_set v idim (F idim (nth idim v d))) (seq s k) v) d
  = if ((s <=? j) && (j <? s + k))%nat then F j (nth j v d) else nth j v d.
Proof.
  revert s v. induction k as [|k IH]; intros s v Hlen.
  - cbn [seq fold_left]. rewrite Nat.add_0_r.
    destruct (Nat.leb_spec s j); cbn [andb]; [|reflexivity].
    replace (j <? s)%nat with false by (symmetry; apply Nat.ltb_ge; lia). reflexivity.
  - cbn [seq fold_left]. rewrite IH by (rewrite vector_set_length; lia).
    rewrite !vector_set_nth.
    destruct (Nat.eq_dec j s) as [-> | Hj].
    + rewrite Nat.eqb_refl, Nat.leb_refl.
      replace (S s <=? s)%nat with false by (symmetry; apply Nat.leb_gt; lia).
      replace (s <? List.length v)%nat with true by (symmetry; apply Nat.ltb_lt; lia).
      replace (s <? s + S k)%nat with true by (symmetry; apply Nat.ltb_lt; lia).
      reflexivity.
    + replace (j =? s)%nat with false by (symmetry; apply Nat.eqb_neq; lia).
      cbn [andb].
      replace (j <? S s + k)%nat with (j <? s + S k)%nat by (f_equal; lia).
      destruct (Nat.leb_spec (S s) j) as [H1 | H1].
      * replace (s <=? j)%nat with true by (symmetry; apply Nat.leb_le; lia). reflexivity.
      * replace (s <=? j)%nat with false by (symmetry; apply Nat.leb_gt; lia). reflexivity.
Qed.

Lemma vector_loop_length {A} (F : list A -> nat -> A) l (v : list A) :
  List.length (fold_left (fun v idim => vector_set v idim (F v idim)) l v) = List.length v.
Proof.
  revert v. induction l as [|i l IH]; intros v; [reflexivity|].
  cbn [fold_left]. rewrite IH. apply vector_set_length.
Qed.

(** The components of [get_fourier_wavevector(coord)]. *)
Lemma get_fourier_wavevector_nth M_PI N g coord idim :
  (idim < N)%nat ->
  nth idim (get_fourier_wavevector M_PI N g coord) 0%Q
  = (2 * M_PI
     * inject_Z (wave_number (Nmesh g)
                   (if (idim =? 0)%nat then Local_x_start g + at_ coord 0
                    else at_ coord idim)))%Q.
Proof.
  intros Hi. unfold get_fourier_wavevector, wave_number.
  rewrite (vector_set_loop_nth
             (fun idim => (2 * M_PI * inject_Z (if at_ coord idim <=? Nmesh g ÷ 2
                                                then at_ coord idim
                                                else at_ coord idim - Nmesh g))%Q))
    by (rewrite vector_set_length, repeat_length; lia).
  destruct idim as [|idim].
  - cbn [Nat.leb Nat.eqb andb]. rewrite vector_set_nth, repeat_length. cbn [Nat.eqb].
    replace (0 <? N)%nat with true by (symmetry; apply Nat.ltb_lt; lia). reflexivity.
  - cbn [Nat.eqb].
    replace ((1 <=? S idim) && (S idim <? 1 + (N - 1)))%nat with true; [reflexivity|].
    symmetry. apply andb_true_iff. split; [reflexivity | apply Nat.ltb_lt; lia].
Qed.

Lemma get_fourier_wavevector_length M_PI N g coord :
  List.length (get_fourier_wavevector M_PI N g coord) = N.
Proof.
  unfold get_fourier_wavevector.
  rewrite (vector_loop_length
             (fun _ idim => (2 * M_PI * inject_Z (if at_ coord idim <=? Nmesh g ÷ 2
                                                  then at_ coord idim
                                                  else at_ coord idim - Nmesh g))%Q)).
  rewrite vector_set_length, repeat_length. reflexivity.
Qed.

Lemma wave_number_range M c :
  1 <= M -> 0 <= c < M ->
  (wave_number M c = c \/ wave_number M c = c - M)
  /\ - M < 2 * wave_number M c <= M
  /\ (c <= M ÷ 2 -> wave_number M c = c).
Proof.
  intros HM Hc. unfold wave_number.
  pose proof (Z.quot_rem M 2 ltac:(lia)) as E.
  pose proof (Z.rem_bound_pos M 2 ltac:(lia) ltac:(lia)) as B.
  destruct (Z.leb_spec c (M ÷ 2)) as [H | H].
  - split; [left; reflexivity|]. split; [lia | reflexivity].
  - split; [right; reflexivity|]. split; [lia | lia].
Qed.

(** The wave numbers: the component [idim] of [get_fourier_wavevector] is
    [2 * M_PI] times an integer [n] that is the coordinate of the cell in
    the whole mesh, or this coordinate minus [Nmesh], and that lies in
    [(-Nmesh/2, Nmesh/2]]; a coordinate up to [Nmesh/2], as every one on the
    last axis, is its own wave number. *)
Theorem wavevector_component_is_wave_number M_PI N g coord idim :
  (idim < N)%nat -> 1 <= Nmesh g ->
  let c := if (idim =? 0)%nat then Local_x_start g + at_ coord 0 else at_ coord idim in
  0 <= c < Nmesh g ->
  exists n : Z,
    nth idim (get_fourier_wavevector M_PI N g coord) 0%Q = (2 * M_PI * inject_Z n)%Q
    /\ (n = c \/ n = c - Nmesh g)
    /\ - Nmesh g < 2 * n <= Nmesh g
    /\ (c <= Nmesh g ÷ 2 -> n = c).
Proof.
  intros Hi HM c Hc.
  exists (wave_number (Nmesh g) c). split.
  - apply get_fourier_wavevector_nth. exact Hi.
  - apply wave_number_range; assumption.
Qed.

Lemma wavevector_component_is_wave_number_witness :
  let g := FFTWGrid_new 3 5 0 0 in
  exists n : Z,
    nth 1 (get_fourier_wavevector (355#113) 3 g [4; 3; 2]) 0%Q = (2 * (355#113) * inject_Z n)%Q
    /\ (n = 3 \/ n = 3 - 5)
    /\ - 5 < 2 * n <= 5.
Proof.
  intros g.
  destruct (wavevector_component_is_wave_number (355#113) 3 g [4; 3; 2] 1
              ltac:(lia) ltac:(vm_compute; congruence) ltac:(vm_compute; split; congruence))
    as (n & E & Hn & Hr & _).
  exists n. split; [exact E|]. split; [exact Hn | exact Hr].
Defined.

(** ** The wave vector of an index *)

(** The coordinates that [get_fourier_coord_from_index] computes from the
    index of the cell [(c0, mid, cl)]. *)
Lemma fourier_coord_of_rows N g c0 mid cl :
  (2 <= N)%nat -> 1 <= Nmesh g -> List.length mid = (N - 2)%nat ->
  0 <= c0 < Nmesh g -> Forall (fun c => 0 <= c < Nmesh g) mid ->
  0 <= cl < Nmesh g ÷ 2 + 1 ->
  get_fourier_coord_from_index N g
    (fold_left (fun acc c => acc * Nmesh g + c) mid c0 * (Nmesh g ÷ 2 + 1) + cl)
  = c0 :: mid ++ [cl].
Proof.
  intros HN HM Hmid H0 HF Hl.
  unfold get_fourier_coord_from_index.
  pose proof (half_plus_one (Nmesh g) HM) as Hh.
  pose proof (horner_nonneg (Nmesh g) mid c0 HM HF ltac:(lia)) as HR.
  set (R := fold_left (fun acc c => acc * Nmesh g + c) mid c0) in *.
  set (h := Nmesh g ÷ 2 + 1) in *.
  destruct (quot_rem_digit R h cl HR Hl) as [Eq Er].
  rewrite Er.
  replace (N - 1)%nat with (S (List.length mid)) by lia.
  destruct (fourier_digits_loop (Nmesh g) (R * h + cl) mid HM HF c0
              (vector_set (repeat 0 N) (S (List.length mid)) cl) h
              ltac:(lia) ltac:(lia) Eq
              ltac:(rewrite vector_set_length, repeat_length; lia))
    as (coord' & n' & E & L & Hn).
  rewrite E. cbn [fst].
  rewrite vector_set_length, repeat_length in L.
  apply (nth_ext _ _ 0 0).
  - rewrite L. cbn [List.length]. rewrite length_app. cbn [List.length]. lia.
  - intros j Hj. rewrite L in Hj. rewrite Hn.
    destruct (Nat.leb_spec j (List.length mid)) as [H1 | H1].
    + destruct j as [|j]; [reflexivity|]. cbn [nth]. rewrite app_nth1 by lia. reflexivity.
    + assert (Ej : j = S (List.length mid)) by lia. subst j.
      rewrite vector_set_nth, repeat_length, Nat.eqb_refl.
      replace (S (List.length mid) <? N)%nat with true by (symmetry; apply Nat.ltb_lt; lia).
      cbn [andb nth]. rewrite app_nth2 by lia. rewrite Nat.sub_diag. reflexivity.
Qed.

(** The loop of [get_fourier_wavevector_from_index] that stores the
    coordinates as doubles stores the coordinates of
    [get_fourier_coord_from_index]. *)
Lemma fourier_digits_loop_doubles M index l :
  forall coord n,
    fold_left (fun '(fcoord, n) idim =>
                 (vector_set fcoord idim (inject_Z (Z.rem (index ÷ n) M)), n * M))
              l (map inject_Z coord, n)
    = (map inject_Z
         (fst (fold_left (fun '(coord, n) idim =>
                            (vector_set coord idim (Z.rem (index ÷ n) M), n * M))
                         l (coord, n))),
       snd (fold_left (fun '(coord, n) idim =>
                         (vector_set coord idim (Z.rem (index ÷ n) M), n * M))
                      l (coord, n))).
Proof.
  induction l as [|i l IH]; intros coord n; [reflexivity|].
  cbn [fold_left]. rewrite vector_set_map. apply IH.
Qed.

Lemma inject_Z_plus_eq a b : (inject_Z a + inject_Z b)%Q = inject_Z (a + b).
Proof. unfold Qplus, inject_Z. cbn [Qnum Qden Pos.mul]. f_equal. lia. Qed.

Lemma inject_Z_minus_eq a b : (inject_Z a - inject_Z b)%Q = inject_Z (a - b).
Proof. unfold Qminus, Qplus, Qopp, inject_Z. cbn [Qnum Qden Pos.mul]. f_equal. lia. Qed.

(** The comparison on the doubles is the comparison on the integers. *)
Lemma wave_number_doubles M x :
  (if Qle_bool (inject_Z x) (inject_Z (M ÷ 2)) then inject_Z x
   else inject_Z x - inject_Z M)%Q
  = inject_Z (wave_number M x).
Proof.
  unfold wave_number, Qle_bool. cbn [inject_Z Qnum Qden]. rewrite !Z.mul_1_r.
  destruct (x <=? M ÷ 2); [reflexivity | apply inject_Z_minus_eq].
Qed.

Lemma wavevector_from_index_rows M_PI N g c0 mid cl :
  (2 <= N)%nat -> 1 <= Nmesh g -> List.length mid = (N - 2)%nat ->
  0 <= c0 < Nmesh g -> Forall (fun c => 0 <= c < Nmesh g) mid ->
  0 <= cl < Nmesh g ÷ 2 + 1 ->
  get_fourier_wavevector_from_index M_PI N g
    (fold_left (fun acc c => acc * Nmesh g + c) mid c0 * (Nmesh g ÷ 2 + 1) + cl)
  = get_fourier_wavevector M_PI N g (c0 :: mid ++ [cl]).
Proof.
  intros HN HM Hmid H0 HF Hl.
  pose proof (half_plus_one (Nmesh g) HM) as Hh.
  pose proof (horner_nonneg (Nmesh g) mid c0 HM HF ltac:(lia)) as HR.
  pose proof (fourier_coord_of_rows N g c0 mid cl HN HM Hmid H0 HF Hl) as Ecoord.
  set (R := fold_left (fun acc c => acc * Nmesh g + c) mid c0) in *.
  set (h := Nmesh g ÷ 2 + 1) in *.
  destruct (quot_rem_digit R h cl HR Hl) as [Eq Er].
  unfold get_fourier_wavevector_from_index. fold h.
  destruct (N =? 3)%nat eqn:E3.
  { apply Nat.eqb_eq in E3. subst N. destruct mid as [|c1 [|? ?]]; try discriminate.
    inversion HF as [|? ? Hc1 _]; subst.
    cbv zeta. rewrite Eq, Er. unfold R. cbn [fold_left].
    destruct (quot_rem_digit c0 (Nmesh g) c1 ltac:(lia) Hc1) as [Eq1 Er1].
    rewrite Eq1, Er1. reflexivity. }
  destruct (N =? 2)%nat eqn:E2.
  { apply Nat.eqb_eq in E2. subst N. destruct mid; try discriminate.
    cbv zeta. rewrite Eq, Er. reflexivity. }
  destruct (N =? 1)%nat eqn:E1; [apply Nat.eqb_eq in E1; lia|].
  cbv zeta.
  change (repeat 0%Q N) with (repeat (inject_Z 0) N).
  rewrite <- map_repeat, vector_set_map, fourier_digits_loop_doubles. cbn [fst].
  change (fst (fold_left (fun '(coord, n) idim =>
                            (vector_set coord idim (Z.rem ((R * h + cl) ÷ n) (Nmesh g)),
                             n * Nmesh g))
                         (rev (seq 0 (N - 1)))
                         (vector_set (repeat 0 N) (N - 1) (Z.rem (R * h + cl) h), h)))
    with (get_fourier_coord_from_index N g (R * h + cl)).
  rewrite Ecoord.
  set (coord := c0 :: mid ++ [cl]).
  assert (Lc : List.length coord = N).
  { unfold coord. cbn [List.length]. rewrite length_app. cbn [List.length]. lia. }
  assert (Hnth : forall j, nth j (map inject_Z coord) 0%Q = inject_Z (at_ coord j)).
  { intros j. change 0%Q with (inject_Z 0). apply map_nth. }
  apply (nth_ext _ _ 0%Q 0%Q).
  - rewrite (vector_loop_length
               (fun fcoord idim =>
                  (2 * M_PI * (if Qle_bool (nth idim fcoord 0) (inject_Z (Nmesh g ÷ 2))
                               then nth idim fcoord 0
                               else nth idim fcoord 0 - inject_Z (Nmesh g)))%Q)).
    rewrite vector_set_length, length_map, Lc, get_fourier_wavevector_length. reflexivity.
  - intros j Hj.
    rewrite (vector_loop_length
               (fun fcoord idim =>
                  (2 * M_PI * (if Qle_bool (nth idim fcoord 0) (inject_Z (Nmesh g ÷ 2))
                               then nth idim fcoord 0
                               else nth idim fcoord 0 - inject_Z (Nmesh g)))%Q)) in Hj.
    rewrite vector_set_length, length_map, Lc in Hj.
    rewrite get_fourier_wavevector_nth by exact Hj.
    rewrite (vector_update_loop_nth
               (fun _ x => (2 * M_PI * (if Qle_bool x (inject_Z (Nmesh g ÷ 2))
                                        then x else x - inject_Z (Nmesh g)))%Q))
      by (rewrite vector_set_length, length_map, Lc; lia).
    rewrite vector_set_nth, length_map, Lc, !Hnth.
    destruct j as [|j].
    + cbn [Nat.leb Nat.eqb andb].
      replace (0 <? N)%nat with true by (symmetry; apply Nat.ltb_lt; lia).
      rewrite inject_Z_plus_eq, wave_number_doubles. reflexivity.
    + cbn [Nat.eqb andb].
      replace ((1 <=? S j) && (S j <? 1 + (N - 1)))%nat with true
        by (symmetry; apply andb_true_iff; split; [reflexivity | apply Nat.ltb_lt; lia]).
      rewrite wave_number_doubles. reflexivity.
Qed.

Lemma sum_of_squares_fold (f : nat -> Q) l acc :
  (fold_left (fun a idim => a + f idim * f idim) l acc
   == acc + sum_of_squares (map f l))%Q.
Proof.
  revert acc. induction l as [|i l IH]; intros acc.
  - cbn [fold_left map sum_of_squares fold_right]. ring.
  - cbn [fold_left map]. rewrite IH.
    unfold sum_of_squares. cbn [fold_right]. ring.
Qed.

(** The loop of [get_fourier_wavevector_and_norm2_by_index]: the vector and
    the sum of the squares, one beside the other. *)
Lemma norm2_loop (f : nat -> Q) s k (kvec : list Q) acc :
  (s + k <= List.length kvec)%nat ->
  fold_left (fun '(kvec, kmag2) idim =>
               let kvec := vector_set kvec idim (f idim) in
               (kvec, (kmag2 + nth idim kvec 0 * nth idim kvec 0)%Q))
            (seq s k) (kvec, acc)
  = (fold_left (fun v idim => vector_set v idim (f idim)) (seq s k) kvec,
     fold_left (fun a idim => a + f idim * f idim)%Q (seq s k) acc).
Proof.
  revert s kvec acc. induction k as [|k IH]; intros s kvec acc Hlen; [reflexivity|].
  cbn [seq fold_left]. cbv zeta.
  rewrite IH by (rewrite vector_set_length; lia).
  rewrite vector_set_nth, Nat.eqb_refl.
  replace (s <? List.length kvec)%nat with true by (symmetry; apply Nat.ltb_lt; lia).
  reflexivity.
Qed.

Lemma list_of_nth (l : list Q) :
  l = map (fun j => nth j l 0%Q) (seq 0 (List.length l)).
Proof.
  apply (nth_ext _ _ 0%Q 0%Q).
  - rewrite length_map, length_seq. reflexivity.
  - intros j Hj. rewrite nth_map_seq by exact Hj. reflexivity.
Qed.

Lemma wavevector_norm2_rows flags M_PI N g c0 mid cl kvec :
  (2 <= N)%nat -> 1 <= Nmesh g -> List.length mid = (N - 2)%nat ->
  0 <= c0 < Nmesh g -> Forall (fun c => 0 <= c < Nmesh g) mid ->
  0 <= cl < Nmesh g ÷ 2 + 1 -> List.length kvec = N ->
  exists kmag2,
    get_fourier_wavevector_and_norm2_by_index flags M_PI N g
      (fold_left (fun acc c => acc * Nmesh g + c) mid c0 * (Nmesh g ÷ 2 + 1) + cl) kvec
    = Ok (get_fourier_wavevector M_PI N g (c0 :: mid ++ [cl]), kmag2)
    /\ (kmag2 == sum_of_squares (get_fourier_wavevector M_PI N g (c0 :: mid ++ [cl])))%Q.
Proof.
  intros HN HM Hmid H0 HF Hl Hkvec.
  pose proof (half_plus_one (Nmesh g) HM) as Hh.
  pose proof (horner_nonneg (Nmesh g) mid c0 HM HF ltac:(lia)) as HR.
  pose proof (fourier_coord_of_rows N g c0 mid cl HN HM Hmid H0 HF Hl) as Ecoord.
  set (R := fold_left (fun acc c => acc * Nmesh g + c) mid c0) in *.
  set (h := Nmesh g ÷ 2 + 1) in *.
  destruct (quot_rem_digit R h cl HR Hl) as [Eq Er].
  unfold get_fourier_wavevector_and_norm2_by_index. fold h.
  replace (if BOUNDSCHECK_FFTWGRID flags
           then assert_mpi (List.length kvec =? N)%nat
                  "[FFTWGrid::get_fourier_wavevector_and_norm2_by_index] kvec has the wrong size"
           else Ok tt) with (Ok tt)
    by (destruct (BOUNDSCHECK_FFTWGRID flags); [rewrite Hkvec, Nat.eqb_refl|]; reflexivity).
  cbn [bind].
  destruct (N =? 3)%nat eqn:E3.
  { apply Nat.eqb_eq in E3. rewrite E3 in *. clear E3.
    destruct mid as [|c1 [|? ?]]; try discriminate.
    destruct kvec as [|k0 [|k1 [|k2 [|? ?]]]]; try discriminate.
    inversion HF as [|? ? Hc1 _]; subst.
    cbv zeta. rewrite Eq, Er. unfold R. cbn [fold_left].
    destruct (quot_rem_digit c0 (Nmesh g) c1 ltac:(lia) Hc1) as [Eq1 Er1].
    rewrite Eq1, Er1. eexists. split; [reflexivity|].
    unfold get_fourier_wavevector, sum_of_squares, at_.
    cbn [repeat vector_set Nat.sub seq fold_left fold_right nth app].
    repeat match goal with
           | |- context [inject_Z ?x] =>
               let q := fresh "q" in set (q := inject_Z x); clearbody q
           end.
    clear. ring. }
  destruct (N =? 2)%nat eqn:E2.
  { apply Nat.eqb_eq in E2. rewrite E2 in *. clear E2.
    destruct mid; try discriminate.
    destruct kvec as [|k0 [|k1 [|? ?]]]; try discriminate.
    cbv zeta. rewrite Eq, Er. unfold R. cbn [fold_left]. eexists. split; [reflexivity|].
    unfold get_fourier_wavevector, sum_of_squares, at_.
    cbn [repeat vector_set Nat.sub seq fold_left fold_right nth app].
    repeat match goal with
           | |- context [inject_Z ?x] =>
               let q := fresh "q" in set (q := inject_Z x); clearbody q
           end.
    clear. ring. }
  destruct (N =? 1)%nat eqn:E1; [apply Nat.eqb_eq in E1; lia|].
  cbv zeta.
  change (fst (fold_left (fun '(coord, n) idim =>
                            (vector_set coord idim (Z.rem ((R * h + cl) ÷ n) (Nmesh g)),
                             n * Nmesh g))
                         (rev (seq 0 (N - 1)))
                         (vector_set (repeat 0 N) (N - 1) (Z.rem (R * h + cl) h), h)))
    with (get_fourier_coord_from_index N g (R * h + cl)).
  rewrite Ecoord.
  set (coord := c0 :: mid ++ [cl]).
  set (f := fun idim : nat =>
              (2 * M_PI * inject_Z (if at_ coord idim <=? Nmesh g ÷ 2
                                    then at_ coord idim
                                    else at_ coord idim - Nmesh g))%Q).
  rewrite (norm2_loop f) by (rewrite vector_set_length; lia).
  set (w := get_fourier_wavevector M_PI N g coord).
  assert (Ew : fold_left (fun v idim => vector_set v idim (f idim)) (seq 1 (N - 1))
                 (vector_set kvec 0
                    (2 * M_PI * inject_Z (if Local_x_start g + at_ coord 0 <=? Nmesh g ÷ 2
                                          then Local_x_start g + at_ coord 0
                                          else Local_x_start g + at_ coord 0 - Nmesh g))%Q)
               = w).
  { apply (nth_ext _ _ 0%Q 0%Q).
    - rewrite (vector_loop_length (fun _ idim => f idim)), vector_set_length, Hkvec.
      unfold w. rewrite get_fourier_wavevector_length. reflexivity.
    - intros j Hj.
      rewrite (vector_loop_length (fun _ idim => f idim)), vector_set_length, Hkvec in Hj.
      unfold w. rewrite get_fourier_wavevector_nth by exact Hj.
      rewrite vector_set_loop_nth by (rewrite vector_set_length; lia).
      rewrite vector_set_nth, Hkvec.
      destruct j as [|j].
      + cbn [Nat.leb Nat.eqb andb].
        replace (0 <? N)%nat with true by (symmetry; apply Nat.ltb_lt; lia). reflexivity.
      + cbn [Nat.eqb andb].
        replace ((1 <=? S j) && (S j <? 1 + (N - 1)))%nat with true
          by (symmetry; apply andb_true_iff; split; [reflexivity | apply Nat.ltb_lt; lia]).
        reflexivity. }
  rewrite Ew. eexists. split; [reflexivity|].
  rewrite sum_of_squares_fold.
  assert (Lw : List.length w = N) by apply get_fourier_wavevector_length.
  assert (Ew2 : w = nth 0 w 0%Q :: map (fun j => nth j w 0%Q) (seq 1 (N - 1))).
  { rewrite (list_of_nth w) at 1. rewrite Lw. replace N with (S (N - 1)) at 1 by lia.
    reflexivity. }
  assert (Es : sum_of_squares w
               = (nth 0 w 0 * nth 0 w 0
                  + sum_of_squares (map (fun j => nth j w 0%Q) (seq 1 (N - 1))))%Q)
    by (rewrite Ew2 at 1; reflexivity).
  rewrite Es.
  rewrite (map_ext_in f (fun j => nth j w 0%Q)).
  - rewrite vector_set_nth, Hkvec. cbn [Nat.eqb andb].
    replace (0 <? N)%nat with true by (symmetry; apply Nat.ltb_lt; lia).
    assert (E0 : nth 0 w 0%Q
                 = (2 * M_PI * inject_Z (if Local_x_start g + at_ coord 0 <=? Nmesh g ÷ 2
                                         then Local_x_start g + at_ coord 0
                                         else Local_x_start g + at_ coord 0 - Nmesh g))%Q)
      by (unfold w; rewrite get_fourier_wavevector_nth by lia; reflexivity).
    rewrite E0. reflexivity.
  - intros j Hj. apply in_seq in Hj. unfold w.
    rewrite get_fourier_wavevector_nth by lia.
    destruct j as [|j]; [lia|]. cbn [Nat.eqb]. reflexivity.
Qed.

(** The wave vector of a cell of a Fourier grid that fits in [int], with
    [Local_nx <= Nmesh], is the same from its coordinates and from its
    index: [get_fourier_wavevector_from_index] of [get_index_fourier(coord)]
    is [get_fourier_wavevector(coord)], and
    [get_fourier_wavevector_and_norm2_by_index], given a vector of [N]
    entries, overwrites it with this wave vector and returns the sum of the
    squares of its components.  With the bounds checks a vector of another
    size aborts.  No [int] of the index or of its decomposition
    overflows. *)
Theorem wavevector_from_index_of_coord flags M_PI N g coord kvec :
  (2 <= N)%nat -> 1 <= Nmesh g -> fourier_fits_int N g -> fourier_cell N g coord ->
  get_index_fourier_in_int N g coord
  /\ exists index,
    get_index_fourier flags N g coord = Ok index
    /\ get_fourier_wavevector_from_index_in_int N g index
    /\ get_fourier_wavevector_from_index M_PI N g index
       = get_fourier_wavevector M_PI N g coord
    /\ (List.length kvec = N ->
        exists kmag2,
          get_fourier_wavevector_and_norm2_by_index flags M_PI N g index kvec
          = Ok (get_fourier_wavevector M_PI N g coord, kmag2)
          /\ (kmag2 == sum_of_squares (get_fourier_wavevector M_PI N g coord))%Q)
    /\ (BOUNDSCHECK_FFTWGRID flags = true -> List.length kvec <> N ->
        get_fourier_wavevector_and_norm2_by_index flags M_PI N g index kvec
        = AssertionFailed
            "[FFTWGrid::get_fourier_wavevector_and_norm2_by_index] kvec has the wrong size").
Proof.
  intros HN HM Hfit Hc.
  split; [apply fourier_cell_in_int; assumption|].
  pose proof Hfit as ((_ & Hnx) & _).
  destruct (fourier_cell_rows flags N g coord HN HM Hc)
    as (c0 & mid & cl & -> & Hmid & H0 & HF & Hl & Ei).
  eexists. split; [exact Ei|]. split; [|split; [|split]].
  - apply fourier_index_in_int; try assumption.
    apply fourier_rows_in_range; assumption.
  - apply wavevector_from_index_rows; try assumption. lia.
  - intros Hkvec. apply wavevector_norm2_rows; try assumption. lia.
  - intros Hb Hkvec. unfold get_fourier_wavevector_and_norm2_by_index. rewrite Hb.
    replace (List.length kvec =? N)%nat with false by (symmetry; apply Nat.eqb_neq; exact Hkvec).
    reflexivity.
Qed.

Lemma wavevector_from_index_of_coord_witness :
  let g := FFTWGrid_new 4 5 1 1 in
  let flags := mkBuildFlags true true false false in
  fourier_fits_int 4 g
  /\ get_index_fourier_in_int 4 g [4; 0; 3; 2]
  /\ exists index,
    get_index_fourier flags 4 g [4; 0; 3; 2] = Ok index
    /\ get_fourier_wavevector_from_index_in_int 4 g index
    /\ get_fourier_wavevector_from_index (355#113) 4 g index
       = get_fourier_wavevector (355#113) 4 g [4; 0; 3; 2]
    /\ get_fourier_wavevector_and_norm2_by_index flags (355#113) 4 g index [0%Q; 0%Q]
       = AssertionFailed
           "[FFTWGrid::get_fourier_wavevector_and_norm2_by_index] kvec has the wrong size".
Proof.
  intros g flags.
  assert (C : fourier_cell 4 g [4; 0; 3; 2]).
  { split; [reflexivity|]. split; [vm_compute; split; congruence|].
    split; [|vm_compute; split; congruence].
    intros k Hk. destruct k as [|[|[|k]]]; try lia; vm_compute; split; congruence. }
  assert (Hfit : fourier_fits_int 4 g) by (vm_compute; repeat split; congruence).
  split; [exact Hfit|].
  destruct (wavevector_from_index_of_coord flags (355#113) 4 g [4; 0; 3; 2] [0%Q; 0%Q]
              ltac:(lia) ltac:(vm_compute; congruence) Hfit C)
    as (I1 & index & E1 & I2 & E2 & _ & E4).
  split; [exact I1|].
  exists index. split; [exact E1|]. split; [exact I2|]. split; [exact E2|].
  apply E4; [reflexivity | cbn [List.length]; lia].
Defined.

(** ** Filling the Fourier grid *)

(** A loop of stores of complex values that depend on the place only:
    afterwards a cell that was visited holds its value, and the reals of no
    visited cell hold what they held. *)
Lemma store_complex_each (g0 : FFTWGrid) (body : FFTWGrid -> Z -> FFTWGrid)
  (base : Z) (v : Z -> ComplexType) l :
  (forall m index, In index l ->
     body (with_memory g0 m) index
     = with_memory g0 (store_complex m (base + index) (v index))) ->
  forall m, exists m',
    fold_left body l (with_memory g0 m) = with_memory g0 m'
    /\ (forall index, In index l -> load_complex m' (base + index) = v index)
    /\ (forall a, (forall index, In index l ->
                     a <> 2 * (base + index) /\ a <> 2 * (base + index) + 1) ->
                  m' a = m a).
Proof.
  induction l as [|i l IH]; intros Hbody m.
  - exists m. split; [reflexivity|]. split; [intros ? []|]. reflexivity.
  - cbn [fold_left]. rewrite (Hbody m i (or_introl eq_refl)).
    destruct (IH ltac:(intros m0 index Hin; apply Hbody; right; exact Hin)
                 (store_complex m (base + i) (v i))) as (m' & E & Hin & Hout).
    exists m'. split; [exact E|]. split.
    + intros index [<- | H]; [|apply Hin; exact H].
      destruct (in_dec Z.eq_dec i l) as [Hi | Hi]; [apply Hin; exact Hi|].
      unfold load_complex. rewrite !Hout.
      * unfold store_complex, store. rewrite !Z.eqb_refl.
        replace (2 * (base + i) =? 2 * (base + i) + 1) with false
          by (symmetry; apply Z.eqb_neq; lia).
        destruct (v i); reflexivity.
      * intros index H. assert (index <> i) by (intros ->; apply Hi; exact H). lia.
      * intros index H. assert (index <> i) by (intros ->; apply Hi; exact H). lia.
    + intros a Ha. rewrite Hout.
      * destruct (Ha i (or_introl eq_refl)) as [H1 H2].
        unfold store_complex, store.
        replace (a =? 2 * (base + i) + 1) with false by (symmetry; apply Z.eqb_neq; lia).
        replace (a =? 2 * (base + i)) with false by (symmetry; apply Z.eqb_neq; lia).
        reflexivity.
      * intros index H. apply Ha. right. exact H.
Qed.

(** On a grid of the constructor whose Fourier grid fits in [int], no
    [int] of the index arithmetic of the Fourier grid overflows, and after
    [fill_fourier_grid(func)] every cell of the Fourier grid holds the value
    of [func] at the wave vector of the cell, as [get_fourier_wavevector]
    gives it from the coordinates, and the reals outside the main grid,
    those of the ghost slices, hold what they held: there is no exchange of
    the boundaries afterwards. *)
Theorem fill_fourier_grid_func_values flags M_PI N M gL gR m func :
  (2 <= N)%nat -> 1 <= M -> fourier_fits_int N (FFTWGrid_new N M gL gR) ->
  let g := with_memory (FFTWGrid_new N M gL gR) m in
  let g' := fill_fourier_grid_func M_PI N g func in
  fourier_grid_in_int N g
  /\ (forall coord, fourier_cell N g coord ->
     get_fourier flags N g' coord = Ok (func (get_fourier_wavevector M_PI N g coord)))
  /\ (forall index, index < 0 \/ 2 * NmeshTotComplex g <= index ->
        get_real_from_index g' index = get_real_from_index g index).
Proof.
  intros HN HM Hfit g g'. subst g g'.
  split; [apply fourier_fits_grid_in_int; assumption|].
  clear Hfit.
  set (g0 := FFTWGrid_new N M gL gR).
  destruct (new_grid_sizes N M gL gR HN HM) as (HW & HV & HS & HA & _).
  fold g0 in HS, HA.
  set (W := M ^ (Z.of_nat N - 2)) in *.
  set (h := M ÷ 2 + 1).
  pose proof (half_plus_one M HM) as Hh. fold h in Hh.
  assert (Eslice : NmeshTotComplexSlice g0 = h * W) by reflexivity.
  assert (Etot : NmeshTotComplex g0 = h * W * M).
  { change (NmeshTotRealAlloc g0) with (2 * NmeshTotComplexAlloc g0) in HA.
    change (NmeshTotRealSlice g0) with (2 * NmeshTotComplexSlice g0) in HA.
    change (NmeshTotComplexAlloc g0)
      with (NmeshTotComplex g0 + NmeshTotComplexSlice g0 * (gL + gR)) in HA.
    rewrite Eslice in HA. set (T := NmeshTotComplex g0) in *. clearbody T. nia. }
  set (base := NmeshTotComplexSlice g0 * gL).
  set (v := fun index =>
              func (get_fourier_wavevector_from_index M_PI N (with_memory g0 m) index)).
  unfold fill_fourier_grid_func.
  destruct (store_complex_each g0
              (fun g index =>
                 set_fourier_from_index g index
                   (func (get_fourier_wavevector_from_index M_PI N g index)))
              base v (get_fourier_range N (with_memory g0 m))
              ltac:(intros; reflexivity) m) as (m' & E & Hin & Hout).
  rewrite E. clear E.
  assert (Erange : get_fourier_range N (with_memory g0 m)
                   = zseq 0 (Z.to_nat (W * h * M))) by reflexivity.
  rewrite Erange in Hin, Hout.
  split.
  - intros coord Hc.
    assert (Hc' : fourier_cell N (with_memory g0 m') coord) by exact Hc.
    destruct (fourier_cell_rows flags N (with_memory g0 m') coord HN HM Hc')
      as (c0 & mid & cl & -> & Hmid & H0 & HF & Hl & Ei).
    change (Nmesh (with_memory g0 m')) with M in *.
    change (Local_nx (with_memory g0 m')) with M in H0.
    unfold get_fourier. rewrite Ei. cbn [bind].
    change (NmeshTotComplexSlice (with_memory g0 m')
            * n_extra_x_slices_left (with_memory g0 m')) with base.
    change (fourier_grid_raw (with_memory g0 m')) with m'.
    pose proof (horner_range M mid c0 HM HF) as HR.
    rewrite Hmid in HR. replace (Z.of_nat (N - 2)) with (Z.of_nat N - 2) in HR by lia.
    fold W h in HR, Hl |- *.
    set (R := fold_left (fun acc c => acc * M + c) mid c0) in *.
    rewrite Hin.
    + unfold v. do 2 f_equal.
      apply (wavevector_from_index_rows M_PI N (with_memory g0 m) c0 mid cl); assumption.
    + apply zseq_In.
      assert (0 <= W * h * M)
        by (apply Z.mul_nonneg_nonneg; [apply Z.mul_nonneg_nonneg|]; lia).
      rewrite Z2Nat.id by assumption.
      assert ((c0 + 1) * W <= M * W) by (apply Z.mul_le_mono_nonneg_r; lia).
      assert (0 <= c0 * W) by (apply Z.mul_nonneg_nonneg; lia).
      assert (R * h <= (M * W - 1) * h) by (apply Z.mul_le_mono_nonneg_r; lia).
      assert (0 <= R * h) by (apply Z.mul_nonneg_nonneg; lia).
      replace (W * h * M) with ((M * W - 1) * h + h) by ring. lia.
  - intros index Hi. unfold get_real_from_index, real_cell_address.
    change (fourier_grid_raw (with_memory g0 m')) with m'.
    change (fourier_grid_raw (with_memory g0 m)) with m.
    change (NmeshTotRealSlice (with_memory g0 m')) with (2 * NmeshTotComplexSlice g0).
    change (NmeshTotRealSlice (with_memory g0 m)) with (2 * NmeshTotComplexSlice g0).
    change (n_extra_x_slices_left (with_memory g0 m')) with gL.
    change (n_extra_x_slices_left (with_memory g0 m)) with gL.
    change (NmeshTotComplex (with_memory g0 m)) with (NmeshTotComplex g0) in Hi.
    apply Hout. intros k Hk. apply zseq_In in Hk.
    assert (0 <= W * h * M)
      by (apply Z.mul_nonneg_nonneg; [apply Z.mul_nonneg_nonneg|]; lia).
    rewrite Z2Nat.id in Hk by assumption.
    rewrite Etot in Hi. replace (h * W * M) with (W * h * M) in Hi by ring.
    replace (2 * NmeshTotComplexSlice g0 * gL) with (2 * base) by (unfold base; ring).
    lia.
Qed.

Lemma fill_fourier_grid_func_values_witness :
  let g := FFTWGrid_new 2 3 1 1 in
  let func := fun kvec : list Q => (nth 0 kvec 0%Q, nth 1 kvec 0%Q) in
  let g' := fill_fourier_grid_func (355#113) 2 g func in
  fourier_fits_int 2 g
  /\ fourier_grid_in_int 2 g
  /\ get_fourier default_flags 2 g' [2; 1]
     = Ok (func (get_fourier_wavevector (355#113) 2 g [2; 1])).
Proof.
  intros g func g'.
  assert (Hfit : fourier_fits_int 2 g) by (vm_compute; repeat split; congruence).
  split; [exact Hfit|].
  destruct (fill_fourier_grid_func_values default_flags (355#113) 2 3 1 1 (fun _ => 0%Q) func
              ltac:(lia) ltac:(lia) Hfit) as (I & H & _).
  split; [exact I|].
  apply (H [2; 1]).
  split; [reflexivity|]. split; [vm_compute; split; congruence|].
  split; [|vm_compute; split; congruence].
  intros k Hk. cbn in Hk. lia.
Defined.

(** * The variants for two and three dimensions *)

(** The variants that take the coordinates one by one, against the ones
    that take a vector.  [get_fourier_wavevector_2d] and
    [get_fourier_wavevector_3d] return what [get_fourier_wavevector]
    returns.  [get_real_position_2d] and [get_real_position_3d] agree with
    [get_real_position] in the build without CELLCENTERSHIFTED only: with
    it, [get_real_position] gives the centre of the cell and the other two
    still its corner, half a cell lower on every axis. *)
Theorem variants_2d_3d flags M_PI g i j k :
  let shift := ((if CELLCENTERSHIFTED flags then 1#2 else 0) / inject_Z (Nmesh g))%Q in
  Forall2 (fun x y => x == y + shift)%Q
    (get_real_position flags 2 g [i; j]) (get_real_position_2d g i j)
  /\ Forall2 (fun x y => x == y + shift)%Q
       (get_real_position flags 3 g [i; j; k]) (get_real_position_3d g i j k)
  /\ get_fourier_wavevector_2d M_PI g i j = get_fourier_wavevector M_PI 2 g [i; j]
  /\ get_fourier_wavevector_3d M_PI g i j k = get_fourier_wavevector M_PI 3 g [i; j; k].
Proof.
  intros shift. subst shift.
  unfold get_real_position, get_real_position_2d, get_real_position_3d, at_.
  cbn [repeat vector_set Nat.sub seq fold_left nth].
  split; [|split; [|split; reflexivity]];
    repeat (apply Forall2_cons || apply Forall2_nil); unfold Qdiv; ring.
Qed.
